(** * A shallow embedding of the crawling simulator's core data structures

    The development follows the Python sources of the repository:
    - [utils/priorityqueue.py]  ([PQueueHeap], [PQueuePriorityQueue]),
    - [crawler/frontier.py]     (the frontier managers),
    - [crawler/seen.py]         ([BitArraySeenURLTester]),
    - [crawler/parser.py]       ([Parser.clean_links]),
    - [utils/utils.py]          ([read_offsets], [random_read_json_gz],
                                 [navigate_to_id]),
    - [crawler/fetcher.py], [utils/datasetIR.py], [crawler/orchestrator.py]
                                (the chunked download log).

    Conventions.
    - Python [int] is [Z]; a priority or quality score (a finite Python
      [float]) is a rational [Q]: negation and comparison of finite floats are
      exact, so [Qopp] and [Qcompare] agree with them.  NaN is not modelled.
    - A Python exception is a constructor of [exn]; a call that can raise
      returns a [res].
    - A [dict] is a [gmap]; a Python [list] is a [list]. *)

From Stdlib Require Import ZArith QArith Lqa Lia List String Ascii Bool.
From Stdlib Require Import Permutation OrderedTypeEx.
From stdpp Require Import base option list gmap strings.

Local Open Scope string_scope.
Local Open Scope list_scope.
Local Open Scope Z_scope.

(** ** Exceptions and fallible results *)

Inductive exn : Type :=
| IndexError
| KeyError
| AssertionError
| ValueError
| AttributeError
| FileNotFoundError
| OSError
| UnicodeDecodeError
| ZeroDivisionError
| NotImplementedError
| RuntimeError.

Inductive res (A : Type) : Type :=
| Ok (a : A)
| Raise (e : exn).

Arguments Ok {A} a.
Arguments Raise {A} e.

#[global] Instance res_ret : MRet res := fun A a => Ok a.
#[global] Instance res_bind : MBind res := fun A B f m =>
  match m with
  | Ok a => f a
  | Raise e => Raise e
  end.

(** ** Comparison of priorities (Python [<], [>], [>=] on floats) *)

Definition py_lt (a b : Q) : bool :=
  match (a ?= b)%Q with Lt => true | _ => false end.
Definition py_gt (a b : Q) : bool :=
  match (a ?= b)%Q with Gt => true | _ => false end.
Definition py_ge (a b : Q) : bool :=
  match (a ?= b)%Q with Lt => false | _ => true end.

(** ** The [heapq] module, by its contract

    [heapq] and [queue.PriorityQueue] belong to the Python standard library.
    They are modelled by what they guarantee: the heap holds a multiset of
    tuples, [heappush] adds one, [heappop] removes and returns a least tuple,
    [heapify] keeps the multiset.  The array layout inside the list is not
    modelled; the list below keeps the entries in the order they were pushed.
    Entries are the tuples [(internal_priority, item)] the repository stores,
    compared as Python compares tuples: by the first component, then, when
    the first components are equal, by the second (strings, by code point). *)

Module Heapq.

Definition entry : Type := Q * string.

Definition entry_cmp (a b : entry) : comparison :=
  match (fst a ?= fst b)%Q with
  | Eq => String.compare (snd a) (snd b)
  | c => c
  end.

Definition entry_ltb (a b : entry) : bool :=
  match entry_cmp a b with Lt => true | _ => false end.

#[global] Instance Q_eq_dec : EqDecision Q.
Proof. solve_decision. Defined.

Fixpoint heap_min (x : entry) (l : list entry) : entry :=
  match l with
  | [] => x
  | y :: l' => heap_min (if entry_ltb y x then y else x) l'
  end.

Fixpoint remove_first (x : entry) (l : list entry) : list entry :=
  match l with
  | [] => []
  | y :: l' => if decide (x = y) then l' else y :: remove_first x l'
  end.

Definition heappush (h : list entry) (x : entry) : list entry := h ++ [x].

Definition heappop (h : list entry) : option (entry * list entry) :=
  match h with
  | [] => None
  | x :: l => let m := heap_min x l in Some (m, remove_first m h)
  end.

Definition heapify (h : list entry) : list entry := h.

End Heapq.

(** ** [utils/priorityqueue.py] *)

(** The abstract base class [PQueue]: a max-heap is obtained from Python's
    min-heap by storing the negated priority. *)
Module PQueue.

Definition _internal_priority (priority : Q) : Q := (- priority)%Q.
Definition _external_priority (priority : Q) : Q := (- priority)%Q.

End PQueue.

(** [class PQueueHeap(PQueue)]: a [heapq] list. *)
Module PQueueHeap.
Import Heapq PQueue.

Record t : Type := mk {
  queue : list entry;
  num_enqueued : Z      (* set to 0 by [PQueue.__init__], never used here *)
}.

Definition init : t := {| queue := []; num_enqueued := 0 |}.

Definition put (item : string) (priority : Q) (q : t) : t :=
  {| queue := heappush (queue q) (_internal_priority priority, item);
     num_enqueued := num_enqueued q |}.

(** [for i in range(len(self.queue)): if self.queue[i][1] == item: ... break]

    The scan meets the entries in the order of the list: for the code that
    is the heap array, for the model the order of the pushes.  Both meet
    the same entry when the item has at most one entry in the heap.  With
    several entries of one item the entry met first can differ, so what is
    proved of [update] is proved for an item with one entry, or holds
    whichever entry of the item is met first. *)
Fixpoint find_item (l : list entry) (item : string) (i : nat)
  : option (nat * entry) :=
  match l with
  | [] => None
  | e :: l' =>
      if decide (snd e = item) then Some (i, e) else find_item l' item (S i)
  end.

Definition update (item : string) (priority : Q) (q : t) : t :=
  match find_item (queue q) item 0 with
  | None => q
  | Some (i, e) =>
      let old_priority := fst e in
      if py_lt (_external_priority old_priority) priority
      then {| queue := heapify (<[i := (_internal_priority priority, item)]> (queue q));
              num_enqueued := num_enqueued q |}
      else q
  end.

(** Returns [(item, internal priority)]: the source returns [item[0]] as it is. *)
Definition get (q : t) : res ((string * Q) * t) :=
  match heappop (queue q) with
  | None => Raise KeyError
  | Some (e, rest) =>
      Ok ((snd e, fst e), {| queue := rest; num_enqueued := num_enqueued q |})
  end.

Definition enqueued (q : t) : Z := Z.of_nat (length (queue q)).

End PQueueHeap.

(** [class PQueuePriorityQueue(PQueue)]: a [queue.PriorityQueue] with a
    lazy-deletion table. *)
Module PQueuePriorityQueue.
Import Heapq PQueue.

Definition MAX_DELETED_THRESHOLD : Z := 10000000.

(** A value of the [deleted] dict: [{"priority": ..., "count": ...}]; the
    priority kept there is the internal one. *)
Record slot : Type := mk_slot {
  priority : Q;
  count : Z
}.

Record t : Type := mk {
  queue : list entry;
  deleted : gmap string slot;
  num_enqueued : Z;
  num_deleted : Z
}.

Definition enqueued (q : t) : Z := num_enqueued q.

Definition init : t :=
  {| queue := []; deleted := ∅; num_enqueued := 0; num_deleted := 0 |}.

Definition put (item : string) (priority : Q) (q : t) : res t :=
  match deleted q !! item with
  | Some _ => Raise AssertionError
  | None =>
      let internal_priority := _internal_priority priority in
      Ok {| queue := heappush (queue q) (internal_priority, item);
            deleted := <[item := {| priority := internal_priority; count := 0 |}]> (deleted q);
            num_enqueued := num_enqueued q + 1;
            num_deleted := num_deleted q |}
  end.

Definition _mark_deleted (item : string) (priority : Q) (q : t) : res t :=
  match deleted q !! item with
  | None => Raise AttributeError          (* [None.values()] *)
  | Some {| priority := old_priority; count := old_count |} =>
      if py_ge priority (_external_priority old_priority) then Ok q
      else
        Ok {| queue := queue q;
              deleted := <[item := {| priority := _internal_priority priority;
                                      count := old_count + 1 |}]> (deleted q);
              num_enqueued := num_enqueued q;
              num_deleted := num_deleted q + 1 |}
  end.

(** The loop of [get]; every iteration takes one entry off the queue, so
    [length (queue q)] iterations are enough. *)
Fixpoint get_loop (fuel : nat) (q : t) : res ((string * Q) * t) :=
  match fuel with
  | O => Raise KeyError
  | S fuel' =>
      match heappop (queue q) with
      | None => Raise KeyError
      | Some ((ipriority, item), rest) =>
          let priority := _external_priority ipriority in
          match deleted q !! item with
          | None => Raise AttributeError   (* [None.values()] *)
          | Some {| priority := min_del_ipriority; count := del_count0 |} =>
              let min_del_priority := _external_priority min_del_ipriority in
              let del_count := del_count0 - 1 in
              let deleted' :=
                if del_count <? 0 then delete item (deleted q)
                else <[item := {| priority := _internal_priority min_del_priority;
                                  count := del_count |}]> (deleted q) in
              if py_gt priority min_del_priority
              then get_loop fuel'
                     {| queue := rest; deleted := deleted';
                        num_enqueued := num_enqueued q;
                        num_deleted := num_deleted q - 1 |}
              else Ok ((item, priority),
                       {| queue := rest; deleted := deleted';
                          num_enqueued := num_enqueued q - 1;
                          num_deleted := num_deleted q |})
          end
      end
  end.

Definition get (q : t) : res ((string * Q) * t) :=
  get_loop (length (queue q)) q.

(** The loop of [_cleanup_deleted]: [self.get()] until the old queue is
    empty, refilling a new queue and a new table. *)
Fixpoint cleanup_loop (fuel : nat) (q : t)
    (new_queue : list entry) (new_deleted : gmap string slot)
  : res (list entry * gmap string slot) :=
  match fuel with
  | O => Ok (new_queue, new_deleted)
  | S fuel' =>
      match queue q with
      | [] => Ok (new_queue, new_deleted)
      | _ :: _ =>
          '((item, priority), q') ← get q;
          cleanup_loop fuel' q'
            (heappush new_queue (_internal_priority priority, item))
            (<[item := {| priority := _internal_priority priority; count := 0 |}]> new_deleted)
      end
  end.

Definition _cleanup_deleted (q : t) : res t :=
  let old_num_enqueued := enqueued q in
  '(new_queue, new_deleted) ← cleanup_loop (length (queue q)) q [] ∅;
  Ok {| queue := new_queue; deleted := new_deleted;
        num_enqueued := old_num_enqueued; num_deleted := 0 |}.

Definition update (item : string) (priority : Q) (q : t) : res (bool * t) :=
  match deleted q !! item with
  | None => Ok (false, q)
  | Some s =>
      let old_priority := PQueuePriorityQueue.priority s in
      q1 ← (if py_gt (_external_priority old_priority) priority
            then q' ← _mark_deleted item priority q;
                 Ok {| queue := heappush (queue q') (_internal_priority priority, item);
                       deleted := deleted q';
                       num_enqueued := num_enqueued q';
                       num_deleted := num_deleted q' |}
            else Ok q);
      q2 ← (if num_deleted q1 >? MAX_DELETED_THRESHOLD
            then _cleanup_deleted q1 else Ok q1);
      Ok (true, q2)
  end.

End PQueuePriorityQueue.

(** ** [crawler/webpage.py] *)

Module WebPage.

(** The keys of the [metadata] dict the frontier reads. *)
Record Metadata : Type := mk_meta {
  qscore : option Q
}.

Record t : Type := mk {
  id : option string;
  url : string;
  docno : option Z;
  metadata : option Metadata
}.

Definition get_url (page : t) : string := url page.

(** [get_metadata(key="qscore")]: raises [ValueError] when the page has no
    metadata dict; a missing key reads as [None]. *)
Definition get_qscore (page : t) : res (option Q) :=
  match metadata page with
  | None => Raise ValueError
  | Some m => Ok (qscore m)
  end.

End WebPage.

(** ** [crawler/frontier.py] *)

Module QualityFrontierManager.

Definition MAX_PRIORITY : Q := 1%Q.
Definition MIN_PRIORITY : Q := (-50)%Q.

(** [PQueuePriorityQueue() if updates else PQueueHeap()] *)
Inductive pqueue : Type :=
| Updating (q : PQueuePriorityQueue.t)
| Heap (q : PQueueHeap.t).

Record t : Type := mk {
  queue : pqueue;
  oracle : bool;
  no_priority_pages : Z;
  priority_pages : Z;
  no_father_pages : Z
}.

Definition with_queue (f : t) (q : pqueue) : t :=
  {| queue := q; oracle := oracle f;
     no_priority_pages := no_priority_pages f;
     priority_pages := priority_pages f;
     no_father_pages := no_father_pages f |}.

Definition init (updates : bool) (oracle : bool) : res t :=
  if oracle then
    Ok {| queue := if updates then Updating PQueuePriorityQueue.init
                   else Heap PQueueHeap.init;
          oracle := oracle;
          no_priority_pages := 0; priority_pages := 0; no_father_pages := 0 |}
  else Raise NotImplementedError.

Definition queue_put (item : string) (priority : Q) (q : pqueue) : res pqueue :=
  match q with
  | Updating p => p' ← PQueuePriorityQueue.put item priority p; Ok (Updating p')
  | Heap h => Ok (Heap (PQueueHeap.put item priority h))
  end.

Definition queue_enqueued (q : pqueue) : Z :=
  match q with
  | Updating p => PQueuePriorityQueue.enqueued p
  | Heap h => PQueueHeap.enqueued h
  end.

(** [PQueueHeap.get] hands back the internal priority, [PQueuePriorityQueue.get]
    the external one; [pop] drops it either way. *)
Definition queue_get (q : pqueue) : res ((string * Q) * pqueue) :=
  match q with
  | Updating p => '(r, p') ← PQueuePriorityQueue.get p; Ok (r, Updating p')
  | Heap h => '(r, h') ← PQueueHeap.get h; Ok (r, Heap h')
  end.

(** [PQueueHeap.update] returns [None], [PQueuePriorityQueue.update] a bool. *)
Definition queue_update (item : string) (priority : Q) (q : pqueue)
  : res (option bool * pqueue) :=
  match q with
  | Updating p =>
      '(b, p') ← PQueuePriorityQueue.update item priority p; Ok (Some b, Updating p')
  | Heap h => Ok (None, Heap (PQueueHeap.update item priority h))
  end.

Definition enqueued (f : t) : Z := queue_enqueued (queue f).

Definition pop (f : t) : res (string * t) :=
  if enqueued f =? 0 then Raise IndexError
  else '((url, priority), q') ← queue_get (queue f); Ok (url, with_queue f q').

Definition add_with_max_priority (url : string) (docid : Z) (f : t) : res t :=
  q' ← queue_put url MAX_PRIORITY (queue f); Ok (with_queue f q').

Definition add (page : WebPage.t) (father : option WebPage.t) (f : t) : res t :=
  let url := WebPage.get_url page in
  match father with
  | None =>
      f1 ← add_with_max_priority url (-1) f;
      Ok {| queue := queue f1; oracle := oracle f1;
            no_priority_pages := no_priority_pages f1;
            priority_pages := priority_pages f1 + 1;
            no_father_pages := no_father_pages f1 + 1 |}
  | Some _ =>
      if oracle f then
        priority ← WebPage.get_qscore page;
        let '(priority, f1) :=
          match priority with
          | None =>
              (MIN_PRIORITY,
               {| queue := queue f; oracle := oracle f;
                  no_priority_pages := no_priority_pages f + 1;
                  priority_pages := priority_pages f;
                  no_father_pages := no_father_pages f |})
          | Some p =>
              (p,
               {| queue := queue f; oracle := oracle f;
                  no_priority_pages := no_priority_pages f;
                  priority_pages := priority_pages f + 1;
                  no_father_pages := no_father_pages f |})
          end in
        q' ← queue_put url priority (queue f1); Ok (with_queue f1 q')
      else Raise ValueError
  end.

Definition update (page : WebPage.t) (father : option WebPage.t) (f : t)
  : res (option bool * t) :=
  let url := WebPage.get_url page in
  priority ← (if oracle f then WebPage.get_qscore page
              else match father with
                   | Some fa => WebPage.get_qscore fa
                   | None => Raise AttributeError
                   end);
  let priority := match priority with None => MIN_PRIORITY | Some p => p end in
  '(b, q') ← queue_update url priority (queue f); Ok (b, with_queue f q').

(** The priority [add] and [update] give a page in oracle mode: its
    [qscore], or [MIN_PRIORITY] when there is none. *)
Definition page_priority (page : WebPage.t) : res Q :=
  priority ← WebPage.get_qscore page;
  Ok (match priority with None => MIN_PRIORITY | Some p => p end).

(** [n] calls of [pop], up to the first that raises: the URLs returned, in
    order, and the frontier left. *)
Fixpoint pop_many (n : nat) (f : t) : list string * t :=
  match n with
  | O => ([], f)
  | S n' =>
      match pop f with
      | Ok (u, f') => let '(us, f'') := pop_many n' f' in (u :: us, f'')
      | Raise _ => ([], f)
      end
  end.

(** In [out], [u1] is returned before any [u2]. *)
Definition returned_before (u1 u2 : string) (out : list string) : Prop :=
  exists l1 l2, out = l1 ++ u1 :: l2 /\ u2 ∉ l1.

End QualityFrontierManager.

(** [RandomFrontierManager]: a Python list; [pop] swaps a random element to
    the tail and pops it.  The value of [random.randint(0, len - 1)] is the
    argument [r], reduced modulo the length. *)
Module RandomFrontierManager.

Record t : Type := mk { queue : list string }.

Definition init : t := {| queue := [] |}.

Definition pop (r : nat) (f : t) : res (string * t) :=
  let l := queue f in
  let n := length l in
  match n with
  | O => Raise IndexError
  | S n' =>
      let random_index := (r mod n)%nat in
      match l !! random_index, l !! n' with
      | Some x, Some y =>
          let l' := <[n' := x]> (<[random_index := y]> l) in
          Ok (x, {| queue := take n' l' |})
      | _, _ => Raise IndexError
      end
  end.

Definition add (page : WebPage.t) (father : option WebPage.t) (f : t) : t :=
  {| queue := queue f ++ [WebPage.get_url page] |}.

Definition add_with_max_priority (url : string) (docid : Z) (f : t) : t :=
  {| queue := queue f ++ [url] |}.

Definition update (page : WebPage.t) (father : option WebPage.t) (f : t) : t := f.

Definition enqueued (f : t) : Z := Z.of_nat (length (queue f)).

End RandomFrontierManager.

(** [BreadthFirstSearchFrontierManager]: a [deque], [popleft]. *)
Module BreadthFirstSearchFrontierManager.

Record t : Type := mk { queue : list string }.

Definition init : t := {| queue := [] |}.

Definition pop (f : t) : res (string * t) :=
  match queue f with
  | [] => Raise IndexError
  | u :: l => Ok (u, {| queue := l |})
  end.

Definition add (page : WebPage.t) (father : option WebPage.t) (f : t) : t :=
  {| queue := queue f ++ [WebPage.get_url page] |}.

Definition add_with_max_priority (url : string) (docid : Z) (f : t) : t :=
  {| queue := queue f ++ [url] |}.

Definition update (page : WebPage.t) (father : option WebPage.t) (f : t) : t := f.

Definition enqueued (f : t) : Z := Z.of_nat (length (queue f)).

End BreadthFirstSearchFrontierManager.

(** [DepthFirstSearchFrontierManager]: a [deque], [pop] from the right. *)
Module DepthFirstSearchFrontierManager.

Record t : Type := mk { queue : list string }.

Definition init : t := {| queue := [] |}.

Definition pop (f : t) : res (string * t) :=
  match last (queue f) with
  | None => Raise IndexError
  | Some u => Ok (u, {| queue := take (length (queue f) - 1)%nat (queue f) |})
  end.

Definition add (page : WebPage.t) (father : option WebPage.t) (f : t) : t :=
  {| queue := queue f ++ [WebPage.get_url page] |}.

Definition add_with_max_priority (url : string) (docid : Z) (f : t) : t :=
  {| queue := queue f ++ [url] |}.

Definition update (page : WebPage.t) (father : option WebPage.t) (f : t) : t := f.

Definition enqueued (f : t) : Z := Z.of_nat (length (queue f)).

End DepthFirstSearchFrontierManager.

(** The abstract class [FrontierManager] with its four implementations, and
    [init_frontier_manager]. *)
Module FrontierManager.

Inductive t : Type :=
| Random (f : RandomFrontierManager.t)
| Quality (f : QualityFrontierManager.t)
| BFS (f : BreadthFirstSearchFrontierManager.t)
| DFS (f : DepthFirstSearchFrontierManager.t).

Definition init_frontier_manager (frontier_type : string) (updates : bool) : res t :=
  if decide (frontier_type = "random") then Ok (Random RandomFrontierManager.init)
  else if decide (frontier_type = "oracle-quality") then
    f ← QualityFrontierManager.init updates true; Ok (Quality f)
  else if decide (frontier_type = "bfs") then
    Ok (BFS BreadthFirstSearchFrontierManager.init)
  else if decide (frontier_type = "dfs") then
    Ok (DFS DepthFirstSearchFrontierManager.init)
  else Raise ValueError.

(** [r] is the random draw a [RandomFrontierManager] makes. *)
Definition pop (r : nat) (f : t) : res (string * t) :=
  match f with
  | Random g => '(u, g') ← RandomFrontierManager.pop r g; Ok (u, Random g')
  | Quality g => '(u, g') ← QualityFrontierManager.pop g; Ok (u, Quality g')
  | BFS g => '(u, g') ← BreadthFirstSearchFrontierManager.pop g; Ok (u, BFS g')
  | DFS g => '(u, g') ← DepthFirstSearchFrontierManager.pop g; Ok (u, DFS g')
  end.

Definition add (page : WebPage.t) (father : option WebPage.t) (f : t) : res t :=
  match f with
  | Random g => Ok (Random (RandomFrontierManager.add page father g))
  | Quality g => g' ← QualityFrontierManager.add page father g; Ok (Quality g')
  | BFS g => Ok (BFS (BreadthFirstSearchFrontierManager.add page father g))
  | DFS g => Ok (DFS (DepthFirstSearchFrontierManager.add page father g))
  end.

Definition add_with_max_priority (url : string) (docid : Z) (f : t) : res t :=
  match f with
  | Random g => Ok (Random (RandomFrontierManager.add_with_max_priority url docid g))
  | Quality g =>
      g' ← QualityFrontierManager.add_with_max_priority url docid g; Ok (Quality g')
  | BFS g => Ok (BFS (BreadthFirstSearchFrontierManager.add_with_max_priority url docid g))
  | DFS g => Ok (DFS (DepthFirstSearchFrontierManager.add_with_max_priority url docid g))
  end.

(** The lazy policies return [None] ([pass]). *)
Definition update (page : WebPage.t) (father : option WebPage.t) (f : t)
  : res (option bool * t) :=
  match f with
  | Random g => Ok (None, Random (RandomFrontierManager.update page father g))
  | Quality g =>
      '(b, g') ← QualityFrontierManager.update page father g; Ok (b, Quality g')
  | BFS g => Ok (None, BFS (BreadthFirstSearchFrontierManager.update page father g))
  | DFS g => Ok (None, DFS (DepthFirstSearchFrontierManager.update page father g))
  end.

Definition enqueued (f : t) : Z :=
  match f with
  | Random g => RandomFrontierManager.enqueued g
  | Quality g => QualityFrontierManager.enqueued g
  | BFS g => BreadthFirstSearchFrontierManager.enqueued g
  | DFS g => DepthFirstSearchFrontierManager.enqueued g
  end.

(** *** Sequences of calls on a frontier *)

Inductive op : Type :=
| Add (page : WebPage.t) (father : option WebPage.t)
| AddSeed (url : string) (docid : Z)
| Update (page : WebPage.t) (father : option WebPage.t)
| Pop (r : nat).

(** One call; the URL a [Pop] returned is reported. *)
Definition step (f : t) (o : op) : res (option string * t) :=
  match o with
  | Add page father => f' ← add page father f; Ok (None, f')
  | AddSeed url docid => f' ← add_with_max_priority url docid f; Ok (None, f')
  | Update page father => '(_, f') ← update page father f; Ok (None, f')
  | Pop r => '(u, f') ← pop r f; Ok (Some u, f')
  end.

(** A whole sequence; it stops at the first call that raises. *)
Fixpoint run (f : t) (ops : list op) : res (list string * t) :=
  match ops with
  | [] => Ok ([], f)
  | o :: ops' =>
      '(out, f') ← step f o;
      '(outs, f'') ← run f' ops';
      Ok (match out with Some u => u :: outs | None => outs end, f'')
  end.

Definition added_url (o : op) : option string :=
  match o with
  | Add page _ => Some (WebPage.get_url page)
  | AddSeed url _ => Some url
  | _ => None
  end.

Definition added_urls (ops : list op) : list string := omap added_url ops.

Definition is_pop (o : op) : bool :=
  match o with Pop _ => true | _ => false end.

Definition num_pops (ops : list op) : nat := length (filter is_pop ops).

(** What one call adds to the number of enqueued URLs. *)
Definition delta (o : op) : Z :=
  (match added_url o with Some _ => 1 | None => 0 end) - (if is_pop o then 1 else 0).

End FrontierManager.

(** ** [crawler/seen.py] *)

(** [SetSeenURLTester]: a Python set of docids. *)
Module SetSeenURLTester.

Record t : Type := mk { seen_urls : gset Z }.

Definition init : t := {| seen_urls := ∅ |}.
Definition is_seen (docid : Z) (s : t) : bool := bool_decide (docid ∈ seen_urls s).
Definition mark_seen (docid : Z) (s : t) : t := {| seen_urls := {[docid]} ∪ seen_urls s |}.
Definition seen_count (s : t) : Z := Z.of_nat (size (seen_urls s)).

End SetSeenURLTester.

(** [BitArraySeenURLTester]: a [bitarray] of [capacity] bits.  A method
    returns its outcome together with the object as the call leaves it, so
    that the state after a raised exception can be spoken about. *)
Module BitArraySeenURLTester.

Definition default_capacity : Z := 1000000.

Record t : Type := mk {
  capacity : Z;
  seen_urls : list bool
}.

(** [bitarray(capacity)] refuses a negative length; [setall(0)] clears
    every bit. *)
Definition init (capacity : Z) : res t :=
  if capacity <? 0 then Raise ValueError
  else Ok {| capacity := capacity;
             seen_urls := replicate (Z.to_nat capacity) false |}.

Definition is_seen (docid : Z) (s : t) : res bool * t :=
  if (docid >=? capacity s) || (docid <? 0) then (Raise IndexError, s)
  else
    match seen_urls s !! Z.to_nat docid with
    | Some b => (Ok b, s)
    | None => (Raise IndexError, s)       (* the bitarray's own range check *)
    end.

Definition mark_seen (docid : Z) (s : t) : res unit * t :=
  if (docid >=? capacity s) || (docid <? 0) then (Raise IndexError, s)
  else
    if decide (Z.to_nat docid < length (seen_urls s))%nat
    then (Ok tt, {| capacity := capacity s;
                    seen_urls := <[Z.to_nat docid := true]> (seen_urls s) |})
    else (Raise IndexError, s).           (* the bitarray's own range check *)

Definition seen_count (s : t) : Z :=
  Z.of_nat (length (filter (fun b => b = true) (seen_urls s))).

(** What [__init__] establishes and [mark_seen] keeps: the bit vector has
    [capacity] bits. *)
Definition well_formed (s : t) : Prop :=
  0 <= capacity s /\ length (seen_urls s) = Z.to_nat (capacity s).

End BitArraySeenURLTester.

(** ** [crawler/parser.py] *)

Module Parser.

Definition URL_INDEX : nat := 0.

(** A link is a JSON array whose entry [URL_INDEX] is the URL; indexing an
    array that is too short raises [IndexError]. *)
Fixpoint clean_links_loop (links : list (list string)) (url : string)
    (cleaned_links : list string) : res (list string) :=
  match links with
  | [] => Ok cleaned_links
  | link :: links' =>
      match link !! URL_INDEX with
      | None => Raise IndexError
      | Some link_url =>
          if bool_decide (link_url ≠ url) && bool_decide (link_url ∉ cleaned_links)
          then clean_links_loop links' url (cleaned_links ++ [link_url])
          else clean_links_loop links' url cleaned_links
      end
  end.

Definition clean_links (links : list (list string)) (url : string)
  : res (list string) :=
  clean_links_loop links url [].

(** The specification's wording, for comparison: drop the self-links, then
    keep the first occurrence of every URL. *)
Fixpoint first_seen (urls : list string) : list string :=
  match urls with
  | [] => []
  | u :: urls' => u :: filter (fun v => v ≠ u) (first_seen urls')
  end.

Definition clean_links_spec (urls : list string) (url : string) : list string :=
  first_seen (filter (fun v => v ≠ url) urls).

End Parser.

(** ** [utils/utils.py]: random access into the gzip shards

    The file system is a finite map from paths to contents.  The library
    calls the functions make are parameters of the section: [int], the
    decompression followed by the UTF-8 decoding, [json.loads] and
    [os.path.join]. *)

Module Utils.

Section Shards.

Context {json : Type}.
(** [int(s)]: [None] stands for [ValueError]. *)
Variable py_int : string -> option Z.
(** [decompress_gzip_data(b).decode('utf-8')]: may raise. *)
Variable gunzip_decode : string -> res string.
(** [json.loads(s)]: [None] stands for [json.JSONDecodeError]. *)
Variable json_loads : string -> option json.
(** [os.path.join(dir_path, subdir, name)] *)
Variable path_join : string -> string -> string -> string.

Definition file_system : Type := gmap string string.

(** [s.split(sep)] for a one-character separator. *)
Fixpoint split_on (sep : ascii) (s : string) : list string :=
  match s with
  | EmptyString => [EmptyString]
  | String c s' =>
      if decide (c = sep) then EmptyString :: split_on sep s'
      else
        match split_on sep s' with
        | [] => [String c EmptyString]
        | w :: ws => String c w :: ws
        end
  end.

(** [f.read(n)] at position [pos]: what is left, at most [n] characters. *)
Definition read_at (content : string) (pos n : nat) : string :=
  String.substring pos n content.

Definition read_to_eof (content : string) (pos : nat) : string :=
  String.substring pos (String.length content - pos) content.

Definition int_or_raise (s : string) : res Z :=
  match py_int s with
  | Some z => Ok z
  | None => Raise ValueError
  end.

Definition read_offsets (fs : file_system) (file_path : string) (i : Z)
  : res (Z * option Z) :=
  let offset_dim := 10%nat in
  let offset_size := (offset_dim + 1)%nat in
  match fs !! file_path with
  | None => Raise FileNotFoundError
  | Some content =>
      if i * Z.of_nat offset_size <? 0 then Raise ValueError   (* negative seek *)
      else
        let pos := Z.to_nat (i * Z.of_nat offset_size) in
        start_offset ← int_or_raise (read_at content pos offset_dim);
        let pos := (pos + offset_dim)%nat in
        match read_at content pos 1 with
        | EmptyString => Ok (start_offset, None)
        | String _ _ =>
            end_offset ← int_or_raise (read_at content (pos + 1) offset_dim);
            Ok (start_offset, Some end_offset)
        end
  end.

Definition get_parts (id : string) : res (string * string * Z) :=
  match split_on "-"%char id with
  | [_; subdir; file_seq; doc_seq] =>
      d ← int_or_raise doc_seq; Ok (subdir, file_seq, d)
  | _ => Raise ValueError
  end.

(** [gz_file.seek(start_offset); gz_file.read(read_length)]: a length of
    [None] or of [-1] reads up to the end of the file; for any other
    negative length the binary file raises [ValueError]. *)
Definition read_span (content : string) (start_offset : Z) (end_offset : option Z)
  : res string :=
  let pos := Z.to_nat start_offset in
  match end_offset with
  | None => Ok (read_to_eof content pos)
  | Some e =>
      let read_length := e - start_offset in
      if read_length <? -1 then Raise ValueError
      else if read_length <? 0 then Ok (read_to_eof content pos)
      else Ok (read_at content pos (Z.to_nat read_length))
  end.

(** [None] is Python's [None], returned on [json.JSONDecodeError]. *)
Definition random_read_json_gz (fs : file_system) (file_path : string)
    (start_offset : Z) (end_offset : option Z) : res (option json) :=
  match fs !! file_path with
  | None => Raise FileNotFoundError
  | Some content =>
      if start_offset <? 0 then Raise OSError                  (* negative seek *)
      else
        compressed_document ← read_span content start_offset end_offset;
        decompressed_line ← gunzip_decode compressed_document;
        Ok (json_loads decompressed_line)
  end.

(** [try: ... except Exception as e: raise RuntimeError(...)] *)
Definition reraise_runtime {A} (r : res A) : res A :=
  match r with
  | Ok a => Ok a
  | Raise _ => Raise RuntimeError
  end.

Definition navigate_to_id (fs : file_system) (dir_path : string) (id : string)
  : res (option json) :=
  '(subdir, file_seq, doc_seq) ← get_parts id;
  let file_prefix := path_join dir_path subdir (subdir +:+ "-" +:+ file_seq) in
  let file_fpath := file_prefix +:+ ".json.gz" in
  let offsets_fpath := file_prefix +:+ ".offset" in
  '(start_offset, end_offset) ← reraise_runtime (read_offsets fs offsets_fpath doc_seq);
  reraise_runtime (random_read_json_gz fs file_fpath start_offset end_offset).

End Shards.

(** Concrete stand-ins for the library calls, used to run examples:
    decimal digits for [int], the identity for the decompression, and a
    parser that accepts exactly the texts written between braces. *)
Fixpoint digits_value (s : string) (acc : Z) : option Z :=
  match s with
  | EmptyString => Some acc
  | String c s' =>
      let n := Z.of_nat (nat_of_ascii c) in
      if (48 <=? n) && (n <=? 57) then digits_value s' (10 * acc + (n - 48))
      else None
  end.

Definition decimal_int (s : string) : option Z :=
  match s with
  | EmptyString => None
  | _ => digits_value s 0
  end.

Definition stored_text (s : string) : res string := Ok s.

Definition braces_loads (s : string) : option string :=
  match s with
  | String "{"%char _ =>
      if decide (String.substring (String.length s - 1) 1 s = "}") then Some s else None
  | _ => None
  end.

Definition slash_join (a b c : string) : string := a +:+ "/" +:+ b +:+ "/" +:+ c.

End Utils.

(** ** The download log: [crawler/fetcher.py], [utils/datasetIR.py] and the
    checkpoint cadence of [crawler/orchestrator.py]

    The chunk files [<storage_fpath>_<k>.npy] are a finite map from the
    numeric suffix [k] to the stored array.  A docno in the buffer is what
    [url2docno] returned, so it may be [None]. *)

Module Fetcher.

Record t : Type := mk {
  files : gmap Z (list (option Z));
  downloaded : list (option Z);
  num_stored : Z;
  url2docids : gmap string string;
  url2docnos : gmap string Z
}.

Definition init (url2docids : gmap string string) (url2docnos : gmap string Z) : t :=
  {| files := ∅; downloaded := []; num_stored := 0;
     url2docids := url2docids; url2docnos := url2docnos |}.

Definition url2id (url : string) (s : t) : option string := url2docids s !! url.
Definition url2docno (url : string) (s : t) : option Z := url2docnos s !! url.

(** [download]: [None] when the URL has no docid, else the page. *)
Definition download (url : string) (s : t) : option WebPage.t :=
  match url2id url s with
  | None => None
  | Some i =>
      Some {| WebPage.id := Some i; WebPage.url := url;
              WebPage.docno := url2docno url s;
              WebPage.metadata := Some {| WebPage.qscore := None |} |}
  end.

Definition store (url : string) (s : t) : t :=
  {| files := files s;
     downloaded := downloaded s ++ [url2docno url s];
     num_stored := num_stored s;
     url2docids := url2docids s; url2docnos := url2docnos s |}.

Definition num_dowloaded (s : t) : Z :=
  Z.of_nat (length (downloaded s)) + num_stored s.

(** [int((len(self.downloaded) + self.num_stored) / SAVE_EVERY_N_PAGES)
     + (1 if last else 0)]; the true division raises on a zero divisor and
    [int] truncates. *)
Definition write_downloads_to_file (SAVE_EVERY_N_PAGES : Z) (last : bool) (s : t)
  : res t :=
  if SAVE_EVERY_N_PAGES =? 0 then Raise ZeroDivisionError
  else
    let checkpoint_id :=
      Z.quot (Z.of_nat (length (downloaded s)) + num_stored s) SAVE_EVERY_N_PAGES
      + (if last then 1 else 0) in
    Ok {| files := <[checkpoint_id := downloaded s]> (files s);
          downloaded := downloaded s;
          num_stored := num_stored s;
          url2docids := url2docids s; url2docnos := url2docnos s |}.

Definition checkpoint (SAVE_EVERY_N_PAGES : Z) (s : t) : res t :=
  s1 ← write_downloads_to_file SAVE_EVERY_N_PAGES false s;
  Ok {| files := files s1;
        downloaded := [];
        num_stored := num_stored s1 + Z.of_nat (length (downloaded s1));
        url2docids := url2docids s1; url2docnos := url2docnos s1 |}.

End Fetcher.

Module DatasetIR.

(** [l[:limit]] *)
Definition slice_to {A} (limit : Z) (l : list A) : list A :=
  if limit <? 0 then take (length l - Z.to_nat (- limit))%nat l
  else take (Z.to_nat limit) l.

(** [if limit and len(downloaded_docnos) >= limit] *)
Definition limit_reached (limit : option Z) (n : nat) : option Z :=
  match limit with
  | Some k => if negb (k =? 0) && (Z.of_nat n >=? k) then Some k else None
  | None => None
  end.

(** The [while True] loop of [load_downloaded_list]: every iteration reads
    a different existing chunk, so it runs at most once more than there are
    files. *)
Fixpoint load_loop (fuel : nat) (files : gmap Z (list (option Z)))
    (limit : option Z) (chunk_idx : Z) (downloaded_docnos : list (option Z))
  : list (option Z) :=
  match fuel with
  | O => downloaded_docnos
  | S fuel' =>
      match files !! chunk_idx with
      | None => downloaded_docnos
      | Some chunk =>
          let downloaded_docnos := downloaded_docnos ++ chunk in
          match limit_reached limit (length downloaded_docnos) with
          | Some k => slice_to k downloaded_docnos
          | None => load_loop fuel' files limit (chunk_idx + 1) downloaded_docnos
          end
      end
  end.

Definition load_downloaded_list (files : gmap Z (list (option Z))) (limit : option Z)
  : list (option Z) :=
  load_loop (S (size files)) files limit 1 [].

End DatasetIR.

(** What [Orchestrator.crawl] does to the fetcher.  The frontier, the parser
    and the seen-set decide which URL is popped next; the fetcher sees only
    that sequence, given here as [popped].  The loop ends when the frontier
    is empty (the list is used up) or [max_pages] is reached; the final
    flush follows. *)
Module Orchestrator.

(** The body of the loop of [populate_frontier], as far as the frontier is
    concerned.  [oracle] is the orchestrator's flag, [qscores] tells whether
    "qscores" is in the parser's [to_parse], and [qscore] is what
    [Parser.parse_qscore] finds for the seed. *)
Definition populate_seed (oracle qscores : bool) (seed_url : string)
    (qscore : option Q) (s : Fetcher.t) (f : FrontierManager.t)
  : res FrontierManager.t :=
  match Fetcher.url2docno seed_url s with
  | None => Ok f
  | Some docid =>
      if negb oracle then FrontierManager.add_with_max_priority seed_url docid f
      else
        let page :=
          {| WebPage.id := Fetcher.url2id seed_url s;
             WebPage.url := seed_url;
             WebPage.docno := Some docid;
             WebPage.metadata :=
               Some {| WebPage.qscore := if qscores then qscore else None |} |} in
        FrontierManager.add page None f
  end.

Fixpoint crawl_loop (max_pages save_every_n_pages : Z) (popped : list string)
    (s : Fetcher.t) : res Fetcher.t :=
  match popped with
  | [] => Ok s
  | url :: popped' =>
      let processed_pages := Fetcher.num_dowloaded s in
      if (max_pages >? 0) && (processed_pages >=? max_pages) then Ok s
      else
        match Fetcher.download url s with
        | None => crawl_loop max_pages save_every_n_pages popped' s
        | Some page =>
            let s1 := Fetcher.store (WebPage.get_url page) s in
            if save_every_n_pages =? 0 then Raise ZeroDivisionError
            else
              s2 ← (if (Z.modulo processed_pages save_every_n_pages =? 0)
                       && (processed_pages >? 1)
                    then Fetcher.checkpoint save_every_n_pages s1
                    else Ok s1);
              crawl_loop max_pages save_every_n_pages popped' s2
        end
  end.

Definition crawl (max_pages save_every_n_pages : Z) (popped : list string)
    (s : Fetcher.t) : res Fetcher.t :=
  s1 ← crawl_loop max_pages save_every_n_pages popped s;
  Fetcher.write_downloads_to_file save_every_n_pages true s1.

End Orchestrator.

(** ** Concrete inputs used by the examples below *)

Module Examples.

Definition page (url : string) (qscore : option Q) : WebPage.t :=
  {| WebPage.id := None; WebPage.url := url; WebPage.docno := None;
     WebPage.metadata := Some {| WebPage.qscore := qscore |} |}.

(** A downloaded parent page. *)
Definition parent : WebPage.t := page "http://seed.example/" None.

(** A seed, three outlinks with scores 3/10, 1/2 and 1/10, two updates of
    the second one (to 4/5, then to 1/5), and two pops. *)
Definition ops : list FrontierManager.op :=
  [ FrontierManager.AddSeed "S" 0;
    FrontierManager.Add (page "X" (Some (3 # 10)%Q)) (Some parent);
    FrontierManager.Add (page "Y" (Some (1 # 2)%Q)) (Some parent);
    FrontierManager.Add (page "Z" (Some (1 # 10)%Q)) (Some parent);
    FrontierManager.Update (page "Y" (Some (4 # 5)%Q)) (Some parent);
    FrontierManager.Update (page "Y" (Some (1 # 5)%Q)) (Some parent);
    FrontierManager.Pop 0;
    FrontierManager.Pop 0 ].

(** The updating frontier after [add] of "U" with score 1/2 under a parent. *)
Definition updating_frontier : QualityFrontierManager.t :=
  {| QualityFrontierManager.queue :=
       QualityFrontierManager.Updating
         {| PQueuePriorityQueue.queue := [((- (1 # 2))%Q, "U")];
            PQueuePriorityQueue.deleted :=
              {[ "U" := {| PQueuePriorityQueue.priority := (- (1 # 2))%Q;
                           PQueuePriorityQueue.count := 0 |} ]};
            PQueuePriorityQueue.num_enqueued := 1;
            PQueuePriorityQueue.num_deleted := 0 |};
     QualityFrontierManager.oracle := true;
     QualityFrontierManager.no_priority_pages := 0;
     QualityFrontierManager.priority_pages := 1;
     QualityFrontierManager.no_father_pages := 0 |}.

(** The same frontier once an update to 1/5 has gone through. *)
Definition lowered_frontier : QualityFrontierManager.t :=
  {| QualityFrontierManager.queue :=
       QualityFrontierManager.Updating
         {| PQueuePriorityQueue.queue :=
              [((- (1 # 2))%Q, "U"); ((- (1 # 5))%Q, "U")];
            PQueuePriorityQueue.deleted :=
              {[ "U" := {| PQueuePriorityQueue.priority := (- (1 # 5))%Q;
                           PQueuePriorityQueue.count := 1 |} ]};
            PQueuePriorityQueue.num_enqueued := 1;
            PQueuePriorityQueue.num_deleted := 1 |};
     QualityFrontierManager.oracle := true;
     QualityFrontierManager.no_priority_pages := 0;
     QualityFrontierManager.priority_pages := 1;
     QualityFrontierManager.no_father_pages := 0 |}.

(** The heap frontier (updates disabled) after [add] of "U" with score 1/5
    and of "V" with score 1/2. *)
Definition heap_frontier_with (u_priority : Q) : QualityFrontierManager.t :=
  {| QualityFrontierManager.queue :=
       QualityFrontierManager.Heap
         {| PQueueHeap.queue := [((- u_priority)%Q, "U"); ((- (1 # 2))%Q, "V")];
            PQueueHeap.num_enqueued := 0 |};
     QualityFrontierManager.oracle := true;
     QualityFrontierManager.no_priority_pages := 0;
     QualityFrontierManager.priority_pages := 2;
     QualityFrontierManager.no_father_pages := 0 |}.

Definition heap_frontier : QualityFrontierManager.t := heap_frontier_with (1 # 5)%Q.

(** An outlinks directory with one shard of three records, the second of
    which is cut short, and its offset file. *)
Definition offsets_only : gmap string string :=
  {[ "outlinks/en0000/en0000-00.offset" :=
       "0000000000" +:+ String "010" ("0000000005" +:+ String "010"
       ("0000000010" +:+ String "010" ("0000000015" +:+ String "010" EmptyString))) ]}.

Definition shard_files : gmap string string :=
  <[ "outlinks/en0000/en0000-00.json.gz" := "{abc}{bcd{xyz}" ]> offsets_only.

(** A collection of five pages and the order the frontier pops them in. *)
Definition url2docids : gmap string string :=
  list_to_map [("u1", "d-en0000-00-00000"); ("u2", "d-en0000-00-00001");
               ("u3", "d-en0000-00-00002"); ("u4", "d-en0000-00-00003");
               ("u5", "d-en0000-00-00004")].

Definition url2docnos : gmap string Z :=
  list_to_map [("u1", 0); ("u2", 1); ("u3", 2); ("u4", 3); ("u5", 4)].

Definition popped : list string := ["u1"; "u2"; "u3"; "u4"; "u5"].

(** [QualityFrontierManager(updates=False, oracle=True)], nothing added. *)
Definition fresh_heap_frontier : QualityFrontierManager.t :=
  {| QualityFrontierManager.queue := QualityFrontierManager.Heap PQueueHeap.init;
     QualityFrontierManager.oracle := true;
     QualityFrontierManager.no_priority_pages := 0;
     QualityFrontierManager.priority_pages := 0;
     QualityFrontierManager.no_father_pages := 0 |}.

End Examples.

(** ** The bookkeeping of [PQueuePriorityQueue]

    What the queue, the [deleted] table and the two counters have to do
    with each other.  For every item in the table the queue holds one entry
    at the recorded priority and [count] further entries that come out
    before it; the queue holds nothing else; [num_enqueued] counts the
    table; and the check [__init__] makes,
    [enqueued() == queue.qsize() - num_deleted], holds. *)

Module PQueueConsistency.
Import Heapq PQueuePriorityQueue.

Definition entries_of (item : string) (h : list entry) : list entry :=
  filter (fun e => snd e = item) h.

Record consistent (q : PQueuePriorityQueue.t) : Prop := mk_consistent {
  tracked_entries :
    forall e, e ∈ queue q -> is_Some (deleted q !! snd e);
  live_and_obsolete :
    forall item s, deleted q !! item = Some s ->
      exists obsolete,
        entries_of item (queue q) ≡ₚ (priority s, item) :: obsolete /\
        Forall (fun e => (fst e < priority s)%Q) obsolete /\
        count s = Z.of_nat (length obsolete);
  enqueued_size :
    num_enqueued q = Z.of_nat (size (deleted q));
  qsize_check :
    enqueued q = Z.of_nat (length (queue q)) - num_deleted q
}.

(** The priority the table records for an item, as the caller gave it. *)
Definition recorded_priority (q : PQueuePriorityQueue.t) (item : string) : option Q :=
  (fun s => PQueue._external_priority (priority s)) <$> deleted q !! item.

(** The state of [update] before the compaction test: the new priority
    is taken exactly when it is strictly lower than the recorded one. *)
Definition updated (item : string) (p : Q) (q : t) (s : slot) : t :=
  if py_lt p (PQueue._external_priority (priority s))
  then {| queue := heappush (queue q) (PQueue._internal_priority p, item);
          deleted := <[item := {| priority := PQueue._internal_priority p;
                                  count := count s + 1 |}]> (deleted q);
          num_enqueued := num_enqueued q;
          num_deleted := num_deleted q + 1 |}
  else q.

(** The queue the compaction loop has rebuilt so far. *)
Definition rebuilt (new_queue : list entry) (new_deleted : gmap string slot) : t :=
  {| queue := new_queue; deleted := new_deleted;
     num_enqueued := Z.of_nat (size new_deleted); num_deleted := 0 |}.

End PQueueConsistency.

(** ** [get_all_items] *)

Module PQueueHeapItems.

(** [PQueueHeap.get_all_items]: the items of the heap list, in list order;
    the queue is left as it is. *)
Definition get_all_items (h : PQueueHeap.t) : res (list string) :=
  let num_enqueued := PQueueHeap.enqueued h in
  let items := map snd (PQueueHeap.queue h) in
  if num_enqueued =? Z.of_nat (length items) then Ok items
  else Raise AssertionError.

End PQueueHeapItems.

Module PQueuePriorityQueueItems.
Import PQueuePriorityQueue.

(** The loop [while self.enqueued() > 0] of
    [PQueuePriorityQueue.get_all_items]; every [get] that returns lowers
    [enqueued()] by one, so [enqueued()] iterations are enough. *)
Fixpoint get_all_items_loop (fuel : nat) (q : t) (items : list string)
  : res (list string * t) :=
  if enqueued q >? 0 then
    match fuel with
    | O => Ok (items, q)
    | S fuel' =>
        '((item, _), q') ← get q;
        get_all_items_loop fuel' q' (items ++ [item])
    end
  else Ok (items, q).

(** [PQueuePriorityQueue.get_all_items]: the items, and the queue the
    calls of [get] leave behind. *)
Definition get_all_items (q : t) : res (list string * t) :=
  let num_enqueued := enqueued q in
  '(items, q') ← get_all_items_loop (Z.to_nat num_enqueued) q [];
  if num_enqueued =? Z.of_nat (length items) then Ok (items, q')
  else Raise AssertionError.

(** The order [get] hands items out in: never a lower recorded priority
    before a higher one. *)
Definition by_priority (q : t) (a b : string) : Prop :=
  forall pa pb,
    PQueueConsistency.recorded_priority q a = Some pa ->
    PQueueConsistency.recorded_priority q b = Some pb ->
    (pb <= pa)%Q.

Fixpoint sorted_by {A} (R : A -> A -> Prop) (l : list A) : Prop :=
  match l with
  | [] => True
  | a :: l' => Forall (R a) l' /\ sorted_by R l'
  end.

End PQueuePriorityQueueItems.

(** ** Sequences of calls on a [PQueuePriorityQueue] *)

Module PQueueCalls.
Import PQueuePriorityQueue.

Inductive call : Type :=
| Put (item : string) (priority : Q)
| Update (item : string) (priority : Q)
| Get.

Definition apply_call (q : t) (c : call) : res t :=
  match c with
  | Put item priority => put item priority q
  | Update item priority => '(_, q') ← update item priority q; Ok q'
  | Get => '(_, q') ← get q; Ok q'
  end.

(** A sequence of calls from left to right; it stops at the first that
    raises. *)
Fixpoint run_calls (q : t) (cs : list call) : res t :=
  match cs with
  | [] => Ok q
  | c :: cs' => q' ← apply_call q c; run_calls q' cs'
  end.

(** [n] calls of [get], up to the first that raises: what they returned. *)
Fixpoint get_many (n : nat) (q : t) : list (string * Q) :=
  match n with
  | O => []
  | S n' =>
      match get q with
      | Ok (r, q') => r :: get_many n' q'
      | Raise _ => []
      end
  end.

End PQueueCalls.

(** ** The URLs a frontier holds *)

Module FrontierContents.

(** The items of the heap, or the keys of the lazy-deletion table. *)
Definition pqueue_urls (q : QualityFrontierManager.pqueue) : list string :=
  match q with
  | QualityFrontierManager.Heap h => map snd (PQueueHeap.queue h)
  | QualityFrontierManager.Updating p =>
      elements (dom (PQueuePriorityQueue.deleted p))
  end.

Definition enqueued_urls (f : FrontierManager.t) : list string :=
  match f with
  | FrontierManager.Random g => RandomFrontierManager.queue g
  | FrontierManager.BFS g => BreadthFirstSearchFrontierManager.queue g
  | FrontierManager.DFS g => DepthFirstSearchFrontierManager.queue g
  | FrontierManager.Quality g => pqueue_urls (QualityFrontierManager.queue g)
  end.

(** The bookkeeping of the lazy-deletion queue, where there is one. *)
Definition pqueue_consistent (q : QualityFrontierManager.pqueue) : Prop :=
  match q with
  | QualityFrontierManager.Updating p => PQueueConsistency.consistent p
  | QualityFrontierManager.Heap _ => True
  end.

Definition frontier_consistent (f : FrontierManager.t) : Prop :=
  match f with
  | FrontierManager.Quality g => pqueue_consistent (QualityFrontierManager.queue g)
  | _ => True
  end.

(** Whether the queue is the one [updates=True] selects. *)
Definition uses_updates (q : QualityFrontierManager.pqueue) : bool :=
  match q with
  | QualityFrontierManager.Updating _ => true
  | QualityFrontierManager.Heap _ => false
  end.

Definition returned (out : option string) : list string :=
  match out with Some u => [u] | None => [] end.

End FrontierContents.

(** ** [QualityFrontierManager.get_stats] and [get_all_urls] *)

Module QualityFrontierReports.
Import QualityFrontierManager.

(** [get_stats] returns [(no_priority_pages, priority_pages)]. *)
Definition get_stats (f : t) : Z * Z := (no_priority_pages f, priority_pages f).

(** [get_all_urls] is [self.queue.get_all_items()]; with the lazy-deletion
    queue the calls of [get] change the frontier. *)
Definition get_all_urls (f : t) : res (list string * t) :=
  match queue f with
  | Updating p =>
      '(items, p') ← PQueuePriorityQueueItems.get_all_items p;
      Ok (items, with_queue f (Updating p'))
  | Heap h => items ← PQueueHeapItems.get_all_items h; Ok (items, f)
  end.

(** The calls of [add] in a sequence: all of them, those without a father,
    and those with a father and a page that has no [qscore]. *)
Definition is_add (o : FrontierManager.op) : bool :=
  match o with FrontierManager.Add _ _ => true | _ => false end.

Definition is_add_no_father (o : FrontierManager.op) : bool :=
  match o with FrontierManager.Add _ None => true | _ => false end.

Definition is_add_no_priority (o : FrontierManager.op) : bool :=
  match o with
  | FrontierManager.Add page (Some _) =>
      match WebPage.get_qscore page with Ok None => true | _ => false end
  | _ => false
  end.

Definition count_calls (P : FrontierManager.op -> bool) (ops : list FrontierManager.op) : Z :=
  Z.of_nat (length (filter (fun o => P o = true) ops)).

End QualityFrontierReports.

(** ** Sequences of [mark_seen] calls *)

Module SeenCalls.

(** [mark_seen] of every docid from left to right on the bitmap; it stops
    at the first call that raises. *)
Fixpoint mark_all (docids : list Z) (s : BitArraySeenURLTester.t)
  : res unit * BitArraySeenURLTester.t :=
  match docids with
  | [] => (Ok tt, s)
  | d :: docids' =>
      match BitArraySeenURLTester.mark_seen d s with
      | (Ok _, s') => mark_all docids' s'
      | (Raise e, s') => (Raise e, s')
      end
  end.

(** The same calls on the set. *)
Fixpoint set_mark_all (docids : list Z) (s : SetSeenURLTester.t) : SetSeenURLTester.t :=
  match docids with
  | [] => s
  | d :: docids' => set_mark_all docids' (SetSeenURLTester.mark_seen d s)
  end.

(** The bitmap [b] and the set [s] hold the same docids. *)
Definition same_docids (C : Z) (b : BitArraySeenURLTester.t) (s : SetSeenURLTester.t) : Prop :=
  BitArraySeenURLTester.well_formed b /\ BitArraySeenURLTester.capacity b = C /\
  (forall d, 0 <= d < C ->
     BitArraySeenURLTester.seen_urls b !! Z.to_nat d = Some (SetSeenURLTester.is_seen d s)) /\
  BitArraySeenURLTester.seen_count b = SetSeenURLTester.seen_count s.

End SeenCalls.

(** ** Offset files and seed files *)

Module UtilsFiles.

Definition newline : string := String "010" EmptyString.

(** An offset file: one record of [offset_dim] characters per line, every
    line closed by a newline. *)
Fixpoint offset_table (records : list string) : string :=
  match records with
  | [] => EmptyString
  | r :: records' => r +:+ newline +:+ offset_table records'
  end.

(** [sep.join(parts)] *)
Fixpoint join_on (sep : ascii) (parts : list string) : string :=
  match parts with
  | [] => EmptyString
  | [p] => p
  | p :: parts' => p +:+ String sep (join_on sep parts')
  end.

Section Seeds.
(** [line.strip()] *)
Variable strip : string -> string.

(** The loop of [yield_initial_seeds] over the lines of the file: what it
    yields, in order.  [count] is the number of URLs yielded before. *)
Fixpoint yield_loop (lines : list string) (limit : option Z) (count : Z) : list string :=
  match lines with
  | [] => []
  | line :: lines' =>
      let url := strip line in
      let count := count + 1 in
      url :: (if match limit with Some k => count >=? k | None => false end
              then []
              else yield_loop lines' limit count)
  end.

Definition yield_initial_seeds (lines : list string) (limit : option Z) : list string :=
  yield_loop lines limit 0.

(** [read_docids]: every line, stripped. *)
Definition read_docids (lines : list string) : list string := map strip lines.

End Seeds.

End UtilsFiles.

(** ** The download log of a crawl *)

Module CrawlLog.

(** The docnos a crawl stores, in order: the docno of every popped URL that
    has a docid, up to [max_pages] of them when [max_pages] is positive. *)
Definition fetched (url2docids : gmap string string) (url2docnos : gmap string Z)
    (popped : list string) : list (option Z) :=
  omap (fun url => match url2docids !! url with
                   | Some _ => Some (url2docnos !! url)
                   | None => None
                   end) popped.

Definition crawled (max_pages : Z) (url2docids : gmap string string)
    (url2docnos : gmap string Z) (popped : list string) : list (option Z) :=
  if max_pages >? 0 then take (Z.to_nat max_pages) (fetched url2docids url2docnos popped)
  else fetched url2docids url2docnos popped.

(** The same list, the way the loop of [crawl] produces it from a state
    with [processed] pages downloaded. *)
Fixpoint crawl_docs (max_pages : Z) (url2docids : gmap string string)
    (url2docnos : gmap string Z) (popped : list string) (processed : Z)
  : list (option Z) :=
  match popped with
  | [] => []
  | url :: popped' =>
      if (max_pages >? 0) && (processed >=? max_pages) then []
      else
        match url2docids !! url with
        | None => crawl_docs max_pages url2docids url2docnos popped' processed
        | Some _ =>
            url2docnos !! url
            :: crawl_docs max_pages url2docids url2docnos popped' (processed + 1)
        end
  end.

(** The fetcher in the middle of a crawl that has downloaded [acc]:
    [chunks] are the chunks written so far, under the suffixes 1, 2, ...;
    the first holds [N + 1] docnos and the others [N]; the docnos not yet
    written are in [downloaded]. *)
Definition log_state (N : Z) (s : Fetcher.t) (acc : list (option Z))
    (chunks : list (list (option Z))) : Prop :=
  (forall i chunk, chunks !! i = Some chunk ->
     Fetcher.files s !! (1 + Z.of_nat i) = Some chunk) /\
  (forall j, Z.of_nat (length chunks) < j -> Fetcher.files s !! j = None) /\
  acc = concat chunks ++ Fetcher.downloaded s /\
  Fetcher.num_stored s = Z.of_nat (length (concat chunks)) /\
  Z.of_nat (length chunks) * N + 1 <= Z.max (Z.of_nat (length acc)) 1
    <= (Z.of_nat (length chunks) + 1) * N /\
  (chunks <> [] ->
   Z.of_nat (length (concat chunks)) = Z.of_nat (length chunks) * N + 1).

End CrawlLog.

(** ** [utils/datasetIR.py]: the mappings of a collection

    The dict [url2docids] is given as the list of its items in insertion
    order; its keys are pairwise distinct. *)

Module CollectionMappings.

(** [{url: index for index, url in enumerate(url2docids)}], from [index]
    on. *)
Fixpoint url2docnos_from (index : Z) (urls : list string) (url2docnos : gmap string Z)
  : gmap string Z :=
  match urls with
  | [] => url2docnos
  | url :: urls' => url2docnos_from (index + 1) urls' (<[url := index]> url2docnos)
  end.

Definition parse_url2docnos (url2docids : list (string * string)) : res (gmap string Z) :=
  let url2docnos := url2docnos_from 0 (map fst url2docids) ∅ in
  if decide (length url2docids = size url2docnos) then Ok url2docnos
  else Raise ValueError.

(** The loop of [parse_docno2urls], from [docno] on. *)
Fixpoint docno2urls_from (docno : Z) (items : list (string * string))
    (docno2urls docno2docids : gmap Z string) : gmap Z string * gmap Z string :=
  match items with
  | [] => (docno2urls, docno2docids)
  | (url, docid) :: items' =>
      docno2urls_from (docno + 1) items'
        (<[docno := url]> docno2urls) (<[docno := docid]> docno2docids)
  end.

Definition parse_docno2urls (url2docids : list (string * string))
  : gmap Z string * gmap Z string :=
  docno2urls_from 0 url2docids ∅ ∅.

End CollectionMappings.

(** ** [crawler/seen.py]: [init_url_seen_tester] and the common interface *)

Module SeenURLTester.

Inductive t : Type :=
| SetTester (s : SetSeenURLTester.t)
| BitArrayTester (s : BitArraySeenURLTester.t).

(** [capacity] is the integer the orchestrator passes for a bitmap; the
    set ignores it. *)
Definition init_url_seen_tester (tester_type : string) (capacity : Z) : res t :=
  if decide (tester_type = "set") then Ok (SetTester SetSeenURLTester.init)
  else if decide (tester_type = "bitarray") then
    s ← BitArraySeenURLTester.init capacity; Ok (BitArrayTester s)
  else Raise ValueError.

Definition is_seen (docid : Z) (tester : t) : res bool :=
  match tester with
  | SetTester s => Ok (SetSeenURLTester.is_seen docid s)
  | BitArrayTester s => fst (BitArraySeenURLTester.is_seen docid s)
  end.

Definition mark_seen (docid : Z) (tester : t) : res t :=
  match tester with
  | SetTester s => Ok (SetTester (SetSeenURLTester.mark_seen docid s))
  | BitArrayTester s =>
      match BitArraySeenURLTester.mark_seen docid s with
      | (Ok _, s') => Ok (BitArrayTester s')
      | (Raise e, _) => Raise e
      end
  end.

Definition seen_count (tester : t) : Z :=
  match tester with
  | SetTester s => SetSeenURLTester.seen_count s
  | BitArrayTester s => BitArraySeenURLTester.seen_count s
  end.

End SeenURLTester.

(** ** [crawler/orchestrator.py]: the whole crawl

    The orchestrator with its components.  The parser reads the outlinks
    of a page from the shard files and the quality scores from a cache;
    both are given as functions: [parse_outlinks] is
    [Parser.parse_outlinks] (it may raise, and returns [None] for a record
    that cannot be decoded), [get_score] is [QualityScorer.get_score].
    The orchestrator is built the way [crawl.py] builds it, with the
    configured [save_every_n_pages], which is the fetcher's constant
    too. *)

Module Crawl.

Record t : Type := mk {
  Fetcher_ : Fetcher.t;
  SeenURLTester_ : SeenURLTester.t;
  FrontierManager_ : FrontierManager.t;
  oracle : bool;
  qscores : bool;                 (* ["qscores" in Parser.to_parse] *)
  updates_enabled : bool;
  max_pages : Z;
  save_every_n_pages : Z;
  notfound_seedurls : Z;
  num_noutlinks : Z;
  failed_dowloads : Z;
  wrong_linked_docid : Z
}.

Definition with_fetcher (o : t) (s : Fetcher.t) : t :=
  {| Fetcher_ := s; SeenURLTester_ := SeenURLTester_ o;
     FrontierManager_ := FrontierManager_ o; oracle := oracle o; qscores := qscores o;
     updates_enabled := updates_enabled o; max_pages := max_pages o;
     save_every_n_pages := save_every_n_pages o;
     notfound_seedurls := notfound_seedurls o; num_noutlinks := num_noutlinks o;
     failed_dowloads := failed_dowloads o; wrong_linked_docid := wrong_linked_docid o |}.

Definition with_seen (o : t) (s : SeenURLTester.t) : t :=
  {| Fetcher_ := Fetcher_ o; SeenURLTester_ := s;
     FrontierManager_ := FrontierManager_ o; oracle := oracle o; qscores := qscores o;
     updates_enabled := updates_enabled o; max_pages := max_pages o;
     save_every_n_pages := save_every_n_pages o;
     notfound_seedurls := notfound_seedurls o; num_noutlinks := num_noutlinks o;
     failed_dowloads := failed_dowloads o; wrong_linked_docid := wrong_linked_docid o |}.

Definition with_frontier (o : t) (f : FrontierManager.t) : t :=
  {| Fetcher_ := Fetcher_ o; SeenURLTester_ := SeenURLTester_ o;
     FrontierManager_ := f; oracle := oracle o; qscores := qscores o;
     updates_enabled := updates_enabled o; max_pages := max_pages o;
     save_every_n_pages := save_every_n_pages o;
     notfound_seedurls := notfound_seedurls o; num_noutlinks := num_noutlinks o;
     failed_dowloads := failed_dowloads o; wrong_linked_docid := wrong_linked_docid o |}.

(** The four counters, each raised by one. *)
Definition count_notfound_seedurl (o : t) : t :=
  {| Fetcher_ := Fetcher_ o; SeenURLTester_ := SeenURLTester_ o;
     FrontierManager_ := FrontierManager_ o; oracle := oracle o; qscores := qscores o;
     updates_enabled := updates_enabled o; max_pages := max_pages o;
     save_every_n_pages := save_every_n_pages o;
     notfound_seedurls := notfound_seedurls o + 1; num_noutlinks := num_noutlinks o;
     failed_dowloads := failed_dowloads o; wrong_linked_docid := wrong_linked_docid o |}.

Definition count_noutlinks (o : t) : t :=
  {| Fetcher_ := Fetcher_ o; SeenURLTester_ := SeenURLTester_ o;
     FrontierManager_ := FrontierManager_ o; oracle := oracle o; qscores := qscores o;
     updates_enabled := updates_enabled o; max_pages := max_pages o;
     save_every_n_pages := save_every_n_pages o;
     notfound_seedurls := notfound_seedurls o; num_noutlinks := num_noutlinks o + 1;
     failed_dowloads := failed_dowloads o; wrong_linked_docid := wrong_linked_docid o |}.

Definition count_failed_dowload (o : t) : t :=
  {| Fetcher_ := Fetcher_ o; SeenURLTester_ := SeenURLTester_ o;
     FrontierManager_ := FrontierManager_ o; oracle := oracle o; qscores := qscores o;
     updates_enabled := updates_enabled o; max_pages := max_pages o;
     save_every_n_pages := save_every_n_pages o;
     notfound_seedurls := notfound_seedurls o; num_noutlinks := num_noutlinks o;
     failed_dowloads := failed_dowloads o + 1; wrong_linked_docid := wrong_linked_docid o |}.

Definition count_wrong_linked_docid (o : t) : t :=
  {| Fetcher_ := Fetcher_ o; SeenURLTester_ := SeenURLTester_ o;
     FrontierManager_ := FrontierManager_ o; oracle := oracle o; qscores := qscores o;
     updates_enabled := updates_enabled o; max_pages := max_pages o;
     save_every_n_pages := save_every_n_pages o;
     notfound_seedurls := notfound_seedurls o; num_noutlinks := num_noutlinks o;
     failed_dowloads := failed_dowloads o; wrong_linked_docid := wrong_linked_docid o + 1 |}.

(** The components [__init__] creates for the frontier types it goes on
    with: "quality" and "oracle-quality" parse the quality scores, and
    "oracle-quality" sets the oracle flag; "bfs" and "dfs" parse nothing.
    [init_frontier_manager] raises [ValueError] for "quality".  For any
    other type [__init__] returns before it has created the parser, the
    seen-set and the frontier, and [crawl] then raises [AttributeError] at
    its first use of one of them. *)
Definition init (frontier_type seen_urls_type : string) (updates_enabled : bool)
    (max_pages save_every_n_pages : Z)
    (url2docids : gmap string string) (url2docnos : gmap string Z) : res t :=
  let fetcher := Fetcher.init url2docids url2docnos in
  if bool_decide (frontier_type = "quality") || bool_decide (frontier_type = "oracle-quality")
     || bool_decide (frontier_type = "bfs") || bool_decide (frontier_type = "dfs")
  then
    let seen_urls_capacity := Z.of_nat (size url2docids) + 10 in
    seen ← SeenURLTester.init_url_seen_tester seen_urls_type seen_urls_capacity;
    frontier ← FrontierManager.init_frontier_manager frontier_type updates_enabled;
    Ok {| Fetcher_ := fetcher; SeenURLTester_ := seen; FrontierManager_ := frontier;
          oracle := bool_decide (frontier_type = "oracle-quality");
          qscores := bool_decide (frontier_type = "quality")
                     || bool_decide (frontier_type = "oracle-quality");
          updates_enabled := updates_enabled;
          max_pages := max_pages; save_every_n_pages := save_every_n_pages;
          notfound_seedurls := 0; num_noutlinks := 0;
          failed_dowloads := 0; wrong_linked_docid := 0 |}
  else Raise AttributeError.

Section Run.
Variable get_score : option string -> option Q.
Variable parse_outlinks : WebPage.t -> res (option (list string)).

(** [WebPage(url=..., docno=..., id=...)] with the metadata the
    orchestrator sets in oracle mode; otherwise the empty dict of the
    constructor. *)
Definition linked_page (o : t) (url : string) (docid : Z) : WebPage.t :=
  let id := Fetcher.url2id url (Fetcher_ o) in
  {| WebPage.id := id; WebPage.url := url; WebPage.docno := Some docid;
     WebPage.metadata :=
       Some {| WebPage.qscore :=
                 if oracle o && qscores o then get_score id else None |} |}.

(** The body of the loop of [process_page] over the outlinks. *)
Definition process_link (page : WebPage.t) (linked_url : string) (o : t) : res t :=
  match Fetcher.url2docno linked_url (Fetcher_ o) with
  | None => Ok (count_wrong_linked_docid o)
  | Some linked_docid =>
      let linked := linked_page o linked_url linked_docid in
      seen ← SeenURLTester.is_seen linked_docid (SeenURLTester_ o);
      if (seen : bool) then
        if negb (updates_enabled o) then Ok o
        else
          '(_, f) ← FrontierManager.update linked (Some page) (FrontierManager_ o);
          Ok (with_frontier o f)
      else
        s ← SeenURLTester.mark_seen linked_docid (SeenURLTester_ o);
        f ← FrontierManager.add linked (Some page) (FrontierManager_ o);
        Ok (with_frontier (with_seen o s) f)
  end.

Fixpoint process_links (page : WebPage.t) (outlinks : list string) (o : t) : res t :=
  match outlinks with
  | [] => Ok o
  | linked_url :: outlinks' =>
      o' ← process_link page linked_url o; process_links page outlinks' o'
  end.

(** [Parser.parse_metadata]: the page with its new metadata dict, and the
    outlinks found. *)
Definition parse_metadata (o : t) (page : WebPage.t)
  : res (WebPage.t * option (list string)) :=
  outlinks ← parse_outlinks page;
  Ok ({| WebPage.id := WebPage.id page; WebPage.url := WebPage.url page;
         WebPage.docno := WebPage.docno page;
         WebPage.metadata :=
           Some {| WebPage.qscore :=
                     if qscores o then get_score (WebPage.id page) else None |} |},
      outlinks).

Definition process_page (page : WebPage.t) (o : t) : res t :=
  let o := with_fetcher o (Fetcher.store (WebPage.get_url page) (Fetcher_ o)) in
  '(page, outlinks) ← parse_metadata o page;
  match outlinks with
  | None => process_links page [] (count_noutlinks o)
  | Some outlinks => process_links page outlinks o
  end.

(** The body of the loop of [populate_frontier]. *)
Definition populate_seed (seed_url : string) (o : t) : res t :=
  match Fetcher.url2docno seed_url (Fetcher_ o) with
  | None => Ok (count_notfound_seedurl o)
  | Some docid =>
      f ← Orchestrator.populate_seed (oracle o) (qscores o) seed_url
             (get_score (Fetcher.url2id seed_url (Fetcher_ o)))
             (Fetcher_ o) (FrontierManager_ o);
      s ← SeenURLTester.mark_seen docid (SeenURLTester_ o);
      Ok (with_seen (with_frontier o f) s)
  end.

Fixpoint populate_frontier (seed_urls : list string) (o : t) : res t :=
  match seed_urls with
  | [] => Ok o
  | seed_url :: seed_urls' => o' ← populate_seed seed_url o; populate_frontier seed_urls' o'
  end.

(** The [while] loop of [crawl], with the URLs popped, in order.  No URL
    is popped twice and every popped URL has a docno, so the loop ends
    within as many iterations as there are docnos; see [crawl]. *)
Fixpoint crawl_loop (fuel : nat) (o : t) : res (list string * t) :=
  match fuel with
  | O => Ok ([], o)
  | S fuel' =>
      if FrontierManager.enqueued (FrontierManager_ o) >? 0 then
        let processed_pages := Fetcher.num_dowloaded (Fetcher_ o) in
        if (max_pages o >? 0) && (processed_pages >=? max_pages o) then Ok ([], o)
        else
          '(url, f) ← FrontierManager.pop 0 (FrontierManager_ o);
          let o := with_frontier o f in
          '(popped, o') ←
            match Fetcher.download url (Fetcher_ o) with
            | None => crawl_loop fuel' (count_failed_dowload o)
            | Some page =>
                o1 ← process_page page o;
                if save_every_n_pages o1 =? 0 then Raise ZeroDivisionError
                else
                  o2 ← (if (Z.modulo processed_pages (save_every_n_pages o1) =? 0)
                           && (processed_pages >? 1)
                        then s ← Fetcher.checkpoint (save_every_n_pages o1) (Fetcher_ o1);
                             Ok (with_fetcher o1 s)
                        else Ok o1);
                  crawl_loop fuel' o2
            end;
          Ok (url :: popped, o')
      else Ok ([], o)
  end.

Definition crawl (seed_urls : list string) (o : t) : res (list string * t) :=
  o ← populate_frontier seed_urls o;
  '(popped, o) ← crawl_loop (S (size (Fetcher.url2docnos (Fetcher_ o)))) o;
  s ← Fetcher.write_downloads_to_file (save_every_n_pages o) true (Fetcher_ o);
  Ok (popped, with_fetcher o s).

End Run.

(** The loop has stopped by itself: the frontier is empty or [max_pages]
    is reached. *)
Definition ended (o : t) : Prop :=
  FrontierManager.enqueued (FrontierManager_ o) <= 0 \/
  (0 < max_pages o /\ max_pages o <= Fetcher.num_dowloaded (Fetcher_ o)).

(** The docids the seen-set holds. *)
Definition seen_docid (docid : Z) (o : t) : Prop :=
  SeenURLTester.is_seen docid (SeenURLTester_ o) = Ok true.

End Crawl.

(** ** What the crawl keeps true *)

Module CrawlInvariant.
Import Crawl.

(** The bitmap has its [capacity] bits and room for every docno of the
    collection; the set needs nothing. *)
Definition seen_covers (url2docnos : gmap string Z) (tester : SeenURLTester.t) : Prop :=
  match tester with
  | SeenURLTester.SetTester _ => True
  | SeenURLTester.BitArrayTester s =>
      BitArraySeenURLTester.well_formed s /\
      forall url d, url2docnos !! url = Some d -> 0 <= d < BitArraySeenURLTester.capacity s
  end.

(** A quality frontier is in oracle mode. *)
Definition oracle_frontier (f : FrontierManager.t) : Prop :=
  match f with
  | FrontierManager.Quality g => QualityFrontierManager.oracle g = true
  | _ => True
  end.

(** With [popped] the URLs popped so far: the URLs that ever entered the
    frontier are pairwise distinct, and the docno of each is marked
    seen. *)
Record holds (popped : list string) (o : t) : Prop := mk_holds {
  frontier_ok : FrontierContents.frontier_consistent (FrontierManager_ o);
  frontier_oracle : oracle_frontier (FrontierManager_ o);
  seen_ok : seen_covers (Fetcher.url2docnos (Fetcher_ o)) (SeenURLTester_ o);
  entered_once : NoDup (popped ++ FrontierContents.enqueued_urls (FrontierManager_ o));
  entered_seen :
    forall url, url ∈ popped ++ FrontierContents.enqueued_urls (FrontierManager_ o) ->
      exists d, Fetcher.url2docno url (Fetcher_ o) = Some d /\ seen_docid d o
}.

(** The flags and limits are those the orchestrator was built with. *)
Definition same_settings (o o' : t) : Prop :=
  oracle o' = oracle o /\ qscores o' = qscores o /\
  updates_enabled o' = updates_enabled o /\
  max_pages o' = max_pages o /\ save_every_n_pages o' = save_every_n_pages o.

(** What one outlink does: it enters the frontier exactly when it has a
    docno that was not seen, and its docno is seen afterwards. *)
Definition link_effect (linked_url : string) (o o' : t) : Prop :=
  (forall x, x ∈ FrontierContents.enqueued_urls (FrontierManager_ o') <->
     x ∈ FrontierContents.enqueued_urls (FrontierManager_ o) \/
     (x = linked_url /\
      exists d, Fetcher.url2docno linked_url (Fetcher_ o) = Some d /\ ~ seen_docid d o)) /\
  (forall d', seen_docid d' o' <->
     seen_docid d' o \/ Fetcher.url2docno linked_url (Fetcher_ o) = Some d').

(** What the outlinks of a page do together. *)
Definition links_effect (outlinks : list string) (o o' : t) : Prop :=
  (forall x, x ∈ FrontierContents.enqueued_urls (FrontierManager_ o') <->
     x ∈ FrontierContents.enqueued_urls (FrontierManager_ o) \/
     (x ∈ outlinks /\
      exists d, Fetcher.url2docno x (Fetcher_ o) = Some d /\ ~ seen_docid d o)) /\
  (forall d', seen_docid d' o' <->
     seen_docid d' o \/
     exists u, u ∈ outlinks /\ Fetcher.url2docno u (Fetcher_ o) = Some d').

(** What one seed does: it enters the frontier when it has a docno, seen
    or not, and its docno is seen afterwards. *)
Definition seed_effect (seed_url : string) (o o' : t) : Prop :=
  (forall x, x ∈ FrontierContents.enqueued_urls (FrontierManager_ o') <->
     x ∈ FrontierContents.enqueued_urls (FrontierManager_ o) \/
     (x = seed_url /\ is_Some (Fetcher.url2docno seed_url (Fetcher_ o)))) /\
  (forall d', seen_docid d' o' <->
     seen_docid d' o \/ Fetcher.url2docno seed_url (Fetcher_ o) = Some d').

(** What the seeds do together. *)
Definition seeds_effect (seed_urls : list string) (o o' : t) : Prop :=
  (forall x, x ∈ FrontierContents.enqueued_urls (FrontierManager_ o') <->
     x ∈ FrontierContents.enqueued_urls (FrontierManager_ o) \/
     (x ∈ seed_urls /\ is_Some (Fetcher.url2docno x (Fetcher_ o)))) /\
  (forall d', seen_docid d' o' <->
     seen_docid d' o \/
     exists u, u ∈ seed_urls /\ Fetcher.url2docno u (Fetcher_ o) = Some d').

End CrawlInvariant.

(** ** The link graph of the collection

    The pages the fetcher downloads and the outlinks the parser finds in
    them make a graph on the URLs that have a docno. *)

Module CrawlGraph.
Import Crawl.

Section Graph.
Variable parse_outlinks : WebPage.t -> res (option (list string)).
Variable s : Fetcher.t.

(** [v] has a docno and is an outlink of the page downloaded for [u]. *)
Definition link (u v : string) : Prop :=
  exists page outlinks,
    Fetcher.download u s = Some page /\
    parse_outlinks page = Ok (Some outlinks) /\
    v ∈ outlinks /\ is_Some (Fetcher.url2docno v s).

(** The URLs a chain of links leads to from a seed with a docno. *)
Inductive reachable (seed_urls : list string) : string -> Prop :=
| reachable_seed u :
    u ∈ seed_urls -> is_Some (Fetcher.url2docno u s) -> reachable seed_urls u
| reachable_link u v :
    reachable seed_urls u -> link u v -> reachable seed_urls v.

(** With [popped] the URLs popped so far: the seen docnos are those of
    the URLs that entered the frontier; the linked docnos of every popped
    URL and those of the seeds are seen; and what entered the frontier is
    reachable. *)
Record explored (seed_urls popped : list string) (o : t) : Prop := mk_explored {
  same_docids : Fetcher.url2docids (Fetcher_ o) = Fetcher.url2docids s;
  same_docnos : Fetcher.url2docnos (Fetcher_ o) = Fetcher.url2docnos s;
  seen_entered :
    forall d, seen_docid d o ->
      exists u, u ∈ popped ++ FrontierContents.enqueued_urls (FrontierManager_ o) /\
                Fetcher.url2docno u s = Some d;
  links_seen :
    forall u v d, u ∈ popped -> link u v -> Fetcher.url2docno v s = Some d ->
      seen_docid d o;
  seeds_seen :
    forall u d, u ∈ seed_urls -> Fetcher.url2docno u s = Some d -> seen_docid d o;
  entered_reachable :
    forall u, u ∈ popped ++ FrontierContents.enqueued_urls (FrontierManager_ o) ->
      reachable seed_urls u
}.

End Graph.

End CrawlGraph.

(** ** Further examples *)

Module QueueExamples.

(** Two items put, the first lowered from 1/2 to 1/5, a third put at 4/5
    and taken out again. *)
Definition calls : list PQueueCalls.call :=
  [ PQueueCalls.Put "a" (1 # 2)%Q;
    PQueueCalls.Put "b" (3 # 10)%Q;
    PQueueCalls.Update "a" (1 # 5)%Q;
    PQueueCalls.Put "c" (4 # 5)%Q;
    PQueueCalls.Get ].

(** The queue these calls leave: "a" at 1/5 with one obsolete entry, "b" at
    3/10. *)
Definition after_calls : PQueuePriorityQueue.t :=
  {| PQueuePriorityQueue.queue :=
       [((- (1 # 2))%Q, "a"); ((- (3 # 10))%Q, "b"); ((- (1 # 5))%Q, "a")];
     PQueuePriorityQueue.deleted :=
       {[ "a" := {| PQueuePriorityQueue.priority := (- (1 # 5))%Q;
                    PQueuePriorityQueue.count := 1 |};
          "b" := {| PQueuePriorityQueue.priority := (- (3 # 10))%Q;
                    PQueuePriorityQueue.count := 0 |} ]};
     PQueuePriorityQueue.num_enqueued := 2;
     PQueuePriorityQueue.num_deleted := 1 |}.

End QueueExamples.

Module CrawlExamples.

(** A small web on the five pages of [Examples.url2docids]: "u1" links to
    "u2", "u3", itself and a URL outside the collection, "u2" links to "u3"
    and "u4", and the record of any other page cannot be decoded. *)
Definition outlinks_of (page : WebPage.t) : res (option (list string)) :=
  Ok (if decide (WebPage.url page = "u1") then Some ["u2"; "u3"; "u1"; "elsewhere"]
      else if decide (WebPage.url page = "u2") then Some ["u3"; "u4"]
      else None).

Definition score_of (id : option string) : option Q :=
  if decide (id = Some "d-en0000-00-00002") then Some (9 # 10)%Q else Some (1 # 2)%Q.

End CrawlExamples.

(** * Part II: facts *)

Lemma py_lt_iff a b : py_lt a b = true <-> (a < b)%Q.
Proof. unfold py_lt. rewrite Qlt_alt. destruct (a ?= b)%Q; split; congruence. Qed.

Lemma py_gt_lt a b : py_gt a b = py_lt b a.
Proof.
  unfold py_gt, py_lt. rewrite <- (Qcompare_antisym a b).
  destruct (a ?= b)%Q; reflexivity.
Qed.

Lemma py_ge_lt a b : py_ge a b = negb (py_lt a b).
Proof. unfold py_ge, py_lt. destruct (a ?= b)%Q; reflexivity. Qed.

(** [get] writes [_internal_priority (_external_priority p)] back into
    the table: the very same value. *)
Lemma internal_external_priority (p : Q) :
  PQueue._internal_priority (PQueue._external_priority p) = p.
Proof.
  destruct p as [n d]. unfold PQueue._internal_priority, PQueue._external_priority, Qopp.
  simpl. f_equal. apply Z.opp_involutive.
Qed.

Module HeapqFacts.
Import Heapq.

Lemma string_compare_trans_lt a b c :
  String.compare a b = Lt -> String.compare b c = Lt -> String.compare a c = Lt.
Proof.
  intros H1 H2.
  apply String_as_OT.cmp_lt in H1. apply String_as_OT.cmp_lt in H2.
  apply String_as_OT.cmp_lt. eapply String_as_OT.lt_trans; eassumption.
Qed.

Lemma string_compare_le_lt a b c :
  String.compare a b <> Lt -> String.compare a c = Lt -> String.compare b c = Lt.
Proof.
  intros H1 H2. destruct (String.compare a b) eqn:E.
  - apply String.compare_eq_iff in E. subst. assumption.
  - congruence.
  - rewrite String.compare_antisym in E.
    destruct (String.compare b a) eqn:E'; try discriminate.
    eapply string_compare_trans_lt; eassumption.
Qed.

Lemma entry_cmp_antisym a b : entry_cmp a b = CompOpp (entry_cmp b a).
Proof.
  unfold entry_cmp. rewrite <- (Qcompare_antisym (fst b) (fst a)).
  destruct (fst b ?= fst a)%Q; simpl; try reflexivity.
  apply String.compare_antisym.
Qed.

Lemma entry_ltb_irrefl a : entry_ltb a a = false.
Proof.
  unfold entry_ltb. pose proof (entry_cmp_antisym a a) as H.
  destruct (entry_cmp a a); try reflexivity; discriminate.
Qed.

Lemma entry_ltb_asym a b : entry_ltb a b = true -> entry_ltb b a = false.
Proof.
  unfold entry_ltb. rewrite (entry_cmp_antisym b a).
  destruct (entry_cmp a b); simpl; congruence.
Qed.

Lemma entry_ltb_fst a b : (fst a < fst b)%Q -> entry_ltb a b = true.
Proof.
  intros H. unfold entry_ltb, entry_cmp.
  destruct (Qcompare_spec (fst a) (fst b)); [exfalso; lra|reflexivity|exfalso; lra].
Qed.

(** [x <= d] and [d < m] give [x < m]. *)
Lemma entry_le_lt_trans d x m :
  entry_ltb d x = false -> entry_ltb d m = true -> entry_ltb x m = true.
Proof.
  unfold entry_ltb, entry_cmp. intros H1 H2.
  destruct (Qcompare_spec (fst d) (fst x)) as [A|A|A];
  destruct (Qcompare_spec (fst d) (fst m)) as [B|B|B];
  destruct (Qcompare_spec (fst x) (fst m)) as [C|C|C];
    try discriminate; try reflexivity; try (exfalso; lra).
  assert (String.compare (snd x) (snd m) = Lt) as ->; [|reflexivity].
  apply (string_compare_le_lt (snd d)).
  - destruct (String.compare (snd d) (snd x)); congruence.
  - destruct (String.compare (snd d) (snd m)); congruence.
Qed.

Lemma heap_min_in x l : heap_min x l ∈ x :: l.
Proof.
  revert x. induction l as [|y l IH]; intros x; simpl.
  - left.
  - specialize (IH (if entry_ltb y x then y else x)).
    destruct (entry_ltb y x).
    + right. exact IH.
    + apply elem_of_cons in IH as [->|IH]; [left|right; right; exact IH].
Qed.

Lemma heap_min_least x l y :
  y ∈ x :: l -> entry_ltb y (heap_min x l) = false.
Proof.
  revert x y. induction l as [|z l IH]; intros x y Hy; simpl.
  - apply list_elem_of_singleton in Hy. subst. apply entry_ltb_irrefl.
  - set (x' := if entry_ltb z x then z else x).
    assert (Hx' : entry_ltb x' (heap_min x' l) = false) by (apply IH; left).
    assert (Hd : forall d, d ∈ [x; z] -> entry_ltb d x' = false).
    { intros d Hd. subst x'. destruct (entry_ltb z x) eqn:Ezx.
      - apply elem_of_cons in Hd as [->|Hd].
        + apply entry_ltb_asym; assumption.
        + apply list_elem_of_singleton in Hd. subst. apply entry_ltb_irrefl.
      - apply elem_of_cons in Hd as [->|Hd].
        + apply entry_ltb_irrefl.
        + apply list_elem_of_singleton in Hd. subst. assumption. }
    assert (Hcase : y ∈ [x; z] \/ y ∈ l).
    { apply elem_of_cons in Hy as [->|Hy]; [left; left|].
      apply elem_of_cons in Hy as [->|Hy]; [left; right; left|right; exact Hy]. }
    destruct Hcase as [Hy'|Hy'].
    + destruct (entry_ltb y (heap_min x' l)) eqn:E; [|reflexivity].
      pose proof (entry_le_lt_trans _ _ _ (Hd y Hy') E). congruence.
    + apply IH. right. exact Hy'.
Qed.

Lemma remove_first_perm x l : x ∈ l -> x :: remove_first x l ≡ₚ l.
Proof.
  induction l as [|y l IH]; intros Hx; simpl.
  - inversion Hx.
  - destruct (decide (x = y)) as [->|Hne]; [reflexivity|].
    rewrite Permutation_swap. f_equiv. apply IH.
    apply elem_of_cons in Hx as [?|?]; [contradiction|assumption].
Qed.

(** The contract of [heappop]. *)
Lemma heappop_None h : heappop h = None <-> h = [].
Proof. destruct h; simpl; split; congruence. Qed.

Lemma heappop_Some h m rest :
  heappop h = Some (m, rest) ->
  m :: rest ≡ₚ h /\ forall y, y ∈ h -> entry_ltb y m = false.
Proof.
  destruct h as [|x l]; simpl; [discriminate|].
  intros [= <- <-]. split.
  - apply (remove_first_perm (heap_min x l) (x :: l)), heap_min_in.
  - intros y Hy. apply heap_min_least; assumption.
Qed.

Lemma heappop_length h m rest :
  heappop h = Some (m, rest) -> length h = S (length rest).
Proof.
  intros H. apply heappop_Some in H as [H _]. rewrite <- H. reflexivity.
Qed.


End HeapqFacts.

(** ** Size accounting *)

Module PQueueHeapFacts.
Import Heapq PQueue PQueueHeap.

Lemma heap_put_enqueued item p q : enqueued (put item p q) = enqueued q + 1.
Proof. unfold enqueued, put, heappush. simpl. rewrite length_app. simpl. lia. Qed.

Lemma heap_update_enqueued item p q : enqueued (update item p q) = enqueued q.
Proof.
  unfold enqueued, update.
  destruct (find_item (queue q) item 0) as [[i e]|]; [|reflexivity].
  destruct (py_lt _ _); [|reflexivity].
  simpl. unfold heapify. rewrite length_insert. reflexivity.
Qed.

Lemma heap_get_enqueued q r q' : get q = Ok (r, q') -> enqueued q' = enqueued q - 1.
Proof.
  unfold get, enqueued. destruct (heappop (queue q)) as [[e rest]|] eqn:E; [|discriminate].
  intros [= <- <-]. simpl. apply HeapqFacts.heappop_length in E. lia.
Qed.

End PQueueHeapFacts.

Module PQueuePriorityQueueFacts.
Import Heapq PQueue PQueuePriorityQueue.

Lemma pq_put_enqueued item p q q' :
  put item p q = Ok q' -> enqueued q' = enqueued q + 1.
Proof.
  unfold put. destruct (deleted q !! item); [discriminate|].
  intros [= <-]. reflexivity.
Qed.

Lemma mark_deleted_enqueued item p q q' :
  _mark_deleted item p q = Ok q' -> num_enqueued q' = num_enqueued q.
Proof.
  unfold _mark_deleted. destruct (deleted q !! item) as [[op oc]|]; [|discriminate].
  destruct (py_ge _ _); intros [= <-]; reflexivity.
Qed.

(** A successful [get] takes exactly one URL off the count, however many
    obsolete entries it throws away on the way. *)
Lemma get_loop_enqueued fuel q r q' :
  get_loop fuel q = Ok (r, q') -> enqueued q' = enqueued q - 1.
Proof.
  revert q. induction fuel as [|fuel IH]; intros q; simpl; [discriminate|].
  destruct (heappop (queue q)) as [[[ip item] rest]|]; [|discriminate].
  destruct (deleted q !! item) as [[mp c]|]; [|discriminate].
  destruct (py_gt _ _).
  - intros H. apply IH in H. exact H.
  - intros [= <- <-]. reflexivity.
Qed.

Lemma pq_get_enqueued q r q' : get q = Ok (r, q') -> enqueued q' = enqueued q - 1.
Proof. apply get_loop_enqueued. Qed.

Lemma cleanup_deleted_enqueued q q' :
  _cleanup_deleted q = Ok q' -> enqueued q' = enqueued q.
Proof.
  unfold _cleanup_deleted.
  destruct (cleanup_loop _ _ _ _) as [[nq nd]|]; simpl; [|discriminate].
  intros [= <-]. reflexivity.
Qed.

(** [update] never changes the count: neither an accepted update nor a
    compaction does. *)
Lemma pq_update_enqueued item p q b q' :
  update item p q = Ok (b, q') -> enqueued q' = enqueued q.
Proof.
  unfold update. destruct (deleted q !! item) as [s|]; [|intros [= <- <-]; reflexivity].
  destruct (py_gt _ _).
  - destruct (_mark_deleted item p q) as [q1|] eqn:E; simpl; [|discriminate].
    apply mark_deleted_enqueued in E.
    match goal with |- context [if ?c then _ else _] => destruct c end; simpl.
    + destruct (_cleanup_deleted _) as [q2|] eqn:E2; simpl; [|discriminate].
      intros [= <- <-]. apply cleanup_deleted_enqueued in E2.
      rewrite E2. exact E.
    + intros [= <- <-]. exact E.
  - simpl. match goal with |- context [if ?c then _ else _] => destruct c end; simpl.
    + destruct (_cleanup_deleted _) as [q2|] eqn:E2; simpl; [|discriminate].
      intros [= <- <-]. apply cleanup_deleted_enqueued in E2. exact E2.
    + intros [= <- <-]. reflexivity.
Qed.


End PQueuePriorityQueueFacts.

Module FrontierFacts.
Import FrontierManager.

Lemma quality_put_enqueued item p q q' :
  QualityFrontierManager.queue_put item p q = Ok q' ->
  QualityFrontierManager.queue_enqueued q' = QualityFrontierManager.queue_enqueued q + 1.
Proof.
  destruct q as [u|h]; simpl.
  - destruct (PQueuePriorityQueue.put item p u) as [u'|] eqn:E; simpl; [|discriminate].
    intros [= <-]. simpl. eapply PQueuePriorityQueueFacts.pq_put_enqueued; eassumption.
  - intros [= <-]. simpl. apply PQueueHeapFacts.heap_put_enqueued.
Qed.

Lemma quality_add_seed_enqueued url docid f f' :
  QualityFrontierManager.add_with_max_priority url docid f = Ok f' ->
  QualityFrontierManager.enqueued f' = QualityFrontierManager.enqueued f + 1.
Proof.
  unfold QualityFrontierManager.add_with_max_priority, QualityFrontierManager.enqueued.
  destruct (QualityFrontierManager.queue_put _ _ _) as [q'|] eqn:E; simpl; [|discriminate].
  intros [= <-]. simpl. eapply quality_put_enqueued; eassumption.
Qed.

Lemma quality_add_enqueued page father f f' :
  QualityFrontierManager.add page father f = Ok f' ->
  QualityFrontierManager.enqueued f' = QualityFrontierManager.enqueued f + 1.
Proof.
  unfold QualityFrontierManager.add. destruct father as [fa|].
  - destruct (QualityFrontierManager.oracle f); [|discriminate].
    destruct (WebPage.get_qscore page) as [[p|]|]; simpl; try discriminate.
    + destruct (QualityFrontierManager.queue_put _ _ _) as [q'|] eqn:E; simpl; [|discriminate].
      intros [= <-]. apply quality_put_enqueued in E. exact E.
    + destruct (QualityFrontierManager.queue_put _ _ _) as [q'|] eqn:E; simpl; [|discriminate].
      intros [= <-]. apply quality_put_enqueued in E. exact E.
  - destruct (QualityFrontierManager.add_with_max_priority _ _ _) as [f1|] eqn:E;
      simpl; [|discriminate].
    intros [= <-]. apply quality_add_seed_enqueued in E. exact E.
Qed.

Lemma quality_update_enqueued page father f b f' :
  QualityFrontierManager.update page father f = Ok (b, f') ->
  QualityFrontierManager.enqueued f' = QualityFrontierManager.enqueued f.
Proof.
  unfold QualityFrontierManager.update.
  match goal with |- context [mbind _ ?m] => destruct m as [pr|] end; simpl; [|discriminate].
  destruct (QualityFrontierManager.queue_update _ _ _) as [[b' q']|] eqn:E; simpl; [|discriminate].
  intros [= <- <-]. unfold QualityFrontierManager.enqueued. simpl.
  destruct (QualityFrontierManager.queue f) as [u|h]; simpl in E.
  - destruct (PQueuePriorityQueue.update _ _ u) as [[b'' u']|] eqn:E'; simpl in E; [|discriminate].
    simplify_eq/=. eapply PQueuePriorityQueueFacts.pq_update_enqueued; eassumption.
  - simplify_eq/=. apply PQueueHeapFacts.heap_update_enqueued.
Qed.

Lemma quality_pop_enqueued f u f' :
  QualityFrontierManager.pop f = Ok (u, f') ->
  QualityFrontierManager.enqueued f' = QualityFrontierManager.enqueued f - 1.
Proof.
  unfold QualityFrontierManager.pop.
  destruct (QualityFrontierManager.enqueued f =? 0); [discriminate|].
  destruct (QualityFrontierManager.queue_get _) as [[[u' p] q']|] eqn:E; simpl; [|discriminate].
  intros [= <- <-]. unfold QualityFrontierManager.enqueued. simpl.
  destruct (QualityFrontierManager.queue f) as [uq|h]; simpl in E.
  - destruct (PQueuePriorityQueue.get uq) as [[r uq']|] eqn:E'; simpl in E; [|discriminate].
    simplify_eq/=. eapply PQueuePriorityQueueFacts.pq_get_enqueued; eassumption.
  - destruct (PQueueHeap.get h) as [[r h']|] eqn:E'; simpl in E; [|discriminate].
    simplify_eq/=. eapply PQueueHeapFacts.heap_get_enqueued; eassumption.
Qed.

Lemma random_pop_enqueued r f u f' :
  RandomFrontierManager.pop r f = Ok (u, f') ->
  RandomFrontierManager.enqueued f' = RandomFrontierManager.enqueued f - 1.
Proof.
  unfold RandomFrontierManager.pop, RandomFrontierManager.enqueued.
  destruct (length (RandomFrontierManager.queue f)) as [|n] eqn:El; [discriminate|].
  destruct (_ !! _) as [x|]; [|discriminate].
  destruct (_ !! _) as [y|]; [|discriminate].
  intros [= <- <-]. simpl. rewrite length_take, !length_insert, El. lia.
Qed.

Lemma bfs_pop_enqueued f u f' :
  BreadthFirstSearchFrontierManager.pop f = Ok (u, f') ->
  BreadthFirstSearchFrontierManager.enqueued f'
  = BreadthFirstSearchFrontierManager.enqueued f - 1.
Proof.
  unfold BreadthFirstSearchFrontierManager.pop, BreadthFirstSearchFrontierManager.enqueued.
  destruct (BreadthFirstSearchFrontierManager.queue f) as [|x l]; [discriminate|].
  intros [= <- <-]. simpl. lia.
Qed.

Lemma dfs_pop_enqueued f u f' :
  DepthFirstSearchFrontierManager.pop f = Ok (u, f') ->
  DepthFirstSearchFrontierManager.enqueued f'
  = DepthFirstSearchFrontierManager.enqueued f - 1.
Proof.
  unfold DepthFirstSearchFrontierManager.pop, DepthFirstSearchFrontierManager.enqueued.
  destruct (last (DepthFirstSearchFrontierManager.queue f)) as [x|] eqn:E; [|discriminate].
  intros [= <- <-]. simpl. rewrite length_take.
  destruct (DepthFirstSearchFrontierManager.queue f); [discriminate|]. simpl. lia.
Qed.

Lemma step_enqueued f o out f' :
  step f o = Ok (out, f') ->
  enqueued f' = enqueued f + delta o /\ (is_Some out <-> is_pop o = true).
Proof.
  destruct o as [page father|url docid|page father|r]; unfold delta; simpl.
  - destruct (add page father f) as [f1|] eqn:E; simpl; [|discriminate].
    intros [= <- <-]. split; [|split; [intros [? ?]|]; discriminate].
    destruct f as [g|g|g|g]; simpl in E.
    + simplify_eq/=. unfold RandomFrontierManager.enqueued. simpl.
      rewrite length_app. simpl. lia.
    + destruct (QualityFrontierManager.add _ _ _) as [g'|] eqn:E'; simpl in E; [|discriminate].
      simplify_eq/=. apply quality_add_enqueued in E'. lia.
    + simplify_eq/=. unfold BreadthFirstSearchFrontierManager.enqueued. simpl.
      rewrite length_app. simpl. lia.
    + simplify_eq/=. unfold DepthFirstSearchFrontierManager.enqueued. simpl.
      rewrite length_app. simpl. lia.
  - destruct (add_with_max_priority url docid f) as [f1|] eqn:E; simpl; [|discriminate].
    intros [= <- <-]. split; [|split; [intros [? ?]|]; discriminate].
    destruct f as [g|g|g|g]; simpl in E.
    + simplify_eq/=. unfold RandomFrontierManager.enqueued. simpl.
      rewrite length_app. simpl. lia.
    + destruct (QualityFrontierManager.add_with_max_priority _ _ _) as [g'|] eqn:E';
        simpl in E; [|discriminate].
      simplify_eq/=. apply quality_add_seed_enqueued in E'. lia.
    + simplify_eq/=. unfold BreadthFirstSearchFrontierManager.enqueued. simpl.
      rewrite length_app. simpl. lia.
    + simplify_eq/=. unfold DepthFirstSearchFrontierManager.enqueued. simpl.
      rewrite length_app. simpl. lia.
  - destruct (update page father f) as [[b f1]|] eqn:E; simpl; [|discriminate].
    intros [= <- <-]. split; [|split; [intros [? ?]|]; discriminate].
    destruct f as [g|g|g|g]; simpl in E.
    + simplify_eq/=. unfold RandomFrontierManager.update. lia.
    + destruct (QualityFrontierManager.update _ _ _) as [[b' g']|] eqn:E'; simpl in E; [|discriminate].
      simplify_eq/=. apply quality_update_enqueued in E'. lia.
    + simplify_eq/=. unfold BreadthFirstSearchFrontierManager.update. lia.
    + simplify_eq/=. unfold DepthFirstSearchFrontierManager.update. lia.
  - destruct (pop r f) as [[u f1]|] eqn:E; simpl; [|discriminate].
    intros [= <- <-]. split; [|split; eauto].
    destruct f as [g|g|g|g]; simpl in E.
    + destruct (RandomFrontierManager.pop r g) as [[u' g']|] eqn:E'; simpl in E; [|discriminate].
      simplify_eq/=. apply random_pop_enqueued in E'. lia.
    + destruct (QualityFrontierManager.pop g) as [[u' g']|] eqn:E'; simpl in E; [|discriminate].
      simplify_eq/=. apply quality_pop_enqueued in E'. lia.
    + destruct (BreadthFirstSearchFrontierManager.pop g) as [[u' g']|] eqn:E'; simpl in E; [|discriminate].
      simplify_eq/=. apply bfs_pop_enqueued in E'. lia.
    + destruct (DepthFirstSearchFrontierManager.pop g) as [[u' g']|] eqn:E'; simpl in E; [|discriminate].
      simplify_eq/=. apply dfs_pop_enqueued in E'. lia.
Qed.

Lemma run_enqueued ops : forall f out f',
  run f ops = Ok (out, f') ->
  length out = num_pops ops /\
  enqueued f' = enqueued f + Z.of_nat (length (added_urls ops)) - Z.of_nat (length out).
Proof.
  induction ops as [|o ops IH]; intros f out f'; simpl.
  - intros [= <- <-]. simpl. split; [reflexivity|lia].
  - destruct (step f o) as [[o1 f1]|] eqn:E; simpl; [|discriminate].
    destruct (run f1 ops) as [[outs f2]|] eqn:E2; simpl; [|discriminate].
    intros [= <- <-]. apply step_enqueued in E as [E Ho]. apply IH in E2 as [L E2].
    unfold num_pops, added_urls, delta in *.
    destruct o as [page father|url docid|page father|r]; simpl in *;
      destruct o1 as [u|]; simpl;
      try (exfalso; destruct Ho as [Ho1 Ho2]; (discriminate (Ho1 (mk_is_Some _ _ eq_refl)) || (destruct (Ho2 eq_refl) as [? ?]; discriminate)));
      rewrite ?filter_cons_True, ?filter_cons_False by (simpl; auto); simpl;
      split; try lia.
Qed.

Lemma init_enqueued frontier_type updates f0 :
  init_frontier_manager frontier_type updates = Ok f0 -> enqueued f0 = 0.
Proof.
  unfold init_frontier_manager.
  repeat case_decide; simpl; try discriminate; try (intros [= <-]; reflexivity).
  destruct updates; intros [= <-]; reflexivity.
Qed.

End FrontierFacts.

Module PQueueUpdateFacts.
Import Heapq PQueue PQueuePriorityQueue.

Lemma pq_update_untracked item p q :
  deleted q !! item = None -> update item p q = Ok (false, q).
Proof. intros H. unfold update. rewrite H. reflexivity. Qed.

(** What [update] does to a tracked item while no compaction is due: the
    new priority goes through exactly when it is strictly lower than the
    recorded one. *)
Lemma pq_update_tracked item p q s :
  deleted q !! item = Some s ->
  num_deleted q < MAX_DELETED_THRESHOLD ->
  update item p q =
  Ok (true,
      if py_lt p (_external_priority (priority s))
      then {| queue := heappush (queue q) (_internal_priority p, item);
              deleted := <[item := {| priority := _internal_priority p;
                                      count := count s + 1 |}]> (deleted q);
              num_enqueued := num_enqueued q;
              num_deleted := num_deleted q + 1 |}
      else q).
Proof.
  intros H Hn. unfold update, _mark_deleted. rewrite H.
  rewrite py_gt_lt. destruct s as [op oc]. simpl.
  destruct (py_lt p (_external_priority op)) eqn:E; simpl.
  - rewrite py_ge_lt, E. simpl.
    destruct (Z.gtb_spec (num_deleted q + 1) MAX_DELETED_THRESHOLD); [lia|].
    reflexivity.
  - destruct (Z.gtb_spec (num_deleted q) MAX_DELETED_THRESHOLD); [lia|].
    reflexivity.
Qed.

(** So the priority recorded for an item never goes up. *)
Lemma pq_update_priority_nonincreasing item p q s :
  deleted q !! item = Some s ->
  num_deleted q < MAX_DELETED_THRESHOLD ->
  exists q' s',
    update item p q = Ok (true, q') /\
    deleted q' !! item = Some s' /\
    (_external_priority (priority s') <= _external_priority (priority s))%Q.
Proof.
  intros H Hn. rewrite (pq_update_tracked item p q s H Hn).
  destruct (py_lt p (_external_priority (priority s))) eqn:E.
  - eexists _, _. split; [reflexivity|]. simpl. rewrite lookup_insert_eq.
    split; [reflexivity|]. simpl. apply py_lt_iff in E.
    unfold _external_priority, _internal_priority in *. lra.
  - exists q, s. split; [reflexivity|]. split; [exact H|]. apply Qle_refl.
Qed.

Lemma pq_update_true_iff_tracked item p q b q' :
  update item p q = Ok (b, q') -> (b = true <-> is_Some (deleted q !! item)).
Proof.
  unfold update. destruct (deleted q !! item) as [s|].
  - match goal with |- context [mbind _ ?m] => destruct m as [q1|] end; simpl; [|discriminate].
    match goal with |- context [mbind _ ?m] => destruct m as [q2|] end; simpl; [|discriminate].
    intros [= <- <-]. split; eauto.
  - intros [= <- <-]. split; [discriminate|]. intros [? ?]; discriminate.
Qed.

End PQueueUpdateFacts.

Module PQueueHeapUpdateFacts.
Import Heapq PQueue PQueueHeap.

Lemma find_item_Some l item i0 i e :
  find_item l item i0 = Some (i, e) ->
  (i0 <= i)%nat /\ l !! (i - i0)%nat = Some e /\ snd e = item.
Proof.
  revert i0. induction l as [|x l IH]; intros i0; simpl; [discriminate|].
  destruct (decide (snd x = item)) as [Heq|Hne].
  - intros [= <- <-]. rewrite Nat.sub_diag. auto.
  - intros H. apply IH in H as (Hle & Hl & He).
    split; [lia|]. split; [|exact He].
    replace (i - i0)%nat with (S (i - S i0)) by lia. exact Hl.
Qed.

Lemma find_item_None l item i0 :
  find_item l item i0 = None -> forall e, e ∈ l -> snd e <> item.
Proof.
  revert i0. induction l as [|x l IH]; intros i0; simpl.
  - intros _ e He. inversion He.
  - destruct (decide (snd x = item)) as [Heq|Hne]; [discriminate|].
    intros H e He. apply elem_of_cons in He as [->|He]; [exact Hne|].
    eapply IH; eassumption.
Qed.

(** Replacing the entry at a position, as a multiset. *)
Lemma insert_replaces (l : list entry) i e x :
  l !! i = Some e -> e :: <[i := x]> l ≡ₚ x :: l.
Proof.
  revert i. induction l as [|y l IH]; intros i; [discriminate|].
  destruct i as [|i]; simpl.
  - intros [= ->]. apply Permutation_swap.
  - intros H. rewrite Permutation_swap. rewrite (IH i H). apply Permutation_swap.
Qed.

(** The entry [find_item] returns is the first of the item's entries. *)
Lemma find_item_filter l item i0 :
  match find_item l item i0 with
  | None => filter (fun e => snd e = item) l = []
  | Some (_, e) => exists rest, filter (fun e => snd e = item) l = e :: rest
  end.
Proof.
  revert i0. induction l as [|x l IH]; intros i0; simpl; [reflexivity|].
  destruct (decide (snd x = item)) as [Heq|Hne].
  - rewrite filter_cons_True by exact Heq. eauto.
  - rewrite filter_cons_False by exact Hne. apply IH.
Qed.

(** What [update] does to the entries, whichever entry of the item the
    scan meets first: nothing, or one entry of the item that lies strictly
    below the new priority is raised to it. *)
Lemma heap_update_entries item p q :
  update item p q = q \/
  exists i e,
    find_item (queue q) item 0 = Some (i, e) /\
    e ∈ queue q /\ snd e = item /\ (_external_priority (fst e) < p)%Q /\
    queue (update item p q) = <[i := (_internal_priority p, item)]> (queue q) /\
    num_enqueued (update item p q) = num_enqueued q /\
    e :: queue (update item p q) ≡ₚ (_internal_priority p, item) :: queue q.
Proof.
  unfold update.
  destruct (find_item (queue q) item 0) as [[i e]|] eqn:E; [|left; reflexivity].
  destruct (py_lt _ _) eqn:L; [|left; reflexivity].
  right. exists i, e. apply py_lt_iff in L.
  apply find_item_Some in E as (_ & Hl & He). rewrite Nat.sub_0_r in Hl.
  split; [reflexivity|]. split; [eapply list_elem_of_lookup_2; exact Hl|].
  split; [exact He|]. split; [exact L|]. simpl. unfold heapify.
  split; [reflexivity|]. split; [reflexivity|]. apply insert_replaces. exact Hl.
Qed.

End PQueueHeapUpdateFacts.


Module QualityHeapFacts.
Import Heapq QualityFrontierManager.

Lemma heap_pop_unfold f h :
  queue f = Heap h ->
  pop f =
  match heappop (PQueueHeap.queue h) with
  | None => Raise IndexError
  | Some (m, rest) =>
      Ok (snd m, with_queue f (Heap {| PQueueHeap.queue := rest;
                                       PQueueHeap.num_enqueued := PQueueHeap.num_enqueued h |}))
  end.
Proof.
  intros Hq. unfold pop, enqueued. rewrite Hq. simpl.
  unfold PQueueHeap.enqueued, PQueueHeap.get.
  destruct (PQueueHeap.queue h) as [|x l] eqn:E; [reflexivity|].
  replace (Z.of_nat (length (x :: l)) =? 0) with false
    by (symmetry; apply Z.eqb_neq; simpl; lia).
  reflexivity.
Qed.

Lemma heappop_elem_of h m rest x :
  heappop h = Some (m, rest) -> x ∈ h <-> x = m \/ x ∈ rest.
Proof.
  intros H. apply HeapqFacts.heappop_Some in H as [H _].
  rewrite <- H. apply elem_of_cons.
Qed.

(** While an entry [e1] is in the heap and every entry of [u2] has a
    strictly larger internal priority, no [pop] returns [u2] before some
    [pop] has returned the URL of [e1]. *)
Lemma pop_many_order n : forall f h e1 u2,
  queue f = Heap h ->
  e1 ∈ PQueueHeap.queue h ->
  snd e1 <> u2 ->
  (forall e, e ∈ PQueueHeap.queue h -> snd e = u2 -> (fst e1 < fst e)%Q) ->
  forall out f', pop_many n f = (out, f') ->
  u2 ∈ out -> returned_before (snd e1) u2 out.
Proof.
  induction n as [|n IH]; intros f h e1 u2 Hq He1 Hne Hall out f'; simpl.
  - intros [= <- <-] Hin. inversion Hin.
  - rewrite (heap_pop_unfold f h Hq).
    destruct (heappop (PQueueHeap.queue h)) as [[m rest]|] eqn:E.
    2:{ intros [= <- <-] Hin. inversion Hin. }
    destruct (pop_many n _) as [us f''] eqn:Epm.
    intros [= <- <-] Hin.
    destruct (decide (snd m = snd e1)) as [Hm|Hm].
    + exists [], us. rewrite Hm. split; [reflexivity|]. intros Hbad. inversion Hbad.
    + assert (He1' : e1 ∈ rest).
      { destruct (proj1 (heappop_elem_of _ _ _ e1 E) He1) as [Heq|?]; [congruence|assumption]. }
      assert (Hm2 : snd m <> u2).
      { intros Hm2.
        assert (Hm_in : m ∈ PQueueHeap.queue h)
          by (apply (heappop_elem_of _ _ _ m E); left; reflexivity).
        pose proof (Hall m Hm_in Hm2) as Hlt.
        apply HeapqFacts.entry_ltb_fst in Hlt.
        apply HeapqFacts.heappop_Some in E as [_ Hmin].
        rewrite (Hmin e1 He1) in Hlt. discriminate. }
      apply elem_of_cons in Hin as [Hin|Hin]; [congruence|].
      eapply (IH _ _ e1 u2) in Epm; [| reflexivity | exact He1' | exact Hne | | exact Hin].
      * destruct Epm as (l1 & l2 & -> & Hl1).
        exists (snd m :: l1), l2. split; [reflexivity|].
        intros Hbad. apply elem_of_cons in Hbad as [Hbad|Hbad]; [congruence|auto].
      * simpl. intros e He. apply Hall.
        apply (heappop_elem_of _ _ _ e E). right. exact He.
Qed.

(** Enough pops return every URL in the heap. *)
Lemma pop_many_complete n : forall f h e,
  queue f = Heap h ->
  (length (PQueueHeap.queue h) <= n)%nat ->
  e ∈ PQueueHeap.queue h ->
  forall out f', pop_many n f = (out, f') -> snd e ∈ out.
Proof.
  induction n as [|n IH]; intros f h e Hq Hlen He out f'; simpl.
  - destruct (PQueueHeap.queue h); [inversion He|simpl in Hlen; lia].
  - rewrite (heap_pop_unfold f h Hq).
    destruct (heappop (PQueueHeap.queue h)) as [[m rest]|] eqn:E.
    2:{ apply HeapqFacts.heappop_None in E. rewrite E in He. inversion He. }
    destruct (pop_many n _) as [us f''] eqn:Epm.
    intros [= <- <-].
    destruct (proj1 (heappop_elem_of _ _ _ e E) He) as [Heq|He'].
    + rewrite Heq. left.
    + right. eapply (IH _ _ e) in Epm; [exact Epm | reflexivity | | exact He'].
      simpl. apply HeapqFacts.heappop_length in E. lia.
Qed.

(** [add] under a parent on the heap frontier: the URL goes in at the
    page's priority. *)
Lemma heap_add_child f h page fa p :
  queue f = Heap h -> oracle f = true -> page_priority page = Ok p ->
  exists f', add page (Some fa) f = Ok f' /\
             queue f' = Heap (PQueueHeap.put (WebPage.url page) p h) /\
             oracle f' = true.
Proof.
  intros Hq Ho Hp. unfold add, page_priority in *. rewrite Ho.
  destruct (WebPage.get_qscore page) as [[q|]|]; simpl in *; try discriminate;
    injection Hp as <-; rewrite Hq; simpl; eexists; (split; [reflexivity|]);
    simpl; auto.
Qed.

Lemma heap_add_seed f h page :
  queue f = Heap h ->
  exists f', add page None f = Ok f' /\
             queue f' = Heap (PQueueHeap.put (WebPage.url page) MAX_PRIORITY h).
Proof.
  intros Hq. unfold add, add_with_max_priority. rewrite Hq. simpl.
  eexists. split; reflexivity.
Qed.

End QualityHeapFacts.


Module ParserFacts.
Import Parser.

Lemma first_seen_elem_of l x : x ∈ first_seen l <-> x ∈ l.
Proof.
  induction l as [|u l IH]; simpl; [reflexivity|].
  rewrite !elem_of_cons, list_elem_of_filter, IH.
  destruct (decide (x = u)); intuition.
Qed.

Lemma first_seen_NoDup l : NoDup (first_seen l).
Proof.
  induction l as [|u l IH]; simpl; constructor.
  - rewrite list_elem_of_filter. intros [H _]. congruence.
  - apply NoDup_filter. exact IH.
Qed.

Lemma first_seen_sublist l : first_seen l `sublist_of` l.
Proof.
  induction l as [|u l IH]; simpl; [constructor|].
  apply sublist_skip. etransitivity; [apply sublist_filter|exact IH].
Qed.

Lemma filter_not_in_nil (l : list string) : filter (fun v => v ∉ @nil string) l = l.
Proof.
  induction l as [|x l IH]; [reflexivity|].
  rewrite filter_cons_True by (intros H; inversion H). rewrite IH. reflexivity.
Qed.


(** The loop, with what it has collected so far. *)
Lemma clean_links_loop_spec url links : forall cleaned,
  Forall (fun link => is_Some (link !! URL_INDEX)) links ->
  clean_links_loop links url cleaned =
  Ok (cleaned ++ filter (fun v => v ∉ cleaned)
                   (clean_links_spec (omap (fun link => link !! URL_INDEX) links) url)).
Proof.
  unfold clean_links_spec.
  induction links as [|link links IH]; intros cleaned Hall; simpl.
  - rewrite app_nil_r. reflexivity.
  - inversion Hall as [|? ? [u Hu] Hall']; subst. rewrite Hu.
    destruct (decide (u = url)) as [->|Hne].
    + rewrite bool_decide_eq_false_2 by auto. simpl.
      rewrite filter_cons_False by auto. apply IH; assumption.
    + rewrite (bool_decide_eq_true_2 (u ≠ url)) by assumption. simpl.
      rewrite filter_cons_True by assumption. simpl.
      destruct (decide (u ∈ cleaned)) as [Hin|Hnin].
      * rewrite bool_decide_eq_false_2 by auto.
        rewrite IH by assumption. f_equal. f_equal.
        rewrite filter_cons_False by auto.
        rewrite list_filter_filter. apply list_filter_iff.
        intros v. split; [|tauto]. intros Hv. split; [exact Hv|congruence].
      * rewrite bool_decide_eq_true_2 by assumption.
        rewrite IH by assumption. rewrite <- app_assoc. simpl. f_equal. f_equal.
        rewrite filter_cons_True by assumption. f_equal.
        rewrite list_filter_filter. apply list_filter_iff.
        intros v. rewrite elem_of_app, list_elem_of_singleton. tauto.
Qed.

End ParserFacts.

Module SeenFacts.
Import BitArraySeenURLTester.

Lemma count_replicate_false n :
  length (filter (fun b : bool => b = true) (replicate n false)) = 0%nat.
Proof.
  induction n as [|n IH]; simpl; [reflexivity|].
  rewrite filter_cons_False by discriminate. exact IH.
Qed.

Lemma out_of_range_guard d s :
  d < 0 \/ capacity s <= d -> (d >=? capacity s) || (d <? 0) = true.
Proof.
  intros [H|H]; apply orb_true_iff.
  - right. apply Z.ltb_lt. exact H.
  - left. apply Z.geb_le. lia.
Qed.

Lemma in_range_guard d s :
  0 <= d < capacity s -> (d >=? capacity s) || (d <? 0) = false.
Proof.
  intros [H1 H2]. apply orb_false_iff. split.
  - destruct (Z.geb_spec d (capacity s)); [lia|reflexivity].
  - apply Z.ltb_ge. exact H1.
Qed.

End SeenFacts.


Module UtilsFacts.
Import Utils.

Section ShardFacts.
Context {json : Type}.
Variable py_int : string -> option Z.
Variable gunzip_decode : string -> res string.
Variable json_loads : string -> option json.
Variable path_join : string -> string -> string -> string.

Lemma read_offsets_missing fs file_path i :
  fs !! file_path = None ->
  read_offsets py_int fs file_path i = Raise FileNotFoundError.
Proof. intros H. unfold read_offsets. rewrite H. reflexivity. Qed.

Lemma random_read_missing fs file_path start_offset end_offset :
  fs !! file_path = None ->
  random_read_json_gz gunzip_decode json_loads fs file_path start_offset end_offset
  = Raise FileNotFoundError.
Proof. intros H. unfold random_read_json_gz. rewrite H. reflexivity. Qed.

(** The only way to [None]: the bytes are read, they decompress and
    decode, and [json.loads] rejects the text. *)
Lemma random_read_None fs file_path start_offset end_offset :
  random_read_json_gz gunzip_decode json_loads fs file_path start_offset end_offset
  = Ok None <->
  exists content bytes text,
    fs !! file_path = Some content /\ 0 <= start_offset /\
    read_span content start_offset end_offset = Ok bytes /\
    gunzip_decode bytes = Ok text /\
    json_loads text = None.
Proof.
  unfold random_read_json_gz. destruct (fs !! file_path) as [content|].
  - destruct (Z.ltb_spec start_offset 0) as [Hneg|Hpos].
    + split; [discriminate|]. intros (? & ? & ? & _ & ? & _). lia.
    + destruct (read_span content start_offset end_offset) as [bytes|e0] eqn:Er; simpl.
      * destruct (gunzip_decode bytes) as [text|e] eqn:E; simpl.
        -- split.
           ++ intros [= H]. exists content, bytes, text. auto.
           ++ intros (c & b & t & [= <-] & _ & Hb & Ht & Hj).
              rewrite Er in Hb. injection Hb as <-. rewrite E in Ht.
              injection Ht as <-. rewrite Hj. reflexivity.
        -- split; [discriminate|]. intros (c & b & t & [= <-] & _ & Hb & Ht & _).
           rewrite Er in Hb. injection Hb as <-. rewrite E in Ht. discriminate.
      * split; [discriminate|]. intros (c & b & t & [= <-] & _ & Hb & _).
        rewrite Er in Hb. discriminate.
  - split; [discriminate|]. intros (? & ? & ? & ? & _). discriminate.
Qed.

(** A read length below [-1] is refused. *)
Lemma random_read_negative_length fs file_path content start_offset end_offset :
  fs !! file_path = Some content ->
  0 <= start_offset ->
  end_offset - start_offset < -1 ->
  random_read_json_gz gunzip_decode json_loads fs file_path start_offset
    (Some end_offset) = Raise ValueError.
Proof.
  intros Hfs Hs He. unfold random_read_json_gz, read_span. rewrite Hfs.
  destruct (Z.ltb_spec start_offset 0) as [?|_]; [lia|].
  destruct (Z.ltb_spec (end_offset - start_offset) (-1)) as [_|?]; [reflexivity|lia].
Qed.

End ShardFacts.

End UtilsFacts.


Module FuelFacts.
Import Heapq.

(** [get] never stops for want of fuel: more fuel than the length of the
    queue changes nothing. *)
Lemma get_loop_fuel n : forall q extra,
  length (PQueuePriorityQueue.queue q) = n ->
  PQueuePriorityQueue.get_loop (n + extra) q = PQueuePriorityQueue.get_loop n q.
Proof.
  induction n as [|n IH]; intros q extra Hlen.
  - destruct (PQueuePriorityQueue.queue q) as [|x l] eqn:E; [|discriminate].
    destruct extra as [|extra]; [reflexivity|]. simpl. rewrite E. reflexivity.
  - change (S n + extra)%nat with (S (n + extra)).
    cbn [PQueuePriorityQueue.get_loop].
    destruct (heappop (PQueuePriorityQueue.queue q)) as [[[ip item] rest]|] eqn:E;
      [|reflexivity].
    destruct (PQueuePriorityQueue.deleted q !! item) as [[mp c]|]; [|reflexivity].
    destruct (py_gt _ _); [|reflexivity].
    apply IH. simpl. apply HeapqFacts.heappop_length in E. lia.
Qed.

Lemma get_enough_fuel q fuel :
  (length (PQueuePriorityQueue.queue q) <= fuel)%nat ->
  PQueuePriorityQueue.get_loop fuel q = PQueuePriorityQueue.get q.
Proof.
  intros H. unfold PQueuePriorityQueue.get.
  replace fuel with (length (PQueuePriorityQueue.queue q)
                     + (fuel - length (PQueuePriorityQueue.queue q)))%nat by lia.
  apply get_loop_fuel. reflexivity.
Qed.

(** The reader stops at a missing chunk before its fuel runs out. *)
Lemma load_loop_fuel files limit fuel : forall chunk_idx acc extra,
  (exists j, chunk_idx <= j < chunk_idx + Z.of_nat fuel /\ files !! j = None) ->
  DatasetIR.load_loop (fuel + extra) files limit chunk_idx acc
  = DatasetIR.load_loop fuel files limit chunk_idx acc.
Proof.
  induction fuel as [|fuel IH]; intros k acc extra (j & Hj & Hnone).
  - lia.
  - change (S fuel + extra)%nat with (S (fuel + extra)).
    cbn [DatasetIR.load_loop].
    destruct (files !! k) as [chunk|] eqn:E; [|reflexivity].
    destruct (DatasetIR.limit_reached _ _); [reflexivity|].
    apply IH. exists j. split; [|exact Hnone].
    assert (j <> k) by congruence. lia.
Qed.

Lemma missing_chunk_exists (files : gmap Z (list (option Z))) (k : Z) :
  exists j, k <= j < k + Z.of_nat (S (size files)) /\ files !! j = None.
Proof.
  set (n := S (size files)).
  destruct (decide (Forall (fun j => is_Some (files !! j)) (seqZ k (Z.of_nat n))))
    as [Hall|Hnot].
  - exfalso.
    assert (Hsub : list_to_set (seqZ k (Z.of_nat n)) ⊆ dom files).
    { intros j Hj. apply elem_of_list_to_set in Hj.
      apply elem_of_dom. rewrite Forall_forall in Hall. apply Hall. exact Hj. }
    apply subseteq_size in Hsub.
    rewrite size_list_to_set in Hsub by apply NoDup_seqZ.
    rewrite length_seqZ, size_dom in Hsub. subst n. lia.
  - apply not_Forall_Exists in Hnot; [|intros j; apply _].
    apply Exists_exists in Hnot as (j & Hj & Hn).
    apply elem_of_seqZ in Hj. exists j. split; [lia|].
    destruct (files !! j) eqn:E; [|reflexivity].
    exfalso. apply Hn. eauto.
Qed.

Lemma load_enough_fuel files limit extra :
  DatasetIR.load_loop (S (size files) + extra) files limit 1 []
  = DatasetIR.load_downloaded_list files limit.
Proof.
  unfold DatasetIR.load_downloaded_list.
  apply load_loop_fuel. apply missing_chunk_exists.
Qed.

End FuelFacts.
Module MoreFuelFacts.
Import Heapq.

Lemma get_loop_shrinks fuel : forall q r q',
  PQueuePriorityQueue.get_loop fuel q = Ok (r, q') ->
  (length (PQueuePriorityQueue.queue q') < length (PQueuePriorityQueue.queue q))%nat.
Proof.
  induction fuel as [|fuel IH]; intros q r q'; simpl; [discriminate|].
  destruct (heappop (PQueuePriorityQueue.queue q)) as [[[ip item] rest]|] eqn:E;
    [|discriminate].
  apply HeapqFacts.heappop_length in E.
  destruct (PQueuePriorityQueue.deleted q !! item) as [[mp c]|]; [|discriminate].
  destruct (py_gt _ _).
  - intros H. apply IH in H. simpl in H. lia.
  - intros [= <- <-]. simpl. lia.
Qed.

(** The compaction loop never stops for want of fuel either. *)
Lemma cleanup_loop_fuel n : forall q extra new_queue new_deleted,
  (length (PQueuePriorityQueue.queue q) <= n)%nat ->
  PQueuePriorityQueue.cleanup_loop (n + extra) q new_queue new_deleted
  = PQueuePriorityQueue.cleanup_loop n q new_queue new_deleted.
Proof.
  induction n as [|n IH]; intros q extra nq nd Hlen.
  - destruct (PQueuePriorityQueue.queue q) as [|x l] eqn:E; [|simpl in Hlen; lia].
    destruct extra as [|extra]; [reflexivity|]. simpl. rewrite E. reflexivity.
  - change (S n + extra)%nat with (S (n + extra)).
    cbn [PQueuePriorityQueue.cleanup_loop].
    destruct (PQueuePriorityQueue.queue q) as [|x l] eqn:E; [reflexivity|].
    destruct (PQueuePriorityQueue.get q) as [[[item p] q']|] eqn:G; [|reflexivity].
    simpl. apply IH. apply get_loop_shrinks in G.
    rewrite E in G. simpl in G, Hlen. lia.
Qed.

(** Chunks written under the consecutive suffixes 1, 2, ..., with nothing
    under the next one, are read back in order. *)
Lemma load_loop_consecutive files chunks : forall fuel k acc,
  (length chunks < fuel)%nat ->
  (forall i chunk, chunks !! i = Some chunk -> files !! (k + Z.of_nat i) = Some chunk) ->
  files !! (k + Z.of_nat (length chunks)) = None ->
  DatasetIR.load_loop fuel files None k acc = acc ++ concat chunks.
Proof.
  induction chunks as [|c chunks IH]; intros fuel k acc Hfuel Hsome Hnone.
  - destruct fuel as [|fuel]; [simpl in Hfuel; lia|].
    simpl in *. rewrite Z.add_0_r in Hnone. rewrite Hnone, app_nil_r. reflexivity.
  - destruct fuel as [|fuel]; [simpl in Hfuel; lia|].
    cbn [DatasetIR.load_loop].
    pose proof (Hsome 0%nat c eq_refl) as H0. rewrite Z.add_0_r in H0. rewrite H0.
    simpl. rewrite app_assoc. apply IH.
    + simpl in Hfuel. lia.
    + intros i chunk Hi. specialize (Hsome (S i) chunk Hi).
      rewrite <- Hsome. f_equal. lia.
    + rewrite <- Hnone. f_equal. simpl. lia.
Qed.

Lemma load_consecutive files chunks :
  (forall i chunk, chunks !! i = Some chunk -> files !! (1 + Z.of_nat i) = Some chunk) ->
  files !! (1 + Z.of_nat (length chunks)) = None ->
  DatasetIR.load_downloaded_list files None = concat chunks.
Proof.
  intros Hsome Hnone.
  rewrite <- (FuelFacts.load_enough_fuel files None (S (length chunks))).
  apply (load_loop_consecutive files chunks _ 1 []); [lia|assumption|assumption].
Qed.

End MoreFuelFacts.

(** * Part III: the claims *)

Section Claims.
Import FrontierManager.

(** C2: on every frontier policy, after any sequence of [add],
    [add_with_max_priority], [update] and [pop] calls none of which raised,
    started on a fresh frontier and adding pairwise distinct URLs,
    [enqueued()] is the number of URLs added minus the number of URLs [pop]
    returned; [update] calls and the obsolete heap entries a [pop] throws
    away do not count. *)
Theorem C2_enqueued_is_added_minus_popped
    (frontier_type : string) (updates : bool) (f0 : FrontierManager.t)
    (ops : list op) (out : list string) (f : FrontierManager.t) :
  init_frontier_manager frontier_type updates = Ok f0 ->
  NoDup (added_urls ops) ->
  run f0 ops = Ok (out, f) ->
  length out = num_pops ops /\
  enqueued f = Z.of_nat (length (added_urls ops)) - Z.of_nat (length out).
Proof.
  intros Hinit _ Hrun. apply FrontierFacts.run_enqueued in Hrun as [L E].
  apply FrontierFacts.init_enqueued in Hinit. split; [exact L|lia].
Qed.


(** The theorem at work on the updating frontier, with an update that goes
    through and an obsolete entry thrown away by a pop. *)
Lemma C2_enqueued_witness :
  exists f0 out f,
    init_frontier_manager "oracle-quality" true = Ok f0 /\
    run f0 Examples.ops = Ok (out, f) /\
    out = ["S"; "X"] /\
    length out = num_pops Examples.ops /\
    enqueued f = Z.of_nat (length (added_urls Examples.ops)) - Z.of_nat (length out).
Proof.
  eexists _, _, _.
  split; [reflexivity|].
  split; [vm_compute; reflexivity|].
  split; [reflexivity|].
  eapply (C2_enqueued_is_added_minus_popped "oracle-quality" true).
  - reflexivity.
  - apply (bool_decide_unpack _). vm_compute. exact I.
  - vm_compute. reflexivity.
Defined.

End Claims.

Section QualityClaims.
Import QualityFrontierManager.

(** C1: the code does the opposite of the claim.  On the updating frontier
    holding "U" at priority 1/2, [update] with the higher score 4/5 pushes
    nothing and leaves the table alone, while [update] with the lower score
    1/5 pushes a fresh entry, records 1/5 as the priority of "U" and
    increments its count of obsolete entries. *)
Theorem C1_update_accepts_lower_rejects_higher :
  (f ← init true true;
   add (Examples.page "U" (Some (1 # 2)%Q)) (Some Examples.parent) f)
  = Ok Examples.updating_frontier /\
  update (Examples.page "U" (Some (4 # 5)%Q)) (Some Examples.parent)
    Examples.updating_frontier
  = Ok (Some true, Examples.updating_frontier) /\
  update (Examples.page "U" (Some (1 # 5)%Q)) (Some Examples.parent)
    Examples.updating_frontier
  = Ok (Some true, Examples.lowered_frontier).
Proof. repeat split; vm_compute; reflexivity. Qed.

(** C5: [update] on a tracked URL returns true, but a candidate that is
    not an improvement (1/5 against the recorded 1/2) does change the
    frontier: the next [pop] hands "U" back with priority 1/5. *)
Theorem C5_update_not_improving_changes_state :
  update (Examples.page "U" (Some (1 # 5)%Q)) (Some Examples.parent)
    Examples.updating_frontier
  = Ok (Some true, Examples.lowered_frontier) /\
  Examples.lowered_frontier <> Examples.updating_frontier /\
  queue_get (queue Examples.updating_frontier)
  = Ok (("U", (1 # 2)%Q), Updating PQueuePriorityQueue.init) /\
  queue_get (queue Examples.lowered_frontier)
  = Ok (("U", (1 # 5)%Q), Updating PQueuePriorityQueue.init).
Proof. repeat split; try discriminate; vm_compute; reflexivity. Qed.

(** C3, as stated, fails: on the heap frontier holding "U" at 1/5 and "V"
    at 1/2, [update] of "U" with score 4/5 rewrites the entry of "U", and
    the next [pop] returns "U" where it would have returned "V". *)
Lemma C3_heap_update_is_not_a_noop :
  (f ← init false true;
   f ← add (Examples.page "U" (Some (1 # 5)%Q)) (Some Examples.parent) f;
   add (Examples.page "V" (Some (1 # 2)%Q)) (Some Examples.parent) f)
  = Ok Examples.heap_frontier /\
  update (Examples.page "U" (Some (4 # 5)%Q)) (Some Examples.parent)
    Examples.heap_frontier
  = Ok (None, Examples.heap_frontier_with (4 # 5)%Q) /\
  Examples.heap_frontier_with (4 # 5)%Q <> Examples.heap_frontier /\
  (exists f', pop Examples.heap_frontier = Ok ("V", f')) /\
  (exists f', pop (Examples.heap_frontier_with (4 # 5)%Q) = Ok ("U", f')).
Proof.
  repeat split; try discriminate; try (vm_compute; reflexivity);
    eexists; vm_compute; reflexivity.
Qed.

(** C3, amended: on the heap frontier [update] never raises, returns
    [None] and keeps [enqueued()].  It leaves the frontier as it is when no
    heap entry of the page's URL has a priority strictly below the page's
    score.  When the URL has exactly one entry in the heap and that entry's
    priority is strictly below the score, the entry's priority is replaced
    by the score and the other entries stay.  In every case, whichever
    entry of the URL is met first, the frontier is either left as it is or
    one entry of the URL that lay strictly below the score is raised to
    it. *)
Theorem C3_heap_update_amended
    (f : QualityFrontierManager.t) (h : PQueueHeap.t)
    (page : WebPage.t) (father : option WebPage.t) (p : Q) :
  queue f = Heap h ->
  oracle f = true ->
  page_priority page = Ok p ->
  exists f',
    update page father f = Ok (None, f') /\
    enqueued f' = enqueued f /\
    ((forall e, e ∈ PQueueHeap.queue h -> snd e = WebPage.url page ->
                (p <= PQueue._external_priority (fst e))%Q) -> f' = f) /\
    (forall e,
       filter (fun e' => snd e' = WebPage.url page) (PQueueHeap.queue h) = [e] ->
       (PQueue._external_priority (fst e) < p)%Q ->
       exists h',
         queue f' = Heap h' /\
         e :: PQueueHeap.queue h'
         ≡ₚ (PQueue._internal_priority p, WebPage.url page) :: PQueueHeap.queue h) /\
    (f' = f \/
     exists e h',
       e ∈ PQueueHeap.queue h /\ snd e = WebPage.url page /\
       (PQueue._external_priority (fst e) < p)%Q /\
       queue f' = Heap h' /\
       e :: PQueueHeap.queue h'
       ≡ₚ (PQueue._internal_priority p, WebPage.url page) :: PQueueHeap.queue h).
Proof.
  intros Hq Ho Hp. destruct f as [q o n1 n2 n3]. simpl in Hq, Ho. subst q o.
  unfold page_priority in Hp.
  unfold update. simpl.
  destruct (WebPage.get_qscore page) as [pr|]; simpl in Hp |- *; [|discriminate].
  injection Hp as Hp. rewrite Hp.
  unfold WebPage.get_url, with_queue. simpl.
  eexists. split; [reflexivity|]. split.
  { unfold enqueued. simpl. apply PQueueHeapFacts.heap_update_enqueued. }
  split; [|split].
  - intros Hall. unfold PQueueHeap.update.
    destruct (PQueueHeap.find_item _ _ _) as [[i e]|] eqn:E; [|reflexivity].
    apply PQueueHeapUpdateFacts.find_item_Some in E as (_ & Hl & He).
    apply list_elem_of_lookup_2 in Hl. specialize (Hall e Hl He).
    destruct (py_lt _ _) eqn:L; [|reflexivity].
    apply py_lt_iff in L. exfalso. lra.
  - intros e Hone Hlt.
    destruct (PQueueHeapUpdateFacts.heap_update_entries (WebPage.url page) p h)
      as [Hsame|(i & e' & Hfind & _ & _ & _ & _ & _ & Hperm)].
    + exfalso. unfold PQueueHeap.update in Hsame.
      pose proof (PQueueHeapUpdateFacts.find_item_filter
                    (PQueueHeap.queue h) (WebPage.url page) 0) as Hf.
      destruct (PQueueHeap.find_item _ _ _) as [[i e']|] eqn:E.
      * destruct Hf as [rest Hf]. rewrite Hone in Hf. injection Hf as <- _.
        apply py_lt_iff in Hlt. rewrite Hlt in Hsame.
        apply PQueueHeapUpdateFacts.find_item_Some in E as (_ & Hl & _).
        rewrite Nat.sub_0_r in Hl.
        assert (Hq : PQueueHeap.queue h
                     = <[i := (PQueue._internal_priority p, WebPage.url page)]>
                         (PQueueHeap.queue h))
          by (rewrite <- Hsame at 1; reflexivity).
        assert (Hi : <[i := (PQueue._internal_priority p, WebPage.url page)]>
                       (PQueueHeap.queue h) !! i
                     = Some (PQueue._internal_priority p, WebPage.url page)).
        { apply list_lookup_insert_eq. eapply lookup_lt_Some. exact Hl. }
        rewrite <- Hq in Hi.
        pose proof (eq_trans (eq_sym Hl) Hi) as He. injection He as He.
        rewrite He in Hlt. apply py_lt_iff in Hlt.
        unfold PQueue._external_priority, PQueue._internal_priority in Hlt.
        simpl in Hlt. lra.
      * rewrite Hone in Hf. discriminate.
    + pose proof (PQueueHeapUpdateFacts.find_item_filter
                    (PQueueHeap.queue h) (WebPage.url page) 0) as Hf.
      rewrite Hfind in Hf. destruct Hf as [rest Hf]. rewrite Hone in Hf.
      injection Hf as <- _.
      exists (PQueueHeap.update (WebPage.url page) p h). split; [reflexivity|exact Hperm].
  - destruct (PQueueHeapUpdateFacts.heap_update_entries (WebPage.url page) p h)
      as [Hsame|(i & e & _ & Hin & Hurl & Hlt & _ & _ & Hperm)].
    + left. rewrite Hsame. reflexivity.
    + right. exists e, (PQueueHeap.update (WebPage.url page) p h).
      split; [exact Hin|]. split; [exact Hurl|]. split; [exact Hlt|].
      split; [reflexivity|exact Hperm].
Qed.

(** The amended statement on the frontier of the counterexample, where
    "U" has one entry. *)
Lemma C3_heap_update_amended_witness :
  exists f' h',
    update (Examples.page "U" (Some (4 # 5)%Q)) (Some Examples.parent)
      Examples.heap_frontier = Ok (None, f') /\
    enqueued f' = enqueued Examples.heap_frontier /\
    queue f' = Heap h' /\
    ((- (1 # 5))%Q, "U") :: PQueueHeap.queue h'
    ≡ₚ ((- (4 # 5))%Q, "U") :: [((- (1 # 5))%Q, "U"); ((- (1 # 2))%Q, "V")].
Proof.
  destruct (C3_heap_update_amended Examples.heap_frontier
              {| PQueueHeap.queue := [((- (1 # 5))%Q, "U"); ((- (1 # 2))%Q, "V")];
                 PQueueHeap.num_enqueued := 0 |}
              (Examples.page "U" (Some (4 # 5)%Q)) (Some Examples.parent) (4 # 5)%Q)
    as (f' & H1 & H2 & _ & H3 & _).
  - reflexivity.
  - reflexivity.
  - reflexivity.
  - destruct (H3 ((- (1 # 5))%Q, "U")) as (h' & H4 & H5).
    + reflexivity.
    + reflexivity.
    + exists f', h'. split; [exact H1|]. split; [exact H2|]. split; [exact H4|exact H5].
Defined.




(** C4: on the quality-heap frontier, [add] under a parent enqueues the
    page's URL at its [qscore], at [MIN_PRIORITY = -50] when it has none,
    and a seed goes in at [MAX_PRIORITY = 1].  After [add] of [u1] at [p1]
    and then of [u2] at [p2], with [p1 > p2], [u1 <> u2] and [u2] not in the
    frontier before, every run of pops that returns [u2] has returned [u1]
    before, and enough pops return both. *)
Theorem C4_quality_heap_add_then_pop_order
    (f : QualityFrontierManager.t) (h : PQueueHeap.t)
    (page1 page2 fa1 fa2 : WebPage.t) (p1 p2 : Q) :
  queue f = Heap h ->
  oracle f = true ->
  page_priority page1 = Ok p1 ->
  page_priority page2 = Ok p2 ->
  WebPage.url page1 <> WebPage.url page2 ->
  WebPage.url page2 ∉ map snd (PQueueHeap.queue h) ->
  (p2 < p1)%Q ->
  MIN_PRIORITY = (-50)%Q /\ MAX_PRIORITY = 1%Q /\
  (forall page q, WebPage.metadata page = Some {| WebPage.qscore := q |} ->
     page_priority page = Ok (match q with Some s => s | None => (-50)%Q end)) /\
  (forall seed, exists f', add seed None f = Ok f' /\
     queue f' = Heap (PQueueHeap.put (WebPage.url seed) 1%Q h)) /\
  exists f1 f2,
    add page1 (Some fa1) f = Ok f1 /\
    queue f1 = Heap (PQueueHeap.put (WebPage.url page1) p1 h) /\
    add page2 (Some fa2) f1 = Ok f2 /\
    queue f2 = Heap (PQueueHeap.put (WebPage.url page2) p2
                       (PQueueHeap.put (WebPage.url page1) p1 h)) /\
    (forall n out f', pop_many n f2 = (out, f') ->
       WebPage.url page2 ∈ out ->
       returned_before (WebPage.url page1) (WebPage.url page2) out) /\
    (forall n out f', (length (PQueueHeap.queue h) + 2 <= n)%nat ->
       pop_many n f2 = (out, f') ->
       WebPage.url page1 ∈ out /\ WebPage.url page2 ∈ out).
Proof.
  intros Hq Ho Hp1 Hp2 Hne Hfresh Hlt.
  split; [reflexivity|]. split; [reflexivity|]. split.
  { intros page q Hm. unfold page_priority, WebPage.get_qscore. rewrite Hm.
    destruct q; reflexivity. }
  split.
  { intros seed. apply QualityHeapFacts.heap_add_seed. exact Hq. }
  destruct (QualityHeapFacts.heap_add_child f h page1 fa1 p1 Hq Ho Hp1)
    as (f1 & Ha1 & Hq1 & Ho1).
  destruct (QualityHeapFacts.heap_add_child f1 _ page2 fa2 p2 Hq1 Ho1 Hp2)
    as (f2 & Ha2 & Hq2 & Ho2).
  exists f1, f2. repeat (split; [assumption|]).
  set (e1 := (PQueue._internal_priority p1, WebPage.url page1)).
  set (e2 := (PQueue._internal_priority p2, WebPage.url page2)).
  assert (Hqueue : PQueueHeap.queue
                     (PQueueHeap.put (WebPage.url page2) p2
                        (PQueueHeap.put (WebPage.url page1) p1 h))
                   = PQueueHeap.queue h ++ [e1; e2]).
  { unfold PQueueHeap.put, Heapq.heappush. simpl. rewrite <- app_assoc. reflexivity. }
  assert (He1 : e1 ∈ PQueueHeap.queue h ++ [e1; e2]).
  { apply elem_of_app. right. left. }
  assert (He2 : e2 ∈ PQueueHeap.queue h ++ [e1; e2]).
  { apply elem_of_app. right. right. left. }
  split.
  - intros n out f' Hpm Hin.
    apply (QualityHeapFacts.pop_many_order n f2 _ e1 (WebPage.url page2) Hq2)
      with (f' := f'); try assumption.
    + rewrite Hqueue. exact He1.
    + rewrite Hqueue. intros e He Hu.
      apply elem_of_app in He as [He|He].
      * exfalso. apply Hfresh. apply list_elem_of_fmap. exists e. split; [symmetry; exact Hu|exact He].
      * apply elem_of_cons in He as [->|He]; [simpl in Hu; congruence|].
        apply list_elem_of_singleton in He. subst e. subst e1 e2.
        unfold PQueue._internal_priority. simpl. lra.
  - intros n out f' Hn Hpm. split.
    + apply (QualityHeapFacts.pop_many_complete n f2 _ e1 Hq2) with (f' := f');
        [rewrite Hqueue, length_app; simpl; lia | rewrite Hqueue; exact He1 | exact Hpm].
    + apply (QualityHeapFacts.pop_many_complete n f2 _ e2 Hq2) with (f' := f');
        [rewrite Hqueue, length_app; simpl; lia | rewrite Hqueue; exact He2 | exact Hpm].
Qed.


(** "X" at 9/10 and then "Y" at 1/5 on an empty heap frontier. *)
Lemma C4_quality_heap_witness :
  exists f1 f2,
    add (Examples.page "X" (Some (9 # 10)%Q)) (Some Examples.parent)
      Examples.fresh_heap_frontier = Ok f1 /\
    add (Examples.page "Y" (Some (1 # 5)%Q)) (Some Examples.parent) f1 = Ok f2 /\
    (forall n out f', pop_many n f2 = (out, f') ->
       "Y" ∈ out -> returned_before "X" "Y" out) /\
    (forall n out f', (0 + 2 <= n)%nat -> pop_many n f2 = (out, f') ->
       "X" ∈ out /\ "Y" ∈ out).
Proof.
  destruct (C4_quality_heap_add_then_pop_order
              Examples.fresh_heap_frontier PQueueHeap.init
              (Examples.page "X" (Some (9 # 10)%Q))
              (Examples.page "Y" (Some (1 # 5)%Q))
              Examples.parent Examples.parent (9 # 10)%Q (1 # 5)%Q)
    as (_ & _ & _ & _ & f1 & f2 & H1 & _ & H2 & _ & H3 & H4).
  - reflexivity.
  - reflexivity.
  - reflexivity.
  - reflexivity.
  - discriminate.
  - simpl. intros H. inversion H.
  - reflexivity.
  - exists f1, f2. exact (conj H1 (conj H2 (conj H3 H4))).
Defined.

End QualityClaims.

Section ParserSeenClaims.

(** C8: for outlink entries that all carry a URL, [clean_links] returns the
    entries' URLs without the page's own URL and without repetitions, each
    kept URL at the place of its first occurrence; a page P with outlinks
    [P, Q, Q, R] gets [Q, R]. *)
Theorem C8_clean_links_first_seen (links : list (list string)) (url : string) :
  Forall (fun link => is_Some (link !! Parser.URL_INDEX)) links ->
  let urls := omap (fun link => link !! Parser.URL_INDEX) links in
  exists cleaned,
    Parser.clean_links links url = Ok cleaned /\
    cleaned = Parser.clean_links_spec urls url /\
    NoDup cleaned /\
    (url ∉ cleaned) /\
    (forall u, u ∈ cleaned <-> u ∈ urls /\ u <> url) /\
    (cleaned `sublist_of` urls) /\
    Parser.clean_links [["P"]; ["Q"]; ["Q"]; ["R"]] "P" = Ok ["Q"; "R"].
Proof.
  intros Hall urls.
  exists (Parser.clean_links_spec urls url).
  split.
  { unfold Parser.clean_links.
    rewrite (ParserFacts.clean_links_loop_spec url links [] Hall). simpl.
    f_equal. apply ParserFacts.filter_not_in_nil. }
  split; [reflexivity|].
  unfold Parser.clean_links_spec.
  split; [apply ParserFacts.first_seen_NoDup|].
  split.
  { rewrite ParserFacts.first_seen_elem_of, list_elem_of_filter. tauto. }
  split.
  { intros u. rewrite ParserFacts.first_seen_elem_of, list_elem_of_filter. tauto. }
  split; [|reflexivity].
  etransitivity; [apply ParserFacts.first_seen_sublist|apply sublist_filter].
Qed.

(** Entries with anchors, a self-link and a repeated URL. *)
Lemma C8_clean_links_witness :
  exists cleaned,
    Parser.clean_links [["P"; "self"]; ["Q"; "a"]; ["R"]; ["Q"; "b"]] "P" = Ok cleaned /\
    cleaned = ["Q"; "R"].
Proof.
  destruct (C8_clean_links_first_seen
              [["P"; "self"]; ["Q"; "a"]; ["R"]; ["Q"; "b"]] "P")
    as (cleaned & H1 & H2 & _).
  - repeat constructor; eexists; reflexivity.
  - exists cleaned. split; [exact H1|]. rewrite H2. reflexivity.
Defined.

Import BitArraySeenURLTester.

(** C9: a bitmap seen-set of capacity [C] starts with [C] zero bits and
    count 0.  In every state with [C] bits, marking or testing a docid
    below 0 or at least [C] raises [IndexError] and leaves the bit vector
    and the count as they were; marking a docid in range succeeds, and the
    docid then tests as seen. *)
Theorem C9_bitmap_seen_set (C : Z) :
  0 <= C ->
  exists s0,
    init C = Ok s0 /\
    capacity s0 = C /\
    well_formed s0 /\
    seen_urls s0 = replicate (Z.to_nat C) false /\
    seen_count s0 = 0 /\
    forall s, well_formed s -> capacity s = C ->
      (forall d, d < 0 \/ C <= d ->
         mark_seen d s = (Raise IndexError, s) /\
         is_seen d s = (Raise IndexError, s) /\
         seen_urls (snd (mark_seen d s)) = seen_urls s /\
         seen_count (snd (mark_seen d s)) = seen_count s) /\
      (forall d, 0 <= d < C ->
         exists s',
           mark_seen d s = (Ok tt, s') /\
           capacity s' = C /\
           well_formed s' /\
           is_seen d s' = (Ok true, s')).
Proof.
  intros HC. unfold init.
  destruct (Z.ltb_spec C 0) as [?|_]; [lia|].
  eexists. split; [reflexivity|]. simpl.
  split; [reflexivity|].
  split. { split; simpl; [exact HC|apply length_replicate]. }
  split; [reflexivity|].
  split. { unfold seen_count. simpl. rewrite SeenFacts.count_replicate_false. reflexivity. }
  intros s [Hc Hlen] Hcap. split.
  - intros d Hd. unfold mark_seen, is_seen.
    rewrite SeenFacts.out_of_range_guard by (rewrite Hcap; exact Hd).
    repeat split; reflexivity.
  - intros d Hd. unfold mark_seen.
    rewrite SeenFacts.in_range_guard by (rewrite Hcap; exact Hd).
    assert (Hlt : (Z.to_nat d < length (seen_urls s))%nat) by (rewrite Hlen; lia).
    destruct (decide (Z.to_nat d < length (seen_urls s))%nat) as [_|?]; [|contradiction].
    eexists. split; [reflexivity|]. simpl. split; [exact Hcap|].
    split. { split; simpl; [exact Hc|]. rewrite length_insert. exact Hlen. }
    unfold is_seen. simpl.
    rewrite SeenFacts.in_range_guard by (rewrite Hcap; exact Hd).
    rewrite list_lookup_insert_eq by exact Hlt. reflexivity.
Qed.

(** Capacity 10: marking docno 10 raises and keeps the count; docno 3 is
    marked. *)
Lemma C9_bitmap_seen_set_witness :
  exists s0,
    init 10 = Ok s0 /\
    seen_count s0 = 0 /\
    mark_seen 10 s0 = (Raise IndexError, s0) /\
    seen_count (snd (mark_seen 10 s0)) = seen_count s0 /\
    exists s', mark_seen 3 s0 = (Ok tt, s') /\ is_seen 3 s' = (Ok true, s').
Proof.
  destruct (C9_bitmap_seen_set 10) as (s0 & H0 & Hcap & Hwf & _ & Hcount & Hall).
  - lia.
  - destruct (Hall s0 Hwf Hcap) as [Hout Hin].
    destruct (Hout 10) as (Hm & _ & _ & Hc); [lia|].
    destruct (Hin 3) as (s' & Hm' & _ & _ & Hs'); [lia|].
    exists s0. repeat split; try assumption.
    exists s'. split; assumption.
Defined.

End ParserSeenClaims.

Section ShardClaims.
Import Utils.

(** C6, as stated, fails: with no offset file, and also with the offset
    file but no shard, [navigate_to_id] raises [RuntimeError]; it does not
    return [None]. *)
Lemma C6_missing_file_raises_runtime_error :
  navigate_to_id decimal_int stored_text braces_loads slash_join
    ∅ "outlinks" "clueweb22-en0000-00-00001" = Raise RuntimeError /\
  navigate_to_id decimal_int stored_text braces_loads slash_join
    Examples.offsets_only "outlinks" "clueweb22-en0000-00-00001" = Raise RuntimeError /\
  navigate_to_id decimal_int stored_text braces_loads slash_join
    Examples.shard_files "outlinks" "clueweb22-en0000-00-00000" = Ok (Some "{abc}").
Proof. repeat split; vm_compute; reflexivity. Qed.

(** C6, amended: for a docid that splits into its four parts,
    [navigate_to_id] raises [RuntimeError] when the offset file is missing
    and when the shard file is missing; it returns [None] when both are
    there, the offsets are read, the bytes between them are read and
    decompress to a text that [json.loads] rejects.  When the end offset
    lies more than one below the start offset the read itself raises, and
    [navigate_to_id] raises [RuntimeError] again. *)
Theorem C6_navigate_to_id_failures {json : Type}
    (py_int : string -> option Z) (gunzip_decode : string -> res string)
    (json_loads : string -> option json)
    (path_join : string -> string -> string -> string)
    (fs : gmap string string) (dir_path id subdir file_seq : string) (doc_seq : Z) :
  get_parts py_int id = Ok (subdir, file_seq, doc_seq) ->
  let file_prefix := path_join dir_path subdir (subdir +:+ "-" +:+ file_seq) in
  let result :=
    navigate_to_id py_int gunzip_decode json_loads path_join fs dir_path id in
  (fs !! (file_prefix +:+ ".offset") = None -> result = Raise RuntimeError) /\
  (fs !! (file_prefix +:+ ".json.gz") = None -> result = Raise RuntimeError) /\
  (forall content start_offset end_offset bytes text,
     read_offsets py_int fs (file_prefix +:+ ".offset") doc_seq
     = Ok (start_offset, end_offset) ->
     fs !! (file_prefix +:+ ".json.gz") = Some content ->
     0 <= start_offset ->
     read_span content start_offset end_offset = Ok bytes ->
     gunzip_decode bytes = Ok text ->
     json_loads text = None ->
     result = Ok None) /\
  (forall content start_offset end_offset,
     read_offsets py_int fs (file_prefix +:+ ".offset") doc_seq
     = Ok (start_offset, Some end_offset) ->
     fs !! (file_prefix +:+ ".json.gz") = Some content ->
     0 <= start_offset ->
     end_offset - start_offset < -1 ->
     result = Raise RuntimeError).
Proof.
  intros Hparts file_prefix result. subst result. unfold navigate_to_id.
  rewrite Hparts. simpl. fold file_prefix.
  split; [|split; [|split]].
  - intros Hmiss. rewrite (UtilsFacts.read_offsets_missing py_int _ _ _ Hmiss).
    reflexivity.
  - intros Hmiss.
    destruct (read_offsets py_int fs _ doc_seq) as [[s e]|]; simpl; [|reflexivity].
    rewrite (UtilsFacts.random_read_missing gunzip_decode json_loads _ _ _ _ Hmiss).
    reflexivity.
  - intros content s e bytes text Hoff Hshard Hs Hread Hgz Hjson. rewrite Hoff. simpl.
    assert (H : random_read_json_gz gunzip_decode json_loads fs
                  (file_prefix +:+ ".json.gz") s e = Ok None).
    { apply UtilsFacts.random_read_None. exists content, bytes, text. auto. }
    rewrite H. reflexivity.
  - intros content s e Hoff Hshard Hs He. rewrite Hoff. simpl.
    rewrite (UtilsFacts.random_read_negative_length gunzip_decode json_loads
               _ _ content s e Hshard Hs He).
    reflexivity.
Qed.

(** The second record of the example shard is cut short: [None]. *)
Lemma C6_navigate_to_id_witness :
  navigate_to_id decimal_int stored_text braces_loads slash_join
    Examples.shard_files "outlinks" "clueweb22-en0000-00-00001" = Ok None.
Proof.
  refine (proj1 (proj2 (proj2 (C6_navigate_to_id_failures
            decimal_int stored_text braces_loads slash_join
            Examples.shard_files "outlinks" "clueweb22-en0000-00-00001"
            "en0000" "00" 1 _))) "{abc}{bcd{xyz}" 5 (Some 10) "{bcd{" "{bcd{" _ _ _ _ _ _).
  - reflexivity.
  - vm_compute. reflexivity.
  - vm_compute. reflexivity.
  - lia.
  - reflexivity.
  - reflexivity.
  - reflexivity.
Defined.

End ShardClaims.

Section DownloadLogClaims.

(** C7: the round trip fails on a run of the orchestrator.  With
    [save_every_n_pages = 2] and [max_pages = 4] the crawl downloads docnos
    0, 1, 2, 3; the checkpoint after the third download writes chunk 1 with
    [0, 1, 2], and the final flush writes the remaining [3] to chunk
    [4 / 2 + 1 = 3].  The reader stops at the missing chunk 2 and returns
    [0, 1, 2] only. *)
Theorem C7_final_chunk_is_skipped :
  exists s,
    Orchestrator.crawl 4 2 Examples.popped
      (Fetcher.init Examples.url2docids Examples.url2docnos) = Ok s /\
    Fetcher.files s = {[ 1 := [Some 0; Some 1; Some 2]; 3 := [Some 3] ]} /\
    Fetcher.num_dowloaded s = 4 /\
    DatasetIR.load_downloaded_list (Fetcher.files s) None = [Some 0; Some 1; Some 2] /\
    DatasetIR.load_downloaded_list (Fetcher.files s) None
    <> [Some 0; Some 1; Some 2; Some 3].
Proof.
  eexists. split; [vm_compute; reflexivity|].
  split; [vm_compute; reflexivity|].
  split; [vm_compute; reflexivity|].
  split; [vm_compute; reflexivity|].
  vm_compute. discriminate.
Qed.

End DownloadLogClaims.

(** * Part IV: further properties of the code *)

Module PQueueConsistencyFacts.
Import Heapq PQueuePriorityQueue PQueueConsistency.

Lemma entries_of_app item h1 h2 :
  entries_of item (h1 ++ h2) = entries_of item h1 ++ entries_of item h2.
Proof. apply filter_app. Qed.

Lemma entries_of_elem_of item h e :
  e ∈ entries_of item h <-> snd e = item /\ e ∈ h.
Proof. unfold entries_of. rewrite list_elem_of_filter. reflexivity. Qed.

Lemma entries_of_untracked q item :
  consistent q -> deleted q !! item = None -> entries_of item (queue q) = [].
Proof.
  intros Hc Hnone. destruct (entries_of item (queue q)) as [|e l] eqn:E; [reflexivity|].
  assert (He : e ∈ entries_of item (queue q)) by (rewrite E; left).
  apply entries_of_elem_of in He as [<- He].
  apply (tracked_entries q Hc) in He as [s Hs]. congruence.
Qed.

Lemma init_consistent : consistent init.
Proof.
  split; simpl.
  - intros e He. inversion He.
  - intros item s Hs. rewrite lookup_empty in Hs. discriminate.
  - rewrite map_size_empty. reflexivity.
  - reflexivity.
Qed.

(** [put] of an item that is not in the table. *)
Lemma put_consistent item p q :
  consistent q -> deleted q !! item = None ->
  exists q', put item p q = Ok q' /\ consistent q' /\
             deleted q' = <[item := {| priority := PQueue._internal_priority p; count := 0 |}]> (deleted q).
Proof.
  intros Hc Hnone. unfold put. rewrite Hnone.
  eexists. split; [reflexivity|]. split; [|reflexivity].
  split; simpl.
  - intros e He. unfold heappush in He. apply elem_of_app in He as [He|He].
    + apply (tracked_entries q Hc) in He as [s Hs].
      destruct (decide (snd e = item)) as [Heq|Hne]; [rewrite Heq in Hs; congruence|].
      rewrite lookup_insert_ne by congruence. eauto.
    + apply list_elem_of_singleton in He. subst e. simpl.
      rewrite lookup_insert_eq. eauto.
  - intros item' s Hs. unfold heappush. rewrite entries_of_app.
    destruct (decide (item = item')) as [<-|Hne].
    + rewrite lookup_insert_eq in Hs. injection Hs as <-. simpl.
      rewrite (entries_of_untracked q item Hc Hnone). simpl.
      exists []. unfold entries_of. rewrite filter_cons_True by reflexivity.
      rewrite filter_nil. split; [reflexivity|]. split; [constructor|reflexivity].
    + rewrite lookup_insert_ne in Hs by assumption.
      destruct (live_and_obsolete q Hc item' s Hs) as (obs & Hp & Hf & Hn).
      exists obs. split; [|split; assumption].
      unfold entries_of at 2. rewrite filter_cons_False by (simpl; congruence).
      rewrite filter_nil, app_nil_r. exact Hp.
  - rewrite map_size_insert_None by assumption.
    rewrite (enqueued_size q Hc). lia.
  - unfold enqueued. simpl. unfold heappush. rewrite length_app. simpl.
    pose proof (qsize_check q Hc) as H. unfold enqueued in H. lia.
Qed.

Lemma put_tracked_raises item p q :
  is_Some (deleted q !! item) -> put item p q = Raise AssertionError.
Proof. intros [s Hs]. unfold put. rewrite Hs. reflexivity. Qed.


Lemma update_unfold item p q s :
  deleted q !! item = Some s ->
  update item p q =
  (q2 ← (if num_deleted (updated item p q s) >? MAX_DELETED_THRESHOLD
         then _cleanup_deleted (updated item p q s)
         else Ok (updated item p q s));
   Ok (true, q2)).
Proof.
  intros H. unfold update, _mark_deleted, updated. rewrite H.
  rewrite py_gt_lt. destruct s as [op oc]. simpl.
  destruct (py_lt p (PQueue._external_priority op)) eqn:E; simpl.
  - rewrite py_ge_lt, E. reflexivity.
  - reflexivity.
Qed.

Lemma external_internal_priority (p : Q) :
  PQueue._external_priority (PQueue._internal_priority p) = p.
Proof.
  destruct p as [a b]. unfold PQueue._internal_priority, PQueue._external_priority, Qopp.
  simpl. f_equal. apply Z.opp_involutive.
Qed.

Lemma updated_consistent item p q s :
  consistent q -> deleted q !! item = Some s ->
  consistent (updated item p q s) /\
  enqueued (updated item p q s) = enqueued q /\
  (forall item', item' <> item ->
     recorded_priority (updated item p q s) item' = recorded_priority q item') /\
  recorded_priority (updated item p q s) item
  = Some (if py_lt p (PQueue._external_priority (priority s)) then p
          else PQueue._external_priority (priority s)).
Proof.
  intros Hc Hs. unfold updated.
  destruct (py_lt p (PQueue._external_priority (priority s))) eqn:E.
  - apply py_lt_iff in E. unfold PQueue._external_priority in E.
    destruct (live_and_obsolete q Hc item s Hs) as (obs & Hp & Hf & Hcnt).
    split; [|split; [reflexivity|split]].
    + split; simpl.
      * intros e He. unfold heappush in He. apply elem_of_app in He as [He|He].
        -- apply (tracked_entries q Hc) in He as [s' Hs'].
           destruct (decide (item = snd e)) as [Heq|Hne].
           ++ rewrite <- Heq, lookup_insert_eq. eauto.
           ++ rewrite lookup_insert_ne by assumption. eauto.
        -- apply list_elem_of_singleton in He. subst e. simpl.
           rewrite lookup_insert_eq. eauto.
      * intros item' s' Hs'. unfold heappush. rewrite entries_of_app.
        destruct (decide (item = item')) as [<-|Hne].
        -- rewrite lookup_insert_eq in Hs'. injection Hs' as <-. simpl.
           exists ((priority s, item) :: obs).
           unfold entries_of at 2. rewrite filter_cons_True by reflexivity.
           rewrite filter_nil. split; [|split].
           ++ rewrite Hp. rewrite <- Permutation_cons_append. reflexivity.
           ++ constructor.
              ** simpl. unfold PQueue._internal_priority. lra.
              ** eapply Forall_impl; [exact Hf|]. simpl. intros e He.
                 unfold PQueue._internal_priority. lra.
           ++ rewrite Hcnt. simpl. lia.
        -- rewrite lookup_insert_ne in Hs' by assumption.
           destruct (live_and_obsolete q Hc item' s' Hs') as (obs' & Hp' & Hf' & Hn').
           exists obs'. split; [|split; assumption].
           unfold entries_of at 2. rewrite filter_cons_False by (simpl; congruence).
           rewrite filter_nil, app_nil_r. exact Hp'.
      * rewrite map_size_insert_Some by eauto. apply (enqueued_size q Hc).
      * unfold enqueued. simpl. unfold heappush. rewrite length_app. simpl.
        pose proof (qsize_check q Hc) as H. unfold enqueued in H. lia.
    + intros item' Hne. unfold recorded_priority. simpl.
      rewrite lookup_insert_ne by congruence. reflexivity.
    + unfold recorded_priority. simpl. rewrite lookup_insert_eq. simpl.
      rewrite external_internal_priority. reflexivity.
  - split; [exact Hc|]. split; [reflexivity|]. split; [reflexivity|].
    unfold recorded_priority. rewrite Hs. reflexivity.
Qed.

Lemma entry_ltb_false_fst a b : entry_ltb a b = false -> (fst b <= fst a)%Q.
Proof.
  intros H. destruct (Qlt_le_dec (fst a) (fst b)) as [L|L]; [|exact L].
  apply HeapqFacts.entry_ltb_fst in L. congruence.
Qed.

(** The loop of [get] on a consistent queue that tracks something: it
    returns, the item it returns was tracked and comes with its recorded
    priority, no tracked item has a higher one, and the queue is consistent
    again with that item gone and the others as recorded. *)
Lemma get_loop_consistent n : forall q,
  length (queue q) = n -> consistent q -> 0 < enqueued q ->
  exists item p q',
    get_loop n q = Ok ((item, p), q') /\
    recorded_priority q item = Some p /\
    consistent q' /\
    enqueued q' = enqueued q - 1 /\
    recorded_priority q' item = None /\
    (forall item', item' <> item ->
       recorded_priority q' item' = recorded_priority q item') /\
    (forall item' p', recorded_priority q item' = Some p' ->
       entry_ltb (PQueue._internal_priority p', item')
                 (PQueue._internal_priority p, item) = false).
Proof.
  induction n as [|n IH]; intros q Hlen Hc Hpos.
  - exfalso. assert (Hne : deleted q ≠ ∅).
    { intros He. pose proof (enqueued_size q Hc) as Hs. rewrite He, map_size_empty in Hs.
      unfold enqueued in Hpos. lia. }
    apply map_choose in Hne as (item & s & Hs).
    destruct (live_and_obsolete q Hc item s Hs) as (obs & Hp & _).
    destruct (queue q); [|discriminate]. unfold entries_of in Hp.
    rewrite filter_nil in Hp. apply Permutation_nil_cons in Hp. exact Hp.
  - cbn [get_loop].
    destruct (heappop (queue q)) as [[[ip item] rest]|] eqn:Epop.
    2:{ apply HeapqFacts.heappop_None in Epop. rewrite Epop in Hlen. discriminate. }
    pose proof (HeapqFacts.heappop_length _ _ _ Epop) as Hlen'.
    destruct (HeapqFacts.heappop_Some _ _ _ Epop) as [Hperm Hmin].
    assert (Hm : (ip, item) ∈ queue q) by (rewrite <- Hperm; left).
    destruct (tracked_entries q Hc _ Hm) as [s Hs]. simpl in Hs. rewrite Hs.
    destruct s as [ps cnt].
    destruct (live_and_obsolete q Hc item _ Hs) as (obs & Hp & Hf & Hcnt).
    simpl in Hp, Hf, Hcnt.
    assert (Hent : (ip, item) :: entries_of item rest ≡ₚ (ps, item) :: obs).
    { rewrite <- Hp. unfold entries_of. rewrite <- Hperm.
      rewrite filter_cons_True by reflexivity. reflexivity. }
    assert (Hother : forall item', item' <> item ->
              entries_of item' rest ≡ₚ entries_of item' (queue q)).
    { intros item' Hne. unfold entries_of. rewrite <- Hperm.
      rewrite filter_cons_False by (simpl; congruence). reflexivity. }
    assert (Hsub : forall e, e ∈ rest -> e ∈ queue q).
    { intros e He. rewrite <- Hperm. right. exact He. }
    rewrite internal_external_priority.
    rewrite py_gt_lt.
    destruct (py_lt (PQueue._external_priority ps) (PQueue._external_priority ip)) eqn:Estale.
    + (* an obsolete entry *)
      apply py_lt_iff in Estale. unfold PQueue._external_priority in Estale.
      assert (Hin : (ip, item) ∈ obs).
      { assert (H : (ip, item) ∈ (ps, item) :: obs) by (rewrite <- Hent; left).
        apply elem_of_cons in H as [H|H]; [|exact H].
        injection H as H. rewrite H in Estale. exfalso. lra. }
      apply elem_of_Permutation in Hin as (obs' & Hobs).
      assert (Hent' : entries_of item rest ≡ₚ (ps, item) :: obs').
      { apply (Permutation_cons_inv (a := (ip, item))).
        rewrite Hent, Hobs. apply Permutation_swap. }
      assert (Hcnt' : cnt - 1 = Z.of_nat (length obs')).
      { rewrite Hcnt, Hobs. simpl. lia. }
      destruct (Z.ltb_spec (cnt - 1) 0) as [?|_]; [lia|].
      set (q1 := {| queue := rest;
                    deleted := <[item := {| priority := ps; count := cnt - 1 |}]> (deleted q);
                    num_enqueued := num_enqueued q;
                    num_deleted := num_deleted q - 1 |}).
      assert (Hc1 : consistent q1).
      { split; simpl.
        - intros e He. apply Hsub in He. apply (tracked_entries q Hc) in He as [s' Hs'].
          destruct (decide (item = snd e)) as [Heq|Hne].
          + rewrite <- Heq, lookup_insert_eq. eauto.
          + rewrite lookup_insert_ne by assumption. eauto.
        - intros item' s' Hs'. destruct (decide (item = item')) as [<-|Hne].
          + rewrite lookup_insert_eq in Hs'. injection Hs' as <-. simpl.
            exists obs'. split; [exact Hent'|]. split; [|exact Hcnt'].
            rewrite Hobs in Hf. apply Forall_cons in Hf as [_ Hf]. exact Hf.
          + rewrite lookup_insert_ne in Hs' by assumption.
            destruct (live_and_obsolete q Hc item' s' Hs') as (o & Ho & Hfo & Hno).
            exists o. split; [|split; assumption].
            rewrite Hother by congruence. exact Ho.
        - rewrite map_size_insert_Some by eauto. apply (enqueued_size q Hc).
        - unfold enqueued. simpl. pose proof (qsize_check q Hc) as H.
          unfold enqueued in H. lia. }
      assert (Hrec : forall item', recorded_priority q1 item' = recorded_priority q item').
      { intros item'. unfold recorded_priority. simpl.
        destruct (decide (item = item')) as [<-|Hne].
        - rewrite lookup_insert_eq, Hs. reflexivity.
        - rewrite lookup_insert_ne by assumption. reflexivity. }
      destruct (IH q1) as (it & p & q' & Hget & Hrp & Hc' & Henq & Hgone & Hkeep & Hmax).
      * simpl. lia.
      * exact Hc1.
      * exact Hpos.
      * exists it, p, q'. split; [exact Hget|].
        rewrite <- Hrec. split; [exact Hrp|]. split; [exact Hc'|].
        split; [exact Henq|]. split; [exact Hgone|]. split.
        -- intros item' Hne. rewrite <- Hrec. apply Hkeep. exact Hne.
        -- intros item' p'. rewrite <- Hrec. apply Hmax.
    + (* the entry at the recorded priority *)
      assert (Hlive : (ip, item) = (ps, item) /\ obs = []).
      { assert (H : (ip, item) ∈ (ps, item) :: obs) by (rewrite <- Hent; left).
        assert (Hnot : ~ (ip < ps)%Q).
        { intros L. assert (L' : py_lt (PQueue._external_priority ps)
                                   (PQueue._external_priority ip) = true).
          { apply py_lt_iff. unfold PQueue._external_priority. lra. }
          congruence. }
        assert (Heq : (ip, item) = (ps, item)).
        { apply elem_of_cons in H as [H|H]; [exact H|].
          rewrite Forall_forall in Hf. specialize (Hf _ H). simpl in Hf. contradiction. }
        split; [exact Heq|].
        destruct obs as [|o obs]; [reflexivity|]. exfalso.
        apply Forall_cons in Hf as [Ho _].
        assert (Ho_in : o ∈ queue q).
        { assert (H' : o ∈ entries_of item (queue q)) by (rewrite Hp; right; left).
          apply entries_of_elem_of in H' as [_ H']. exact H'. }
        specialize (Hmin o Ho_in). apply entry_ltb_false_fst in Hmin. simpl in Hmin.
        injection Heq as Heq. rewrite Heq in Hmin. lra. }
      destruct Hlive as [Heq ->]. injection Heq as Heq. subst ip.
      simpl in Hcnt. subst cnt. simpl.
      assert (Hnone : entries_of item rest = []).
      { apply Permutation_cons_inv in Hent. apply Permutation_nil_r in Hent. exact Hent. }
      eexists item, _, _. split; [reflexivity|].
      split. { unfold recorded_priority. rewrite Hs. reflexivity. }
      split.
      { split; simpl.
        - intros e He.
          assert (Hne : snd e <> item).
          { intros Hit. assert (H : e ∈ entries_of item rest)
              by (apply entries_of_elem_of; auto).
            rewrite Hnone in H. inversion H. }
          rewrite lookup_delete_ne by congruence.
          apply (tracked_entries q Hc). apply Hsub. exact He.
        - intros item' s' Hs'. apply lookup_delete_Some in Hs' as [Hne Hs'].
          destruct (live_and_obsolete q Hc item' s' Hs') as (o & Ho & Hfo & Hno).
          exists o. split; [|split; assumption].
          rewrite Hother by congruence. exact Ho.
        - rewrite map_size_delete_Some by eauto.
          pose proof (enqueued_size q Hc) as H. unfold enqueued in Hpos. lia.
        - unfold enqueued. simpl. pose proof (qsize_check q Hc) as H.
          unfold enqueued in H. lia. }
      split; [reflexivity|].
      split. { unfold recorded_priority. simpl. rewrite lookup_delete_eq. reflexivity. }
      split.
      { intros item' Hne. unfold recorded_priority. simpl.
        rewrite lookup_delete_ne by congruence. reflexivity. }
      intros item' p' Hrp. unfold recorded_priority in Hrp.
      destruct (deleted q !! item') as [s'|] eqn:Hs'; [|discriminate].
      simpl in Hrp. injection Hrp as <-.
      destruct (live_and_obsolete q Hc item' s' Hs') as (o & Ho & _).
      assert (Hin : (priority s', item') ∈ queue q).
      { assert (H : (priority s', item') ∈ entries_of item' (queue q))
          by (rewrite Ho; left).
        apply entries_of_elem_of in H as [_ H]. exact H. }
      rewrite !internal_external_priority. apply Hmin. exact Hin.
Qed.


Lemma recorded_None q item :
  recorded_priority q item = None <-> deleted q !! item = None.
Proof.
  unfold recorded_priority. destruct (deleted q !! item); simpl; split; congruence.
Qed.

Lemma consistent_nonempty q :
  consistent q -> queue q <> [] -> 0 < enqueued q.
Proof.
  intros Hc Hne. destruct (queue q) as [|e l] eqn:E; [congruence|].
  assert (He : e ∈ queue q) by (rewrite E; left).
  destruct (tracked_entries q Hc e He) as [s Hs].
  unfold enqueued. rewrite (enqueued_size q Hc).
  assert (size (deleted q) <> 0%nat); [|lia].
  intros H0. apply map_size_empty_iff in H0. rewrite H0, lookup_empty in Hs. discriminate.
Qed.

Lemma consistent_empty q :
  consistent q -> queue q = [] -> deleted q = ∅.
Proof.
  intros Hc He. apply map_eq. intros item. rewrite lookup_empty.
  destruct (deleted q !! item) as [s|] eqn:Hs; [|reflexivity]. exfalso.
  destruct (live_and_obsolete q Hc item s Hs) as (obs & Hp & _).
  rewrite He in Hp. unfold entries_of in Hp. rewrite filter_nil in Hp.
  apply Permutation_nil_cons in Hp. exact Hp.
Qed.

(** [get] on a consistent queue that tracks something. *)
Lemma get_consistent q :
  consistent q -> 0 < enqueued q ->
  exists item p q',
    get q = Ok ((item, p), q') /\
    recorded_priority q item = Some p /\
    consistent q' /\
    enqueued q' = enqueued q - 1 /\
    recorded_priority q' item = None /\
    (forall item', item' <> item ->
       recorded_priority q' item' = recorded_priority q item') /\
    (forall item' p', recorded_priority q item' = Some p' ->
       entry_ltb (PQueue._internal_priority p', item')
                 (PQueue._internal_priority p, item) = false).
Proof. intros Hc Hpos. apply get_loop_consistent; [reflexivity|assumption|assumption]. Qed.

(** The compaction loop on a consistent queue: it runs to the end, and what
    it rebuilds is consistent, has every count at 0 and records for every
    item the priority the old queue recorded. *)
Lemma cleanup_loop_consistent fuel : forall q nq nd,
  (length (queue q) <= fuel)%nat ->
  consistent q ->
  consistent (rebuilt nq nd) ->
  (forall item s, nd !! item = Some s -> count s = 0) ->
  (forall item, is_Some (nd !! item) -> deleted q !! item = None) ->
  exists nq' nd',
    cleanup_loop fuel q nq nd = Ok (nq', nd') /\
    consistent (rebuilt nq' nd') /\
    (forall item s, nd' !! item = Some s -> count s = 0) /\
    size nd' = (size nd + size (deleted q))%nat /\
    forall item,
      recorded_priority (rebuilt nq' nd') item =
      match recorded_priority (rebuilt nq nd) item with
      | Some p => Some p
      | None => recorded_priority q item
      end.
Proof.
  assert (Hdone : forall q nq nd,
            queue q = [] -> consistent q -> consistent (rebuilt nq nd) ->
            (forall item s, nd !! item = Some s -> count s = 0) ->
            consistent (rebuilt nq nd) /\
            (forall item s, nd !! item = Some s -> count s = 0) /\
            size nd = (size nd + size (deleted q))%nat /\
            forall item,
              recorded_priority (rebuilt nq nd) item =
              match recorded_priority (rebuilt nq nd) item with
              | Some p => Some p
              | None => recorded_priority q item
              end).
  { intros q nq nd He Hc HcN Hz. split; [exact HcN|]. split; [exact Hz|].
    rewrite (consistent_empty q Hc He), map_size_empty. split; [lia|].
    intros item. destruct (recorded_priority (rebuilt nq nd) item); [reflexivity|].
    unfold recorded_priority. rewrite (consistent_empty q Hc He), lookup_empty.
    reflexivity. }
  induction fuel as [|fuel IH]; intros q nq nd Hlen Hc HcN Hz Hdisj.
  - exists nq, nd. split; [reflexivity|]. apply Hdone; try assumption.
    destruct (queue q); [reflexivity|simpl in Hlen; lia].
  - cbn [cleanup_loop]. destruct (queue q) as [|x l] eqn:Eq.
    + exists nq, nd. split; [reflexivity|]. apply Hdone; assumption.
    + assert (Hpos : 0 < enqueued q)
        by (apply consistent_nonempty; [exact Hc|rewrite Eq; discriminate]).
      destruct (get_consistent q Hc Hpos)
        as (item & p & q' & Hget & Hrp & Hc' & Henq & Hgone & Hkeep & _).
      rewrite Hget. simpl.
      assert (Hfresh : nd !! item = None).
      { destruct (nd !! item) as [s|] eqn:E; [|reflexivity].
        assert (H : deleted q !! item = None) by (apply Hdisj; eauto).
        apply recorded_None in H. congruence. }
      destruct (put_consistent item p (rebuilt nq nd) HcN Hfresh)
        as (qN & Hput & HcN' & HdN).
      set (nq1 := heappush nq (PQueue._internal_priority p, item)).
      set (nd1 := <[item := {| priority := PQueue._internal_priority p; count := 0 |}]> nd).
      assert (HqN : qN = rebuilt nq1 nd1).
      { unfold put in Hput. simpl in Hput. rewrite Hfresh in Hput.
        injection Hput as <-. unfold rebuilt, nq1, nd1. f_equal.
        rewrite map_size_insert_None by assumption. lia. }
      rewrite HqN in HcN'.
      destruct (IH q' nq1 nd1) as (nq' & nd' & Hloop & Hcf & Hzf & Hsize & Hrec).
      * apply MoreFuelFacts.get_loop_shrinks in Hget. rewrite Eq in Hget.
        simpl in Hget, Hlen. lia.
      * exact Hc'.
      * exact HcN'.
      * intros item' s Hs. unfold nd1 in Hs.
        destruct (decide (item = item')) as [<-|Hne].
        -- rewrite lookup_insert_eq in Hs. injection Hs as <-. reflexivity.
        -- rewrite lookup_insert_ne in Hs by assumption. eapply Hz; eassumption.
      * intros item' Hsome. unfold nd1 in Hsome.
        destruct (decide (item = item')) as [<-|Hne].
        -- apply recorded_None. exact Hgone.
        -- rewrite lookup_insert_ne in Hsome by assumption.
           apply recorded_None. rewrite Hkeep by congruence.
           apply recorded_None. apply Hdisj. exact Hsome.
      * exists nq', nd'. split; [exact Hloop|]. split; [exact Hcf|].
        split; [exact Hzf|]. split.
        -- rewrite Hsize. unfold nd1. rewrite map_size_insert_None by assumption.
           pose proof (enqueued_size q Hc) as H1. pose proof (enqueued_size q' Hc') as H2.
           unfold enqueued in Henq, Hpos. lia.
        -- intros item'. rewrite Hrec. unfold recorded_priority at 1 3. simpl.
           unfold nd1. destruct (decide (item = item')) as [<-|Hne].
           ++ rewrite lookup_insert_eq, Hfresh. simpl.
              rewrite external_internal_priority. symmetry. exact Hrp.
           ++ rewrite lookup_insert_ne by assumption.
              destruct (nd !! item'); simpl; [reflexivity|].
              apply Hkeep. congruence.
Qed.

Lemma rebuilt_empty_consistent : consistent (rebuilt [] ∅).
Proof.
  split; simpl.
  - intros e He. inversion He.
  - intros item s Hs. rewrite lookup_empty in Hs. discriminate.
  - reflexivity.
  - unfold enqueued. simpl. rewrite map_size_empty. reflexivity.
Qed.

(** [_cleanup_deleted] on a consistent queue. *)
Lemma cleanup_deleted_consistent q :
  consistent q ->
  exists q',
    _cleanup_deleted q = Ok q' /\
    consistent q' /\
    enqueued q' = enqueued q /\
    num_deleted q' = 0 /\
    Z.of_nat (length (queue q')) = enqueued q /\
    (forall item s, deleted q' !! item = Some s -> count s = 0) /\
    (forall item, recorded_priority q' item = recorded_priority q item).
Proof.
  intros Hc. unfold _cleanup_deleted.
  destruct (cleanup_loop_consistent (length (queue q)) q [] ∅)
    as (nq & nd & Hloop & Hcf & Hz & Hsize & Hrec).
  - lia.
  - exact Hc.
  - exact rebuilt_empty_consistent.
  - intros item s Hs. rewrite lookup_empty in Hs. discriminate.
  - intros item [s Hs]. rewrite lookup_empty in Hs. discriminate.
  - rewrite Hloop. simpl. eexists. split; [reflexivity|].
    rewrite map_size_empty in Hsize. simpl in Hsize.
    assert (Heq : {| queue := nq; deleted := nd; num_enqueued := enqueued q;
                     num_deleted := 0 |} = rebuilt nq nd).
    { unfold rebuilt. f_equal. unfold enqueued. rewrite (enqueued_size q Hc), Hsize.
      reflexivity. }
    rewrite Heq. split; [exact Hcf|]. split.
    { unfold rebuilt, enqueued. simpl. rewrite Hsize, (enqueued_size q Hc). reflexivity. }
    split; [reflexivity|]. split.
    { pose proof (qsize_check _ Hcf) as H. unfold rebuilt, enqueued in H. simpl in H.
      unfold enqueued. rewrite (enqueued_size q Hc). simpl. lia. }
    split; [exact Hz|].
    intros item. rewrite Hrec.
    replace (recorded_priority (rebuilt [] ∅) item) with (@None Q); [reflexivity|].
    unfold recorded_priority, rebuilt. simpl. rewrite lookup_empty. reflexivity.
Qed.

(** [update] on a consistent queue, through a compaction or not. *)
Lemma update_consistent item p q :
  consistent q ->
  exists b q',
    update item p q = Ok (b, q') /\
    consistent q' /\
    enqueued q' = enqueued q /\
    (b = true <-> is_Some (deleted q !! item)) /\
    (forall item', item' <> item ->
       recorded_priority q' item' = recorded_priority q item') /\
    recorded_priority q' item
    = (fun old => if py_lt p old then p else old) <$> recorded_priority q item.
Proof.
  intros Hc. destruct (deleted q !! item) as [s|] eqn:Hs.
  2:{ exists false, q. rewrite (PQueueUpdateFacts.pq_update_untracked _ _ _ Hs).
      split; [reflexivity|]. split; [exact Hc|]. split; [reflexivity|]. split.
      - split; [discriminate|]. intros [? ?]; discriminate.
      - split; [reflexivity|]. unfold recorded_priority. rewrite Hs. reflexivity. }
  rewrite (update_unfold item p q s Hs).
  destruct (updated_consistent item p q s Hc Hs) as (Hc1 & Henq & Hkeep & Hrec).
  assert (Hgoal : recorded_priority (updated item p q s) item
                  = (fun old => if py_lt p old then p else old) <$> recorded_priority q item).
  { rewrite Hrec. unfold recorded_priority. rewrite Hs. simpl.
    destruct (py_lt _ _); reflexivity. }
  destruct (num_deleted (updated item p q s) >? MAX_DELETED_THRESHOLD).
  - destruct (cleanup_deleted_consistent _ Hc1)
      as (q' & Hcl & Hc' & Henq' & _ & _ & _ & Hrec').
    rewrite Hcl. simpl. exists true, q'. split; [reflexivity|].
    split; [exact Hc'|]. split; [lia|]. split; [split; eauto|]. split.
    + intros item' Hne. rewrite Hrec'. apply Hkeep. exact Hne.
    + rewrite Hrec'. exact Hgoal.
  - simpl. exists true, (updated item p q s). split; [reflexivity|].
    split; [exact Hc1|]. split; [exact Henq|]. split; [split; eauto|].
    split; [exact Hkeep|exact Hgoal].
Qed.

End PQueueConsistencyFacts.

Module FrontierContentsFacts.
Import FrontierManager FrontierContents.

Lemma insert_swap_perm {A} (l : list A) i x y :
  l !! i = Some x -> x :: <[i := y]> l ≡ₚ y :: l.
Proof.
  revert i. induction l as [|a l IH]; intros i Hi; [discriminate|].
  destruct i as [|i]; simpl in *.
  - injection Hi as ->. apply Permutation_swap.
  - rewrite Permutation_swap. rewrite (IH i Hi). apply Permutation_swap.
Qed.

Lemma last_snoc_take {A} (l : list A) u :
  last l = Some u -> l = take (length l - 1) l ++ [u].
Proof.
  intros H. destruct l as [|a l] using rev_ind; [discriminate|].
  rewrite last_snoc in H. injection H as ->.
  rewrite length_app. simpl. replace (length l + 1 - 1)%nat with (length l) by lia.
  rewrite take_app_length. reflexivity.
Qed.

(** [RandomFrontierManager.pop] takes one URL out of the list and keeps the
    others. *)
Lemma random_pop_perm r f u f' :
  RandomFrontierManager.pop r f = Ok (u, f') ->
  u :: RandomFrontierManager.queue f' ≡ₚ RandomFrontierManager.queue f.
Proof.
  unfold RandomFrontierManager.pop.
  set (l := RandomFrontierManager.queue f).
  destruct (length l) as [|n] eqn:El; [discriminate|].
  destruct (l !! (r mod S n)%nat) as [x|] eqn:Ex; [|discriminate].
  destruct (l !! n) as [y|] eqn:Ey; [|discriminate].
  intros [= <- <-]. cbn [RandomFrontierManager.queue].
  change (n - snd (Nat.divmod r n 0 n))%nat with (r mod S n)%nat.
  assert (Hl : l = take n l ++ [y]).
  { rewrite <- (take_drop n l) at 1. f_equal.
    apply list_eq. intros [|k].
    - rewrite lookup_drop, Nat.add_0_r. exact Ey.
    - rewrite lookup_drop. simpl. apply lookup_ge_None. lia. }
  assert (Hr : (r mod S n < S n)%nat) by (apply Nat.mod_upper_bound; lia).
  destruct (decide ((r mod S n)%nat = n)) as [Heq|Hne].
  - rewrite Heq in *. assert (x = y) by congruence. subst y.
    rewrite take_insert_ge by lia. rewrite take_insert_ge by lia.
    rewrite Hl at 2. rewrite <- Permutation_cons_append. reflexivity.
  - rewrite take_insert_ge by lia. rewrite take_insert_lt by lia.
    rewrite insert_swap_perm.
    + rewrite Hl at 2. rewrite <- Permutation_cons_append. reflexivity.
    + rewrite lookup_take_lt by lia. exact Ex.
Qed.

Lemma heap_update_urls item p h :
  map snd (PQueueHeap.queue (PQueueHeap.update item p h)) = map snd (PQueueHeap.queue h).
Proof.
  unfold PQueueHeap.update.
  destruct (PQueueHeap.find_item _ _ _) as [[i e]|] eqn:E; [|reflexivity].
  destruct (py_lt _ _); [|reflexivity]. simpl. unfold Heapq.heapify.
  apply PQueueHeapUpdateFacts.find_item_Some in E as (_ & Hl & He).
  rewrite Nat.sub_0_r in Hl.
  change (snd <$> <[i := (PQueue._internal_priority p, item)]> (PQueueHeap.queue h)
          = snd <$> PQueueHeap.queue h).
  rewrite list_fmap_insert. apply list_insert_id.
  rewrite list_lookup_fmap. unfold Heapq.entry in *. rewrite Hl. simpl. f_equal. exact He.
Qed.

Lemma heap_get_urls h item p h' :
  PQueueHeap.get h = Ok ((item, p), h') ->
  item :: map snd (PQueueHeap.queue h') ≡ₚ map snd (PQueueHeap.queue h).
Proof.
  unfold PQueueHeap.get.
  destruct (Heapq.heappop (PQueueHeap.queue h)) as [[e rest]|] eqn:E; [|discriminate].
  intros [= <- <- <-]. simpl. apply HeapqFacts.heappop_Some in E as [Hp _].
  rewrite <- Hp. reflexivity.
Qed.


Lemma dom_recorded q item :
  item ∈ dom (PQueuePriorityQueue.deleted q)
  <-> is_Some (PQueueConsistency.recorded_priority q item).
Proof.
  rewrite elem_of_dom. unfold PQueueConsistency.recorded_priority.
  destruct (PQueuePriorityQueue.deleted q !! item); simpl; split;
    intros [? ?]; try discriminate; eauto.
Qed.

Lemma pqueue_put item p q q' :
  pqueue_consistent q ->
  QualityFrontierManager.queue_put item p q = Ok q' ->
  pqueue_consistent q' /\ pqueue_urls q' ≡ₚ pqueue_urls q ++ [item].
Proof.
  destruct q as [u|h]; simpl; intros Hc.
  - destruct (PQueuePriorityQueue.deleted u !! item) as [s|] eqn:Hs.
    { rewrite (PQueueConsistencyFacts.put_tracked_raises item p u) by eauto. discriminate. }
    destruct (PQueueConsistencyFacts.put_consistent item p u Hc Hs) as (u' & Hput & Hc' & Hd).
    rewrite Hput. simpl. intros [= <-]. simpl. split; [exact Hc'|].
    rewrite Hd, dom_insert_L, elements_union_singleton.
    + apply Permutation_cons_append.
    + rewrite elem_of_dom, Hs. intros [? ?]; discriminate.
  - intros [= <-]. simpl. split; [exact I|].
    unfold PQueueHeap.put, Heapq.heappush. simpl. rewrite map_app. reflexivity.
Qed.

Lemma pqueue_update item p q b q' :
  pqueue_consistent q ->
  QualityFrontierManager.queue_update item p q = Ok (b, q') ->
  pqueue_consistent q' /\ pqueue_urls q' = pqueue_urls q.
Proof.
  destruct q as [u|h]; simpl; intros Hc.
  - destruct (PQueueConsistencyFacts.update_consistent item p u Hc)
      as (b' & u' & Hup & Hc' & _ & _ & Hkeep & Hrec).
    rewrite Hup. simpl. intros [= <- <-]. simpl. split; [exact Hc'|].
    f_equal. apply set_eq. intros x. rewrite !dom_recorded.
    destruct (decide (x = item)) as [->|Hne].
    + rewrite Hrec. rewrite fmap_is_Some. reflexivity.
    + rewrite Hkeep by assumption. reflexivity.
  - intros [= <- <-]. simpl. split; [exact I|]. apply heap_update_urls.
Qed.

Lemma pqueue_get q :
  pqueue_consistent q ->
  0 <= QualityFrontierManager.queue_enqueued q /\
  (0 < QualityFrontierManager.queue_enqueued q ->
   exists u p q',
     QualityFrontierManager.queue_get q = Ok ((u, p), q') /\
     pqueue_consistent q' /\ u :: pqueue_urls q' ≡ₚ pqueue_urls q).
Proof.
  destruct q as [u|h]; simpl; intros Hc.
  - split.
    { unfold PQueuePriorityQueue.enqueued.
      rewrite (PQueueConsistency.enqueued_size u Hc). lia. }
    intros Hpos.
    destruct (PQueueConsistencyFacts.get_consistent u Hc Hpos)
      as (item & p & u' & Hget & Hrp & Hc' & _ & Hgone & Hkeep & _).
    rewrite Hget. simpl. exists item, p, (QualityFrontierManager.Updating u').
    split; [reflexivity|]. split; [exact Hc'|]. simpl.
    assert (Hd : dom (PQueuePriorityQueue.deleted u)
                 = {[item]} ∪ dom (PQueuePriorityQueue.deleted u')).
    { apply set_eq. intros x. rewrite elem_of_union, elem_of_singleton, !dom_recorded.
      destruct (decide (x = item)) as [->|Hne].
      - rewrite Hrp. split; eauto.
      - rewrite Hkeep by assumption. split; [auto|]. intros [?|?]; [contradiction|assumption]. }
    rewrite Hd, elements_union_singleton; [reflexivity|].
    rewrite dom_recorded, Hgone. intros [? ?]; discriminate.
  - split; [unfold PQueueHeap.enqueued; lia|].
    intros Hpos. unfold PQueueHeap.enqueued in Hpos.
    destruct (PQueueHeap.get h) as [[[item p] h']|] eqn:E.
    + exists item, p, (QualityFrontierManager.Heap h'). simpl.
      split; [reflexivity|]. split; [exact I|].
      eapply heap_get_urls; eassumption.
    + exfalso. unfold PQueueHeap.get in E.
      destruct (Heapq.heappop (PQueueHeap.queue h)) as [[e0 rest]|] eqn:E'; [discriminate|].
      apply HeapqFacts.heappop_None in E'. rewrite E' in Hpos. simpl in Hpos. lia.
Qed.

End FrontierContentsFacts.

Module FrontierRunFacts.
Import FrontierManager FrontierContents FrontierContentsFacts.

Lemma quality_seed_put url docid g g' :
  QualityFrontierManager.add_with_max_priority url docid g = Ok g' ->
  QualityFrontierManager.queue_put url QualityFrontierManager.MAX_PRIORITY
    (QualityFrontierManager.queue g) = Ok (QualityFrontierManager.queue g').
Proof.
  unfold QualityFrontierManager.add_with_max_priority.
  destruct (QualityFrontierManager.queue_put _ _ _) as [q'|] eqn:E; simpl; [|discriminate].
  intros [= <-]. reflexivity.
Qed.

Lemma quality_add_put page father g g' :
  QualityFrontierManager.add page father g = Ok g' ->
  exists p,
    QualityFrontierManager.queue_put (WebPage.get_url page) p
      (QualityFrontierManager.queue g) = Ok (QualityFrontierManager.queue g').
Proof.
  unfold QualityFrontierManager.add. destruct father as [fa|].
  - destruct (QualityFrontierManager.oracle g); [|discriminate].
    destruct (WebPage.get_qscore page) as [[p|]|]; simpl; try discriminate.
    + destruct (QualityFrontierManager.queue_put _ _ _) as [q'|] eqn:E; simpl; [|discriminate].
      intros [= <-]. exists p. exact E.
    + destruct (QualityFrontierManager.queue_put _ _ _) as [q'|] eqn:E; simpl; [|discriminate].
      intros [= <-]. exists QualityFrontierManager.MIN_PRIORITY. exact E.
  - destruct (QualityFrontierManager.add_with_max_priority _ _ _) as [f1|] eqn:E;
      simpl; [|discriminate].
    intros [= <-]. exists QualityFrontierManager.MAX_PRIORITY.
    apply quality_seed_put in E. exact E.
Qed.

Lemma quality_update_queue page father g b g' :
  QualityFrontierManager.update page father g = Ok (b, g') ->
  exists p,
    QualityFrontierManager.queue_update (WebPage.get_url page) p
      (QualityFrontierManager.queue g) = Ok (b, QualityFrontierManager.queue g').
Proof.
  unfold QualityFrontierManager.update.
  match goal with |- context [mbind _ ?m] => destruct m as [pr|] end; simpl; [|discriminate].
  destruct (QualityFrontierManager.queue_update _ _ _) as [[b' q']|] eqn:E; simpl; [|discriminate].
  intros [= <- <-]. eexists. exact E.
Qed.

Lemma quality_pop_get g u g' :
  QualityFrontierManager.pop g = Ok (u, g') ->
  exists p,
    QualityFrontierManager.queue_get (QualityFrontierManager.queue g)
    = Ok ((u, p), QualityFrontierManager.queue g').
Proof.
  unfold QualityFrontierManager.pop.
  destruct (QualityFrontierManager.enqueued g =? 0); [discriminate|].
  destruct (QualityFrontierManager.queue_get _) as [[[u' p] q']|] eqn:E; simpl; [|discriminate].
  intros [= <- <-]. exists p. reflexivity.
Qed.

Lemma pqueue_get_inv q u p q' :
  pqueue_consistent q ->
  QualityFrontierManager.queue_get q = Ok ((u, p), q') ->
  pqueue_consistent q' /\ u :: pqueue_urls q' ≡ₚ pqueue_urls q.
Proof.
  intros Hc Hget.
  destruct (pqueue_get q Hc) as [Hnn Hpos].
  destruct (decide (0 < QualityFrontierManager.queue_enqueued q)) as [H|H].
  - destruct (Hpos H) as (u1 & p1 & q1 & Hget1 & Hc1 & Hp1).
    rewrite Hget1 in Hget. injection Hget as <- <- <-. auto.
  - exfalso. assert (H0 : QualityFrontierManager.queue_enqueued q = 0) by lia.
    destruct q as [uq|h]; simpl in *.
    + destruct (PQueuePriorityQueue.queue uq) as [|e l] eqn:Eq.
      * unfold PQueuePriorityQueue.get in Hget. rewrite Eq in Hget. discriminate.
      * assert (0 < PQueuePriorityQueue.enqueued uq); [|lia].
        apply PQueueConsistencyFacts.consistent_nonempty; [exact Hc|].
        rewrite Eq. discriminate.
    + unfold PQueueHeap.enqueued in H0.
      unfold PQueueHeap.get in Hget.
      destruct (PQueueHeap.queue h); [discriminate|simpl in H0; lia].
Qed.

(** One call on a frontier keeps the bookkeeping and moves exactly the URL
    it adds or returns. *)
Lemma step_contents f o out f' :
  frontier_consistent f ->
  step f o = Ok (out, f') ->
  frontier_consistent f' /\
  returned out ++ enqueued_urls f' ≡ₚ enqueued_urls f ++ returned (added_url o).
Proof.
  intros Hc.
  destruct o as [page father|url docid|page father|r]; simpl.
  - destruct (add page father f) as [f1|] eqn:E; simpl; [|discriminate].
    intros [= <- <-]. destruct f as [g|g|g|g]; simpl in E.
    + simplify_eq/=. auto.
    + destruct (QualityFrontierManager.add _ _ _) as [g'|] eqn:E'; simpl in E; [|discriminate].
      simplify_eq/=. apply quality_add_put in E' as [p E'].
      eapply pqueue_put; eassumption.
    + simplify_eq/=. auto.
    + simplify_eq/=. auto.
  - destruct (add_with_max_priority url docid f) as [f1|] eqn:E; simpl; [|discriminate].
    intros [= <- <-]. destruct f as [g|g|g|g]; simpl in E.
    + simplify_eq/=. auto.
    + destruct (QualityFrontierManager.add_with_max_priority _ _ _) as [g'|] eqn:E';
        simpl in E; [|discriminate].
      simplify_eq/=. apply quality_seed_put in E'.
      eapply pqueue_put; eassumption.
    + simplify_eq/=. auto.
    + simplify_eq/=. auto.
  - destruct (update page father f) as [[b f1]|] eqn:E; simpl; [|discriminate].
    intros [= <- <-]. rewrite app_nil_r. destruct f as [g|g|g|g]; simpl in E.
    + simplify_eq/=. auto.
    + destruct (QualityFrontierManager.update _ _ _) as [[b' g']|] eqn:E'; simpl in E; [|discriminate].
      simplify_eq/=. apply quality_update_queue in E' as [p E'].
      destruct (pqueue_update _ _ _ _ _ Hc E') as [Hc' Hu]. rewrite Hu. auto.
    + simplify_eq/=. auto.
    + simplify_eq/=. auto.
  - destruct (pop r f) as [[u f1]|] eqn:E; simpl; [|discriminate].
    intros [= <- <-]. rewrite app_nil_r. destruct f as [g|g|g|g]; simpl in E.
    + destruct (RandomFrontierManager.pop r g) as [[u' g']|] eqn:E'; simpl in E; [|discriminate].
      simplify_eq/=. split; [exact I|]. eapply random_pop_perm; eassumption.
    + destruct (QualityFrontierManager.pop g) as [[u' g']|] eqn:E'; simpl in E; [|discriminate].
      simplify_eq/=. apply quality_pop_get in E' as [p E'].
      eapply pqueue_get_inv; eassumption.
    + destruct (BreadthFirstSearchFrontierManager.pop g) as [[u' g']|] eqn:E'; simpl in E; [|discriminate].
      simplify_eq/=. split; [exact I|].
      unfold BreadthFirstSearchFrontierManager.pop in E'.
      destruct (BreadthFirstSearchFrontierManager.queue g); simplify_eq/=. reflexivity.
    + destruct (DepthFirstSearchFrontierManager.pop g) as [[u' g']|] eqn:E'; simpl in E; [|discriminate].
      simplify_eq/=. split; [exact I|].
      unfold DepthFirstSearchFrontierManager.pop in E'.
      destruct (last (DepthFirstSearchFrontierManager.queue g)) as [x|] eqn:El; [|discriminate].
      simplify_eq/=. etransitivity; [apply Permutation_cons_append|].
      rewrite <- (last_snoc_take _ _ El). reflexivity.
Qed.

Lemma run_contents ops : forall f out f',
  frontier_consistent f ->
  run f ops = Ok (out, f') ->
  frontier_consistent f' /\
  out ++ enqueued_urls f' ≡ₚ enqueued_urls f ++ added_urls ops.
Proof.
  induction ops as [|o ops IH]; intros f out f' Hc; simpl.
  - intros [= <- <-]. rewrite app_nil_r. auto.
  - destruct (step f o) as [[o1 f1]|] eqn:E; simpl; [|discriminate].
    destruct (run f1 ops) as [[outs f2]|] eqn:E'; simpl; [|discriminate].
    intros [= <- <-].
    destruct (step_contents _ _ _ _ Hc E) as [Hc1 Hp1].
    destruct (IH _ _ _ Hc1 E') as [Hc2 Hp2]. split; [exact Hc2|].
    unfold added_urls. simpl. fold (added_urls ops).
    transitivity (returned o1 ++ outs ++ enqueued_urls f2).
    { destruct o1; reflexivity. }
    rewrite Hp2, app_assoc, Hp1, <- app_assoc.
    destruct (added_url o); reflexivity.
Qed.

Lemma init_contents frontier_type updates f :
  init_frontier_manager frontier_type updates = Ok f ->
  frontier_consistent f /\ enqueued_urls f = [].
Proof.
  unfold init_frontier_manager.
  repeat case_decide; simpl; try discriminate; try (intros [= <-]; simpl; auto).
  destruct updates; simpl; split; auto.
  - apply PQueueConsistencyFacts.init_consistent.
Qed.

(** [pop] on a frontier with consistent bookkeeping. *)
Lemma pop_consistent r f :
  frontier_consistent f ->
  (enqueued f = 0 -> pop r f = Raise IndexError) /\
  (enqueued f <> 0 ->
   exists u f', pop r f = Ok (u, f') /\ u ∈ enqueued_urls f).
Proof.
  intros Hc. destruct f as [g|g|g|g]; simpl in *.
  - unfold RandomFrontierManager.enqueued, RandomFrontierManager.pop.
    destruct (RandomFrontierManager.queue g) as [|a l] eqn:El using rev_ind.
    { split; [reflexivity|]. simpl. lia. }
    clear IHl. split; [rewrite length_app; simpl; lia|]. intros _.
    rewrite length_app. simpl. replace (length l + 1)%nat with (S (length l)) by lia.
    assert (Hr : (r mod S (length l) < S (length l))%nat) by (apply Nat.mod_upper_bound; lia).
    destruct (lookup_lt_is_Some_2 (l ++ [a]) (r mod S (length l))%nat) as [x Hx].
    { rewrite length_app. simpl. lia. }
    cbv zeta.
    change (length l - snd (Nat.divmod r (length l) 0 (length l)))%nat
      with (r mod S (length l))%nat.
    rewrite Hx. rewrite (list_lookup_middle l [] a (length l) eq_refl). simpl.
    eexists _, _. split; [reflexivity|].
    eapply list_elem_of_lookup_2. exact Hx.
  - unfold QualityFrontierManager.enqueued, QualityFrontierManager.pop.
    unfold QualityFrontierManager.enqueued.
    destruct (pqueue_get _ Hc) as [Hnn Hpos]. split.
    + intros ->. reflexivity.
    + intros Hne. destruct (Z.eqb_spec (QualityFrontierManager.queue_enqueued
                                          (QualityFrontierManager.queue g)) 0); [contradiction|].
      destruct Hpos as (u & p & q' & Hget & _ & Hp); [lia|].
      rewrite Hget. simpl. eexists _, _. split; [reflexivity|].
      rewrite <- Hp. apply list_elem_of_here.
  - unfold BreadthFirstSearchFrontierManager.enqueued, BreadthFirstSearchFrontierManager.pop.
    destruct (BreadthFirstSearchFrontierManager.queue g) as [|a l]; simpl.
    + split; [reflexivity|lia].
    + split; [lia|]. intros _. eexists _, _. split; [reflexivity|]. apply list_elem_of_here.
  - unfold DepthFirstSearchFrontierManager.enqueued, DepthFirstSearchFrontierManager.pop.
    destruct (DepthFirstSearchFrontierManager.queue g) as [|a l] using rev_ind.
    + split; [reflexivity|simpl; lia].
    + clear IHl. rewrite last_snoc. split; [rewrite length_app; simpl; lia|].
      intros _. eexists _, _. split; [reflexivity|].
      apply elem_of_app. right. apply list_elem_of_here.
Qed.

End FrontierRunFacts.

Module PQueueCallsFacts.
Import Heapq PQueuePriorityQueue PQueueConsistency PQueueConsistencyFacts PQueueCalls.
Import PQueuePriorityQueueItems.

Lemma consistent_enqueued_nonneg q : consistent q -> 0 <= enqueued q.
Proof. intros Hc. unfold enqueued. rewrite (enqueued_size q Hc). lia. Qed.

Lemma consistent_drained q : consistent q -> enqueued q = 0 -> queue q = [].
Proof.
  intros Hc H0. destruct (queue q) as [|e l] eqn:E; [reflexivity|].
  assert (0 < enqueued q); [|lia].
  apply consistent_nonempty; [exact Hc|]. rewrite E. discriminate.
Qed.

Lemma get_drained q : consistent q -> enqueued q = 0 -> get q = Raise KeyError.
Proof.
  intros Hc H0. unfold get. rewrite (consistent_drained q Hc H0). reflexivity.
Qed.

Lemma get_Ok_consistent q r q' :
  consistent q -> get q = Ok (r, q') -> consistent q'.
Proof.
  intros Hc Hget. pose proof (consistent_enqueued_nonneg q Hc) as Hnn.
  destruct (decide (enqueued q = 0)) as [H0|Hne].
  - rewrite (get_drained q Hc H0) in Hget. discriminate.
  - destruct (get_consistent q Hc) as (item & p & q1 & Hget1 & _ & Hc1 & _); [lia|].
    rewrite Hget1 in Hget. injection Hget as _ <-. exact Hc1.
Qed.

Lemma apply_call_consistent q c q' :
  consistent q -> apply_call q c = Ok q' -> consistent q'.
Proof.
  intros Hc. destruct c as [item p|item p|]; simpl.
  - destruct (deleted q !! item) as [s|] eqn:Hs.
    + rewrite (put_tracked_raises item p q) by eauto. discriminate.
    + destruct (put_consistent item p q Hc Hs) as (q1 & Hput & Hc1 & _).
      rewrite Hput. intros [= <-]. exact Hc1.
  - destruct (update_consistent item p q Hc) as (b & q1 & Hup & Hc1 & _).
    rewrite Hup. simpl. intros [= <-]. exact Hc1.
  - destruct (get q) as [[r q1]|] eqn:E; simpl; [|discriminate].
    intros [= <-]. eapply get_Ok_consistent; eassumption.
Qed.

Lemma run_calls_consistent cs : forall q q',
  consistent q -> run_calls q cs = Ok q' -> consistent q'.
Proof.
  induction cs as [|c cs IH]; intros q q' Hc; simpl.
  - intros [= <-]. exact Hc.
  - destruct (apply_call q c) as [q1|] eqn:E; simpl; [|discriminate].
    intros Hrun. eapply IH; [|exact Hrun]. eapply apply_call_consistent; eassumption.
Qed.

Lemma reachable_consistent cs q : run_calls init cs = Ok q -> consistent q.
Proof. apply run_calls_consistent, init_consistent. Qed.


(** What a [get] that returns does to the keys of the table. *)
Lemma get_keys q item p q' :
  consistent q -> get q = Ok ((item, p), q') ->
  recorded_priority q item = Some p /\
  dom (deleted q) = {[item]} ∪ dom (deleted q') /\
  (item ∉ dom (deleted q')) /\
  (forall item', item' <> item ->
     recorded_priority q' item' = recorded_priority q item') /\
  (forall item' p', recorded_priority q item' = Some p' -> (p' <= p)%Q) /\
  enqueued q' = enqueued q - 1.
Proof.
  intros Hc Hget. pose proof (consistent_enqueued_nonneg q Hc) as Hnn.
  destruct (decide (enqueued q = 0)) as [H0|Hne].
  { rewrite (get_drained q Hc H0) in Hget. discriminate. }
  destruct (get_consistent q Hc) as (item1 & p1 & q1 & Hget1 & Hrp & _ & He & Hgone & Hkeep & Hmax);
    [lia|].
  rewrite Hget1 in Hget. injection Hget as -> -> ->.
  split; [exact Hrp|]. split; [|split; [|split; [exact Hkeep|split; [|exact He]]]].
  - apply set_eq. intros x.
    rewrite elem_of_union, elem_of_singleton, !FrontierContentsFacts.dom_recorded.
    destruct (decide (x = item)) as [->|Hx].
    + rewrite Hrp. split; eauto.
    + rewrite Hkeep by assumption. split; [auto|]. intros [?|?]; [contradiction|assumption].
  - rewrite FrontierContentsFacts.dom_recorded, Hgone. intros [? ?]; discriminate.
  - intros item' p' Hr'. specialize (Hmax item' p' Hr').
    apply entry_ltb_false_fst in Hmax. simpl in Hmax.
    unfold PQueue._internal_priority in Hmax. lra.
Qed.

Lemma sorted_by_impl_in {A} (R R' : A -> A -> Prop) (l : list A) :
  (forall a b, a ∈ l -> b ∈ l -> R a b -> R' a b) ->
  sorted_by R l -> sorted_by R' l.
Proof.
  induction l as [|a l IH]; intros Himp; simpl; [auto|]. intros [Hall Hs]. split.
  - rewrite Forall_forall in *. intros x Hx. apply Himp; [left|right; exact Hx|auto].
  - apply IH; [|exact Hs]. intros x y Hx Hy. apply Himp; right; assumption.
Qed.

Lemma sorted_by_lookup {A} (R : A -> A -> Prop) (l : list A) : forall i j a b,
  sorted_by R l -> (i < j)%nat -> l !! i = Some a -> l !! j = Some b -> R a b.
Proof.
  induction l as [|x l IH]; intros i j a b Hs Hij Hi Hj; [discriminate|].
  destruct Hs as [Hall Hs].
  destruct j as [|j]; [lia|]. destruct i as [|i]; simpl in *.
  - injection Hi as ->. rewrite Forall_forall in Hall. apply Hall.
    eapply list_elem_of_lookup_2. exact Hj.
  - apply (IH i j); [assumption|lia|assumption..].
Qed.

Lemma get_all_items_loop_consistent fuel : forall q acc,
  consistent q -> enqueued q = Z.of_nat fuel ->
  exists rest q',
    PQueuePriorityQueueItems.get_all_items_loop fuel q acc = Ok (acc ++ rest, q') /\
    consistent q' /\ enqueued q' = 0 /\
    rest ≡ₚ elements (dom (deleted q)) /\
    sorted_by (by_priority q) rest.
Proof.
  induction fuel as [|n IH]; intros q acc Hc Hn.
  - exists [], q. change (Z.of_nat 0) with 0 in Hn. simpl. rewrite app_nil_r.
    split; [destruct (enqueued q >? 0); reflexivity|]. split; [exact Hc|]. split; [exact Hn|].
    rewrite (consistent_empty q Hc (consistent_drained q Hc Hn)).
    rewrite dom_empty_L, elements_empty. split; [reflexivity|constructor].
  - cbn [PQueuePriorityQueueItems.get_all_items_loop].
    destruct (Z.gtb_spec (enqueued q) 0) as [Hpos|Hle]; [|lia].
    destruct (get_consistent q Hc) as (item & p & q1 & Hget & _ & Hc1 & _); [lia|].
    destruct (get_keys q item p q1 Hc Hget) as (Hrp & Hd & Hnotin & Hkeep & Hmax & He).
    rewrite Hget. simpl.
    destruct (IH q1 (acc ++ [item]) Hc1) as (rest & q' & Hloop & Hc' & H0 & Hperm & Hsort); [lia|].
    exists (item :: rest), q'. rewrite Hloop, <- app_assoc. simpl.
    split; [reflexivity|]. split; [exact Hc'|]. split; [exact H0|]. split.
    + rewrite Hd, elements_union_singleton by exact Hnotin. rewrite Hperm. reflexivity.
    + assert (Hin : forall x, x ∈ rest -> x <> item).
      { intros x Hx ->. apply Hnotin. apply elem_of_elements. rewrite <- Hperm. exact Hx. }
      split.
      * rewrite Forall_forall. intros b Hb pa pb Hpa Hpb.
        rewrite Hrp in Hpa. injection Hpa as <-. eapply Hmax. exact Hpb.
      * eapply sorted_by_impl_in; [|exact Hsort].
        intros a b Ha Hb HR pa pb Hpa Hpb. apply HR.
        -- rewrite Hkeep by auto. exact Hpa.
        -- rewrite Hkeep by auto. exact Hpb.
Qed.

Lemma get_all_items_consistent q :
  consistent q ->
  exists items q',
    PQueuePriorityQueueItems.get_all_items q = Ok (items, q') /\
    items ≡ₚ elements (dom (deleted q)) /\
    sorted_by (by_priority q) items /\
    consistent q' /\ enqueued q' = 0.
Proof.
  intros Hc. unfold PQueuePriorityQueueItems.get_all_items.
  destruct (get_all_items_loop_consistent (Z.to_nat (enqueued q)) q [] Hc)
    as (rest & q' & Hloop & Hc' & H0 & Hperm & Hsort).
  { pose proof (consistent_enqueued_nonneg q Hc). lia. }
  rewrite Hloop. simpl. exists rest, q'.
  assert (Hlen : enqueued q = Z.of_nat (length rest)).
  { rewrite Hperm. unfold enqueued. rewrite (enqueued_size q Hc).
    rewrite <- size_dom. reflexivity. }
  rewrite (proj2 (Z.eqb_eq _ _) Hlen). auto.
Qed.


Lemma entry_ltb_neither a b :
  entry_ltb a b = false -> entry_ltb b a = false -> snd a = snd b.
Proof.
  unfold entry_ltb. rewrite (HeapqFacts.entry_cmp_antisym b a).
  destruct (entry_cmp a b) eqn:E; simpl; try discriminate. intros _ _.
  unfold entry_cmp in E. destruct (fst a ?= fst b)%Q; try discriminate.
  apply String.compare_eq_iff. exact E.
Qed.

Lemma same_table_enqueued q1 q2 :
  consistent q1 -> consistent q2 ->
  (forall item, recorded_priority q1 item = recorded_priority q2 item) ->
  enqueued q1 = enqueued q2.
Proof.
  intros Hc1 Hc2 Hsame. unfold enqueued.
  rewrite (enqueued_size q1 Hc1), (enqueued_size q2 Hc2), <- !size_dom.
  replace (dom (deleted q2)) with (dom (deleted q1)); [reflexivity|].
  apply set_eq. intros x. rewrite !FrontierContentsFacts.dom_recorded, Hsame. reflexivity.
Qed.

(** What [get] returns depends on the recorded priorities only, not on the
    obsolete entries in the queue. *)
Lemma get_same_table q1 q2 :
  consistent q1 -> consistent q2 ->
  (forall item, recorded_priority q1 item = recorded_priority q2 item) ->
  match get q1, get q2 with
  | Ok (r1, q1'), Ok (r2, q2') =>
      r1 = r2 /\ consistent q1' /\ consistent q2' /\
      forall item, recorded_priority q1' item = recorded_priority q2' item
  | Raise e1, Raise e2 => e1 = e2
  | _, _ => False
  end.
Proof.
  intros Hc1 Hc2 Hsame.
  pose proof (same_table_enqueued q1 q2 Hc1 Hc2 Hsame) as He.
  pose proof (consistent_enqueued_nonneg q1 Hc1) as Hnn.
  destruct (decide (enqueued q1 = 0)) as [H0|Hne].
  { rewrite (get_drained q1 Hc1 H0), (get_drained q2 Hc2) by lia. reflexivity. }
  destruct (get_consistent q1 Hc1) as (i1 & p1 & q1' & Hg1 & Hr1 & Hc1' & _ & Hgone1 & Hkeep1 & Hmax1);
    [lia|].
  destruct (get_consistent q2 Hc2) as (i2 & p2 & q2' & Hg2 & Hr2 & Hc2' & _ & Hgone2 & Hkeep2 & Hmax2);
    [lia|].
  rewrite Hg1, Hg2.
  assert (Hi : i1 = i2).
  { apply (entry_ltb_neither (PQueue._internal_priority p1, i1)
                             (PQueue._internal_priority p2, i2)).
    - apply Hmax2. rewrite <- Hsame. exact Hr1.
    - apply Hmax1. rewrite Hsame. exact Hr2. }
  subst i2. assert (p1 = p2) by (rewrite Hsame, Hr2 in Hr1; congruence). subst p2.
  split; [reflexivity|]. split; [exact Hc1'|]. split; [exact Hc2'|].
  intros item. destruct (decide (item = i1)) as [->|Hx].
  - rewrite Hgone1, Hgone2. reflexivity.
  - rewrite Hkeep1, Hkeep2 by assumption. apply Hsame.
Qed.

Lemma get_many_same_table n : forall q1 q2,
  consistent q1 -> consistent q2 ->
  (forall item, recorded_priority q1 item = recorded_priority q2 item) ->
  get_many n q1 = get_many n q2.
Proof.
  induction n as [|n IH]; intros q1 q2 Hc1 Hc2 Hsame; simpl; [reflexivity|].
  pose proof (get_same_table q1 q2 Hc1 Hc2 Hsame) as H.
  destruct (get q1) as [[r1 q1']|e1], (get q2) as [[r2 q2']|e2]; try contradiction.
  - destruct H as (-> & Hc1' & Hc2' & Hsame'). f_equal. apply IH; assumption.
  - reflexivity.
Qed.

End PQueueCallsFacts.

(** ** The lazy-deletion priority queue *)

Section PriorityQueueProperties.
Import Heapq PQueuePriorityQueue PQueueConsistency PQueueCalls.
Import PQueuePriorityQueueItems.

(** X1: after any sequence of [put], [update] and [get] calls on a fresh
    [PQueuePriorityQueue], none of which raised, the check of [__init__]
    still holds: [enqueued()] is [queue.qsize() - num_deleted].  Besides,
    [enqueued()] is the number of keys of [deleted]; every entry in the
    queue is of a key of [deleted]; and for every key the queue holds an
    entry at the priority the table records, no entry of that item comes
    after it in heap order, and the count in the table is not negative. *)
Theorem pq_bookkeeping_after_calls (cs : list call) (q : PQueuePriorityQueue.t) :
  run_calls init cs = Ok q ->
  enqueued q = Z.of_nat (length (queue q)) - num_deleted q /\
  enqueued q = Z.of_nat (size (deleted q)) /\
  (forall e, e ∈ queue q -> is_Some (deleted q !! snd e)) /\
  (forall item s, deleted q !! item = Some s ->
     (priority s, item) ∈ queue q /\ 0 <= count s /\
     forall e, e ∈ queue q -> snd e = item -> (fst e <= priority s)%Q).
Proof.
  intros Hrun. apply PQueueCallsFacts.reachable_consistent in Hrun.
  destruct Hrun as [Htr Hlive Hsize Hq].
  split; [exact Hq|]. split; [exact Hsize|]. split; [exact Htr|].
  intros item s Hs. destruct (Hlive item s Hs) as (obs & Hp & Hobs & Hcount).
  split; [|split; [lia|]].
  - assert (Hin : (priority s, item) ∈ entries_of item (queue q)) by (rewrite Hp; left).
    exact (proj2 (proj1 (PQueueConsistencyFacts.entries_of_elem_of item _ _) Hin)).
  - intros e He Hsnd.
    assert (Hin : e ∈ entries_of item (queue q))
      by exact (proj2 (PQueueConsistencyFacts.entries_of_elem_of item _ _) (conj Hsnd He)).
    rewrite Hp in Hin. apply elem_of_cons in Hin as [->|Hin]; [simpl; lra|].
    rewrite Forall_forall in Hobs. apply Hobs in Hin. lra.
Qed.

Lemma pq_bookkeeping_witness :
  run_calls init QueueExamples.calls = Ok QueueExamples.after_calls /\
  enqueued QueueExamples.after_calls
  = Z.of_nat (length (queue QueueExamples.after_calls))
    - num_deleted QueueExamples.after_calls.
Proof.
  split; [vm_compute; reflexivity|].
  apply (pq_bookkeeping_after_calls QueueExamples.calls QueueExamples.after_calls).
  vm_compute. reflexivity.
Defined.

(** X2: on such a queue [get] raises [KeyError] when [enqueued()] is 0.
    Otherwise it returns an item of the table with the priority recorded
    for it, no item of the table has a higher recorded priority, the item
    leaves the table, the other items keep their priorities, and
    [enqueued()] goes down by one.  Obsolete entries never come out. *)
Theorem pq_get_after_calls (cs : list call) (q : PQueuePriorityQueue.t) :
  run_calls init cs = Ok q ->
  (enqueued q = 0 -> get q = Raise KeyError) /\
  (enqueued q <> 0 ->
   exists item p q',
     get q = Ok ((item, p), q') /\
     recorded_priority q item = Some p /\
     (forall item' p', recorded_priority q item' = Some p' -> (p' <= p)%Q) /\
     enqueued q' = enqueued q - 1 /\
     recorded_priority q' item = None /\
     (forall item', item' <> item ->
        recorded_priority q' item' = recorded_priority q item')).
Proof.
  intros Hrun. apply PQueueCallsFacts.reachable_consistent in Hrun. split.
  - apply PQueueCallsFacts.get_drained. exact Hrun.
  - intros Hne. pose proof (PQueueCallsFacts.consistent_enqueued_nonneg q Hrun).
    destruct (PQueueConsistencyFacts.get_consistent q Hrun)
      as (item & p & q' & Hget & Hrp & _ & He & Hgone & Hkeep & _); [lia|].
    destruct (PQueueCallsFacts.get_keys q item p q' Hrun Hget)
      as (_ & _ & _ & _ & Hmax & _).
    exists item, p, q'. auto 10.
Qed.

Lemma pq_get_witness :
  run_calls init QueueExamples.calls = Ok QueueExamples.after_calls /\
  exists item p q',
    get QueueExamples.after_calls = Ok ((item, p), q') /\
    recorded_priority QueueExamples.after_calls item = Some p /\
    enqueued q' = enqueued QueueExamples.after_calls - 1.
Proof.
  split; [vm_compute; reflexivity|].
  destruct (proj2 (pq_get_after_calls QueueExamples.calls QueueExamples.after_calls
                     ltac:(vm_compute; reflexivity)))
    as (item & p & q' & H1 & H2 & _ & H3 & _).
  - vm_compute. discriminate.
  - exists item, p, q'. auto.
Defined.

(** X3: on such a queue [update] never raises, not even when it compacts
    the queue.  It returns [True] exactly for an item of the table, keeps
    [enqueued()] and the recorded priorities of the other items, and
    records for the item the candidate when the candidate is strictly below
    the recorded priority, the recorded priority otherwise. *)
Theorem pq_update_after_calls
    (cs : list call) (q : PQueuePriorityQueue.t) (item : string) (p : Q) :
  run_calls init cs = Ok q ->
  exists b q',
    update item p q = Ok (b, q') /\
    (b = true <-> is_Some (recorded_priority q item)) /\
    enqueued q' = enqueued q /\
    (forall item', item' <> item ->
       recorded_priority q' item' = recorded_priority q item') /\
    recorded_priority q' item
    = (fun old => if py_lt p old then p else old) <$> recorded_priority q item.
Proof.
  intros Hrun. apply PQueueCallsFacts.reachable_consistent in Hrun.
  destruct (PQueueConsistencyFacts.update_consistent item p q Hrun)
    as (b & q' & Hup & _ & He & Hb & Hkeep & Hrec).
  exists b, q'. split; [exact Hup|]. split; [|auto].
  rewrite Hb. unfold recorded_priority. rewrite fmap_is_Some. reflexivity.
Qed.

Lemma pq_update_witness :
  run_calls init QueueExamples.calls = Ok QueueExamples.after_calls /\
  exists b q',
    update "b" (1 # 10)%Q QueueExamples.after_calls = Ok (b, q') /\
    enqueued q' = enqueued QueueExamples.after_calls /\
    recorded_priority q' "b" = Some (1 # 10)%Q.
Proof.
  split; [vm_compute; reflexivity|].
  destruct (pq_update_after_calls QueueExamples.calls QueueExamples.after_calls
              "b" (1 # 10)%Q ltac:(vm_compute; reflexivity))
    as (b & q' & H1 & _ & H2 & _ & H3).
  exists b, q'. split; [exact H1|]. split; [exact H2|]. rewrite H3. reflexivity.
Defined.

(** X4: on such a queue [_cleanup_deleted] never raises and cannot be
    observed through [get]: it keeps [enqueued()] and every recorded
    priority, and any number of [get] calls return the same items with the
    same priorities as they would have without it.  It leaves no obsolete
    entry: [num_deleted] is 0 and the queue holds [enqueued()] entries. *)
Theorem pq_cleanup_is_transparent (cs : list call) (q : PQueuePriorityQueue.t) :
  run_calls init cs = Ok q ->
  exists q',
    _cleanup_deleted q = Ok q' /\
    enqueued q' = enqueued q /\
    num_deleted q' = 0 /\
    Z.of_nat (length (queue q')) = enqueued q /\
    (forall item, recorded_priority q' item = recorded_priority q item) /\
    (forall n, get_many n q' = get_many n q).
Proof.
  intros Hrun. apply PQueueCallsFacts.reachable_consistent in Hrun.
  destruct (PQueueConsistencyFacts.cleanup_deleted_consistent q Hrun)
    as (q' & Hcl & Hc' & He & Hnd & Hlen & _ & Hrec).
  exists q'. repeat (split; [assumption|]).
  intros n. apply PQueueCallsFacts.get_many_same_table; assumption.
Qed.

Lemma pq_cleanup_witness :
  run_calls init QueueExamples.calls = Ok QueueExamples.after_calls /\
  exists q',
    _cleanup_deleted QueueExamples.after_calls = Ok q' /\
    num_deleted q' = 0 /\
    get_many 2 q' = get_many 2 QueueExamples.after_calls.
Proof.
  split; [vm_compute; reflexivity|].
  destruct (pq_cleanup_is_transparent QueueExamples.calls QueueExamples.after_calls
              ltac:(vm_compute; reflexivity))
    as (q' & H1 & _ & H2 & _ & _ & H3).
  exists q'. auto.
Defined.

(** X5: [put] then [get].  On such a queue, an item that is not in the
    table, put at a priority strictly above every recorded one, is what the
    next [get] returns, at that priority; after the two calls [enqueued()]
    and the recorded priorities are what they were. *)
Theorem pq_put_then_get
    (cs : list call) (q : PQueuePriorityQueue.t) (item : string) (p : Q) :
  run_calls init cs = Ok q ->
  recorded_priority q item = None ->
  (forall item' p', recorded_priority q item' = Some p' -> (p' < p)%Q) ->
  exists q1 q2,
    put item p q = Ok q1 /\
    get q1 = Ok ((item, p), q2) /\
    enqueued q2 = enqueued q /\
    (forall item', recorded_priority q2 item' = recorded_priority q item').
Proof.
  intros Hrun Hnone Hbelow. apply PQueueCallsFacts.reachable_consistent in Hrun.
  assert (Hs : deleted q !! item = None)
    by (apply PQueueConsistencyFacts.recorded_None; exact Hnone).
  destruct (PQueueConsistencyFacts.put_consistent item p q Hrun Hs) as (q1 & Hput & Hc1 & Hd1).
  pose proof (PQueuePriorityQueueFacts.pq_put_enqueued _ _ _ _ Hput) as He1.
  pose proof (PQueueCallsFacts.consistent_enqueued_nonneg q Hrun) as Hnn.
  assert (Hrec1 : recorded_priority q1 item = Some p).
  { unfold recorded_priority. rewrite Hd1, lookup_insert_eq. simpl.
    rewrite PQueueConsistencyFacts.external_internal_priority. reflexivity. }
  assert (Hoth : forall i, i <> item -> recorded_priority q1 i = recorded_priority q i).
  { intros i Hi. unfold recorded_priority. rewrite Hd1, lookup_insert_ne by auto. reflexivity. }
  destruct (PQueueConsistencyFacts.get_consistent q1 Hc1)
    as (i & pi & q2 & Hget & _); [lia|].
  destruct (PQueueCallsFacts.get_keys q1 i pi q2 Hc1 Hget)
    as (Hri & _ & Hnotin & Hkeep & Hmax & He2).
  assert (Hi : i = item).
  { destruct (decide (i = item)) as [|Hne]; [assumption|exfalso].
    rewrite Hoth in Hri by assumption.
    pose proof (Hbelow i pi Hri). pose proof (Hmax item p Hrec1). lra. }
  subst i. rewrite Hrec1 in Hri. injection Hri as <-.
  exists q1, q2. split; [exact Hput|]. split; [exact Hget|]. split; [lia|].
  intros i. destruct (decide (i = item)) as [->|Hne].
  - rewrite Hnone. rewrite FrontierContentsFacts.dom_recorded in Hnotin.
    destruct (recorded_priority q2 item); [exfalso; apply Hnotin; eauto|reflexivity].
  - rewrite Hkeep, Hoth by assumption. reflexivity.
Qed.

Lemma pq_put_then_get_witness :
  run_calls init QueueExamples.calls = Ok QueueExamples.after_calls /\
  exists q1 q2,
    put "d" (1 # 2)%Q QueueExamples.after_calls = Ok q1 /\
    get q1 = Ok (("d", (1 # 2)%Q), q2) /\
    enqueued q2 = enqueued QueueExamples.after_calls.
Proof.
  split; [vm_compute; reflexivity|].
  destruct (pq_put_then_get QueueExamples.calls QueueExamples.after_calls "d" (1 # 2)%Q)
    as (q1 & q2 & H1 & H2 & H3 & _).
  - vm_compute. reflexivity.
  - vm_compute. reflexivity.
  - intros item' p' H. unfold recorded_priority, QueueExamples.after_calls in H.
    cbn [deleted] in H. apply fmap_Some in H as (s & Hs & ->).
    apply lookup_insert_Some in Hs as [[_ <-]|[_ Hs]]; [vm_compute; reflexivity|].
    apply lookup_singleton_Some in Hs as [_ <-]. vm_compute. reflexivity.
  - exists q1, q2. auto.
Defined.

(** X6: on such a queue [PQueuePriorityQueue.get_all_items] never raises
    (its assertion holds) and returns every item of the table once, an item
    with a higher recorded priority before one with a lower.  It does not
    leave the queue as it was: afterwards [enqueued()] is 0, the queue is
    empty and [get] raises [KeyError]. *)
Theorem pq_get_all_items_drains (cs : list call) (q : PQueuePriorityQueue.t) :
  run_calls init cs = Ok q ->
  exists items q',
    get_all_items q = Ok (items, q') /\
    items ≡ₚ elements (dom (deleted q)) /\
    (forall i j a b pa pb,
       (i < j)%nat -> items !! i = Some a -> items !! j = Some b ->
       recorded_priority q a = Some pa -> recorded_priority q b = Some pb ->
       (pb <= pa)%Q) /\
    enqueued q' = 0 /\ queue q' = [] /\ get q' = Raise KeyError.
Proof.
  intros Hrun. apply PQueueCallsFacts.reachable_consistent in Hrun.
  destruct (PQueueCallsFacts.get_all_items_consistent q Hrun)
    as (items & q' & Hget & Hperm & Hsort & Hc' & H0).
  exists items, q'. split; [exact Hget|]. split; [exact Hperm|]. split.
  - intros i j a b pa pb Hij Hi Hj Hpa Hpb.
    exact (PQueueCallsFacts.sorted_by_lookup _ _ i j a b Hsort Hij Hi Hj pa pb Hpa Hpb).
  - split; [exact H0|]. split.
    + apply PQueueCallsFacts.consistent_drained; assumption.
    + apply PQueueCallsFacts.get_drained; assumption.
Qed.

Lemma pq_get_all_items_witness :
  run_calls init QueueExamples.calls = Ok QueueExamples.after_calls /\
  exists items q',
    get_all_items QueueExamples.after_calls = Ok (items, q') /\
    queue q' = [].
Proof.
  split; [vm_compute; reflexivity|].
  destruct (pq_get_all_items_drains QueueExamples.calls QueueExamples.after_calls
              ltac:(vm_compute; reflexivity))
    as (items & q' & H1 & _ & _ & _ & H2 & _).
  exists items, q'. auto.
Defined.

End PriorityQueueProperties.

Module FrontierOrderFacts.
Import FrontierManager FrontierContents.

(** On the BFS frontier what came out and what is left, in this order, is
    what was there and what was added. *)
Lemma bfs_run_order ops : forall g out f',
  run (BFS g) ops = Ok (out, f') ->
  exists g', f' = BFS g' /\
    out ++ BreadthFirstSearchFrontierManager.queue g'
    = BreadthFirstSearchFrontierManager.queue g ++ added_urls ops.
Proof.
  induction ops as [|o ops IH]; intros g out f'; simpl.
  - intros [= <- <-]. exists g. rewrite app_nil_r. auto.
  - destruct o as [page father|url docid|page father|r]; simpl.
    + destruct (run _ ops) as [[outs f2]|] eqn:E; simpl; [|discriminate].
      intros [= <- <-]. apply IH in E as (g' & -> & E). exists g'. split; [reflexivity|].
      rewrite E. unfold added_urls. simpl. rewrite <- app_assoc. reflexivity.
    + destruct (run _ ops) as [[outs f2]|] eqn:E; simpl; [|discriminate].
      intros [= <- <-]. apply IH in E as (g' & -> & E). exists g'. split; [reflexivity|].
      rewrite E. unfold added_urls. simpl. rewrite <- app_assoc. reflexivity.
    + destruct (run _ ops) as [[outs f2]|] eqn:E; simpl; [|discriminate].
      intros [= <- <-]. apply IH in E as (g' & -> & E). exists g'. auto.
    + unfold BreadthFirstSearchFrontierManager.pop.
      destruct (BreadthFirstSearchFrontierManager.queue g) as [|u l] eqn:Eq; simpl; [discriminate|].
      destruct (run _ ops) as [[outs f2]|] eqn:E; simpl; [|discriminate].
      intros [= <- <-]. apply IH in E as (g' & -> & E). exists g'. split; [reflexivity|].
      simpl in E. simpl. rewrite E. reflexivity.
Qed.

Lemma dfs_adds ps : forall father g,
  run (DFS g) (map (fun page => Add page father) ps)
  = Ok ([], DFS {| DepthFirstSearchFrontierManager.queue :=
                     DepthFirstSearchFrontierManager.queue g ++ map WebPage.get_url ps |}).
Proof.
  induction ps as [|p ps IH]; intros father g; simpl.
  - rewrite app_nil_r. destruct g. reflexivity.
  - rewrite IH. simpl. rewrite <- app_assoc. reflexivity.
Qed.

Lemma dfs_pops us : forall rs l,
  length rs = length us ->
  run (DFS {| DepthFirstSearchFrontierManager.queue := l ++ us |}) (map Pop rs)
  = Ok (rev us, DFS {| DepthFirstSearchFrontierManager.queue := l |}).
Proof.
  induction us as [|u us IH] using rev_ind; intros rs l Hlen.
  - destruct rs; [|discriminate]. rewrite app_nil_r. reflexivity.
  - rewrite length_app in Hlen. simpl in Hlen.
    destruct rs as [|r rs]; simpl in Hlen; [lia|]. simpl.
    unfold DepthFirstSearchFrontierManager.pop. simpl.
    rewrite app_assoc, last_snoc. simpl.
    rewrite length_app. simpl.
    replace (length (l ++ us) + 1 - 1)%nat with (length (l ++ us)) by lia.
    rewrite take_app_length. rewrite IH by lia. simpl.
    rewrite rev_app_distr. reflexivity.
Qed.

Lemma run_app ops1 : forall ops2 f out1 f1,
  run f ops1 = Ok (out1, f1) ->
  run f (ops1 ++ ops2)
  = ('(out2, f2) ← run f1 ops2; Ok (out1 ++ out2, f2)).
Proof.
  induction ops1 as [|o ops1 IH]; intros ops2 f out1 f1; simpl.
  - intros [= <- <-]. destruct (run f ops2) as [[? ?]|]; reflexivity.
  - destruct (step f o) as [[o1 f']|]; simpl; [|discriminate].
    destruct (run f' ops1) as [[outs f'']|] eqn:E; simpl; [|discriminate].
    intros [= <- <-]. rewrite (IH ops2 _ _ _ E).
    destruct (run f'' ops2) as [[out2 f2]|]; simpl; [|reflexivity].
    destruct o1; reflexivity.
Qed.

End FrontierOrderFacts.

Module QualityReportFacts.
Import FrontierManager FrontierContents QualityFrontierReports.

Lemma quality_add_counters page father g g' :
  QualityFrontierManager.add page father g = Ok g' ->
  QualityFrontierManager.no_priority_pages g'
  = QualityFrontierManager.no_priority_pages g
    + (if is_add_no_priority (Add page father) then 1 else 0) /\
  QualityFrontierManager.priority_pages g'
  = QualityFrontierManager.priority_pages g
    + (if is_add_no_priority (Add page father) then 0 else 1) /\
  QualityFrontierManager.no_father_pages g'
  = QualityFrontierManager.no_father_pages g
    + (if is_add_no_father (Add page father) then 1 else 0).
Proof.
  unfold QualityFrontierManager.add. destruct father as [fa|]; simpl.
  - destruct (QualityFrontierManager.oracle g); [|discriminate].
    destruct (WebPage.get_qscore page) as [[p|]|]; simpl; try discriminate.
    + destruct (QualityFrontierManager.queue_put _ _ _) as [q'|]; simpl; [|discriminate].
      intros [= <-]. simpl. lia.
    + destruct (QualityFrontierManager.queue_put _ _ _) as [q'|]; simpl; [|discriminate].
      intros [= <-]. simpl. lia.
  - unfold QualityFrontierManager.add_with_max_priority.
    destruct (QualityFrontierManager.queue_put _ _ _) as [q'|]; simpl; [|discriminate].
    intros [= <-]. simpl. lia.
Qed.

Lemma count_calls_cons P o ops :
  count_calls P (o :: ops) = (if P o then 1 else 0) + count_calls P ops.
Proof.
  unfold count_calls. destruct (P o) eqn:E.
  - rewrite filter_cons_True by exact E. simpl length. lia.
  - rewrite filter_cons_False by (rewrite E; discriminate). lia.
Qed.

Lemma quality_run_counters ops : forall g out f',
  run (Quality g) ops = Ok (out, f') ->
  exists g', f' = Quality g' /\
    QualityFrontierManager.no_priority_pages g'
    = QualityFrontierManager.no_priority_pages g + count_calls is_add_no_priority ops /\
    QualityFrontierManager.priority_pages g'
    = QualityFrontierManager.priority_pages g
      + (count_calls is_add ops - count_calls is_add_no_priority ops) /\
    QualityFrontierManager.no_father_pages g'
    = QualityFrontierManager.no_father_pages g + count_calls is_add_no_father ops.
Proof.
  induction ops as [|o ops IH]; intros g out f'.
  - simpl. intros [= <- <-]. exists g. unfold count_calls. simpl. split; [reflexivity|lia].
  - rewrite !count_calls_cons. cbn [run].
    destruct (step (Quality g) o) as [[o1 f1]|] eqn:Es; simpl; [|discriminate].
    destruct (run f1 ops) as [[outs f2]|] eqn:E; simpl; [|discriminate].
    intros [= <- <-].
    destruct o as [page father|url docid|page father|r]; simpl in Es.
    + destruct (QualityFrontierManager.add _ _ _) as [g1|] eqn:Ea; simpl in Es; [|discriminate].
      injection Es as <- <-. apply IH in E as (g' & -> & E1 & E2 & E3).
      apply quality_add_counters in Ea as (A1 & A2 & A3).
      exists g'. split; [reflexivity|]. cbn [is_add].
      destruct (is_add_no_priority _), (is_add_no_father _); lia.
    + destruct (QualityFrontierManager.add_with_max_priority _ _ _) as [g1|] eqn:Ea;
        simpl in Es; [|discriminate].
      injection Es as <- <-. apply IH in E as (g' & -> & E1 & E2 & E3).
      unfold QualityFrontierManager.add_with_max_priority in Ea.
      destruct (QualityFrontierManager.queue_put _ _ _) as [q'|]; simpl in Ea; [|discriminate].
      injection Ea as <-. simpl in *. exists g'. split; [reflexivity|lia].
    + destruct (QualityFrontierManager.update _ _ _) as [[b g1]|] eqn:Ea; simpl in Es; [|discriminate].
      injection Es as <- <-. apply IH in E as (g' & -> & E1 & E2 & E3).
      unfold QualityFrontierManager.update in Ea.
      match type of Ea with context [mbind _ ?m] => destruct m as [pr|] end;
        simpl in Ea; [|discriminate].
      destruct (QualityFrontierManager.queue_update _ _ _) as [[b' q']|]; simpl in Ea; [|discriminate].
      injection Ea as <- <-. simpl in *. exists g'. split; [reflexivity|lia].
    + destruct (QualityFrontierManager.pop g) as [[u g1]|] eqn:Ea; simpl in Es; [|discriminate].
      injection Es as <- <-. apply IH in E as (g' & -> & E1 & E2 & E3).
      unfold QualityFrontierManager.pop in Ea.
      destruct (QualityFrontierManager.enqueued g =? 0); [discriminate|].
      destruct (QualityFrontierManager.queue_get _) as [[[u' p] q']|]; simpl in Ea; [|discriminate].
      injection Ea as <- <-. simpl in *. exists g'. split; [reflexivity|lia].
Qed.


Lemma quality_step_kind g o out f' :
  step (Quality g) o = Ok (out, f') ->
  exists g', f' = Quality g' /\
    uses_updates (QualityFrontierManager.queue g')
    = uses_updates (QualityFrontierManager.queue g).
Proof.
  destruct o as [page father|url docid|page father|r]; simpl.
  - destruct (QualityFrontierManager.add _ _ _) as [g1|] eqn:Ea; simpl; [|discriminate].
    intros [= <- <-]. exists g1. split; [reflexivity|].
    apply FrontierRunFacts.quality_add_put in Ea as [p Ea].
    destruct (QualityFrontierManager.queue g) as [u|h]; simpl in Ea.
    + destruct (PQueuePriorityQueue.put _ _ _); simpl in Ea; [|discriminate].
      injection Ea as <-. reflexivity.
    + injection Ea as <-. reflexivity.
  - destruct (QualityFrontierManager.add_with_max_priority _ _ _) as [g1|] eqn:Ea;
      simpl; [|discriminate].
    intros [= <- <-]. exists g1. split; [reflexivity|].
    apply FrontierRunFacts.quality_seed_put in Ea.
    destruct (QualityFrontierManager.queue g) as [u|h]; simpl in Ea.
    + destruct (PQueuePriorityQueue.put _ _ _); simpl in Ea; [|discriminate].
      injection Ea as <-. reflexivity.
    + injection Ea as <-. reflexivity.
  - destruct (QualityFrontierManager.update _ _ _) as [[b g1]|] eqn:Ea; simpl; [|discriminate].
    intros [= <- <-]. exists g1. split; [reflexivity|].
    apply FrontierRunFacts.quality_update_queue in Ea as [p Ea].
    destruct (QualityFrontierManager.queue g) as [u|h]; simpl in Ea.
    + destruct (PQueuePriorityQueue.update _ _ _) as [[? ?]|]; simpl in Ea; [|discriminate].
      injection Ea as _ <-. reflexivity.
    + injection Ea as _ <-. reflexivity.
  - destruct (QualityFrontierManager.pop g) as [[u g1]|] eqn:Ea; simpl; [|discriminate].
    intros [= <- <-]. exists g1. split; [reflexivity|].
    apply FrontierRunFacts.quality_pop_get in Ea as [p Ea].
    destruct (QualityFrontierManager.queue g) as [uq|h]; simpl in Ea.
    + destruct (PQueuePriorityQueue.get _) as [[? ?]|]; simpl in Ea; [|discriminate].
      injection Ea as _ <-. reflexivity.
    + destruct (PQueueHeap.get _) as [[? ?]|]; simpl in Ea; [|discriminate].
      injection Ea as _ <-. reflexivity.
Qed.

Lemma quality_run_kind ops : forall g out f',
  run (Quality g) ops = Ok (out, f') ->
  exists g', f' = Quality g' /\
    uses_updates (QualityFrontierManager.queue g')
    = uses_updates (QualityFrontierManager.queue g).
Proof.
  induction ops as [|o ops IH]; intros g out f'; cbn [run].
  - intros [= <- <-]. exists g. auto.
  - destruct (step (Quality g) o) as [[o1 f1]|] eqn:Es; simpl; [|discriminate].
    destruct (run f1 ops) as [[outs f2]|] eqn:E; simpl; [|discriminate].
    intros [= <- <-]. apply quality_step_kind in Es as (g1 & -> & K1).
    apply IH in E as (g' & -> & K). exists g'. split; [reflexivity|congruence].
Qed.

Lemma quality_init frontier_type updates f0 :
  frontier_type = "oracle-quality" ->
  init_frontier_manager frontier_type updates = Ok f0 ->
  exists g0, f0 = Quality g0 /\
    uses_updates (QualityFrontierManager.queue g0) = updates /\
    QualityFrontierManager.no_priority_pages g0 = 0 /\
    QualityFrontierManager.priority_pages g0 = 0 /\
    QualityFrontierManager.no_father_pages g0 = 0.
Proof.
  intros ->. unfold init_frontier_manager. simpl.
  intros [= <-]. eexists. split; [reflexivity|]. destruct updates; simpl; auto.
Qed.

Lemma heap_get_all_items h :
  PQueueHeapItems.get_all_items h = Ok (map snd (PQueueHeap.queue h)).
Proof.
  unfold PQueueHeapItems.get_all_items, PQueueHeap.enqueued.
  rewrite length_map, Z.eqb_refl. reflexivity.
Qed.

End QualityReportFacts.

(** ** The frontier managers *)

Section FrontierProperties.
Import FrontierManager FrontierContents QualityFrontierReports.

(** X7: no policy loses or duplicates a URL.  After any sequence of [add],
    [add_with_max_priority], [update] and [pop] calls on a fresh frontier,
    none of which raised, the URLs the pops returned together with the URLs
    the frontier holds are, up to order, the URLs that were added; and
    [enqueued()] is the number of URLs the frontier holds. *)
Theorem frontier_conserves_urls
    (frontier_type : string) (updates : bool) (f0 : FrontierManager.t)
    (ops : list op) (out : list string) (f : FrontierManager.t) :
  init_frontier_manager frontier_type updates = Ok f0 ->
  run f0 ops = Ok (out, f) ->
  out ++ enqueued_urls f ≡ₚ added_urls ops /\
  enqueued f = Z.of_nat (length (enqueued_urls f)).
Proof.
  intros Hinit Hrun.
  apply FrontierRunFacts.init_contents in Hinit as [Hc0 H0].
  destruct (FrontierRunFacts.run_contents ops f0 out f Hc0 Hrun) as [Hc Hp].
  rewrite H0 in Hp. split; [exact Hp|].
  destruct f as [g|g|g|g]; try reflexivity.
  simpl in *. unfold QualityFrontierManager.enqueued.
  destruct (QualityFrontierManager.queue g) as [u|h]; simpl in *.
  - unfold PQueuePriorityQueue.enqueued.
    rewrite (PQueueConsistency.enqueued_size u Hc), <- size_dom. reflexivity.
  - unfold PQueueHeap.enqueued. rewrite length_map. reflexivity.
Qed.

Lemma frontier_conserves_urls_witness :
  exists f0 out f,
    init_frontier_manager "oracle-quality" true = Ok f0 /\
    run f0 Examples.ops = Ok (out, f) /\
    out = ["S"; "X"] /\
    out ++ enqueued_urls f ≡ₚ added_urls Examples.ops.
Proof.
  eexists _, _, _.
  split; [reflexivity|].
  split; [vm_compute; reflexivity|].
  split; [reflexivity|].
  eapply (frontier_conserves_urls "oracle-quality" true).
  - reflexivity.
  - vm_compute. reflexivity.
Defined.

(** X8: on every policy, [pop] on a frontier reached that way raises
    [IndexError] when [enqueued()] is 0, and otherwise returns a URL the
    frontier holds; with the lazy-deletion queue it neither raises the
    queue's [KeyError] nor stumbles on an obsolete entry. *)
Theorem frontier_pop_after_run
    (frontier_type : string) (updates : bool) (f0 : FrontierManager.t)
    (ops : list op) (out : list string) (f : FrontierManager.t) (r : nat) :
  init_frontier_manager frontier_type updates = Ok f0 ->
  run f0 ops = Ok (out, f) ->
  (enqueued f = 0 -> pop r f = Raise IndexError) /\
  (enqueued f <> 0 ->
   exists u f', pop r f = Ok (u, f') /\ u ∈ enqueued_urls f).
Proof.
  intros Hinit Hrun.
  apply FrontierRunFacts.init_contents in Hinit as [Hc0 _].
  destruct (FrontierRunFacts.run_contents ops f0 out f Hc0 Hrun) as [Hc _].
  apply FrontierRunFacts.pop_consistent. exact Hc.
Qed.

Lemma frontier_pop_witness :
  exists f0 out f u f',
    init_frontier_manager "oracle-quality" true = Ok f0 /\
    run f0 Examples.ops = Ok (out, f) /\
    pop 0 f = Ok (u, f') /\ u ∈ enqueued_urls f.
Proof.
  destruct (proj2 (frontier_pop_after_run "oracle-quality" true _ Examples.ops _ _ 0%nat
                     eq_refl ltac:(vm_compute; reflexivity)))
    as (u & f' & H1 & H2).
  - vm_compute. discriminate.
  - eexists _, _, _, u, f'.
    split; [reflexivity|]. split; [vm_compute; reflexivity|]. split; assumption.
Defined.

(** X9: the BFS frontier is first in, first out: after any such sequence
    of calls, the URLs returned followed by the URLs still in the deque are
    the URLs added, in the order they were added. *)
Theorem bfs_pops_in_arrival_order
    (updates : bool) (f0 : FrontierManager.t)
    (ops : list op) (out : list string) (f : FrontierManager.t) :
  init_frontier_manager "bfs" updates = Ok f0 ->
  run f0 ops = Ok (out, f) ->
  out ++ enqueued_urls f = added_urls ops.
Proof.
  intros Hinit Hrun. injection Hinit as <-.
  apply FrontierOrderFacts.bfs_run_order in Hrun as (g' & -> & E). exact E.
Qed.

Lemma bfs_pops_in_arrival_order_witness :
  exists f0 out f,
    init_frontier_manager "bfs" false = Ok f0 /\
    run f0 Examples.ops = Ok (out, f) /\
    out = ["S"; "X"] /\
    out ++ enqueued_urls f = added_urls Examples.ops.
Proof.
  eexists _, _, _.
  split; [reflexivity|].
  split; [vm_compute; reflexivity|].
  split; [reflexivity|].
  eapply (bfs_pops_in_arrival_order false).
  - reflexivity.
  - vm_compute. reflexivity.
Defined.

(** X10: the DFS frontier is last in, first out: on any DFS frontier,
    [add] of some pages followed by as many [pop]s returns the pages' URLs
    in reverse and leaves the frontier as it was. *)
Theorem dfs_pops_in_reverse_order
    (g : DepthFirstSearchFrontierManager.t)
    (pages : list WebPage.t) (father : option WebPage.t) (rs : list nat) :
  length rs = length pages ->
  run (DFS g) (map (fun page => Add page father) pages ++ map Pop rs)
  = Ok (rev (map WebPage.get_url pages), DFS g).
Proof.
  intros Hlen.
  rewrite (FrontierOrderFacts.run_app _ _ _ _ _ (FrontierOrderFacts.dfs_adds pages father g)).
  rewrite FrontierOrderFacts.dfs_pops by (rewrite length_map; exact Hlen).
  simpl. destruct g. reflexivity.
Qed.

Lemma dfs_pops_in_reverse_order_witness :
  run (DFS DepthFirstSearchFrontierManager.init)
    [ Add (Examples.page "X" None) None; Add (Examples.page "Y" None) None;
      Pop 0; Pop 0 ]
  = Ok (["Y"; "X"], DFS DepthFirstSearchFrontierManager.init).
Proof.
  apply (dfs_pops_in_reverse_order DepthFirstSearchFrontierManager.init
           [Examples.page "X" None; Examples.page "Y" None] None [0; 0]%nat).
  reflexivity.
Defined.

(** X11: with [updates=True] the quality frontier refuses a URL it
    holds: on a frontier reached by calls that did not raise,
    [add_with_max_priority] raises [AssertionError] for a URL in the
    frontier, and succeeds for any other URL, also one that was popped
    before. *)
Theorem quality_updates_rejects_held_url
    (f0 : FrontierManager.t) (ops : list op) (out : list string)
    (f : FrontierManager.t) (url : string) (docid : Z) :
  init_frontier_manager "oracle-quality" true = Ok f0 ->
  run f0 ops = Ok (out, f) ->
  (url ∈ enqueued_urls f ->
   add_with_max_priority url docid f = Raise AssertionError) /\
  (url ∉ enqueued_urls f ->
   exists f', add_with_max_priority url docid f = Ok f' /\
              enqueued_urls f' ≡ₚ url :: enqueued_urls f).
Proof.
  intros Hinit Hrun.
  pose proof (FrontierRunFacts.init_contents _ _ _ Hinit) as [Hc0 _].
  destruct (FrontierRunFacts.run_contents ops f0 out f Hc0 Hrun) as [Hc _].
  apply QualityReportFacts.quality_init in Hinit as (g0 & -> & K0 & _); [|reflexivity].
  apply QualityReportFacts.quality_run_kind in Hrun as (g & -> & K).
  rewrite K0 in K. simpl in *. unfold QualityFrontierManager.add_with_max_priority.
  destruct (QualityFrontierManager.queue g) as [u|h] eqn:Eq; [|discriminate]. simpl in *.
  rewrite elem_of_elements, elem_of_dom. split.
  - intros Hin. rewrite (PQueueConsistencyFacts.put_tracked_raises _ _ _ Hin). reflexivity.
  - intros Hnot. assert (Hs : PQueuePriorityQueue.deleted u !! url = None).
    { destruct (PQueuePriorityQueue.deleted u !! url); [exfalso; apply Hnot; eauto|reflexivity]. }
    destruct (PQueueConsistencyFacts.put_consistent url QualityFrontierManager.MAX_PRIORITY u Hc Hs)
      as (u' & Hput & _ & Hd).
    rewrite Hput. simpl. eexists. split; [reflexivity|]. simpl.
    rewrite Hd, dom_insert_L. apply elements_union_singleton.
    rewrite elem_of_dom, Hs. intros [? ?]; discriminate.
Qed.

Lemma quality_updates_rejects_held_url_witness :
  exists f0 out f,
    init_frontier_manager "oracle-quality" true = Ok f0 /\
    run f0 Examples.ops = Ok (out, f) /\
    add_with_max_priority "Y" 7 f = Raise AssertionError.
Proof.
  eexists _, _, _.
  split; [reflexivity|].
  split; [vm_compute; reflexivity|].
  eapply (proj1 (quality_updates_rejects_held_url _ Examples.ops _ _ "Y" 7
                   eq_refl ltac:(vm_compute; reflexivity))).
  apply (bool_decide_unpack _). vm_compute. exact I.
Defined.

(** X12: what [get_stats] reports.  On the quality frontier, after calls
    that did not raise, [no_priority_pages] counts the [add] calls with a
    father whose page has no [qscore], [priority_pages] counts the other
    [add] calls, seeds included, and [no_father_pages] counts the [add]
    calls without a father; [add_with_max_priority], [update] and [pop]
    leave the three counters alone. *)
Theorem quality_get_stats_counts
    (updates : bool) (f0 : FrontierManager.t) (ops : list op)
    (out : list string) (f : FrontierManager.t) :
  init_frontier_manager "oracle-quality" updates = Ok f0 ->
  run f0 ops = Ok (out, f) ->
  exists g,
    f = Quality g /\
    get_stats g = (count_calls is_add_no_priority ops,
                   count_calls is_add ops - count_calls is_add_no_priority ops) /\
    QualityFrontierManager.no_father_pages g = count_calls is_add_no_father ops.
Proof.
  intros Hinit Hrun.
  apply QualityReportFacts.quality_init in Hinit as (g0 & -> & _ & Z1 & Z2 & Z3); [|reflexivity].
  apply QualityReportFacts.quality_run_counters in Hrun as (g & -> & E1 & E2 & E3).
  exists g. split; [reflexivity|]. unfold get_stats. rewrite E1, E2, E3, Z1, Z2, Z3.
  split; [reflexivity|]. lia.
Qed.

Lemma quality_get_stats_counts_witness :
  exists f0 out f g,
    init_frontier_manager "oracle-quality" true = Ok f0 /\
    run f0 Examples.ops = Ok (out, f) /\
    f = Quality g /\ get_stats g = (0, 3).
Proof.
  destruct (quality_get_stats_counts true _ Examples.ops _ _
              eq_refl ltac:(vm_compute; reflexivity))
    as (g & H1 & H2 & _).
  eexists _, _, _, g.
  split; [reflexivity|]. split; [vm_compute; reflexivity|]. split; [exact H1|exact H2].
Defined.

(** X13: [get_all_urls] returns the URLs the quality frontier holds.
    With [updates=False] it leaves the frontier as it is; with
    [updates=True] it empties it: afterwards [enqueued()] is 0 and [pop]
    raises [IndexError]. *)
Theorem quality_get_all_urls
    (updates : bool) (f0 : FrontierManager.t) (ops : list op)
    (out : list string) (f : FrontierManager.t) :
  init_frontier_manager "oracle-quality" updates = Ok f0 ->
  run f0 ops = Ok (out, f) ->
  exists g urls g',
    f = Quality g /\
    get_all_urls g = Ok (urls, g') /\
    urls ≡ₚ enqueued_urls f /\
    if updates
    then QualityFrontierManager.enqueued g' = 0 /\
         QualityFrontierManager.pop g' = Raise IndexError
    else g' = g.
Proof.
  intros Hinit Hrun.
  pose proof (FrontierRunFacts.init_contents _ _ _ Hinit) as [Hc0 _].
  destruct (FrontierRunFacts.run_contents ops f0 out f Hc0 Hrun) as [Hc _].
  apply QualityReportFacts.quality_init in Hinit as (g0 & -> & K0 & _); [|reflexivity].
  apply QualityReportFacts.quality_run_kind in Hrun as (g & -> & K).
  rewrite K0 in K. clear K0. exists g. unfold get_all_urls. simpl in *.
  destruct (QualityFrontierManager.queue g) as [u|h] eqn:Eq; simpl in *; subst updates.
  - destruct (PQueueCallsFacts.get_all_items_consistent u Hc)
      as (items & u' & Hget & Hperm & _ & Hc' & H0).
    rewrite Hget. simpl. eexists _, _. split; [reflexivity|]. split; [reflexivity|].
    split; [exact Hperm|].
    unfold QualityFrontierManager.pop, QualityFrontierManager.enqueued. simpl.
    rewrite H0. auto.
  - rewrite QualityReportFacts.heap_get_all_items. simpl.
    eexists _, _. split; [reflexivity|]. split; [reflexivity|]. auto.
Qed.

Lemma quality_get_all_urls_witness :
  exists f0 out f g urls g',
    init_frontier_manager "oracle-quality" true = Ok f0 /\
    run f0 Examples.ops = Ok (out, f) /\
    f = Quality g /\
    get_all_urls g = Ok (urls, g') /\
    QualityFrontierManager.pop g' = Raise IndexError.
Proof.
  destruct (quality_get_all_urls true _ Examples.ops _ _
              eq_refl ltac:(vm_compute; reflexivity))
    as (g & urls & g' & H1 & H2 & _ & _ & H3).
  eexists _, _, _, g, urls, g'.
  split; [reflexivity|]. split; [vm_compute; reflexivity|]. auto.
Defined.

End FrontierProperties.

Module SeenCallsFacts.
Import BitArraySeenURLTester SeenCalls.

Lemma count_insert_true (l : list bool) : forall (i : nat) (b : bool),
  l !! i = Some b ->
  length (filter (fun b : bool => b = true) (<[i := true]> l))
  = (length (filter (fun b : bool => b = true) l) + (if b then 0 else 1))%nat.
Proof.
  induction l as [|x l IH]; intros i b Hi; [discriminate|].
  destruct i as [|i]; simpl in *.
  - injection Hi as ->. destruct b.
    + rewrite filter_cons_True by reflexivity. simpl. lia.
    + rewrite filter_cons_False by discriminate. simpl. lia.
  - rewrite !filter_cons. destruct (decide (x = true)); simpl; rewrite (IH i b Hi); lia.
Qed.


Lemma init_same_docids C b0 :
  init C = Ok b0 -> same_docids C b0 SetSeenURLTester.init.
Proof.
  unfold init. destruct (Z.ltb_spec C 0) as [?|HC]; [discriminate|].
  intros [= <-]. split; [|split; [reflexivity|split]].
  - split; simpl; [exact HC|apply length_replicate].
  - intros d Hd. simpl. rewrite lookup_replicate_2 by lia. reflexivity.
  - unfold seen_count, SetSeenURLTester.seen_count. simpl.
    rewrite SeenFacts.count_replicate_false. reflexivity.
Qed.

Lemma set_size_mark (d : Z) (X : gset Z) :
  size ({[d]} ∪ X) = (size X + (if bool_decide (d ∈ X) then 0 else 1))%nat.
Proof.
  destruct (bool_decide_reflect (d ∈ X)) as [Hin|Hnot].
  - replace ({[d]} ∪ X) with X; [lia|].
    apply set_eq. intros x. rewrite elem_of_union, elem_of_singleton.
    split; [auto|intros [->|?]; assumption].
  - rewrite size_union by (apply disjoint_singleton_l; exact Hnot).
    rewrite size_singleton. lia.
Qed.

Lemma mark_same_docids C b s d :
  same_docids C b s -> 0 <= d < C ->
  exists b', mark_seen d b = (Ok tt, b') /\
             same_docids C b' (SetSeenURLTester.mark_seen d s).
Proof.
  intros ([Hcap Hlen] & HC & Hbits & Hcount) Hd. unfold mark_seen.
  rewrite SeenFacts.in_range_guard by (rewrite HC; exact Hd).
  assert (Hlt : (Z.to_nat d < length (seen_urls b))%nat) by (rewrite Hlen; lia).
  destruct (decide (Z.to_nat d < length (seen_urls b))%nat) as [_|?]; [|contradiction].
  eexists. split; [reflexivity|].
  split; [|split; [exact HC|split]].
  - split; simpl; [exact Hcap|]. rewrite length_insert. exact Hlen.
  - intros d' Hd'. simpl. unfold SetSeenURLTester.is_seen, SetSeenURLTester.mark_seen. simpl.
    destruct (decide (d' = d)) as [->|Hne].
    + rewrite list_lookup_insert_eq by exact Hlt.
      rewrite bool_decide_eq_true_2; [reflexivity|].
      apply elem_of_union. left. apply elem_of_singleton. reflexivity.
    + rewrite list_lookup_insert_ne by lia. rewrite (Hbits d' Hd').
      unfold SetSeenURLTester.is_seen. f_equal. apply bool_decide_ext.
      rewrite elem_of_union, elem_of_singleton.
      split; [auto|intros [?|?]; [contradiction|assumption]].
  - unfold seen_count in *. simpl.
    rewrite (count_insert_true _ _ _ (Hbits d Hd)).
    unfold SetSeenURLTester.seen_count, SetSeenURLTester.mark_seen in *. simpl.
    rewrite set_size_mark. unfold SetSeenURLTester.is_seen. lia.
Qed.

Lemma mark_all_same_docids C ds : forall b s,
  same_docids C b s -> Forall (fun d => 0 <= d < C) ds ->
  exists b', mark_all ds b = (Ok tt, b') /\ same_docids C b' (set_mark_all ds s).
Proof.
  induction ds as [|d ds IH]; intros b s Hsame Hall; simpl.
  - exists b. auto.
  - inversion Hall as [|? ? Hd Hall']; subst.
    destruct (mark_same_docids C b s d Hsame Hd) as (b1 & Hm & Hsame1).
    rewrite Hm. apply IH; assumption.
Qed.

End SeenCallsFacts.

(** ** The seen-sets *)

Section SeenProperties.
Import BitArraySeenURLTester SeenCalls.

(** X14: the bitmap and the set are the same seen-set below the capacity.
    After [mark_seen] of any docids in [0, capacity) on a fresh
    [BitArraySeenURLTester], none of the calls has raised, [is_seen] answers
    for every docid in range what a [SetSeenURLTester] answers after the
    same calls, and [seen_count] is the same number: the distinct docids
    marked, however often each was marked. *)
Theorem seen_testers_agree (C : Z) (docids : list Z) (b0 : BitArraySeenURLTester.t) :
  init C = Ok b0 ->
  Forall (fun d => 0 <= d < C) docids ->
  exists b,
    mark_all docids b0 = (Ok tt, b) /\
    (forall d, 0 <= d < C ->
       is_seen d b
       = (Ok (SetSeenURLTester.is_seen d (set_mark_all docids SetSeenURLTester.init)), b)) /\
    seen_count b
    = SetSeenURLTester.seen_count (set_mark_all docids SetSeenURLTester.init) /\
    (forall d, d ∈ docids -> is_seen d b = (Ok true, b)).
Proof.
  intros Hinit Hall. apply SeenCallsFacts.init_same_docids in Hinit.
  destruct (SeenCallsFacts.mark_all_same_docids C docids b0 _ Hinit Hall)
    as (b & Hm & Hsame).
  exists b. split; [exact Hm|].
  assert (Hseen : forall d, 0 <= d < C ->
            is_seen d b
            = (Ok (SetSeenURLTester.is_seen d (set_mark_all docids SetSeenURLTester.init)), b)).
  { intros d Hd. destruct Hsame as (_ & HC & Hbits & _). unfold is_seen.
    rewrite SeenFacts.in_range_guard by (rewrite HC; exact Hd).
    rewrite (Hbits d Hd). reflexivity. }
  split; [exact Hseen|]. split; [apply Hsame|].
  intros d Hd. rewrite Forall_forall in Hall. rewrite (Hseen d (Hall d Hd)).
  do 2 f_equal. unfold SetSeenURLTester.is_seen. apply bool_decide_eq_true_2.
  clear -Hd. generalize SetSeenURLTester.init.
  induction docids as [|x l IH]; intros s; [inversion Hd|].
  apply elem_of_cons in Hd as [->|Hd]; simpl.
  - assert (Hmono : forall l s, x ∈ SetSeenURLTester.seen_urls s ->
                      x ∈ SetSeenURLTester.seen_urls (set_mark_all l s)).
    { clear. induction l as [|y l IH]; intros s Hs; simpl; [exact Hs|].
      apply IH. simpl. apply elem_of_union. right. exact Hs. }
    apply Hmono. simpl. apply elem_of_union. left. apply elem_of_singleton. reflexivity.
  - apply IH. exact Hd.
Qed.

Lemma seen_testers_agree_witness :
  exists b0 b,
    init 10 = Ok b0 /\
    mark_all [3; 7; 3] b0 = (Ok tt, b) /\
    seen_count b = 2.
Proof.
  destruct (seen_testers_agree 10 [3; 7; 3] _ eq_refl) as (b & H1 & _ & H2 & _).
  - repeat constructor; lia.
  - eexists _, b. split; [reflexivity|]. split; [exact H1|]. rewrite H2. reflexivity.
Defined.

End SeenProperties.

Module ParserMoreFacts.
Import Parser.

Lemma clean_links_loop_raises url links : forall cleaned,
  Exists (fun link => link = []) links ->
  clean_links_loop links url cleaned = Raise IndexError.
Proof.
  induction links as [|link links IH]; intros cleaned Hex; [inversion Hex|].
  simpl. destruct link as [|link_url rest]; [reflexivity|]. simpl.
  assert (Hex' : Exists (fun link => link = []) links).
  { inversion Hex as [? ? H|? ? H]; [discriminate|exact H]. }
  destruct (_ && _); apply IH; exact Hex'.
Qed.

Lemma filter_all_id (P : string -> Prop) `{forall x, Decision (P x)} (l : list string) :
  Forall P l -> filter P l = l.
Proof.
  induction 1 as [|x l Hx Hall IH]; [reflexivity|].
  rewrite filter_cons_True by exact Hx. rewrite IH. reflexivity.
Qed.

Lemma first_seen_NoDup_id (l : list string) : NoDup l -> first_seen l = l.
Proof.
  induction 1 as [|u l Hu Hnd IH]; simpl; [reflexivity|].
  rewrite IH. f_equal. apply filter_all_id.
  rewrite Forall_forall. intros v Hv ->. contradiction.
Qed.

Lemma clean_links_spec_fixed (c : list string) (url : string) :
  NoDup c -> (url ∉ c) -> clean_links_spec c url = c.
Proof.
  intros Hnd Hnot. unfold clean_links_spec.
  rewrite filter_all_id.
  - apply first_seen_NoDup_id. exact Hnd.
  - rewrite Forall_forall. intros v Hv ->. contradiction.
Qed.

End ParserMoreFacts.

(** ** The parser *)

Section ParserProperties.
Import Parser.

(** X15: [clean_links] raises [IndexError] as soon as one link is an empty
    array, wherever it stands in the list and whatever the other links
    are.  On its own result, each URL wrapped as a link, it changes
    nothing: the result has no self-link and no repetition left. *)
Theorem clean_links_edge_cases (links : list (list string)) (url : string) :
  (Exists (fun link => link = []) links ->
   clean_links links url = Raise IndexError) /\
  (forall cleaned,
     clean_links links url = Ok cleaned ->
     clean_links (map (fun u => [u]) cleaned) url = Ok cleaned).
Proof.
  split.
  - apply ParserMoreFacts.clean_links_loop_raises.
  - intros cleaned Hc.
    assert (Hall : Forall (fun link => is_Some (link !! URL_INDEX)) links).
    { rewrite Forall_forall. intros link Hin.
      destruct link as [|u rest]; [|eexists; reflexivity].
      unfold clean_links in Hc.
      rewrite ParserMoreFacts.clean_links_loop_raises in Hc; [discriminate|].
      apply Exists_exists. eauto. }
    unfold clean_links in *.
    rewrite ParserFacts.clean_links_loop_spec in Hc by exact Hall.
    simpl in Hc. rewrite ParserFacts.filter_not_in_nil in Hc. injection Hc as Hc.
    rewrite ParserFacts.clean_links_loop_spec
      by (rewrite Forall_forall; intros link Hl; apply list_elem_of_fmap in Hl as (u & -> & _);
          eexists; reflexivity).
    simpl. rewrite ParserFacts.filter_not_in_nil. f_equal.
    replace (omap (fun link : list string => link !! URL_INDEX)
               (map (fun u => [u]) cleaned)) with cleaned.
    + subst cleaned. apply ParserMoreFacts.clean_links_spec_fixed.
      * apply ParserFacts.first_seen_NoDup.
      * unfold clean_links_spec.
        rewrite ParserFacts.first_seen_elem_of, list_elem_of_filter.
        intros [Hne _]. apply Hne. reflexivity.
    + clear. induction cleaned as [|u l IH]; simpl; [reflexivity|]. f_equal. exact IH.
Qed.

Lemma clean_links_edge_cases_witness :
  clean_links [["Q"; "a"]; []; ["R"]] "P" = Raise IndexError.
Proof.
  apply (proj1 (clean_links_edge_cases [["Q"; "a"]; []; ["R"]] "P")).
  apply Exists_cons_tl, Exists_cons_hd. reflexivity.
Defined.

End ParserProperties.

Module UtilsMoreFacts.
Import Utils UtilsFiles.

Lemma substring_skip (a b : string) (k m : nat) :
  String.substring (String.length a + k) m (a +:+ b) = String.substring k m b.
Proof. induction a as [|c a IH]; simpl; [reflexivity|exact IH]. Qed.

Lemma substring_prefix (a b : string) :
  String.substring 0 (String.length a) (a +:+ b) = a.
Proof.
  induction a as [|c a IH]; simpl.
  - destruct b; reflexivity.
  - rewrite IH. reflexivity.
Qed.

Lemma substring_0_0 (s : string) : String.substring 0 0 s = EmptyString.
Proof. destruct s; reflexivity. Qed.

Lemma substring_first_char (c : ascii) (s : string) :
  String.substring 0 1 (String c EmptyString +:+ s) = String c EmptyString.
Proof.
  change (String c (String.substring 0 0 s) = String c EmptyString).
  rewrite substring_0_0. reflexivity.
Qed.

Lemma substring_nil (k m : nat) : String.substring k m EmptyString = EmptyString.
Proof. destruct k, m; reflexivity. Qed.

Lemma length_append (a b : string) :
  String.length (a +:+ b) = (String.length a + String.length b)%nat.
Proof. induction a as [|c a IH]; simpl; [reflexivity|rewrite IH; reflexivity]. Qed.

Lemma append_assoc (a b c : string) : a +:+ (b +:+ c) = (a +:+ b) +:+ c.
Proof.
  induction a as [|x a IH]; [reflexivity|].
  change (String x (a +:+ (b +:+ c)) = String x ((a +:+ b) +:+ c)).
  rewrite IH. reflexivity.
Qed.

(** Reading in an offset file from the start of record [n]. *)
Lemma offset_table_drop (records : list string) (tail : string) : forall n k m,
  Forall (fun r => String.length r = 10%nat) records ->
  (n <= length records)%nat ->
  String.substring (11 * n + k) m (offset_table records +:+ tail)
  = String.substring k m (offset_table (drop n records) +:+ tail).
Proof.
  induction records as [|r records IH]; intros n k m Hall Hn.
  - simpl in Hn. assert (n = 0%nat) by lia. subst n. reflexivity.
  - destruct n as [|n]; [reflexivity|].
    inversion Hall as [|? ? Hr Hall']; subst.
    cbn [offset_table drop].
    rewrite (append_assoc r), <- (append_assoc (r +:+ newline)).
    replace (11 * S n + k)%nat with (String.length (r +:+ newline) + (11 * n + k))%nat
      by (rewrite length_append, Hr; simpl; lia).
    rewrite substring_skip. apply IH; [exact Hall'|simpl in Hn; lia].
Qed.

Lemma substring_record (r rest : string) :
  String.length r = 10%nat ->
  String.substring 0 10 (r +:+ rest) = r.
Proof. intros <-. apply substring_prefix. Qed.

Lemma substring_after_record (r rest : string) (k m : nat) :
  String.length r = 10%nat ->
  String.substring (10 + k) m (r +:+ rest) = String.substring k m rest.
Proof. intros <-. apply substring_skip. Qed.

Section OffsetReads.
Variable py_int : string -> option Z.

(** The three reads of [read_offsets] at record [n] of a file that starts
    with the records of [records]. *)
Lemma read_offsets_at fs file_path records tail n r :
  fs !! file_path = Some (offset_table records +:+ tail) ->
  Forall (fun r => String.length r = 10%nat) records ->
  records !! n = Some r ->
  read_offsets py_int fs file_path (Z.of_nat n)
  = (start_offset ← int_or_raise py_int r;
     end_offset ← int_or_raise py_int
        (String.substring 0 10 (offset_table (drop (S n) records) +:+ tail));
     Ok (start_offset, Some end_offset)).
Proof.
  intros Hfs Hall Hr. unfold read_offsets. rewrite Hfs.
  assert (Hlen : String.length r = 10%nat).
  { rewrite Forall_forall in Hall. apply Hall. eapply list_elem_of_lookup_2. exact Hr. }
  assert (Hn : (n < length records)%nat) by (eapply lookup_lt_Some; exact Hr).
  destruct (Z.ltb_spec (Z.of_nat n * Z.of_nat (10 + 1)) 0) as [?|_]; [lia|].
  replace (Z.to_nat (Z.of_nat n * Z.of_nat (10 + 1))) with (11 * n)%nat by lia.
  unfold read_at. set (content := offset_table records +:+ tail).
  assert (Hd : offset_table (drop n records) +:+ tail
               = r +:+ (newline +:+ (offset_table (drop (S n) records) +:+ tail))).
  { rewrite (drop_S _ _ _ Hr). cbn [offset_table]. rewrite <- !append_assoc. reflexivity. }
  assert (E1 : String.substring (11 * n) 10 content = r).
  { replace (11 * n)%nat with (11 * n + 0)%nat by lia. unfold content.
    rewrite offset_table_drop by (try assumption; lia).
    rewrite Hd. apply substring_record. exact Hlen. }
  assert (E2 : String.substring (11 * n + 10) 1 content = newline).
  { unfold content. rewrite offset_table_drop by (try assumption; lia).
    rewrite Hd. rewrite (substring_after_record r _ 0 1 Hlen).
    apply substring_first_char. }
  assert (E3 : String.substring (11 * n + 10 + 1) 10 content
               = String.substring 0 10 (offset_table (drop (S n) records) +:+ tail)).
  { replace (11 * n + 10 + 1)%nat with (11 * S n + 0)%nat by lia. unfold content.
    apply offset_table_drop; [assumption|lia]. }
  rewrite E1, E2, E3. reflexivity.
Qed.

Lemma append_nil_r (a : string) : a +:+ EmptyString = a.
Proof.
  induction a as [|c a IH]; [reflexivity|].
  change (String c (a +:+ EmptyString) = String c a). rewrite IH. reflexivity.
Qed.

(** The reads at a last record that no newline follows. *)
Lemma read_offsets_at_tail fs file_path records tail :
  fs !! file_path = Some (offset_table records +:+ tail) ->
  Forall (fun r => String.length r = 10%nat) records ->
  String.length tail = 10%nat ->
  read_offsets py_int fs file_path (Z.of_nat (length records))
  = (start_offset ← int_or_raise py_int tail; Ok (start_offset, None)).
Proof.
  intros Hfs Hall Hlen. unfold read_offsets. rewrite Hfs.
  set (n := length records).
  destruct (Z.ltb_spec (Z.of_nat n * Z.of_nat (10 + 1)) 0) as [?|_]; [lia|].
  replace (Z.to_nat (Z.of_nat n * Z.of_nat (10 + 1))) with (11 * n)%nat by lia.
  unfold read_at. set (content := offset_table records +:+ tail).
  assert (Hd : offset_table (drop n records) +:+ tail = tail +:+ EmptyString).
  { unfold n. rewrite drop_all. simpl. rewrite append_nil_r. reflexivity. }
  assert (E1 : String.substring (11 * n) 10 content = tail).
  { replace (11 * n)%nat with (11 * n + 0)%nat by lia. unfold content.
    rewrite offset_table_drop by (try assumption; unfold n; lia).
    rewrite Hd. apply substring_record. exact Hlen. }
  assert (E2 : String.substring (11 * n + 10) 1 content = EmptyString).
  { unfold content. rewrite offset_table_drop by (try assumption; unfold n; lia).
    rewrite Hd. rewrite (substring_after_record tail _ 0 1 Hlen). reflexivity. }
  rewrite E1, E2. reflexivity.
Qed.

End OffsetReads.

Lemma split_on_nonempty sep s : split_on sep s <> [].
Proof.
  destruct s as [|c s]; simpl; [discriminate|].
  destruct (decide (c = sep)); [discriminate|].
  destruct (split_on sep s); discriminate.
Qed.

Lemma split_on_no_sep sep a :
  (sep ∉ list_ascii_of_string a) -> split_on sep a = [a].
Proof.
  induction a as [|c a IH]; intros Hno; simpl; [reflexivity|].
  simpl in Hno. apply not_elem_of_cons in Hno as [Hc Ha].
  destruct (decide (c = sep)) as [->|_]; [contradiction|].
  rewrite (IH Ha). reflexivity.
Qed.

Lemma split_on_app sep a b :
  (sep ∉ list_ascii_of_string a) ->
  split_on sep (a +:+ String sep b) = a :: split_on sep b.
Proof.
  induction a as [|c a IH]; intros Hno.
  - simpl. destruct (decide (sep = sep)) as [_|?]; [reflexivity|contradiction].
  - simpl in Hno. apply not_elem_of_cons in Hno as [Hc Ha].
    change (split_on sep (String c (a +:+ String sep b)) = String c a :: split_on sep b).
    cbn [split_on].
    destruct (decide (c = sep)) as [->|_]; [contradiction|].
    rewrite (IH Ha). reflexivity.
Qed.

Lemma split_on_parts_no_sep sep s :
  Forall (fun w => sep ∉ list_ascii_of_string w) (split_on sep s).
Proof.
  induction s as [|c s IH]; simpl.
  - constructor; [|constructor]. simpl. apply not_elem_of_nil.
  - destruct (decide (c = sep)) as [->|Hne].
    + constructor; [|exact IH]. simpl. apply not_elem_of_nil.
    + destruct (split_on sep s) as [|w ws].
      * constructor; [|constructor]. simpl.
        apply not_elem_of_cons. split; [congruence|apply not_elem_of_nil].
      * inversion IH as [|? ? Hw Hws]; subst. constructor; [|exact Hws].
        simpl. apply not_elem_of_cons. split; [congruence|exact Hw].
Qed.

Lemma join_on_split_on sep s : join_on sep (split_on sep s) = s.
Proof.
  induction s as [|c s IH]; [reflexivity|].
  cbn [split_on]. pose proof (split_on_nonempty sep s) as Hne.
  destruct (decide (c = sep)) as [->|_].
  - destruct (split_on sep s) as [|w ws]; [contradiction|].
    change (String sep (join_on sep (w :: ws)) = String sep s). rewrite IH. reflexivity.
  - destruct (split_on sep s) as [|w ws]; [contradiction|].
    destruct ws as [|w' ws].
    + simpl in IH. subst s. reflexivity.
    + change (String c (join_on sep (w :: w' :: ws)) = String c s). rewrite IH. reflexivity.
Qed.

Section SeedFacts.
Variable strip : string -> string.

Lemma yield_loop_take lines : forall limit count,
  yield_loop strip lines limit count
  = map strip (take (match limit with
                     | Some k => Z.to_nat (Z.max 1 (k - count))
                     | None => length lines
                     end) lines).
Proof.
  induction lines as [|line lines IH]; intros limit count.
  - rewrite take_nil. reflexivity.
  - cbn [yield_loop]. destruct limit as [k|].
    + destruct (Z.geb_spec (count + 1) k) as [Hge|Hlt].
      * replace (Z.to_nat (Z.max 1 (k - count))) with 1%nat by lia. reflexivity.
      * rewrite IH.
        replace (Z.to_nat (Z.max 1 (k - count)))
          with (S (Z.to_nat (Z.max 1 (k - (count + 1))))) by lia.
        reflexivity.
    + rewrite IH. simpl. reflexivity.
Qed.

End SeedFacts.

End UtilsMoreFacts.

(** ** Document ids, offset files and seed files *)

Section UtilsProperties.
Import Utils UtilsFiles.

(** X16: [get_parts] and the shape of a document id.  [get_parts] returns
    [(subdir, file_seq, d)] exactly when the id is four parts joined by
    ["-"], none of which contains a ["-"], the second and third being
    [subdir] and [file_seq] and the fourth one read by [int] as [d].  The
    first part is ignored. *)
Theorem get_parts_splits_id
    (py_int : string -> option Z) (id subdir file_seq : string) (d : Z) :
  get_parts py_int id = Ok (subdir, file_seq, d) <->
  exists prefix doc_seq,
    id = join_on "-" [prefix; subdir; file_seq; doc_seq] /\
    Forall (fun part => "-"%char ∉ list_ascii_of_string part)
      [prefix; subdir; file_seq; doc_seq] /\
    py_int doc_seq = Some d.
Proof.
  unfold get_parts. split.
  - intros H.
    pose proof (UtilsMoreFacts.join_on_split_on "-" id) as Hjoin.
    pose proof (UtilsMoreFacts.split_on_parts_no_sep "-" id) as Hparts.
    destruct (split_on "-" id) as [|p0 [|p1 [|p2 [|p3 [|p4 ps]]]]]; try discriminate.
    unfold int_or_raise in H. destruct (py_int p3) as [z|] eqn:Ez; [|discriminate].
    simpl in H. injection H as <- <- <-.
    exists p0, p3. split; [symmetry; exact Hjoin|]. split; [exact Hparts|exact Ez].
  - intros (prefix & doc_seq & -> & Hparts & Hint).
    inversion Hparts as [|? ? H0 Hparts1]; subst.
    inversion Hparts1 as [|? ? H1 Hparts2]; subst.
    inversion Hparts2 as [|? ? H2 Hparts3]; subst.
    inversion Hparts3 as [|? ? H3 _]; subst.
    cbn [join_on].
    rewrite (UtilsMoreFacts.split_on_app _ _ _ H0).
    rewrite (UtilsMoreFacts.split_on_app _ _ _ H1).
    rewrite (UtilsMoreFacts.split_on_app _ _ _ H2).
    rewrite (UtilsMoreFacts.split_on_no_sep _ _ H3).
    unfold int_or_raise. rewrite Hint. reflexivity.
Qed.

(** X17: [read_offsets] on an offset file of ten-character records, one
    per line.  For a record that another record follows it returns the two
    offsets.  For the last record of a file that ends with a newline it
    raises [ValueError]: the newline is read, and [int] is called on the
    empty string.  It returns [(offset, None)] only for a last record that
    no newline follows. *)
Theorem read_offsets_on_table
    (py_int : string -> option Z) (fs : gmap string string) (file_path : string)
    (records : list string) (n : nat) (r : string) (o : Z) :
  Forall (fun r => String.length r = 10%nat) records ->
  records !! n = Some r ->
  py_int r = Some o ->
  py_int EmptyString = None ->
  (fs !! file_path = Some (offset_table records) ->
   read_offsets py_int fs file_path (Z.of_nat n)
   = match records !! S n with
     | Some r' => end_offset ← int_or_raise py_int r'; Ok (o, Some end_offset)
     | None => Raise ValueError
     end) /\
  (forall last,
     String.length last = 10%nat ->
     fs !! file_path = Some (offset_table records +:+ last) ->
     read_offsets py_int fs file_path (Z.of_nat (length records))
     = (start_offset ← int_or_raise py_int last; Ok (start_offset, None))).
Proof.
  intros Hall Hr Ho Hempty. split.
  - intros Hfs.
    rewrite <- (UtilsMoreFacts.append_nil_r (offset_table records)) in Hfs.
    rewrite (UtilsMoreFacts.read_offsets_at py_int fs file_path records EmptyString n r Hfs Hall Hr).
    assert (Hi : int_or_raise py_int r = Ok o) by (unfold int_or_raise; rewrite Ho; reflexivity).
    rewrite Hi. simpl.
    destruct (records !! S n) as [r'|] eqn:Er'.
    + rewrite (drop_S _ _ _ Er'). cbn [offset_table].
      rewrite <- !UtilsMoreFacts.append_assoc.
      rewrite UtilsMoreFacts.substring_record; [reflexivity|].
      rewrite Forall_forall in Hall. apply Hall. eapply list_elem_of_lookup_2. exact Er'.
    + rewrite drop_ge by (apply lookup_ge_None; exact Er'). simpl.
      unfold int_or_raise. rewrite Hempty. reflexivity.
  - intros last Hlen Hfs.
    apply UtilsMoreFacts.read_offsets_at_tail; assumption.
Qed.

Lemma read_offsets_on_table_witness :
  read_offsets decimal_int Examples.offsets_only
    "outlinks/en0000/en0000-00.offset" 3 = Raise ValueError /\
  read_offsets decimal_int Examples.offsets_only
    "outlinks/en0000/en0000-00.offset" 2 = Ok (10, Some 15).
Proof.
  split.
  - apply (proj1 (read_offsets_on_table decimal_int Examples.offsets_only
                    "outlinks/en0000/en0000-00.offset"
                    ["0000000000"; "0000000005"; "0000000010"; "0000000015"]
                    3 "0000000015" 15
                    ltac:(repeat constructor) eq_refl eq_refl eq_refl)).
    reflexivity.
  - apply (proj1 (read_offsets_on_table decimal_int Examples.offsets_only
                    "outlinks/en0000/en0000-00.offset"
                    ["0000000000"; "0000000005"; "0000000010"; "0000000015"]
                    2 "0000000010" 10
                    ltac:(repeat constructor) eq_refl eq_refl eq_refl)).
    reflexivity.
Defined.

(** X18: [yield_initial_seeds] yields the stripped lines of the file in
    order: all of them without a limit, the first [limit] of them for a
    limit of at least 1, and the first line alone for a limit of 0 or
    below, since the limit is tested after the first URL has been
    yielded. *)
Theorem yield_initial_seeds_take
    (strip : string -> string) (lines : list string) (limit : option Z) :
  yield_initial_seeds strip lines limit
  = map strip (take (match limit with
                     | Some k => Z.to_nat (Z.max 1 k)
                     | None => length lines
                     end) lines).
Proof.
  unfold yield_initial_seeds. rewrite UtilsMoreFacts.yield_loop_take.
  destruct limit as [k|]; [|reflexivity]. rewrite Z.sub_0_r. reflexivity.
Qed.

End UtilsProperties.

Section ShardReadProperties.
Import Utils.

(** X19: [random_read_json_gz] on a shard file that holds a member [b]
    between the bytes [a] and [c].  With the offsets of [b] it decompresses
    [b] alone; without an end offset it decompresses everything from the
    start of [b] to the end of the file, and it does the same for an end
    offset one below the start offset, since [read(-1)] reads to the end;
    an end offset further below the start offset raises [ValueError], and
    a negative start offset raises [OSError]. *)
Theorem random_read_json_gz_member {json : Type}
    (gunzip_decode : string -> res string) (json_loads : string -> option json)
    (fs : gmap string string) (file_path a b c : string) :
  fs !! file_path = Some (a +:+ b +:+ c) ->
  let start_offset := Z.of_nat (String.length a) in
  random_read_json_gz gunzip_decode json_loads fs file_path start_offset
    (Some (start_offset + Z.of_nat (String.length b)))
  = (d ← gunzip_decode b; Ok (json_loads d)) /\
  random_read_json_gz gunzip_decode json_loads fs file_path start_offset None
  = (d ← gunzip_decode (b +:+ c); Ok (json_loads d)) /\
  random_read_json_gz gunzip_decode json_loads fs file_path start_offset
    (Some (start_offset - 1))
  = (d ← gunzip_decode (b +:+ c); Ok (json_loads d)) /\
  (forall end_offset, end_offset < start_offset - 1 ->
     random_read_json_gz gunzip_decode json_loads fs file_path start_offset
       (Some end_offset)
     = Raise ValueError) /\
  (forall negative end_offset, negative < 0 ->
     random_read_json_gz gunzip_decode json_loads fs file_path negative end_offset
     = Raise OSError).
Proof.
  intros Hfs start_offset. unfold random_read_json_gz, file_system. rewrite Hfs.
  assert (Hstart : (start_offset <? 0) = false) by (apply Z.ltb_ge; lia).
  assert (Heof : read_to_eof (a +:+ b +:+ c) (Z.to_nat start_offset) = b +:+ c).
  { unfold read_to_eof, start_offset. rewrite Nat2Z.id.
    rewrite UtilsMoreFacts.length_append.
    replace (String.length a + String.length (b +:+ c) - String.length a)%nat
      with (String.length (b +:+ c)) by lia.
    rewrite <- (Nat.add_0_r (String.length a)) at 1.
    rewrite UtilsMoreFacts.substring_skip.
    rewrite <- (UtilsMoreFacts.append_nil_r (b +:+ c)) at 2.
    apply UtilsMoreFacts.substring_prefix. }
  rewrite Hstart. split; [|split; [|split; [|split]]].
  - unfold read_span.
    replace (start_offset + Z.of_nat (String.length b) - start_offset)
      with (Z.of_nat (String.length b)) by lia.
    destruct (Z.ltb_spec (Z.of_nat (String.length b)) (-1)) as [?|_]; [lia|].
    destruct (Z.ltb_spec (Z.of_nat (String.length b)) 0) as [?|_]; [lia|].
    unfold read_at, start_offset. rewrite !Nat2Z.id.
    rewrite <- (Nat.add_0_r (String.length a)).
    rewrite UtilsMoreFacts.substring_skip, UtilsMoreFacts.substring_prefix. reflexivity.
  - unfold read_span. rewrite Heof. reflexivity.
  - unfold read_span.
    replace (start_offset - 1 - start_offset) with (-1) by lia.
    change (-1 <? -1) with false. change (-1 <? 0) with true. cbv iota.
    rewrite Heof. reflexivity.
  - intros end_offset Hlt. unfold read_span.
    destruct (Z.ltb_spec (end_offset - start_offset) (-1)) as [_|?]; [reflexivity|lia].
  - intros negative end_offset Hneg.
    destruct (Z.ltb_spec negative 0) as [_|?]; [reflexivity|lia].
Qed.

Lemma random_read_json_gz_member_witness :
  random_read_json_gz stored_text braces_loads Examples.shard_files
    "outlinks/en0000/en0000-00.json.gz" 5 (Some 10)
  = (d ← stored_text "{bcd{"; Ok (braces_loads d)) /\
  random_read_json_gz stored_text braces_loads Examples.shard_files
    "outlinks/en0000/en0000-00.json.gz" 5 (Some 4)
  = (d ← stored_text "{bcd{xyz}"; Ok (braces_loads d)) /\
  random_read_json_gz stored_text braces_loads Examples.shard_files
    "outlinks/en0000/en0000-00.json.gz" 5 (Some 2)
  = Raise ValueError.
Proof.
  destruct (random_read_json_gz_member stored_text braces_loads Examples.shard_files
              "outlinks/en0000/en0000-00.json.gz" "{abc}" "{bcd{" "xyz}"
              ltac:(vm_compute; reflexivity))
    as (H1 & _ & H2 & H3 & _).
  split; [exact H1|]. split; [exact H2|]. apply (H3 2). simpl. lia.
Defined.

End ShardReadProperties.

Module CrawlLogFacts.
Import CrawlLog.

Lemma fetched_cons_Some m1 m2 url i popped :
  m1 !! url = Some i ->
  fetched m1 m2 (url :: popped) = m2 !! url :: fetched m1 m2 popped.
Proof. intros H. unfold fetched. simpl. rewrite H. reflexivity. Qed.

Lemma fetched_cons_None m1 m2 url popped :
  m1 !! url = None ->
  fetched m1 m2 (url :: popped) = fetched m1 m2 popped.
Proof. intros H. unfold fetched. simpl. rewrite H. reflexivity. Qed.

Lemma crawl_docs_take max_pages m1 m2 popped : forall processed,
  0 <= processed ->
  crawl_docs max_pages m1 m2 popped processed
  = if max_pages >? 0
    then take (Z.to_nat (max_pages - processed)) (fetched m1 m2 popped)
    else fetched m1 m2 popped.
Proof.
  induction popped as [|url popped IH]; intros processed Hp.
  - simpl. destruct (max_pages >? 0); [rewrite take_nil|]; reflexivity.
  - cbn [crawl_docs].
    destruct (Z.gtb_spec max_pages 0) as [Hmax|Hmax]; cbn [andb].
    + destruct (Z.geb_spec processed max_pages) as [Hge|Hlt].
      * replace (Z.to_nat (max_pages - processed)) with 0%nat by lia. reflexivity.
      * destruct (m1 !! url) as [i|] eqn:E.
        -- rewrite (fetched_cons_Some _ _ _ _ _ E).
           replace (Z.to_nat (max_pages - processed))
             with (S (Z.to_nat (max_pages - (processed + 1)))) by lia.
           cbn [take]. f_equal. rewrite IH by lia.
           destruct (Z.gtb_spec max_pages 0); [reflexivity|lia].
        -- rewrite (fetched_cons_None _ _ _ _ E). rewrite IH by lia.
           destruct (Z.gtb_spec max_pages 0); [reflexivity|lia].
    + destruct (m1 !! url) as [i|] eqn:E.
      * rewrite (fetched_cons_Some _ _ _ _ _ E). f_equal. rewrite IH by lia.
        destruct (Z.gtb_spec max_pages 0); [lia|reflexivity].
      * rewrite (fetched_cons_None _ _ _ _ E). rewrite IH by lia.
        destruct (Z.gtb_spec max_pages 0); [lia|reflexivity].
Qed.

Lemma log_state_init N m1 m2 :
  2 <= N -> log_state N (Fetcher.init m1 m2) [] [].
Proof.
  intros HN. unfold log_state.
  split; [intros i chunk H; discriminate|].
  split; [intros j _; apply lookup_empty|].
  split; [reflexivity|]. split; [reflexivity|]. split; [|congruence].
  change (0 * N + 1 <= 1 <= (0 + 1) * N). lia.
Qed.

Lemma multiple_in_window (N len T : Z) :
  0 < N -> len * N + 1 <= T <= (len + 1) * N -> T mod N = 0 -> T = (len + 1) * N.
Proof.
  intros HN Hb Hm. apply Z.mod_divide in Hm; [|lia]. destruct Hm as [k ->].
  assert (len < k) by nia. assert (k <= len + 1) by nia.
  replace k with (len + 1) by lia. reflexivity.
Qed.

Lemma quot_in_window (N q T : Z) :
  0 < N -> q * N <= T < (q + 1) * N -> 0 <= q -> Z.quot T N = q.
Proof.
  intros HN Hb Hq. rewrite Z.quot_div_nonneg by nia.
  symmetry. apply (Z.div_unique T N q (T - q * N)); lia.
Qed.


Lemma num_dowloaded_log N s acc chunks :
  log_state N s acc chunks -> Fetcher.num_dowloaded s = Z.of_nat (length acc).
Proof.
  intros (_ & _ & Hacc & Hst & _). unfold Fetcher.num_dowloaded.
  rewrite Hacc, Hst, length_app. lia.
Qed.

(** A page stored without a checkpoint. *)
Lemma store_log N s acc chunks url :
  2 <= N -> log_state N s acc chunks ->
  ~ (Z.of_nat (length acc) mod N = 0 /\ 1 < Z.of_nat (length acc)) ->
  log_state N (Fetcher.store url s) (acc ++ [Fetcher.url2docno url s]) chunks.
Proof.
  intros HN (Hch & Hnone & Hacc & Hst & Hb & Hfull) Hno.
  unfold log_state. cbn [Fetcher.store Fetcher.files Fetcher.downloaded Fetcher.num_stored].
  split; [exact Hch|]. split; [exact Hnone|].
  split; [rewrite Hacc, <- app_assoc; reflexivity|].
  split; [exact Hst|]. split; [|exact Hfull].
  rewrite length_app. simpl length.
  set (T := Z.of_nat (length acc)) in *. set (len := Z.of_nat (length chunks)) in *.
  replace (Z.of_nat (length acc + 1)) with (T + 1) by (unfold T; lia).
  destruct (decide (T <= 1)) as [Hsmall|Hbig].
  - assert (len = 0) by (unfold len in *; nia). nia.
  - assert (Hm : T mod N <> 0) by (intros Hm; apply Hno; split; [exact Hm|lia]).
    assert (T <> (len + 1) * N).
    { intros HT. apply Hm. rewrite HT. apply Z.mod_mul. lia. }
    lia.
Qed.

(** A page stored at a checkpoint: the chunk gets the next suffix. *)
Lemma checkpoint_log N s acc chunks url :
  2 <= N -> log_state N s acc chunks ->
  Z.of_nat (length acc) mod N = 0 -> 1 < Z.of_nat (length acc) ->
  exists s2,
    Fetcher.checkpoint N (Fetcher.store url s) = Ok s2 /\
    log_state N s2 (acc ++ [Fetcher.url2docno url s])
      (chunks ++ [Fetcher.downloaded s ++ [Fetcher.url2docno url s]]) /\
    Fetcher.url2docids s2 = Fetcher.url2docids s /\
    Fetcher.url2docnos s2 = Fetcher.url2docnos s.
Proof.
  intros HN (Hch & Hnone & Hacc & Hst & Hb & Hfull) Hm Hbig.
  set (d := Fetcher.url2docno url s).
  set (T := Z.of_nat (length acc)) in *. set (len := Z.of_nat (length chunks)) in *.
  assert (HT : T = (len + 1) * N).
  { apply CrawlLogFacts.multiple_in_window; [lia| |exact Hm]. lia. }
  assert (Hlen : 0 <= len) by (unfold len; lia).
  assert (HT' : Z.of_nat (length (Fetcher.downloaded s ++ [d])) + Fetcher.num_stored s = T + 1).
  { rewrite Hst, length_app. simpl length. unfold T. rewrite Hacc, length_app. lia. }
  unfold Fetcher.checkpoint, Fetcher.write_downloads_to_file.
  destruct (Z.eqb_spec N 0) as [?|_]; [lia|].
  cbn [Fetcher.store Fetcher.files Fetcher.downloaded Fetcher.num_stored
       Fetcher.url2docids Fetcher.url2docnos mbind res_bind].
  fold d. rewrite HT'.
  rewrite (CrawlLogFacts.quot_in_window N (len + 1) (T + 1)) by nia.
  rewrite Z.add_0_r.
  eexists. split; [reflexivity|]. split; [|split; reflexivity].
  unfold log_state.
  cbn [Fetcher.files Fetcher.downloaded Fetcher.num_stored].
  split; [|split; [|split; [|split; [|split]]]].
  - intros i chunk Hi. apply lookup_app_Some in Hi as [Hi|[Hge Hi]].
    + rewrite lookup_insert_ne.
      * apply Hch. exact Hi.
      * apply lookup_lt_Some in Hi. unfold len. lia.
    + apply list_lookup_singleton_Some in Hi as [Hi <-].
      replace (1 + Z.of_nat i) with (len + 1) by (unfold len; lia).
      apply lookup_insert_eq.
  - intros j Hj. rewrite length_app in Hj. simpl length in Hj.
    rewrite lookup_insert_ne by (unfold len; lia).
    apply Hnone. lia.
  - rewrite concat_app. simpl. rewrite !app_nil_r, Hacc, <- app_assoc. reflexivity.
  - rewrite concat_app. simpl concat. rewrite app_nil_r, Hst, !length_app. simpl length. lia.
  - rewrite !length_app. simpl length.
    replace (Z.of_nat (length acc + 1)) with (T + 1) by (unfold T; lia).
    replace (Z.of_nat (length chunks + 1)) with (len + 1) by (unfold len; lia).
    nia.
  - intros _. rewrite concat_app, !length_app. simpl concat. rewrite app_nil_r.
    simpl length.
    replace (Z.of_nat (length chunks + 1)) with (len + 1) by (unfold len; lia).
    rewrite length_app in HT'. simpl length in HT'. rewrite Hst in HT'.
    rewrite length_app. simpl length. lia.
Qed.

Lemma crawl_loop_log max_pages N m1 m2 popped :
  2 <= N ->
  forall s acc chunks,
    log_state N s acc chunks ->
    Fetcher.url2docids s = m1 -> Fetcher.url2docnos s = m2 ->
    exists s' chunks',
      Orchestrator.crawl_loop max_pages N popped s = Ok s' /\
      log_state N s'
        (acc ++ crawl_docs max_pages m1 m2 popped (Z.of_nat (length acc))) chunks'.
Proof.
  intros HN. induction popped as [|url popped IH]; intros s acc chunks Hlog H1 H2.
  - exists s, chunks. simpl. rewrite app_nil_r. auto.
  - cbn [Orchestrator.crawl_loop crawl_docs].
    rewrite (num_dowloaded_log N s acc chunks Hlog).
    destruct ((max_pages >? 0) && (Z.of_nat (length acc) >=? max_pages)).
    { exists s, chunks. rewrite app_nil_r. auto. }
    unfold Fetcher.download, Fetcher.url2id. rewrite H1.
    destruct (m1 !! url) as [i|] eqn:E.
    2:{ apply (IH s acc chunks); assumption. }
    cbn [WebPage.get_url WebPage.url].
    destruct (Z.eqb_spec N 0) as [?|_]; [lia|].
    assert (Hd : Fetcher.url2docno url s = m2 !! url)
      by (unfold Fetcher.url2docno; rewrite H2; reflexivity).
    destruct (Z.eqb_spec (Z.of_nat (length acc) mod N) 0) as [Hm|Hm];
      [destruct (Z.gtb_spec (Z.of_nat (length acc)) 1) as [Hbig|Hsmall]|]; cbn [andb].
    + destruct (checkpoint_log N s acc chunks url HN Hlog Hm Hbig)
        as (s2 & Hcp & Hlog2 & M1 & M2).
      rewrite Hcp. cbn [mbind res_bind].
      destruct (IH s2 _ _ Hlog2) as (s' & chunks' & Hloop & Hlog');
        [congruence|congruence|].
      exists s', chunks'. split; [exact Hloop|].
      rewrite length_app in Hlog'. simpl length in Hlog'.
      replace (Z.of_nat (length acc + 1)) with (Z.of_nat (length acc) + 1) in Hlog' by lia.
      rewrite <- app_assoc, Hd in Hlog'. exact Hlog'.
    + cbn [mbind res_bind].
      destruct (IH (Fetcher.store url s) _ _
                  (store_log N s acc chunks url HN Hlog ltac:(lia)))
        as (s' & chunks' & Hloop & Hlog'); [exact H1|exact H2|].
      exists s', chunks'. split; [exact Hloop|].
      rewrite length_app in Hlog'. simpl length in Hlog'.
      replace (Z.of_nat (length acc + 1)) with (Z.of_nat (length acc) + 1) in Hlog' by lia.
      rewrite <- app_assoc, Hd in Hlog'. exact Hlog'.
    + cbn [mbind res_bind].
      destruct (IH (Fetcher.store url s) _ _
                  (store_log N s acc chunks url HN Hlog ltac:(lia)))
        as (s' & chunks' & Hloop & Hlog'); [exact H1|exact H2|].
      exists s', chunks'. split; [exact Hloop|].
      rewrite length_app in Hlog'. simpl length in Hlog'.
      replace (Z.of_nat (length acc + 1)) with (Z.of_nat (length acc) + 1) in Hlog' by lia.
      rewrite <- app_assoc, Hd in Hlog'. exact Hlog'.
Qed.


(** The final flush, and what the reader then finds. *)
Lemma flush_read_back N s acc chunks :
  2 <= N -> log_state N s acc chunks ->
  exists s',
    Fetcher.write_downloads_to_file N true s = Ok s' /\
    Fetcher.num_dowloaded s' = Z.of_nat (length acc) /\
    DatasetIR.load_downloaded_list (Fetcher.files s') None
    = if (Z.of_nat (length acc) mod N =? 0) && (0 <? Z.of_nat (length acc))
      then if Z.of_nat (length acc) =? N then []
           else take (Z.to_nat (Z.of_nat (length acc) - N + 1)) acc
      else acc.
Proof.
  intros HN Hlog. pose proof (num_dowloaded_log N s acc chunks Hlog) as Hnum.
  destruct Hlog as (Hch & Hnone & Hacc & Hst & Hb & Hfull).
  unfold Fetcher.write_downloads_to_file.
  destruct (Z.eqb_spec N 0) as [?|_]; [lia|].
  unfold Fetcher.num_dowloaded in Hnum. rewrite Hnum.
  eexists. split; [reflexivity|]. split; [exact Hnum|].
  cbn [Fetcher.files].
  set (T := Z.of_nat (length acc)) in *. set (len := Z.of_nat (length chunks)) in *.
  assert (Hlen : 0 <= len) by (unfold len; lia).
  destruct (Z.eqb_spec (T mod N) 0) as [Hm|Hm];
    [destruct (Z.ltb_spec 0 T) as [Hpos|Hzero]|]; cbn [andb].
  - (* a positive multiple: the chunk lands one suffix too far *)
    assert (HT : T = (len + 1) * N)
      by (apply multiple_in_window; [lia|lia|exact Hm]).
    rewrite (quot_in_window N (len + 1) T) by nia.
    rewrite (MoreFuelFacts.load_consecutive _ chunks).
    + destruct (Z.eqb_spec T N) as [HTN|HTN].
      * assert (len = 0) by nia. destruct chunks; [reflexivity|].
        unfold len in *. simpl in *. lia.
      * assert (chunks <> []).
        { intros ->. unfold len in *. simpl in *. lia. }
        pose proof (Hfull H) as Hf.
        replace (Z.to_nat (T - N + 1)) with (length (concat chunks)) by nia.
        rewrite Hacc, take_app_length. reflexivity.
    + intros i chunk Hi. rewrite lookup_insert_ne.
      * apply Hch. exact Hi.
      * apply lookup_lt_Some in Hi. unfold len. lia.
    + rewrite lookup_insert_ne by (unfold len; lia). apply Hnone. lia.
  - (* nothing downloaded *)
    assert (HT : T = 0) by (unfold T in *; lia).
    assert (Hl0 : len = 0) by nia.
    assert (chunks = []) by (destruct chunks; [reflexivity|unfold len in *; simpl in *; lia]).
    subst chunks. rewrite HT. rewrite Z.quot_0_l by lia.
    simpl in Hacc. rewrite <- Hacc.
    assert (Hnil : acc = []) by (destruct acc; [reflexivity|unfold T in *; simpl in *; lia]).
    rewrite Hnil.
    rewrite (MoreFuelFacts.load_consecutive _ [[]]); [reflexivity| |].
    + intros i chunk Hi. destruct i as [|i]; [|destruct i; discriminate].
      injection Hi as <-. apply lookup_insert_eq.
    + rewrite lookup_insert_ne by (simpl; lia). apply Hnone. simpl. lia.
  - (* not a multiple: the chunk gets the next suffix *)
    assert (HTpos : 1 <= T).
    { destruct (decide (T = 0)) as [H0|?]; [|unfold T in *; lia].
      exfalso. apply Hm. rewrite H0. apply Z.mod_0_l. lia. }
    assert (T <> (len + 1) * N).
    { intros HT. apply Hm. rewrite HT. apply Z.mod_mul. lia. }
    rewrite (quot_in_window N len T) by lia.
    rewrite (MoreFuelFacts.load_consecutive _ (chunks ++ [Fetcher.downloaded s])).
    + rewrite concat_app. simpl. rewrite app_nil_r. symmetry. exact Hacc.
    + intros i chunk Hi. apply lookup_app_Some in Hi as [Hi|[Hge Hi]].
      * rewrite lookup_insert_ne.
        -- apply Hch. exact Hi.
        -- apply lookup_lt_Some in Hi. unfold len. lia.
      * apply list_lookup_singleton_Some in Hi as [Hi <-].
        replace (1 + Z.of_nat i) with (len + 1) by (unfold len; lia).
        apply lookup_insert_eq.
    + rewrite length_app. simpl length.
      rewrite lookup_insert_ne by (unfold len; lia). apply Hnone. lia.
Qed.

End CrawlLogFacts.

(** ** The download log and its reader *)

Section CrawlLogProperties.
Import CrawlLog.

(** X20: what a crawl writes and what [load_downloaded_list] reads back,
    for [save_every_n_pages] of at least 2.  The crawl never raises and
    downloads the pages of [crawled]; with a positive [max_pages] these are
    at most [max_pages].  The reader returns all their docnos, in order,
    unless their number [T] is a positive multiple of
    [save_every_n_pages]: then the final flush skips a suffix, and the
    reader returns the first [T - save_every_n_pages + 1] docnos only, or
    none at all when [T = save_every_n_pages]. *)
Theorem crawl_log_read_back
    (max_pages save_every_n_pages : Z) (url2docids : gmap string string)
    (url2docnos : gmap string Z) (popped : list string) :
  2 <= save_every_n_pages ->
  let docs := crawled max_pages url2docids url2docnos popped in
  let T := Z.of_nat (length docs) in
  exists s,
    Orchestrator.crawl max_pages save_every_n_pages popped
      (Fetcher.init url2docids url2docnos) = Ok s /\
    Fetcher.num_dowloaded s = T /\
    (0 < max_pages -> T <= max_pages) /\
    DatasetIR.load_downloaded_list (Fetcher.files s) None
    = if (T mod save_every_n_pages =? 0) && (0 <? T)
      then if T =? save_every_n_pages then []
           else take (Z.to_nat (T - save_every_n_pages + 1)) docs
      else docs.
Proof.
  intros HN docs T.
  destruct (CrawlLogFacts.crawl_loop_log max_pages save_every_n_pages
              url2docids url2docnos popped HN (Fetcher.init url2docids url2docnos) [] []
              (CrawlLogFacts.log_state_init _ _ _ HN) eq_refl eq_refl)
    as (s1 & chunks & Hloop & Hlog).
  simpl in Hlog. rewrite CrawlLogFacts.crawl_docs_take in Hlog by lia.
  rewrite Z.sub_0_r in Hlog. fold (crawled max_pages url2docids url2docnos popped) in Hlog.
  fold docs in Hlog.
  destruct (CrawlLogFacts.flush_read_back _ _ _ _ HN Hlog) as (s & Hw & Hnum & Hload).
  exists s. unfold Orchestrator.crawl. rewrite Hloop. cbn [mbind res_bind].
  split; [exact Hw|]. split; [exact Hnum|]. split; [|exact Hload].
  intros Hmax. unfold T, docs, crawled.
  destruct (Z.gtb_spec max_pages 0); [|lia]. rewrite length_take. lia.
Qed.

Lemma crawl_log_read_back_witness :
  exists s,
    Orchestrator.crawl 4 2 Examples.popped
      (Fetcher.init Examples.url2docids Examples.url2docnos) = Ok s /\
    DatasetIR.load_downloaded_list (Fetcher.files s) None
    = [Some 0; Some 1; Some 2].
Proof.
  destruct (crawl_log_read_back 4 2 Examples.url2docids Examples.url2docnos
              Examples.popped ltac:(lia))
    as (s & H1 & _ & _ & H2).
  exists s. split; [exact H1|]. rewrite H2. vm_compute. reflexivity.
Defined.

End CrawlLogProperties.

Module LoaderFacts.
Import DatasetIR.

Lemma load_loop_prefix files fuel : forall idx acc,
  exists rest, load_loop fuel files None idx acc = acc ++ rest.
Proof.
  induction fuel as [|fuel IH]; intros idx acc; simpl.
  - exists []. rewrite app_nil_r. reflexivity.
  - destruct (files !! idx) as [chunk|].
    + destruct (IH (idx + 1) (acc ++ chunk)) as [rest Hrest].
      exists (chunk ++ rest). rewrite Hrest, app_assoc. reflexivity.
    + exists []. rewrite app_nil_r. reflexivity.
Qed.

Lemma load_loop_limit files k fuel : forall idx acc,
  0 < k -> Z.of_nat (length acc) < k ->
  load_loop fuel files (Some k) idx acc
  = take (Z.to_nat k) (load_loop fuel files None idx acc).
Proof.
  induction fuel as [|fuel IH]; intros idx acc Hk Hacc; simpl.
  - rewrite take_ge by lia. reflexivity.
  - destruct (files !! idx) as [chunk|]; [|rewrite take_ge by lia; reflexivity].
    destruct (Z.eqb_spec k 0) as [?|_]; [lia|]. cbn [negb andb].
    destruct (Z.geb_spec (Z.of_nat (length (acc ++ chunk))) k) as [Hge|Hlt].
    + unfold slice_to. destruct (Z.ltb_spec k 0) as [?|_]; [lia|].
      destruct (load_loop_prefix files fuel (idx + 1) (acc ++ chunk)) as [rest ->].
      rewrite (take_app_le (acc ++ chunk)) by lia. reflexivity.
    + apply IH; [exact Hk|lia].
Qed.

Lemma load_loop_limit_zero files fuel : forall idx acc,
  load_loop fuel files (Some 0) idx acc = load_loop fuel files None idx acc.
Proof.
  induction fuel as [|fuel IH]; intros idx acc; simpl; [reflexivity|].
  destruct (files !! idx) as [chunk|]; [|reflexivity]. apply IH.
Qed.

End LoaderFacts.

Section LoaderProperties.
Import DatasetIR.

(** X21: the [limit] of [load_downloaded_list].  A positive limit gives
    the first [limit] docnos of what is read without a limit (all of them
    when there are fewer); 0 is no limit; and a negative limit [-n] stops
    after the first chunk and drops the last [n] docnos of that chunk. *)
Theorem load_downloaded_list_limit (files : gmap Z (list (option Z))) (k : Z) :
  load_downloaded_list files (Some k)
  = if 0 <? k then take (Z.to_nat k) (load_downloaded_list files None)
    else if k =? 0 then load_downloaded_list files None
    else match files !! 1 with
         | Some chunk => take (length chunk - Z.to_nat (- k)) chunk
         | None => []
         end.
Proof.
  unfold load_downloaded_list.
  destruct (Z.ltb_spec 0 k) as [Hpos|Hle].
  - apply LoaderFacts.load_loop_limit; [exact Hpos|simpl; lia].
  - destruct (Z.eqb_spec k 0) as [->|Hne].
    + apply LoaderFacts.load_loop_limit_zero.
    + cbn [load_loop]. destruct (files !! 1) as [chunk|]; [|reflexivity].
      simpl. destruct (Z.eqb_spec k 0) as [?|_]; [contradiction|]. cbn [negb andb].
      destruct (Z.geb_spec (Z.of_nat (length chunk)) k) as [_|?]; [|lia].
      unfold slice_to. destruct (Z.ltb_spec k 0) as [_|?]; [reflexivity|lia].
Qed.

End LoaderProperties.

Module CollectionMappingsFacts.
Import CollectionMappings.

Lemma url2docnos_from_lookup urls : forall index m url n,
  NoDup urls -> (forall u, u ∈ urls -> m !! u = None) ->
  url2docnos_from index urls m !! url = Some n <->
  m !! url = Some n \/ exists i, urls !! i = Some url /\ n = index + Z.of_nat i.
Proof.
  induction urls as [|u urls IH]; intros index m url n Hnd Hfresh; simpl.
  - split; [auto|]. intros [H|(i & Hi & _)]; [exact H|discriminate].
  - apply NoDup_cons in Hnd as [Hu Hnd].
    rewrite IH; [|exact Hnd|].
    2:{ intros v Hv. rewrite lookup_insert_ne by (intros ->; contradiction).
        apply Hfresh. right. exact Hv. }
    rewrite lookup_insert_Some. split.
    + intros [[[-> ->]|[Hne Hm]]|(i & Hi & ->)].
      * right. exists 0%nat. split; [reflexivity|lia].
      * left. exact Hm.
      * right. exists (S i). split; [exact Hi|lia].
    + intros [Hm|(i & Hi & ->)].
      * left. right. split; [|exact Hm]. intros ->.
        rewrite (Hfresh url) in Hm by left. discriminate.
      * destruct i as [|i]; simpl in Hi.
        -- injection Hi as ->. left. left. split; [reflexivity|lia].
        -- right. exists i. split; [exact Hi|lia].
Qed.

Lemma url2docnos_from_size urls : forall index m,
  NoDup urls -> (forall u, u ∈ urls -> m !! u = None) ->
  size (url2docnos_from index urls m) = (size m + length urls)%nat.
Proof.
  induction urls as [|u urls IH]; intros index m Hnd Hfresh; simpl; [lia|].
  apply NoDup_cons in Hnd as [Hu Hnd].
  rewrite IH; [|exact Hnd|].
  - rewrite map_size_insert_None by (apply Hfresh; left). lia.
  - intros v Hv. rewrite lookup_insert_ne by (intros ->; contradiction).
    apply Hfresh. right. exact Hv.
Qed.

Lemma docno2urls_from_lookup items : forall docno m1 m2 n,
  (forall j, docno <= j -> m1 !! j = None /\ m2 !! j = None) ->
  (forall url, (docno2urls_from docno items m1 m2).1 !! n = Some url <->
     m1 !! n = Some url \/
     exists i, (map fst items) !! i = Some url /\ n = docno + Z.of_nat i) /\
  (forall docid, (docno2urls_from docno items m1 m2).2 !! n = Some docid <->
     m2 !! n = Some docid \/
     exists i, (map snd items) !! i = Some docid /\ n = docno + Z.of_nat i).
Proof.
  induction items as [|[u d] items IH]; intros docno m1 m2 n Hfresh; simpl.
  - split; intros x; (split; [auto|]); intros [H|(i & Hi & _)]; auto; discriminate.
  - destruct (IH (docno + 1) (<[docno := u]> m1) (<[docno := d]> m2) n) as [IH1 IH2].
    { intros j Hj. rewrite !lookup_insert_ne by lia. apply Hfresh. lia. }
    destruct (Hfresh docno ltac:(lia)) as [F1 F2].
    split; intros x.
    + rewrite IH1, lookup_insert_Some. split.
      * intros [[[<- <-]|[Hne Hm]]|(i & Hi & ->)].
        -- right. exists 0%nat. split; [reflexivity|lia].
        -- left. exact Hm.
        -- right. exists (S i). split; [exact Hi|lia].
      * intros [Hm|(i & Hi & ->)].
        -- left. right. split; [|exact Hm]. intros <-. rewrite F1 in Hm. discriminate.
        -- destruct i as [|i]; simpl in Hi.
           ++ injection Hi as ->. left. left. split; [lia|reflexivity].
           ++ right. exists i. split; [exact Hi|lia].
    + rewrite IH2, lookup_insert_Some. split.
      * intros [[[<- <-]|[Hne Hm]]|(i & Hi & ->)].
        -- right. exists 0%nat. split; [reflexivity|lia].
        -- left. exact Hm.
        -- right. exists (S i). split; [exact Hi|lia].
      * intros [Hm|(i & Hi & ->)].
        -- left. right. split; [|exact Hm]. intros <-. rewrite F2 in Hm. discriminate.
        -- destruct i as [|i]; simpl in Hi.
           ++ injection Hi as ->. left. left. split; [lia|reflexivity].
           ++ right. exists i. split; [exact Hi|lia].
Qed.

End CollectionMappingsFacts.

(** ** The mappings of a collection *)

Section MappingsProperties.
Import CollectionMappings.

(** X22: the docnos of a collection.  For a dict [url2docids] (its keys
    are pairwise distinct) [parse_url2docnos] never raises, and the
    mappings it and [parse_docno2urls] build are inverse to each other:
    a URL has docno [n] exactly when [docno2urls] gives that URL for [n].
    The docnos are the positions [0 .. len - 1] of the URLs in the dict,
    every URL of the dict has one, and [docno2docids] gives for the docno
    of a URL the docid the dict has for that URL. *)
Theorem collection_mappings_inverse (url2docids : list (string * string)) :
  NoDup (map fst url2docids) ->
  exists url2docnos,
    parse_url2docnos url2docids = Ok url2docnos /\
    (forall url n,
       url2docnos !! url = Some n <-> (parse_docno2urls url2docids).1 !! n = Some url) /\
    (forall url n,
       url2docnos !! url = Some n <->
       0 <= n /\ map fst url2docids !! Z.to_nat n = Some url) /\
    (forall url n, url2docnos !! url = Some n -> n < Z.of_nat (length url2docids)) /\
    (forall url, is_Some (url2docnos !! url) <-> url ∈ map fst url2docids) /\
    (forall url n docid,
       url2docnos !! url = Some n ->
       (parse_docno2urls url2docids).2 !! n = Some docid <-> (url, docid) ∈ url2docids).
Proof.
  intros Hnd. unfold parse_url2docnos.
  set (m := url2docnos_from 0 (map fst url2docids) ∅).
  assert (Hsize : length url2docids = size m).
  { unfold m. rewrite CollectionMappingsFacts.url2docnos_from_size;
      [|exact Hnd|intros; apply lookup_empty].
    rewrite map_size_empty, length_map. reflexivity. }
  destruct (decide (length url2docids = size m)) as [_|?]; [|contradiction].
  exists m. split; [reflexivity|].
  assert (Hm : forall url n, m !! url = Some n <->
                 0 <= n /\ map fst url2docids !! Z.to_nat n = Some url).
  { intros url n. unfold m.
    rewrite CollectionMappingsFacts.url2docnos_from_lookup;
      [|exact Hnd|intros; apply lookup_empty].
    rewrite lookup_empty. split.
    - intros [?|(i & Hi & ->)]; [discriminate|].
      split; [lia|]. rewrite Z.add_0_l, Nat2Z.id. exact Hi.
    - intros [Hn Hi]. right. exists (Z.to_nat n). split; [exact Hi|lia]. }
  assert (H1 : forall n url, (parse_docno2urls url2docids).1 !! n = Some url <->
                 0 <= n /\ map fst url2docids !! Z.to_nat n = Some url).
  { intros n url. unfold parse_docno2urls.
    destruct (CollectionMappingsFacts.docno2urls_from_lookup url2docids 0 ∅ ∅ n) as [L1 _].
    { intros; split; apply lookup_empty. }
    rewrite L1, lookup_empty. split.
    - intros [?|(i & Hi & ->)]; [discriminate|].
      split; [lia|]. rewrite Z.add_0_l, Nat2Z.id. exact Hi.
    - intros [Hn Hi]. right. exists (Z.to_nat n). split; [exact Hi|lia]. }
  assert (H2 : forall n docid, (parse_docno2urls url2docids).2 !! n = Some docid <->
                 0 <= n /\ map snd url2docids !! Z.to_nat n = Some docid).
  { intros n docid. unfold parse_docno2urls.
    destruct (CollectionMappingsFacts.docno2urls_from_lookup url2docids 0 ∅ ∅ n) as [_ L2].
    { intros; split; apply lookup_empty. }
    rewrite L2, lookup_empty. split.
    - intros [?|(i & Hi & ->)]; [discriminate|].
      split; [lia|]. rewrite Z.add_0_l, Nat2Z.id. exact Hi.
    - intros [Hn Hi]. right. exists (Z.to_nat n). split; [exact Hi|lia]. }
  split; [intros url n; rewrite Hm, H1; reflexivity|].
  split; [exact Hm|].
  split.
  { intros url n Hn. apply Hm in Hn as [Hn Hi].
    apply lookup_lt_Some in Hi. rewrite length_map in Hi. lia. }
  split.
  { intros url. split.
    - intros [n Hn]. apply Hm in Hn as [_ Hi]. eapply list_elem_of_lookup_2. exact Hi.
    - intros Hin. apply list_elem_of_lookup_1 in Hin as [i Hi].
      exists (Z.of_nat i). apply Hm. split; [lia|]. rewrite Nat2Z.id. exact Hi. }
  intros url n docid Hn. apply Hm in Hn as [Hn Hi]. rewrite H2.
  rewrite list_lookup_fmap in Hi.
  destruct (url2docids !! Z.to_nat n) as [[u d]|] eqn:Ei; [|discriminate].
  simpl in Hi. injection Hi as ->.
  rewrite list_lookup_fmap, Ei. simpl. split.
  - intros [_ [= <-]]. eapply list_elem_of_lookup_2. exact Ei.
  - intros Hin. split; [exact Hn|]. f_equal.
    apply list_elem_of_lookup_1 in Hin as [j Hj].
    assert (j = Z.to_nat n).
    { apply (NoDup_lookup _ _ _ url Hnd); rewrite list_lookup_fmap.
      - rewrite Hj. reflexivity.
      - rewrite Ei. reflexivity. }
    subst j. rewrite Ei in Hj. congruence.
Qed.

Lemma collection_mappings_inverse_witness :
  exists url2docnos,
    parse_url2docnos [("u1", "d-en0000-00-00000"); ("u2", "d-en0000-00-00001")]
    = Ok url2docnos /\
    (url2docnos !! "u2" = Some 1 <->
     (parse_docno2urls [("u1", "d-en0000-00-00000"); ("u2", "d-en0000-00-00001")]).1 !! 1
     = Some "u2").
Proof.
  destruct (collection_mappings_inverse
              [("u1", "d-en0000-00-00000"); ("u2", "d-en0000-00-00001")])
    as (m & H1 & H2 & _).
  - apply (bool_decide_unpack _). vm_compute. exact I.
  - exists m. split; [exact H1|apply H2].
Defined.

End MappingsProperties.

Module SeenTesterFacts.
Import CrawlInvariant.

Lemma is_seen_covered m tester url d :
  seen_covers m tester -> m !! url = Some d ->
  exists b, SeenURLTester.is_seen d tester = Ok b.
Proof.
  destruct tester as [s|s]; simpl; [eauto|].
  intros [[Hcap Hlen] Hcov] Hd. specialize (Hcov url d Hd).
  unfold BitArraySeenURLTester.is_seen.
  rewrite SeenFacts.in_range_guard by exact Hcov.
  destruct (BitArraySeenURLTester.seen_urls s !! Z.to_nat d) as [b|] eqn:E; [eauto|].
  apply lookup_ge_None in E. lia.
Qed.

Lemma mark_seen_covered m tester url d :
  seen_covers m tester -> m !! url = Some d ->
  exists tester',
    SeenURLTester.mark_seen d tester = Ok tester' /\
    seen_covers m tester' /\
    SeenURLTester.is_seen d tester' = Ok true /\
    (forall d', SeenURLTester.is_seen d' tester = Ok true ->
                SeenURLTester.is_seen d' tester' = Ok true).
Proof.
  destruct tester as [s|s]; simpl.
  - intros _ _. eexists. split; [reflexivity|]. split; [exact I|].
    unfold SetSeenURLTester.is_seen, SetSeenURLTester.mark_seen. simpl. split.
    + f_equal. apply bool_decide_eq_true_2. apply elem_of_union. left.
      apply elem_of_singleton. reflexivity.
    + intros d' [= H]. f_equal. apply bool_decide_eq_true_2.
      apply bool_decide_eq_true_1 in H. apply elem_of_union. right. exact H.
  - intros [[Hcap Hlen] Hcov] Hd. pose proof (Hcov url d Hd) as Hr.
    unfold BitArraySeenURLTester.mark_seen.
    rewrite SeenFacts.in_range_guard by exact Hr.
    destruct (decide (Z.to_nat d < length (BitArraySeenURLTester.seen_urls s))%nat)
      as [Hlt|Hge]; [|lia].
    eexists. split; [reflexivity|]. simpl. split; [|split].
    + split; [|exact Hcov]. split; simpl; [exact Hcap|].
      rewrite length_insert. exact Hlen.
    + unfold BitArraySeenURLTester.is_seen. simpl.
      rewrite SeenFacts.in_range_guard by exact Hr.
      rewrite list_lookup_insert_eq by exact Hlt. reflexivity.
    + intros d'. unfold BitArraySeenURLTester.is_seen. simpl.
      destruct ((d' >=? BitArraySeenURLTester.capacity s) || (d' <? 0)) eqn:G;
        [discriminate|].
      destruct (decide (Z.to_nat d' = Z.to_nat d)) as [->|Hne].
      * rewrite list_lookup_insert_eq by exact Hlt. reflexivity.
      * rewrite list_lookup_insert_ne by auto.
        destruct (BitArraySeenURLTester.seen_urls s !! Z.to_nat d'); simpl; auto.
Qed.

Lemma mark_seen_only tester d tester' d' :
  SeenURLTester.mark_seen d tester = Ok tester' ->
  SeenURLTester.is_seen d' tester' = Ok true ->
  d' = d \/ SeenURLTester.is_seen d' tester = Ok true.
Proof.
  destruct tester as [s|s]; simpl.
  - intros [= <-]. simpl. unfold SetSeenURLTester.is_seen, SetSeenURLTester.mark_seen. simpl.
    intros [= H]. apply bool_decide_eq_true_1 in H.
    apply elem_of_union in H as [H|H].
    + left. apply elem_of_singleton in H. exact H.
    + right. f_equal. apply bool_decide_eq_true_2. exact H.
  - unfold BitArraySeenURLTester.mark_seen.
    destruct ((d >=? BitArraySeenURLTester.capacity s) || (d <? 0)) eqn:G; [discriminate|].
    destruct (decide (Z.to_nat d < length (BitArraySeenURLTester.seen_urls s))%nat)
      as [Hlt|?]; [|discriminate].
    intros [= <-]. simpl. unfold BitArraySeenURLTester.is_seen. simpl.
    destruct ((d' >=? BitArraySeenURLTester.capacity s) || (d' <? 0)) eqn:G';
      [discriminate|].
    apply orb_false_iff in G as [_ G2]. apply orb_false_iff in G' as [_ G2'].
    apply Z.ltb_ge in G2. apply Z.ltb_ge in G2'. intros Hseen.
    destruct (decide (d' = d)) as [->|Hne]; [left; reflexivity|right].
    rewrite list_lookup_insert_ne in Hseen by lia.
    destruct (BitArraySeenURLTester.seen_urls s !! Z.to_nat d'); simpl in *; exact Hseen.
Qed.

End SeenTesterFacts.

Module FrontierSuccessFacts.
Import FrontierManager FrontierContents CrawlInvariant.

Lemma pqueue_put_succeeds item p q :
  pqueue_consistent q -> (item ∉ pqueue_urls q) ->
  exists q', QualityFrontierManager.queue_put item p q = Ok q'.
Proof.
  destruct q as [u|h]; simpl; intros Hc Hnot; [|eauto].
  assert (Hs : PQueuePriorityQueue.deleted u !! item = None).
  { destruct (PQueuePriorityQueue.deleted u !! item) eqn:E; [|reflexivity].
    exfalso. apply Hnot. apply elem_of_elements, elem_of_dom. eauto. }
  destruct (PQueueConsistencyFacts.put_consistent item p u Hc Hs) as (u' & Hput & _).
  rewrite Hput. simpl. eauto.
Qed.

Lemma add_seed_succeeds url docid f :
  frontier_consistent f -> oracle_frontier f -> (url ∉ enqueued_urls f) ->
  exists f',
    add_with_max_priority url docid f = Ok f' /\
    frontier_consistent f' /\ oracle_frontier f' /\
    enqueued_urls f' ≡ₚ enqueued_urls f ++ [url].
Proof.
  intros Hc Ho Hnot. destruct f as [g|g|g|g]; simpl in *;
    try (eexists; split; [reflexivity|]; simpl; auto).
  unfold QualityFrontierManager.add_with_max_priority.
  destruct (pqueue_put_succeeds url QualityFrontierManager.MAX_PRIORITY _ Hc Hnot) as [q' Hput].
  rewrite Hput. simpl. eexists. split; [reflexivity|]. simpl.
  destruct (FrontierContentsFacts.pqueue_put _ _ _ _ Hc Hput) as [Hc' Hp]. auto.
Qed.

Lemma add_succeeds page father f :
  frontier_consistent f -> oracle_frontier f ->
  is_Some (WebPage.metadata page) ->
  (WebPage.get_url page ∉ enqueued_urls f) ->
  exists f',
    add page father f = Ok f' /\
    frontier_consistent f' /\ oracle_frontier f' /\
    enqueued_urls f' ≡ₚ enqueued_urls f ++ [WebPage.get_url page].
Proof.
  intros Hc Ho [m Hm] Hnot. destruct f as [g|g|g|g]; simpl in *;
    try (eexists; split; [reflexivity|]; simpl; auto).
  unfold QualityFrontierManager.add. destruct father as [fa|].
  - rewrite Ho. unfold WebPage.get_qscore. rewrite Hm. simpl.
    destruct (WebPage.qscore m) as [p|].
    + destruct (pqueue_put_succeeds (WebPage.get_url page) p _ Hc Hnot) as [q' Hput].
      simpl. rewrite Hput. simpl. eexists. split; [reflexivity|]. simpl.
      destruct (FrontierContentsFacts.pqueue_put _ _ _ _ Hc Hput) as [Hc' Hp]. auto.
    + destruct (pqueue_put_succeeds (WebPage.get_url page) QualityFrontierManager.MIN_PRIORITY
                  _ Hc Hnot) as [q' Hput].
      simpl. rewrite Hput. simpl. eexists. split; [reflexivity|]. simpl.
      destruct (FrontierContentsFacts.pqueue_put _ _ _ _ Hc Hput) as [Hc' Hp]. auto.
  - unfold QualityFrontierManager.add_with_max_priority.
    destruct (pqueue_put_succeeds (WebPage.get_url page) QualityFrontierManager.MAX_PRIORITY
                _ Hc Hnot) as [q' Hput].
    rewrite Hput. simpl. eexists. split; [reflexivity|]. simpl.
    destruct (FrontierContentsFacts.pqueue_put _ _ _ _ Hc Hput) as [Hc' Hp]. auto.
Qed.

Lemma pqueue_update_succeeds item p q :
  pqueue_consistent q ->
  exists b q', QualityFrontierManager.queue_update item p q = Ok (b, q').
Proof.
  destruct q as [u|h]; simpl; intros Hc; [|eauto].
  destruct (PQueueConsistencyFacts.update_consistent item p u Hc) as (b & u' & Hup & _).
  rewrite Hup. simpl. eauto.
Qed.

Lemma update_succeeds page father f :
  frontier_consistent f -> oracle_frontier f ->
  is_Some (WebPage.metadata page) ->
  exists b f',
    update page father f = Ok (b, f') /\
    frontier_consistent f' /\ oracle_frontier f' /\
    enqueued_urls f' = enqueued_urls f.
Proof.
  intros Hc Ho [m Hm]. destruct f as [g|g|g|g]; simpl in *;
    try (eexists _, _; split; [reflexivity|]; simpl; auto).
  unfold QualityFrontierManager.update. rewrite Ho.
  unfold WebPage.get_qscore. rewrite Hm. simpl.
  set (p := match WebPage.qscore m with
            | Some p => p | None => QualityFrontierManager.MIN_PRIORITY end).
  destruct (pqueue_update_succeeds (WebPage.get_url page) p _ Hc) as (b & q' & Hup).
  rewrite Hup. simpl. eexists _, _. split; [reflexivity|]. simpl.
  destruct (FrontierContentsFacts.pqueue_update _ _ _ _ _ Hc Hup) as [Hc' Hu]. auto.
Qed.

Lemma pop_succeeds r f :
  frontier_consistent f -> oracle_frontier f -> enqueued f <> 0 ->
  exists u f',
    pop r f = Ok (u, f') /\
    frontier_consistent f' /\ oracle_frontier f' /\
    u :: enqueued_urls f' ≡ₚ enqueued_urls f.
Proof.
  intros Hc Ho Hne.
  destruct (proj2 (FrontierRunFacts.pop_consistent r f Hc) Hne) as (u & f' & Hpop & _).
  exists u, f'. split; [exact Hpop|].
  assert (Hstep : step f (Pop r) = Ok (Some u, f')) by (simpl; rewrite Hpop; reflexivity).
  destruct (FrontierRunFacts.step_contents f (Pop r) (Some u) f' Hc Hstep) as [Hc' Hp].
  split; [exact Hc'|]. split.
  - destruct f as [g|g|g|g]; simpl in Hpop.
    + destruct (RandomFrontierManager.pop r g) as [[? ?]|]; simpl in Hpop; [|discriminate].
      injection Hpop as _ <-. exact I.
    + destruct (QualityFrontierManager.pop g) as [[u' g']|] eqn:E; simpl in Hpop; [|discriminate].
      injection Hpop as _ <-. simpl in *.
      unfold QualityFrontierManager.pop in E.
      destruct (QualityFrontierManager.enqueued g =? 0); [discriminate|].
      destruct (QualityFrontierManager.queue_get _) as [[[? ?] ?]|]; simpl in E; [|discriminate].
      injection E as _ <-. exact Ho.
    + destruct (BreadthFirstSearchFrontierManager.pop g) as [[? ?]|]; simpl in Hpop; [|discriminate].
      injection Hpop as _ <-. exact I.
    + destruct (DepthFirstSearchFrontierManager.pop g) as [[? ?]|]; simpl in Hpop; [|discriminate].
      injection Hpop as _ <-. exact I.
  - simpl in Hp. rewrite app_nil_r in Hp. exact Hp.
Qed.

End FrontierSuccessFacts.

Module CrawlRunFacts.
Import FrontierContents Crawl CrawlInvariant.

Lemma same_settings_refl o : same_settings o o.
Proof. repeat split. Qed.

Lemma same_settings_trans o1 o2 o3 :
  same_settings o1 o2 -> same_settings o2 o3 -> same_settings o1 o3.
Proof.
  intros (A1 & A2 & A3 & A4 & A5) (B1 & B2 & B3 & B4 & B5).
  repeat split; congruence.
Qed.

Lemma base_crawl_downloaded max_pages N u popped s page :
  (max_pages >? 0) && (Fetcher.num_dowloaded s >=? max_pages) = false ->
  Fetcher.download u s = Some page -> N <> 0 ->
  Orchestrator.crawl_loop max_pages N (u :: popped) s
  = (s2 ← (if (Fetcher.num_dowloaded s mod N =? 0) && (Fetcher.num_dowloaded s >? 1)
           then Fetcher.checkpoint N (Fetcher.store (WebPage.get_url page) s)
           else Ok (Fetcher.store (WebPage.get_url page) s));
     Orchestrator.crawl_loop max_pages N popped s2).
Proof.
  intros Hguard Hdl HN. cbn [Orchestrator.crawl_loop]. rewrite Hguard, Hdl.
  destruct (Z.eqb_spec N 0); [contradiction|reflexivity].
Qed.

Lemma base_crawl_failed max_pages N u popped s :
  (max_pages >? 0) && (Fetcher.num_dowloaded s >=? max_pages) = false ->
  Fetcher.download u s = None ->
  Orchestrator.crawl_loop max_pages N (u :: popped) s
  = Orchestrator.crawl_loop max_pages N popped s.
Proof.
  intros Hguard Hdl. cbn [Orchestrator.crawl_loop]. rewrite Hguard, Hdl. reflexivity.
Qed.

Section RunFacts.
Variable get_score : option string -> option Q.
Variable parse_outlinks : WebPage.t -> res (option (list string)).
Hypothesis parser_succeeds : forall page, exists r, parse_outlinks page = Ok r.

Lemma process_link_holds popped page linked_url o :
  holds popped o ->
  exists o',
    process_link get_score page linked_url o = Ok o' /\
    holds popped o' /\ Fetcher_ o' = Fetcher_ o /\ same_settings o o' /\
    link_effect linked_url o o'.
Proof.
  intros [Hc Ho Hs Hnd Hseen]. unfold process_link, link_effect.
  destruct (Fetcher.url2docno linked_url (Fetcher_ o)) as [d|] eqn:Ed.
  2:{ eexists. split; [reflexivity|]. split; [|split; [reflexivity|split; [repeat split|]]].
      - constructor; assumption.
      - split.
        + intros x. cbn [count_wrong_linked_docid FrontierManager_]. split; [auto|].
          intros [H|(_ & d & Hd & _)]; [exact H|discriminate].
        + intros d'. unfold seen_docid. cbn [count_wrong_linked_docid SeenURLTester_].
          split; [auto|]. intros [H|H]; [exact H|discriminate]. }
  destruct (SeenTesterFacts.is_seen_covered _ _ linked_url d Hs Ed) as [b Hb].
  rewrite Hb. cbn [mbind res_bind]. destruct b.
  - assert (Hsame : forall f', enqueued_urls f' = enqueued_urls (FrontierManager_ o) ->
              (forall x, x ∈ enqueued_urls f' <->
                 x ∈ enqueued_urls (FrontierManager_ o) \/
                 (x = linked_url /\ exists d0, Some d = Some d0 /\ ~ seen_docid d0 o)) /\
              (forall d', SeenURLTester.is_seen d' (SeenURLTester_ o) = Ok true <->
                 seen_docid d' o \/ Some d = Some d')).
    { intros f' Hu. split.
      - intros x. rewrite Hu. split; [auto|].
        intros [H|(_ & d0 & [= <-] & Hn)]; [exact H|]. exfalso. apply Hn. exact Hb.
      - intros d'. unfold seen_docid. split; [auto|].
        intros [H|[= <-]]; [exact H|exact Hb]. }
    destruct (updates_enabled o); cbn [negb].
    + destruct (FrontierSuccessFacts.update_succeeds
                  (linked_page get_score o linked_url d) (Some page) (FrontierManager_ o) Hc Ho)
        as (b' & f' & Hup & Hc' & Ho' & Hu); [eexists; reflexivity|].
      rewrite Hup. cbn [mbind res_bind].
      eexists. split; [reflexivity|].
      split; [|split; [reflexivity|split; [repeat split|]]].
      * constructor; cbn [with_frontier FrontierManager_ Fetcher_ SeenURLTester_];
          try assumption; rewrite Hu; assumption.
      * exact (Hsame f' Hu).
    + eexists. split; [reflexivity|].
      split; [constructor; assumption|split; [reflexivity|split; [apply same_settings_refl|]]].
      exact (Hsame _ eq_refl).
  - destruct (SeenTesterFacts.mark_seen_covered _ _ linked_url d Hs Ed)
      as (tester' & Hmark & Hs' & Hd' & Hmono).
    rewrite Hmark. cbn [mbind res_bind].
    assert (Hfresh : linked_url ∉ popped ++ enqueued_urls (FrontierManager_ o)).
    { intros Hin. destruct (Hseen linked_url Hin) as (d' & Hd1 & Hd2).
      rewrite Ed in Hd1. injection Hd1 as <-. unfold seen_docid in Hd2.
      rewrite Hb in Hd2. discriminate. }
    destruct (FrontierSuccessFacts.add_succeeds
                (linked_page get_score o linked_url d) (Some page) (FrontierManager_ o) Hc Ho)
      as (f' & Hadd & Hc' & Ho' & Hp); [eexists; reflexivity| |].
    { intros Hin. apply Hfresh. apply elem_of_app. right. exact Hin. }
    rewrite Hadd. cbn [mbind res_bind].
    eexists. split; [reflexivity|].
    cbn [linked_page WebPage.get_url WebPage.url] in Hp.
    split; [|split; [reflexivity|split; [repeat split|split]]].
    + constructor; cbn [with_frontier with_seen FrontierManager_ Fetcher_ SeenURLTester_];
        try assumption.
      * rewrite Hp, app_assoc. apply NoDup_app. split; [exact Hnd|]. split.
        -- intros x Hx Hx'. apply list_elem_of_singleton in Hx'. subst x. contradiction.
        -- apply NoDup_singleton.
      * intros url Hin. rewrite Hp, app_assoc in Hin.
        apply elem_of_app in Hin as [Hin|Hin].
        -- destruct (Hseen url Hin) as (d' & Hd1 & Hd2). exists d'. split; [exact Hd1|].
           unfold seen_docid in *. cbn [with_frontier with_seen SeenURLTester_].
           apply Hmono. exact Hd2.
        -- apply list_elem_of_singleton in Hin. subst url. exists d. split; [exact Ed|].
           unfold seen_docid. cbn [with_frontier with_seen SeenURLTester_]. exact Hd'.
    + cbn [with_frontier with_seen FrontierManager_]. intros x. rewrite Hp, elem_of_app.
      rewrite list_elem_of_singleton. split.
      * intros [H| ->]; [left; exact H|right]. split; [reflexivity|].
        exists d. split; [reflexivity|]. unfold seen_docid. rewrite Hb. discriminate.
      * intros [H|[-> _]]; auto.
    + intros d'. unfold seen_docid. cbn [with_frontier with_seen SeenURLTester_]. split.
      * intros H. destruct (SeenTesterFacts.mark_seen_only _ _ _ _ Hmark H) as [->|H'];
          [right; reflexivity|left; exact H'].
      * intros [H|[= <-]]; [apply Hmono; exact H|exact Hd'].
Qed.

Lemma process_links_holds popped page outlinks : forall o,
  holds popped o ->
  exists o',
    process_links get_score page outlinks o = Ok o' /\
    holds popped o' /\ Fetcher_ o' = Fetcher_ o /\ same_settings o o'.
Proof.
  induction outlinks as [|u outlinks IH]; intros o Hh; simpl.
  - exists o. split; [reflexivity|]. split; [exact Hh|].
    split; [reflexivity|apply same_settings_refl].
  - destruct (process_link_holds popped page u o Hh) as (o1 & H1 & Hh1 & F1 & S1 & _).
    rewrite H1. cbn [mbind res_bind].
    destruct (IH o1 Hh1) as (o2 & H2 & Hh2 & F2 & S2).
    exists o2. split; [exact H2|]. split; [exact Hh2|].
    split; [congruence|eapply same_settings_trans; eassumption].
Qed.

Lemma process_links_effect popped page outlinks : forall o,
  holds popped o ->
  (forall u1 u2 d, Fetcher.url2docno u1 (Fetcher_ o) = Some d ->
                   Fetcher.url2docno u2 (Fetcher_ o) = Some d -> u1 = u2) ->
  exists o',
    process_links get_score page outlinks o = Ok o' /\
    holds popped o' /\ Fetcher_ o' = Fetcher_ o /\ same_settings o o' /\
    links_effect outlinks o o'.
Proof.
  induction outlinks as [|u outlinks IH]; intros o Hh Hinj; simpl.
  - exists o. split; [reflexivity|]. split; [exact Hh|].
    split; [reflexivity|]. split; [apply same_settings_refl|]. split.
    + intros x. split; [auto|]. intros [H|[H _]]; [exact H|inversion H].
    + intros d'. split; [auto|]. intros [H|(v & H & _)]; [exact H|inversion H].
  - destruct (process_link_holds popped page u o Hh) as (o1 & H1 & Hh1 & F1 & S1 & E1 & E1').
    rewrite H1. cbn [mbind res_bind].
    destruct (IH o1 Hh1) as (o2 & H2 & Hh2 & F2 & S2 & E2 & E2').
    { rewrite F1. exact Hinj. }
    exists o2. split; [exact H2|]. split; [exact Hh2|].
    split; [congruence|]. split; [eapply same_settings_trans; eassumption|].
    rewrite F1 in E2, E2'. split.
    + intros x. rewrite E2, E1. split.
      * intros [[H|[-> (d & Hd & Hn)]]|[Hin (d & Hd & Hn)]].
        -- left. exact H.
        -- right. split; [left|]. exists d. auto.
        -- right. split; [right; exact Hin|]. exists d. split; [exact Hd|].
           intros Hs. apply Hn. apply E1'. left. exact Hs.
      * intros [H|[Hin (d & Hd & Hn)]]; [left; left; exact H|].
        destruct (decide (x = u)) as [->|Hne].
        -- left. right. split; [reflexivity|]. exists d. auto.
        -- apply elem_of_cons in Hin as [?|Hin]; [contradiction|].
           right. split; [exact Hin|]. exists d. split; [exact Hd|].
           intros Hs. apply E1' in Hs as [Hs|Hs]; [contradiction|].
           apply Hne. exact (Hinj x u d Hd Hs).
    + intros d'. rewrite E2', E1'. split.
      * intros [[H|H]|(v & Hv & Hd)].
        -- left. exact H.
        -- right. exists u. split; [left|exact H].
        -- right. exists v. split; [right; exact Hv|exact Hd].
      * intros [H|(v & Hv & Hd)]; [left; left; exact H|].
        apply elem_of_cons in Hv as [->|Hv].
        -- left. right. exact Hd.
        -- right. exists v. auto.
Qed.

Lemma holds_with_fetcher popped o s :
  holds popped o ->
  Fetcher.url2docnos s = Fetcher.url2docnos (Fetcher_ o) ->
  holds popped (with_fetcher o s).
Proof.
  intros [Hc Ho Hs Hnd Hseen] Hm.
  constructor; cbn [with_fetcher FrontierManager_ Fetcher_ SeenURLTester_]; try assumption.
  - rewrite Hm. exact Hs.
  - intros url Hin. destruct (Hseen url Hin) as (d & Hd1 & Hd2).
    exists d. split; [|exact Hd2]. unfold Fetcher.url2docno in *. rewrite Hm. exact Hd1.
Qed.

Lemma process_page_holds popped page o :
  holds popped o ->
  exists o',
    process_page get_score parse_outlinks page o = Ok o' /\
    holds popped o' /\
    Fetcher_ o' = Fetcher.store (WebPage.get_url page) (Fetcher_ o) /\
    same_settings o o'.
Proof.
  intros Hh. unfold process_page, parse_metadata.
  destruct (parser_succeeds page) as [outlinks Hparse]. rewrite Hparse.
  cbn [mbind res_bind].
  set (o1 := with_fetcher o (Fetcher.store (WebPage.get_url page) (Fetcher_ o))).
  assert (Hh1 : holds popped o1) by (apply holds_with_fetcher; [exact Hh|reflexivity]).
  destruct outlinks as [outlinks|].
  - match goal with |- context [process_links _ ?p _ _] =>
      destruct (process_links_holds popped p outlinks o1 Hh1) as (o' & H1 & Hh' & F & S)
    end.
    exists o'. split; [exact H1|]. split; [exact Hh'|]. split; [exact F|].
    eapply same_settings_trans; [|exact S]. repeat split.
  - simpl. eexists. split; [reflexivity|]. split; [|split; [reflexivity|repeat split]].
    destruct Hh1. constructor; assumption.
Qed.

Lemma process_page_effect popped page o outlinks :
  holds popped o ->
  (forall u1 u2 d, Fetcher.url2docno u1 (Fetcher_ o) = Some d ->
                   Fetcher.url2docno u2 (Fetcher_ o) = Some d -> u1 = u2) ->
  parse_outlinks page = Ok outlinks ->
  exists o',
    process_page get_score parse_outlinks page o = Ok o' /\
    holds popped o' /\
    Fetcher_ o' = Fetcher.store (WebPage.get_url page) (Fetcher_ o) /\
    links_effect (default [] outlinks) o o'.
Proof.
  intros Hh Hinj Hparse. unfold process_page, parse_metadata. rewrite Hparse.
  cbn [mbind res_bind].
  set (o1 := with_fetcher o (Fetcher.store (WebPage.get_url page) (Fetcher_ o))).
  assert (Hh1 : holds popped o1) by (apply holds_with_fetcher; [exact Hh|reflexivity]).
  destruct outlinks as [outlinks|]; cbn [default].
  - match goal with |- context [process_links _ ?p _ _] =>
      destruct (process_links_effect popped p outlinks o1 Hh1) as (o' & H1 & Hh' & F & _ & E)
    end.
    { exact Hinj. }
    exists o'. split; [exact H1|]. split; [exact Hh'|]. split; [exact F|]. exact E.
  - simpl. eexists. split; [reflexivity|]. split; [|split; [reflexivity|]].
    + destruct Hh1. constructor; assumption.
    + split.
      * intros x. split; [auto|]. intros [H|[H _]]; [exact H|inversion H].
      * intros d'. split; [auto|]. intros [H|(v & H & _)]; [exact H|inversion H].
Qed.

Lemma populate_seed_holds seed_url o :
  holds [] o -> (seed_url ∉ enqueued_urls (FrontierManager_ o)) ->
  exists o',
    populate_seed get_score seed_url o = Ok o' /\
    holds [] o' /\ Fetcher_ o' = Fetcher_ o /\ same_settings o o' /\
    seed_effect seed_url o o'.
Proof.
  intros [Hc Ho Hs Hnd Hseen] Hfresh.
  unfold populate_seed, Orchestrator.populate_seed, seed_effect.
  destruct (Fetcher.url2docno seed_url (Fetcher_ o)) as [d|] eqn:Ed.
  2:{ eexists. split; [reflexivity|]. split; [constructor; assumption|].
      split; [reflexivity|]. split; [repeat split|]. split.
      - intros x. cbn [count_notfound_seedurl FrontierManager_]. split; [auto|].
        intros [H|[_ [? H]]]; [exact H|discriminate].
      - intros d'. unfold seen_docid. cbn [count_notfound_seedurl SeenURLTester_].
        split; [auto|]. intros [H|H]; [exact H|discriminate]. }
  destruct (SeenTesterFacts.mark_seen_covered _ _ seed_url d Hs Ed)
    as (tester' & Hmark & Hs' & Hd' & Hmono).
  assert (Hadd : exists f',
            (if negb (oracle o)
             then FrontierManager.add_with_max_priority seed_url d (FrontierManager_ o)
             else FrontierManager.add
                    {| WebPage.id := Fetcher.url2id seed_url (Fetcher_ o);
                       WebPage.url := seed_url; WebPage.docno := Some d;
                       WebPage.metadata :=
                         Some {| WebPage.qscore :=
                                   if qscores o
                                   then get_score (Fetcher.url2id seed_url (Fetcher_ o))
                                   else None |} |}
                    None (FrontierManager_ o)) = Ok f' /\
            frontier_consistent f' /\ oracle_frontier f' /\
            enqueued_urls f' ≡ₚ enqueued_urls (FrontierManager_ o) ++ [seed_url]).
  { destruct (oracle o); cbn [negb].
    - apply FrontierSuccessFacts.add_succeeds; try assumption. eexists; reflexivity.
    - apply FrontierSuccessFacts.add_seed_succeeds; assumption. }
  destruct Hadd as (f' & Hadd & Hc' & Ho' & Hp).
  rewrite Hadd. cbn [mbind res_bind]. rewrite Hmark. cbn [mbind res_bind].
  eexists. split; [reflexivity|].
  split; [|split; [reflexivity|split; [repeat split|]]].
  - constructor; cbn [with_frontier with_seen FrontierManager_ Fetcher_ SeenURLTester_];
      try assumption.
    + simpl in *. rewrite Hp. apply NoDup_app. split; [exact Hnd|]. split.
      * intros x Hx Hx'. apply list_elem_of_singleton in Hx'. subst x. contradiction.
      * apply NoDup_singleton.
    + simpl in *. intros url Hin. rewrite Hp in Hin.
      apply elem_of_app in Hin as [Hin|Hin].
      * destruct (Hseen url Hin) as (d' & Hd1 & Hd2). exists d'. split; [exact Hd1|].
        unfold seen_docid in *. cbn [with_frontier with_seen SeenURLTester_].
        apply Hmono. exact Hd2.
      * apply list_elem_of_singleton in Hin. subst url. exists d. split; [exact Ed|].
        unfold seen_docid. cbn [with_frontier with_seen SeenURLTester_]. exact Hd'.
  - split.
    + cbn [with_frontier with_seen FrontierManager_]. intros x.
      rewrite Hp, elem_of_app, list_elem_of_singleton. split.
      * intros [H| ->]; [left; exact H|right; split; [reflexivity|eauto]].
      * intros [H|[-> _]]; [left; exact H|right; reflexivity].
    + intros d'. unfold seen_docid. cbn [with_frontier with_seen SeenURLTester_]. split.
      * intros H. destruct (SeenTesterFacts.mark_seen_only _ _ _ _ Hmark H) as [->|H'];
          [right; reflexivity|left; exact H'].
      * intros [H|[= <-]]; [apply Hmono; exact H|exact Hd'].
Qed.

Lemma populate_frontier_holds seed_urls : forall o,
  NoDup seed_urls ->
  holds [] o ->
  (forall u, u ∈ seed_urls -> u ∉ enqueued_urls (FrontierManager_ o)) ->
  exists o',
    populate_frontier get_score seed_urls o = Ok o' /\
    holds [] o' /\ Fetcher_ o' = Fetcher_ o /\ same_settings o o' /\
    seeds_effect seed_urls o o'.
Proof.
  induction seed_urls as [|u seed_urls IH]; intros o Hnd Hh Hfresh; simpl.
  - exists o. split; [reflexivity|]. split; [exact Hh|].
    split; [reflexivity|]. split; [apply same_settings_refl|]. split.
    + intros x. split; [auto|]. intros [H|[H _]]; [exact H|inversion H].
    + intros d'. split; [auto|]. intros [H|(v & H & _)]; [exact H|inversion H].
  - apply NoDup_cons in Hnd as [Hu Hnd].
    destruct (populate_seed_holds u o Hh) as (o1 & H1 & Hh1 & F1 & S1 & E1 & E1').
    { apply Hfresh. left. }
    rewrite H1. cbn [mbind res_bind].
    destruct (IH o1 Hnd Hh1) as (o2 & H2 & Hh2 & F2 & S2 & E2 & E2').
    { intros v Hv Hin. apply E1 in Hin as [Hin|[-> _]].
      - apply (Hfresh v); [right; exact Hv|exact Hin].
      - contradiction. }
    exists o2. split; [exact H2|]. split; [exact Hh2|].
    split; [congruence|]. split; [eapply same_settings_trans; eassumption|].
    rewrite F1 in E2, E2'. split.
    + intros x. rewrite E2, E1. split.
      * intros [[H|[-> H]]|[H H']].
        -- left; exact H.
        -- right. split; [left|exact H].
        -- right. split; [right; exact H|exact H'].
      * intros [H|[H H']]; [left; left; exact H|].
        apply elem_of_cons in H as [->|H].
        -- left. right. split; [reflexivity|exact H'].
        -- right. split; assumption.
    + intros d'. rewrite E2', E1'. split.
      * intros [[H|H]|(v & H & H')].
        -- left; exact H.
        -- right. exists u. split; [left|exact H].
        -- right. exists v. split; [right; exact H|exact H'].
      * intros [H|(v & H & H')]; [left; left; exact H|].
        apply elem_of_cons in H as [->|H].
        -- left. right. exact H'.
        -- right. exists v. split; assumption.
Qed.

(** No more URLs have been popped than the collection has docnos. *)
Lemma popped_bound popped o :
  holds popped o ->
  (length popped <= size (Fetcher.url2docnos (Fetcher_ o)))%nat.
Proof.
  intros [_ _ _ Hnd Hseen].
  apply NoDup_app in Hnd as (Hnd & _ & _).
  rewrite <- size_dom.
  rewrite <- (size_list_to_set (C := gset string) popped Hnd).
  apply subseteq_size. intros url Hin. apply elem_of_list_to_set in Hin.
  destruct (Hseen url) as (d & Hd & _); [apply elem_of_app; left; exact Hin|].
  apply elem_of_dom. exists d. exact Hd.
Qed.

(** A further property [J] of the popped URLs and the state, kept by the
    steps of the loop. *)
Variable J : list string -> t -> Prop.
Hypothesis J_fetcher : forall popped o s,
  J popped o ->
  Fetcher.url2docids s = Fetcher.url2docids (Fetcher_ o) ->
  Fetcher.url2docnos s = Fetcher.url2docnos (Fetcher_ o) ->
  J popped (with_fetcher o s).
Hypothesis J_failed : forall popped o u f',
  holds popped o -> J popped o ->
  u :: enqueued_urls f' ≡ₚ enqueued_urls (FrontierManager_ o) ->
  Fetcher.download u (Fetcher_ o) = None ->
  J (popped ++ [u]) (count_failed_dowload (with_frontier o f')).
Hypothesis J_page : forall popped o u f' page o2,
  holds popped o -> J popped o ->
  holds (popped ++ [u]) (with_frontier o f') ->
  u :: enqueued_urls f' ≡ₚ enqueued_urls (FrontierManager_ o) ->
  Fetcher.download u (Fetcher_ o) = Some page ->
  process_page get_score parse_outlinks page (with_frontier o f') = Ok o2 ->
  J (popped ++ [u]) o2.

Lemma crawl_loop_holds fuel : forall o popped0,
  holds popped0 o ->
  J popped0 o ->
  save_every_n_pages o <> 0 ->
  exists popped o',
    crawl_loop get_score parse_outlinks fuel o = Ok (popped, o') /\
    holds (popped0 ++ popped) o' /\
    J (popped0 ++ popped) o' /\
    same_settings o o' /\
    Orchestrator.crawl_loop (max_pages o) (save_every_n_pages o) popped (Fetcher_ o)
    = Ok (Fetcher_ o') /\
    ((size (Fetcher.url2docnos (Fetcher_ o)) < length popped0 + fuel)%nat -> ended o').
Proof.
  induction fuel as [|fuel IH]; intros o popped0 Hh HJ HN.
  - exists [], o. simpl. rewrite app_nil_r.
    split; [reflexivity|]. split; [exact Hh|]. split; [exact HJ|].
    split; [apply same_settings_refl|].
    split; [reflexivity|]. intros Hlt. pose proof (popped_bound popped0 o Hh). lia.
  - cbn [crawl_loop].
    destruct (Z.gtb_spec (FrontierManager.enqueued (FrontierManager_ o)) 0) as [Hpos|Hle].
    2:{ exists [], o. rewrite app_nil_r.
        split; [reflexivity|]. split; [exact Hh|]. split; [exact HJ|].
        split; [apply same_settings_refl|].
        split; [reflexivity|]. intros _. left. exact Hle. }
    destruct ((max_pages o >? 0) && (Fetcher.num_dowloaded (Fetcher_ o) >=? max_pages o))
      eqn:Hguard.
    { exists [], o. rewrite app_nil_r.
      split; [reflexivity|]. split; [exact Hh|]. split; [exact HJ|].
      split; [apply same_settings_refl|].
      split; [reflexivity|]. intros _. right.
      apply andb_true_iff in Hguard as [G1 G2].
      apply Z.gtb_lt in G1. apply Z.geb_le in G2. split; lia. }
    pose proof Hh as Hh0.
    destruct Hh as [Hc Ho Hs Hnd Hseen].
    destruct (FrontierSuccessFacts.pop_succeeds 0 (FrontierManager_ o) Hc Ho)
      as (u & f' & Hpop & Hc' & Ho' & Hp); [lia|].
    rewrite Hpop. cbn [mbind res_bind].
    set (o1 := with_frontier o f').
    assert (Hh1 : holds (popped0 ++ [u]) o1).
    { constructor; cbn [o1 with_frontier FrontierManager_ Fetcher_ SeenURLTester_];
        try assumption.
      - rewrite <- app_assoc. simpl. rewrite Hp. exact Hnd.
      - intros url Hin. rewrite <- app_assoc in Hin. simpl in Hin. rewrite Hp in Hin.
        exact (Hseen url Hin). }
    assert (Hfuel : forall o2,
              Fetcher.url2docnos (Fetcher_ o2) = Fetcher.url2docnos (Fetcher_ o) ->
              (size (Fetcher.url2docnos (Fetcher_ o)) < length popped0 + S fuel)%nat ->
              (size (Fetcher.url2docnos (Fetcher_ o2)) < length (popped0 ++ [u]) + fuel)%nat).
    { intros o2 E Hlt. rewrite E, length_app. simpl. lia. }
    change (Fetcher_ o1) with (Fetcher_ o).
    destruct (Fetcher.download u (Fetcher_ o)) as [page|] eqn:Edl.
    + (* the page is downloaded *)
      assert (Hurl : WebPage.get_url page = u).
      { unfold Fetcher.download in Edl.
        destruct (Fetcher.url2id u (Fetcher_ o)); [|discriminate].
        injection Edl as <-. reflexivity. }
      destruct (process_page_holds (popped0 ++ [u]) page o1 Hh1)
        as (o2 & Hpp & Hh2 & F2 & S2).
      pose proof (J_page popped0 o u f' page o2 Hh0 HJ Hh1 Hp Edl Hpp) as HJ2.
      rewrite Hpp. cbn [mbind res_bind].
      assert (HN2 : save_every_n_pages o2 = save_every_n_pages o)
        by (destruct S2 as (_ & _ & _ & _ & E); exact E).
      assert (HM2 : max_pages o2 = max_pages o)
        by (destruct S2 as (_ & _ & _ & E & _); exact E).
      change (Fetcher_ o1) with (Fetcher_ o) in F2.
      rewrite HN2. destruct (Z.eqb_spec (save_every_n_pages o) 0) as [?|_]; [contradiction|].
      pose proof (base_crawl_downloaded (max_pages o) (save_every_n_pages o) u)
        as Hbase0.
      destruct ((Fetcher.num_dowloaded (Fetcher_ o) mod save_every_n_pages o =? 0)
                && (Fetcher.num_dowloaded (Fetcher_ o) >? 1)) eqn:Econd.
      * rewrite F2.
        destruct (Fetcher.checkpoint (save_every_n_pages o)
                    (Fetcher.store (WebPage.get_url page) (Fetcher_ o)))
          as [s3|e] eqn:Ecp.
        2:{ unfold Fetcher.checkpoint, Fetcher.write_downloads_to_file in Ecp.
            destruct (Z.eqb_spec (save_every_n_pages o) 0); [contradiction|discriminate]. }
        cbn [mbind res_bind].
        assert (Hm3 : Fetcher.url2docnos s3 = Fetcher.url2docnos (Fetcher_ o2) /\
                      Fetcher.url2docids s3 = Fetcher.url2docids (Fetcher_ o2)).
        { unfold Fetcher.checkpoint, Fetcher.write_downloads_to_file in Ecp.
          destruct (Z.eqb_spec (save_every_n_pages o) 0); [contradiction|].
          simpl in Ecp. injection Ecp as <-. rewrite F2. split; reflexivity. }
        destruct Hm3 as [Hm3 Hm3'].
        assert (HN3 : save_every_n_pages (with_fetcher o2 s3) <> 0)
          by (cbn [with_fetcher save_every_n_pages]; rewrite HN2; exact HN).
        destruct (IH (with_fetcher o2 s3) (popped0 ++ [u])
                    (holds_with_fetcher _ _ _ Hh2 Hm3)
                    (J_fetcher _ _ _ HJ2 Hm3' Hm3) HN3)
          as (popped & o' & Hloop & Hh' & HJ' & S' & Hbase & Hend).
        rewrite Hloop. cbn [mbind res_bind].
        exists (u :: popped), o'. split; [reflexivity|].
        split; [rewrite <- app_assoc in Hh'; exact Hh'|].
        split; [rewrite <- app_assoc in HJ'; exact HJ'|].
        split; [eapply same_settings_trans; [|exact S'];
                eapply same_settings_trans; [|exact S2]; repeat split|].
        cbn [with_fetcher max_pages save_every_n_pages Fetcher_] in Hbase.
        rewrite HN2, HM2 in Hbase. split.
        -- rewrite (Hbase0 popped (Fetcher_ o) page Hguard Edl HN).
           rewrite Econd, Ecp. cbn [mbind res_bind]. exact Hbase.
        -- intros Hlt. apply Hend. apply Hfuel; [|exact Hlt].
           cbn [with_fetcher Fetcher_]. rewrite Hm3, F2. reflexivity.
      * cbn [mbind res_bind].
        assert (HN3 : save_every_n_pages o2 <> 0) by (rewrite HN2; exact HN).
        destruct (IH o2 (popped0 ++ [u]) Hh2 HJ2 HN3)
          as (popped & o' & Hloop & Hh' & HJ' & S' & Hbase & Hend).
        rewrite Hloop. cbn [mbind res_bind].
        exists (u :: popped), o'. split; [reflexivity|].
        split; [rewrite <- app_assoc in Hh'; exact Hh'|].
        split; [rewrite <- app_assoc in HJ'; exact HJ'|].
        split; [eapply same_settings_trans; [|exact S'];
                eapply same_settings_trans; [|exact S2]; repeat split|].
        rewrite HN2, HM2, F2 in Hbase. split.
        -- rewrite (Hbase0 popped (Fetcher_ o) page Hguard Edl HN).
           rewrite Econd. cbn [mbind res_bind]. exact Hbase.
        -- intros Hlt. apply Hend. apply Hfuel; [|exact Hlt]. rewrite F2. reflexivity.
    + (* the download fails *)
      assert (Hh3 : holds (popped0 ++ [u]) (count_failed_dowload o1))
        by (destruct Hh1; constructor; assumption).
      destruct (IH (count_failed_dowload o1) (popped0 ++ [u]) Hh3
                  (J_failed popped0 o u f' Hh0 HJ Hp Edl) HN)
        as (popped & o' & Hloop & Hh' & HJ' & S' & Hbase & Hend).
      rewrite Hloop. cbn [mbind res_bind].
      exists (u :: popped), o'. split; [reflexivity|].
      split; [rewrite <- app_assoc in Hh'; exact Hh'|].
      split; [rewrite <- app_assoc in HJ'; exact HJ'|].
      split; [eapply same_settings_trans; [|exact S']; repeat split|].
      split.
      * rewrite (base_crawl_failed _ _ _ _ _ Hguard Edl). exact Hbase.
      * intros Hlt. apply Hend. apply Hfuel; [reflexivity|exact Hlt].
Qed.

End RunFacts.

End CrawlRunFacts.

(** ** The whole crawl *)

Section CrawlProperties.
Import FrontierContents Crawl CrawlInvariant.

Lemma base_crawl_loop_docnos max_pages N popped : forall s s',
  Orchestrator.crawl_loop max_pages N popped s = Ok s' ->
  Fetcher.url2docnos s' = Fetcher.url2docnos s.
Proof.
  induction popped as [|u popped IH]; intros s s'; simpl.
  - intros [= <-]. reflexivity.
  - destruct (_ && _); [intros [= <-]; reflexivity|].
    destruct (Fetcher.download u s); [|apply IH].
    destruct (N =? 0) eqn:E0; [discriminate|].
    destruct (_ && _).
    + unfold Fetcher.checkpoint, Fetcher.write_downloads_to_file. rewrite E0.
      cbn [mbind res_bind]. intros H. apply IH in H. exact H.
    + cbn [mbind res_bind]. intros H. apply IH in H. exact H.
Qed.

Lemma init_holds frontier_type seen_urls_type updates page_limit N m1 m2 o0 :
  Crawl.init frontier_type seen_urls_type updates page_limit N m1 m2 = Ok o0 ->
  (seen_urls_type <> "set" ->
   map_Forall (fun _ d => 0 <= d < Z.of_nat (size m1) + 10) m2) ->
  holds [] o0 /\ enqueued_urls (FrontierManager_ o0) = [] /\
  Fetcher_ o0 = Fetcher.init m1 m2 /\ Crawl.max_pages o0 = page_limit /\
  save_every_n_pages o0 = N.
Proof.
  unfold Crawl.init. intros Hinit Hrange.
  destruct (_ || _); [|discriminate].
  destruct (SeenURLTester.init_url_seen_tester _ _) as [seen|] eqn:Es; [|discriminate].
  destruct (FrontierManager.init_frontier_manager _ _) as [f|] eqn:Ef; [|discriminate].
  cbn [mbind res_bind] in Hinit. injection Hinit as <-.
  destruct (FrontierRunFacts.init_contents _ _ _ Ef) as [Hc He].
  cbn [FrontierManager_ Fetcher_ Crawl.max_pages Crawl.save_every_n_pages].
  split; [|auto]. constructor; cbn [FrontierManager_ Fetcher_ SeenURLTester_].
  - exact Hc.
  - unfold FrontierManager.init_frontier_manager in Ef.
    repeat case_decide; simpl in Ef; try discriminate; try (injection Ef as <-; exact I).
    injection Ef as <-. reflexivity.
  - unfold SeenURLTester.init_url_seen_tester in Es.
    destruct (decide (seen_urls_type = "set")) as [?|Hne]; [injection Es as <-; exact I|].
    destruct (decide (seen_urls_type = "bitarray")); [|discriminate].
    unfold BitArraySeenURLTester.init in Es.
    destruct (Z.ltb_spec (Z.of_nat (size m1) + 10) 0) as [?|Hcap]; [discriminate|].
    cbn [mbind res_bind] in Es. injection Es as <-. simpl. split.
    + split; simpl; [exact Hcap|apply length_replicate].
    + intros url d Hd. exact (Hrange Hne url d Hd).
  - rewrite He. constructor.
  - rewrite He. intros url Hin. inversion Hin.
Qed.

Lemma reachable_holds
    (get_score : option string -> option Q)
    (parse_outlinks : WebPage.t -> res (option (list string)))
    frontier_type seen_urls_type updates page_limit N m1 m2 seed_urls o0 o1 fuel popped o :
  Crawl.init frontier_type seen_urls_type updates page_limit N m1 m2 = Ok o0 ->
  N <> 0 -> NoDup seed_urls ->
  (forall page, exists r, parse_outlinks page = Ok r) ->
  (seen_urls_type <> "set" ->
   map_Forall (fun _ d => 0 <= d < Z.of_nat (size m1) + 10) m2) ->
  populate_frontier get_score seed_urls o0 = Ok o1 ->
  crawl_loop get_score parse_outlinks fuel o1 = Ok (popped, o) ->
  holds popped o /\ Fetcher.url2docnos (Fetcher_ o) = m2.
Proof.
  intros Hinit HN Hnd Hparse Hrange Hpop Hloop.
  destruct (init_holds _ _ _ _ _ _ _ _ Hinit Hrange) as (Hh0 & He0 & F0 & M0 & N0).
  destruct (CrawlRunFacts.populate_frontier_holds get_score seed_urls o0 Hnd Hh0)
    as (o1' & Hpop' & Hh1 & F1 & S1 & _).
  { intros u _. rewrite He0. apply not_elem_of_nil. }
  rewrite Hpop in Hpop'. injection Hpop' as <-.
  assert (HN1 : save_every_n_pages o1 = N)
    by (destruct S1 as (_ & _ & _ & _ & E); congruence).
  destruct (CrawlRunFacts.crawl_loop_holds get_score parse_outlinks Hparse
              (fun _ _ => True) (fun _ _ _ _ _ _ => I) (fun _ _ _ _ _ _ _ _ => I)
              (fun _ _ _ _ _ _ _ _ _ _ _ _ => I) fuel o1 [] Hh1 I)
    as (popped' & o2 & Hloop' & Hh2 & _ & S2 & Hbase & _); [congruence|].
  rewrite Hloop in Hloop'. injection Hloop' as <- <-.
  split; [exact Hh2|].
  rewrite (base_crawl_loop_docnos _ _ _ _ _ Hbase), F1, F0. reflexivity.
Qed.

Lemma docnos_injective (m2 : gmap string Z) :
  NoDup (map snd (map_to_list m2)) ->
  forall u1 u2 d, m2 !! u1 = Some d -> m2 !! u2 = Some d -> u1 = u2.
Proof.
  intros Hnd u1 u2 d H1 H2.
  apply elem_of_map_to_list in H1. apply elem_of_map_to_list in H2.
  apply list_elem_of_lookup_1 in H1 as [i Hi]. apply list_elem_of_lookup_1 in H2 as [j Hj].
  assert (i = j).
  { apply (NoDup_lookup _ _ _ d Hnd); rewrite list_lookup_fmap.
    - rewrite Hi. reflexivity.
    - rewrite Hj. reflexivity. }
  subst j. rewrite Hi in Hj. congruence.
Qed.

(** X23: a crawl never raises and never handles a URL twice.  For an
    orchestrator of a supported frontier type (oracle-quality, with or
    without updates, bfs, dfs) and either seen-set, with distinct seed
    URLs, a parser that reads every page, a [save_every_n_pages] other
    than 0 and, for the bitmap, docnos below its capacity: [crawl] returns;
    its loop ends because the frontier is empty or [max_pages] is reached,
    within as many iterations as the collection has docnos; the URLs it
    has popped are pairwise distinct, are not in the frontier any more, and
    each has a docno; and the fetcher ends in the state that
    [Orchestrator.crawl] computes from the popped URLs alone. *)
Theorem crawl_never_raises
    (get_score : option string -> option Q)
    (parse_outlinks : WebPage.t -> res (option (list string)))
    (frontier_type seen_urls_type : string) (updates : bool)
    (page_limit N : Z) (m1 : gmap string string) (m2 : gmap string Z)
    (seed_urls : list string) (o0 : Crawl.t) :
  Crawl.init frontier_type seen_urls_type updates page_limit N m1 m2 = Ok o0 ->
  N <> 0 ->
  NoDup seed_urls ->
  (forall page, exists r, parse_outlinks page = Ok r) ->
  (seen_urls_type <> "set" ->
   map_Forall (fun _ d => 0 <= d < Z.of_nat (size m1) + 10) m2) ->
  exists popped o,
    crawl get_score parse_outlinks seed_urls o0 = Ok (popped, o) /\
    ended o /\
    NoDup (popped ++ enqueued_urls (FrontierManager_ o)) /\
    (forall url, url ∈ popped ++ enqueued_urls (FrontierManager_ o) ->
       exists d, m2 !! url = Some d /\ seen_docid d o) /\
    (length popped <= size m2)%nat /\
    Orchestrator.crawl page_limit N popped (Fetcher.init m1 m2) = Ok (Fetcher_ o).
Proof.
  intros Hinit HN Hnd Hparse Hrange.
  destruct (init_holds _ _ _ _ _ _ _ _ Hinit Hrange) as (Hh0 & He0 & F0 & M0 & N0).
  destruct (CrawlRunFacts.populate_frontier_holds get_score seed_urls o0 Hnd Hh0)
    as (o1 & Hpop & Hh1 & F1 & S1 & _).
  { intros u _. rewrite He0. apply not_elem_of_nil. }
  assert (HN1 : save_every_n_pages o1 = N)
    by (destruct S1 as (_ & _ & _ & _ & E); congruence).
  assert (HM1 : Crawl.max_pages o1 = page_limit)
    by (destruct S1 as (_ & _ & _ & E & _); congruence).
  destruct (CrawlRunFacts.crawl_loop_holds get_score parse_outlinks Hparse
              (fun _ _ => True) (fun _ _ _ _ _ _ => I) (fun _ _ _ _ _ _ _ _ => I)
              (fun _ _ _ _ _ _ _ _ _ _ _ _ => I)
              (S (size (Fetcher.url2docnos (Fetcher_ o1)))) o1 [] Hh1 I)
    as (popped & o2 & Hloop & Hh2 & _ & S2 & Hbase & Hend); [congruence|].
  assert (HN2 : save_every_n_pages o2 = N)
    by (destruct S2 as (_ & _ & _ & _ & E); congruence).
  assert (HM2 : Crawl.max_pages o2 = page_limit)
    by (destruct S2 as (_ & _ & _ & E & _); congruence).
  assert (Hm2 : Fetcher.url2docnos (Fetcher_ o2) = m2).
  { rewrite (base_crawl_loop_docnos _ _ _ _ _ Hbase), F1, F0. reflexivity. }
  unfold crawl. rewrite Hpop. cbn [mbind res_bind]. rewrite Hloop. cbn [mbind res_bind].
  unfold Fetcher.write_downloads_to_file. rewrite HN2.
  destruct (Z.eqb_spec N 0) as [?|_]; [contradiction|]. cbn [mbind res_bind].
  eexists _, _. split; [reflexivity|].
  simpl in Hh2. destruct Hh2 as [Hc2 Ho2 Hs2 Hnd2 Hseen2].
  cbn [with_fetcher FrontierManager_ Fetcher_].
  split; [|split; [exact Hnd2|split; [|split]]].
  - destruct Hend as [Hend|Hend]; [lia|left; exact Hend|right].
    unfold Fetcher.num_dowloaded in *. cbn [Fetcher.downloaded Fetcher.num_stored].
    rewrite HM2 in Hend. cbn [with_fetcher Crawl.max_pages]. rewrite HM2. exact Hend.
  - intros url Hin. destruct (Hseen2 url Hin) as (d & Hd1 & Hd2).
    exists d. split.
    + unfold Fetcher.url2docno in Hd1. rewrite Hm2 in Hd1. exact Hd1.
    + exact Hd2.
  - pose proof (CrawlRunFacts.popped_bound popped o2
                  (mk_holds _ _ Hc2 Ho2 Hs2 Hnd2 Hseen2)) as Hb.
    rewrite Hm2 in Hb. exact Hb.
  - unfold Orchestrator.crawl. rewrite HM1, HN1, F1, F0 in Hbase. rewrite Hbase.
    cbn [mbind res_bind]. unfold Fetcher.write_downloads_to_file.
    destruct (Z.eqb_spec N 0) as [?|_]; [contradiction|]. reflexivity.
Qed.

Lemma crawl_never_raises_witness :
  exists o0 popped o,
    Crawl.init "oracle-quality" "bitarray" true 0 2
      Examples.url2docids Examples.url2docnos = Ok o0 /\
    crawl CrawlExamples.score_of CrawlExamples.outlinks_of ["u1"] o0 = Ok (popped, o) /\
    NoDup (popped ++ enqueued_urls (FrontierManager_ o)).
Proof.
  destruct (crawl_never_raises CrawlExamples.score_of CrawlExamples.outlinks_of
              "oracle-quality" "bitarray" true 0 2
              Examples.url2docids Examples.url2docnos ["u1"] _ eq_refl)
    as (popped & o & H1 & _ & H2 & _).
  - lia.
  - apply (bool_decide_unpack _). vm_compute. exact I.
  - intros page. eexists. reflexivity.
  - intros _. apply (bool_decide_unpack _). vm_compute. exact I.
  - eexists _, popped, o. split; [reflexivity|]. split; [exact H1|exact H2].
Defined.

(** X24: what [process_page] does in a crawl.  In any state the crawl
    reaches (for an orchestrator of a supported frontier type and either
    seen-set, with distinct seed URLs, a parser that reads every page, a
    [save_every_n_pages] other than 0, docnos below the capacity of the
    bitmap and no docno shared by two URLs), [process_page] does not
    raise, and stores the page's docno.  An outlink enters the
    frontier exactly when it has a docno that was not marked seen, and
    only once however often the page links to it; no URL leaves the
    frontier; and afterwards the seen docnos are those seen before and
    those of the outlinks. *)
Theorem process_page_adds_unseen_links
    (get_score : option string -> option Q)
    (parse_outlinks : WebPage.t -> res (option (list string)))
    (frontier_type seen_urls_type : string) (updates : bool)
    (page_limit N : Z) (m1 : gmap string string) (m2 : gmap string Z)
    (seed_urls : list string) (o0 o1 : Crawl.t) (fuel : nat)
    (popped : list string) (o : Crawl.t)
    (page : WebPage.t) (outlinks : option (list string)) :
  Crawl.init frontier_type seen_urls_type updates page_limit N m1 m2 = Ok o0 ->
  N <> 0 ->
  NoDup seed_urls ->
  (forall page, exists r, parse_outlinks page = Ok r) ->
  (seen_urls_type <> "set" ->
   map_Forall (fun _ d => 0 <= d < Z.of_nat (size m1) + 10) m2) ->
  NoDup (map snd (map_to_list m2)) ->
  populate_frontier get_score seed_urls o0 = Ok o1 ->
  crawl_loop get_score parse_outlinks fuel o1 = Ok (popped, o) ->
  parse_outlinks page = Ok outlinks ->
  exists o',
    process_page get_score parse_outlinks page o = Ok o' /\
    Fetcher.num_dowloaded (Fetcher_ o') = Fetcher.num_dowloaded (Fetcher_ o) + 1 /\
    NoDup (enqueued_urls (FrontierManager_ o')) /\
    (forall x, x ∈ enqueued_urls (FrontierManager_ o') <->
       x ∈ enqueued_urls (FrontierManager_ o) \/
       (x ∈ default [] outlinks /\ exists d, m2 !! x = Some d /\ ~ seen_docid d o)) /\
    (forall d, seen_docid d o' <->
       seen_docid d o \/ exists u, u ∈ default [] outlinks /\ m2 !! u = Some d).
Proof.
  intros Hinit HN Hnd Hparse Hrange Hinj Hpop Hloop Hpage.
  destruct (reachable_holds get_score parse_outlinks _ _ _ _ _ _ _ _ _ _ _ _ _
              Hinit HN Hnd Hparse Hrange Hpop Hloop) as [Hh Hm].
  destruct (CrawlRunFacts.process_page_effect get_score parse_outlinks
              popped page o outlinks Hh) as (o' & Hpp & Hh' & F & E1 & E2);
    [|exact Hpage|].
  { unfold Fetcher.url2docno. rewrite Hm. apply docnos_injective. exact Hinj. }
  exists o'. split; [exact Hpp|]. split; [|split; [|split]].
  - rewrite F. unfold Fetcher.num_dowloaded, Fetcher.store. simpl.
    rewrite length_app. simpl. lia.
  - destruct Hh' as [_ _ _ Hnd' _]. apply NoDup_app in Hnd' as (_ & _ & H). exact H.
  - intros x. rewrite E1. unfold Fetcher.url2docno. rewrite Hm. reflexivity.
  - intros d. rewrite E2. unfold Fetcher.url2docno. rewrite Hm. reflexivity.
Qed.

Lemma process_page_adds_unseen_links_witness :
  exists o0 o1 o',
    Crawl.init "bfs" "set" false 0 2 Examples.url2docids Examples.url2docnos = Ok o0 /\
    populate_frontier CrawlExamples.score_of ["u1"] o0 = Ok o1 /\
    process_page CrawlExamples.score_of CrawlExamples.outlinks_of
      (Examples.page "u1" None) o1 = Ok o' /\
    NoDup (enqueued_urls (FrontierManager_ o')).
Proof.
  eexists _, _. 
  assert (H : forall (P : Crawl.t -> Prop) A B, A -> B -> (A -> B -> exists o', P o') ->
                exists o', A /\ B /\ P o') by (intros P A B a b [o' p]; eauto).
  apply H; clear H.
  - reflexivity.
  - vm_compute. reflexivity.
  - intros Hinit Hpop.
    match type of Hpop with
    | populate_frontier _ _ ?a = Ok ?b =>
        destruct (process_page_adds_unseen_links
                    CrawlExamples.score_of CrawlExamples.outlinks_of
                    "bfs" "set" false 0 2 Examples.url2docids Examples.url2docnos
                    ["u1"] a b 0%nat [] b (Examples.page "u1" None)
                    (Some ["u2"; "u3"; "u1"; "elsewhere"]) Hinit)
          as (o' & H1 & _ & H2 & _)
    end.
    + lia.
    + apply (bool_decide_unpack _). vm_compute. exact I.
    + intros page. eexists. reflexivity.
    + intros H. exfalso. apply H. reflexivity.
    + apply (bool_decide_unpack _). vm_compute. exact I.
    + exact Hpop.
    + reflexivity.
    + reflexivity.
    + exists o'. split; [exact H1|exact H2].
Defined.

End CrawlProperties.
(** ** What a crawl without a page limit visits *)

Module CrawlGraphFacts.
Import FrontierContents Crawl CrawlInvariant CrawlGraph.

Lemma enqueued_length f :
  frontier_consistent f ->
  FrontierManager.enqueued f = Z.of_nat (length (enqueued_urls f)).
Proof.
  destruct f as [g|g|g|g]; simpl; try reflexivity.
  unfold QualityFrontierManager.enqueued.
  destruct (QualityFrontierManager.queue g) as [q|h]; simpl.
  - intros Hc. unfold PQueuePriorityQueue.enqueued.
    rewrite (PQueueConsistency.enqueued_size q Hc), <- size_dom. reflexivity.
  - intros _. unfold PQueueHeap.enqueued. rewrite length_map. reflexivity.
Qed.

Lemma download_same_maps u s s' :
  Fetcher.url2docids s' = Fetcher.url2docids s ->
  Fetcher.url2docnos s' = Fetcher.url2docnos s ->
  Fetcher.download u s' = Fetcher.download u s.
Proof.
  intros H1 H2. unfold Fetcher.download, Fetcher.url2id, Fetcher.url2docno.
  rewrite H1, H2. reflexivity.
Qed.

Lemma init_unseen frontier_type seen_urls_type updates page_limit N m1 m2 o0 d :
  Crawl.init frontier_type seen_urls_type updates page_limit N m1 m2 = Ok o0 ->
  ~ seen_docid d o0.
Proof.
  unfold Crawl.init. intros Hinit.
  destruct (_ || _); [|discriminate].
  destruct (SeenURLTester.init_url_seen_tester _ _) as [seen|] eqn:Es; [|discriminate].
  destruct (FrontierManager.init_frontier_manager _ _) as [f|]; [|discriminate].
  cbn [mbind res_bind] in Hinit. injection Hinit as <-.
  unfold seen_docid. cbn [SeenURLTester_].
  unfold SeenURLTester.init_url_seen_tester in Es.
  destruct (decide (seen_urls_type = "set")).
  - injection Es as <-. simpl. unfold SetSeenURLTester.is_seen. simpl.
    intros [= H].
  - destruct (decide (seen_urls_type = "bitarray")); [|discriminate].
    unfold BitArraySeenURLTester.init in Es.
    destruct (_ <? 0); [discriminate|]. cbn [mbind res_bind] in Es. injection Es as <-.
    simpl. unfold BitArraySeenURLTester.is_seen. simpl.
    destruct (_ || _); [discriminate|].
    destruct (replicate _ false !! Z.to_nat d) as [b|] eqn:E; [|discriminate].
    apply lookup_replicate in E as [-> _]. discriminate.
Qed.

Section Explore.
Variable get_score : option string -> option Q.
Variable parse_outlinks : WebPage.t -> res (option (list string)).
Hypothesis parser_succeeds : forall page, exists r, parse_outlinks page = Ok r.
Variable s0 : Fetcher.t.
Variable seed_urls : list string.
Hypothesis docnos_distinct :
  forall u1 u2 d, Fetcher.url2docno u1 s0 = Some d -> Fetcher.url2docno u2 s0 = Some d ->
                  u1 = u2.

Lemma explored_fetcher popped o s :
  explored parse_outlinks s0 seed_urls popped o ->
  Fetcher.url2docids s = Fetcher.url2docids (Fetcher_ o) ->
  Fetcher.url2docnos s = Fetcher.url2docnos (Fetcher_ o) ->
  explored parse_outlinks s0 seed_urls popped (with_fetcher o s).
Proof.
  intros [E1 E2 A B C D] H1 H2.
  constructor; cbn [with_fetcher Fetcher_ FrontierManager_]; try assumption; congruence.
Qed.

Lemma explored_docno popped o x :
  explored parse_outlinks s0 seed_urls popped o ->
  Fetcher.url2docno x (Fetcher_ o) = Fetcher.url2docno x s0.
Proof. intros [E1 E2 _ _ _ _]. unfold Fetcher.url2docno. rewrite E2. reflexivity. Qed.

Lemma explored_download popped o x :
  explored parse_outlinks s0 seed_urls popped o ->
  Fetcher.download x (Fetcher_ o) = Fetcher.download x s0.
Proof. intros [E1 E2 _ _ _ _]. apply download_same_maps; assumption. Qed.

Lemma explored_failed popped o u f' :
  holds popped o ->
  explored parse_outlinks s0 seed_urls popped o ->
  u :: enqueued_urls f' ≡ₚ enqueued_urls (FrontierManager_ o) ->
  Fetcher.download u (Fetcher_ o) = None ->
  explored parse_outlinks s0 seed_urls (popped ++ [u])
    (count_failed_dowload (with_frontier o f')).
Proof.
  intros _ HJ Hp Edl. pose proof (explored_download popped o u HJ) as Hdl.
  destruct HJ as [E1 E2 A B C D].
  assert (Hsame : forall x, x ∈ (popped ++ [u]) ++ enqueued_urls f' <->
                            x ∈ popped ++ enqueued_urls (FrontierManager_ o)).
  { intros x. rewrite <- Hp, <- app_assoc. reflexivity. }
  constructor; cbn [count_failed_dowload with_frontier Fetcher_ FrontierManager_];
    try assumption.
  - intros d Hd. destruct (A d Hd) as (x & Hx & Hxd). exists x.
    split; [apply Hsame; exact Hx|exact Hxd].
  - intros x v d Hx Hl Hvd. apply elem_of_app in Hx as [Hx|Hx].
    + exact (B x v d Hx Hl Hvd).
    + apply list_elem_of_singleton in Hx. subst x.
      destruct Hl as (page & outs & Hpage & _). congruence.
  - intros x Hx. apply D. apply Hsame. exact Hx.
Qed.

Lemma explored_page popped o u f' page o2 :
  holds popped o ->
  explored parse_outlinks s0 seed_urls popped o ->
  holds (popped ++ [u]) (with_frontier o f') ->
  u :: enqueued_urls f' ≡ₚ enqueued_urls (FrontierManager_ o) ->
  Fetcher.download u (Fetcher_ o) = Some page ->
  process_page get_score parse_outlinks page (with_frontier o f') = Ok o2 ->
  explored parse_outlinks s0 seed_urls (popped ++ [u]) o2.
Proof.
  intros _ HJ Hh1 Hp Edl Hpp.
  pose proof (explored_download popped o u HJ) as Hdl.
  assert (Hno : forall x, Fetcher.url2docno x (Fetcher_ o) = Fetcher.url2docno x s0)
    by (intros x; exact (explored_docno popped o x HJ)).
  destruct HJ as [E1 E2 A B C D].
  destruct (parser_succeeds page) as [outlinks Hparse].
  destruct (CrawlRunFacts.process_page_effect get_score parse_outlinks
              (popped ++ [u]) page (with_frontier o f') outlinks Hh1)
    as (o' & Hpp' & _ & F & L1 & L2); [|exact Hparse|].
  { cbn [with_frontier Fetcher_]. intros u1 u2 d. rewrite !Hno. apply docnos_distinct. }
  rewrite Hpp in Hpp'. injection Hpp' as <-.
  cbn [with_frontier Fetcher_ FrontierManager_] in F, L1, L2.
  assert (Hseen1 : forall d, seen_docid d (with_frontier o f') <-> seen_docid d o)
    by (intros d; reflexivity).
  assert (Hold : forall x, x ∈ popped ++ enqueued_urls (FrontierManager_ o) ->
                           x ∈ (popped ++ [u]) ++ enqueued_urls (FrontierManager_ o2)).
  { intros x Hx. rewrite <- Hp in Hx. rewrite <- app_assoc.
    apply elem_of_app in Hx as [Hx|Hx]; [apply elem_of_app; left; exact Hx|].
    apply elem_of_app. right.
    apply elem_of_cons in Hx as [->|Hx]; [apply elem_of_app; left; left|].
    apply elem_of_app. right. apply L1. left. exact Hx. }
  assert (Hu : reachable parse_outlinks s0 seed_urls u).
  { apply D. rewrite <- Hp. apply elem_of_app. right. left. }
  constructor.
  - rewrite F. simpl. exact E1.
  - rewrite F. simpl. exact E2.
  - intros d Hd.
    assert (Hcase : seen_docid d o \/
                    exists v, v ∈ default [] outlinks /\
                              Fetcher.url2docno v s0 = Some d /\ ~ seen_docid d o).
    { apply L2 in Hd as [Hd|(v & Hv & Hvd)]; [left; apply Hseen1; exact Hd|].
      unfold seen_docid.
      destruct (SeenURLTester.is_seen d (SeenURLTester_ o)) as [[|]|e] eqn:Es.
      - left. reflexivity.
      - right. exists v. rewrite <- Hno. split; [exact Hv|]. split; [exact Hvd|discriminate].
      - right. exists v. rewrite <- Hno. split; [exact Hv|]. split; [exact Hvd|discriminate]. }
    destruct Hcase as [Hd'|(v & Hv & Hvd & Hns)].
    + destruct (A d Hd') as (x & Hx & Hxd). exists x. split; [apply Hold; exact Hx|exact Hxd].
    + exists v. split; [|exact Hvd]. apply elem_of_app. right. apply L1. right.
      split; [exact Hv|]. exists d. rewrite Hno. split; [exact Hvd|].
      intros H. apply Hns. apply Hseen1. exact H.
  - intros x v d Hx Hl Hvd. apply L2. apply elem_of_app in Hx as [Hx|Hx].
    + left. apply Hseen1. exact (B x v d Hx Hl Hvd).
    + apply list_elem_of_singleton in Hx. subst x.
      destruct Hl as (page' & outs & Hpage & Houts & Hv & _).
      rewrite <- Hdl, Edl in Hpage. injection Hpage as <-.
      rewrite Hparse in Houts. injection Houts as ->.
      right. exists v. split; [exact Hv|]. rewrite Hno. exact Hvd.
  - intros x d Hx Hxd. apply L2. left. apply Hseen1. exact (C x d Hx Hxd).
  - intros x Hx. rewrite <- app_assoc in Hx.
    apply elem_of_app in Hx as [Hx|Hx]; [apply D; apply elem_of_app; left; exact Hx|].
    apply elem_of_app in Hx as [Hx|Hx].
    { apply list_elem_of_singleton in Hx. subst x. exact Hu. }
    apply L1 in Hx as [Hx|(Hx & d & Hxd & _)].
    + apply D. rewrite <- Hp. apply elem_of_app. right. right. exact Hx.
    + destruct outlinks as [outs|]; [|inversion Hx]. simpl in Hx.
      apply (reachable_link parse_outlinks s0 seed_urls u x Hu).
      exists page, outs. rewrite <- Hdl. split; [exact Edl|]. split; [exact Hparse|].
      split; [exact Hx|]. rewrite <- Hno. eauto.
Qed.

(** The state after the seeds. *)
Lemma explored_seeds o0 o1 :
  Fetcher_ o0 = s0 -> enqueued_urls (FrontierManager_ o0) = [] ->
  (forall d, ~ seen_docid d o0) ->
  Fetcher_ o1 = Fetcher_ o0 -> seeds_effect seed_urls o0 o1 ->
  explored parse_outlinks s0 seed_urls [] o1.
Proof.
  intros F0 He0 Hun F1 [L1 L2]. rewrite F0 in L1, L2.
  constructor.
  - rewrite F1, F0. reflexivity.
  - rewrite F1, F0. reflexivity.
  - intros d Hd. apply L2 in Hd as [Hd|(u & Hu & Hud)]; [destruct (Hun d Hd)|].
    exists u. split; [|exact Hud]. simpl. apply L1. right. split; [exact Hu|eauto].
  - intros u v d Hu. inversion Hu.
  - intros u d Hu Hud. apply L2. right. exists u. split; assumption.
  - intros u Hu. simpl in Hu. apply L1 in Hu as [Hu|[Hu Hd]].
    + rewrite He0 in Hu. inversion Hu.
    + apply reachable_seed; assumption.
Qed.

(** Once the frontier is empty, the popped URLs are the reachable ones. *)
Lemma explored_all popped o :
  holds popped o ->
  explored parse_outlinks s0 seed_urls popped o ->
  enqueued_urls (FrontierManager_ o) = [] ->
  (forall u, u ∈ popped <-> reachable parse_outlinks s0 seed_urls u) /\
  (forall d, seen_docid d o <->
     exists u, reachable parse_outlinks s0 seed_urls u /\ Fetcher.url2docno u s0 = Some d).
Proof.
  intros Hh HJ He.
  assert (Hno : forall x, Fetcher.url2docno x (Fetcher_ o) = Fetcher.url2docno x s0)
    by (intros x; exact (explored_docno popped o x HJ)).
  destruct HJ as [E1 E2 A B C D]. rewrite He in A, D.
  assert (Hin : forall u d, Fetcher.url2docno u s0 = Some d -> seen_docid d o -> u ∈ popped).
  { intros u d Hud Hd. destruct (A d Hd) as (x & Hx & Hxd).
    rewrite app_nil_r in Hx. rewrite (docnos_distinct u x d Hud Hxd). exact Hx. }
  assert (Hreach : forall u, reachable parse_outlinks s0 seed_urls u -> u ∈ popped).
  { intros u Hu. induction Hu as [u Hu [d Hd]|u v Hu IH Hl].
    - apply (Hin u d Hd). exact (C u d Hu Hd).
    - pose proof Hl as (_ & _ & _ & _ & _ & [d Hd]).
      apply (Hin v d Hd). exact (B u v d IH Hl Hd). }
  split.
  - intros u. split; [|apply Hreach].
    intros Hu. apply D. rewrite app_nil_r. exact Hu.
  - intros d. split.
    + intros Hd. destruct (A d Hd) as (x & Hx & Hxd). exists x. split; [|exact Hxd].
      apply D. exact Hx.
    + intros (u & Hu & Hud). apply Hreach in Hu.
      destruct (entered_seen popped o Hh u) as (d' & Hd1 & Hd2).
      { apply elem_of_app. left. exact Hu. }
      rewrite Hno in Hd1. congruence.
Qed.

End Explore.

End CrawlGraphFacts.

Section CrawlReachProperties.
Import FrontierContents Crawl CrawlInvariant CrawlGraph.

(** X25: without a page limit a crawl visits exactly what can be reached
    from the seeds.  For an orchestrator of a supported frontier type and
    either seen-set, with [max_pages] not above 0, distinct seed URLs, a
    parser that reads every page, a [save_every_n_pages] other than 0,
    docnos below the capacity of the bitmap and no docno shared by two
    URLs: [crawl] returns with an empty frontier; the URLs it has popped,
    each once, are the seeds that have a docno and every URL with a docno
    that a chain of outlinks of downloaded pages leads to from one of
    them; and the docnos marked seen are the docnos of these URLs.  This
    holds for every frontier type, whatever the order in which it pops. *)
Theorem crawl_visits_reachable
    (get_score : option string -> option Q)
    (parse_outlinks : WebPage.t -> res (option (list string)))
    (frontier_type seen_urls_type : string) (updates : bool)
    (page_limit N : Z) (m1 : gmap string string) (m2 : gmap string Z)
    (seed_urls : list string) (o0 : Crawl.t) :
  Crawl.init frontier_type seen_urls_type updates page_limit N m1 m2 = Ok o0 ->
  N <> 0 ->
  page_limit <= 0 ->
  NoDup seed_urls ->
  (forall page, exists r, parse_outlinks page = Ok r) ->
  (seen_urls_type <> "set" ->
   map_Forall (fun _ d => 0 <= d < Z.of_nat (size m1) + 10) m2) ->
  NoDup (map snd (map_to_list m2)) ->
  exists popped o,
    crawl get_score parse_outlinks seed_urls o0 = Ok (popped, o) /\
    FrontierManager.enqueued (FrontierManager_ o) = 0 /\
    NoDup popped /\
    (forall u, u ∈ popped <->
       reachable parse_outlinks (Fetcher.init m1 m2) seed_urls u) /\
    (forall d, seen_docid d o <->
       exists u, reachable parse_outlinks (Fetcher.init m1 m2) seed_urls u /\
                 m2 !! u = Some d).
Proof.
  intros Hinit HN Hlimit Hnd Hparse Hrange Hinj.
  set (s0 := Fetcher.init m1 m2).
  assert (Hdistinct : forall u1 u2 d, Fetcher.url2docno u1 s0 = Some d ->
                                      Fetcher.url2docno u2 s0 = Some d -> u1 = u2)
    by (apply docnos_injective; exact Hinj).
  destruct (init_holds _ _ _ _ _ _ _ _ Hinit Hrange) as (Hh0 & He0 & F0 & M0 & N0).
  destruct (CrawlRunFacts.populate_frontier_holds get_score seed_urls o0 Hnd Hh0)
    as (o1 & Hpop & Hh1 & F1 & S1 & L1).
  { intros u _. rewrite He0. apply not_elem_of_nil. }
  assert (HN1 : save_every_n_pages o1 = N)
    by (destruct S1 as (_ & _ & _ & _ & E); congruence).
  assert (HM1 : Crawl.max_pages o1 = page_limit)
    by (destruct S1 as (_ & _ & _ & E & _); congruence).
  assert (HJ1 : explored parse_outlinks s0 seed_urls [] o1).
  { apply (CrawlGraphFacts.explored_seeds parse_outlinks s0 seed_urls o0 o1 F0 He0);
      [|exact F1|exact L1].
    intros d. exact (CrawlGraphFacts.init_unseen _ _ _ _ _ _ _ _ d Hinit). }
  destruct (CrawlRunFacts.crawl_loop_holds get_score parse_outlinks Hparse
              (explored parse_outlinks s0 seed_urls)
              (CrawlGraphFacts.explored_fetcher parse_outlinks s0 seed_urls)
              (CrawlGraphFacts.explored_failed parse_outlinks s0 seed_urls)
              (CrawlGraphFacts.explored_page get_score parse_outlinks Hparse s0 seed_urls
                 Hdistinct)
              (S (size (Fetcher.url2docnos (Fetcher_ o1)))) o1 [] Hh1 HJ1)
    as (popped & o2 & Hloop & Hh2 & HJ2 & S2 & _ & Hend); [congruence|].
  assert (HN2 : save_every_n_pages o2 = N)
    by (destruct S2 as (_ & _ & _ & _ & E); congruence).
  assert (HM2 : Crawl.max_pages o2 = page_limit)
    by (destruct S2 as (_ & _ & _ & E & _); congruence).
  simpl in Hh2, HJ2.
  assert (Hlen : FrontierManager.enqueued (FrontierManager_ o2)
                 = Z.of_nat (length (enqueued_urls (FrontierManager_ o2))))
    by (apply CrawlGraphFacts.enqueued_length; destruct Hh2; assumption).
  assert (Hempty : enqueued_urls (FrontierManager_ o2) = []).
  { destruct Hend as [Hend|Hend]; [lia| |lia].
    apply length_zero_iff_nil. lia. }
  destruct (CrawlGraphFacts.explored_all parse_outlinks s0 seed_urls Hdistinct
              popped o2 Hh2 HJ2 Hempty) as [R1 R2].
  unfold crawl. rewrite Hpop. cbn [mbind res_bind]. rewrite Hloop. cbn [mbind res_bind].
  unfold Fetcher.write_downloads_to_file. rewrite HN2.
  destruct (Z.eqb_spec N 0) as [?|_]; [contradiction|]. cbn [mbind res_bind].
  eexists _, _. split; [reflexivity|].
  cbn [with_fetcher FrontierManager_].
  split; [rewrite Hlen, Hempty; reflexivity|].
  split; [|split; [exact R1|exact R2]].
  destruct Hh2 as [_ _ _ Hnd2 _]. rewrite Hempty, app_nil_r in Hnd2. exact Hnd2.
Qed.

Lemma crawl_visits_reachable_witness :
  exists o0 popped o,
    Crawl.init "oracle-quality" "bitarray" true 0 2
      Examples.url2docids Examples.url2docnos = Ok o0 /\
    crawl CrawlExamples.score_of CrawlExamples.outlinks_of ["u1"] o0 = Ok (popped, o) /\
    (forall u, u ∈ popped <->
       reachable CrawlExamples.outlinks_of
         (Fetcher.init Examples.url2docids Examples.url2docnos) ["u1"] u).
Proof.
  destruct (crawl_visits_reachable CrawlExamples.score_of CrawlExamples.outlinks_of
              "oracle-quality" "bitarray" true 0 2
              Examples.url2docids Examples.url2docnos ["u1"] _ eq_refl)
    as (popped & o & H1 & _ & _ & H2 & _).
  - lia.
  - lia.
  - apply (bool_decide_unpack _). vm_compute. exact I.
  - intros page. eexists. reflexivity.
  - intros _. apply (bool_decide_unpack _). vm_compute. exact I.
  - apply (bool_decide_unpack _). vm_compute. exact I.
  - eexists _, popped, o. split; [reflexivity|]. split; [exact H1|exact H2].
Defined.

End CrawlReachProperties.
